(** * OpenAPI document generation of the Vault logical framework

    A shallow embedding of [logical/framework/openapi.go]: the pattern
    expander ([expandPattern]), the field classifier ([splitFields]), the
    type mapper ([convertType]) and the document assembler ([documentPath],
    [documentPaths]), together with the theorems that relate them to the
    written specification.

    Go strings are byte sequences and are modelled as [list ascii]. The
    regular expressions of the package and the functions of Go's [strings]
    and [regexp] packages work on bytes here; the patterns of this package
    only anchor on ASCII characters, so that matching bytes or UTF-8 runes
    gives the same spans. *)

From Stdlib Require Import Ascii String ZArith Lia Sorting.Sorted.
From stdpp Require Import base option list gmap strings fin_maps.

Local Open Scope Z_scope.
Local Open Scope nat_scope.

(** A Go [string]. *)
Abbreviation gostring := (list ascii).

(** A string literal, as bytes. *)
Definition lit (s : string) : gostring := list_ascii_of_string s.

(** ** Package [regexp]: a backtracking matcher

    Go's [regexp] returns, among the matches that start leftmost, the one a
    backtracking search finds first. [run] is that search, written with a
    continuation for what follows in the pattern. *)
Module Regexp.

(** The syntax the patterns of this package use. *)
Inductive re : Type :=
| Emp                               (* the empty pattern *)
| Lit (c : ascii)                   (* a literal byte, e.g. [\(] *)
| Class (p : ascii -> bool)         (* a character class, e.g. [\w], [[^)]], [.] *)
| EndText                           (* [$] without the multi-line flag *)
| Seq (r1 r2 : re)                  (* concatenation *)
| Alt (r1 r2 : re)                  (* ordered choice *)
| Star (greedy : bool) (r : re)     (* [r*], or [r*?] when not greedy *)
| Group (n : nat) (r : re).         (* the n-th capturing group *)

(** [r+] and [r?]. *)
Definition Plus (greedy : bool) (r : re) : re := Seq r (Star greedy r).
Definition Quest (greedy : bool) (r : re) : re :=
  if greedy then Alt r Emp else Alt Emp r.

(** The text captured by each group so far. *)
Definition caps := list (nat * gostring).

Fixpoint cap (n : nat) (c : caps) : gostring :=
  match c with
  | [] => []
  | (m, t) :: c' => if Nat.eqb n m then t else cap n c'
  end.

Definition orElse {A} (x y : option A) : option A :=
  match x with Some _ => x | None => y end.

(** [run r s c k] matches [r] at the start of [s] and hands the rest of the
    input to [k]; when [k] refuses, the next alternative is tried. A star
    iterates at most [length s] times, since an iteration that consumes
    nothing is not repeated. *)
Fixpoint run {A} (r : re) (s : gostring) (c : caps)
    (k : gostring -> caps -> option A) : option A :=
  match r with
  | Emp => k s c
  | Lit a =>
      match s with
      | x :: s' => if Ascii.eqb x a then k s' c else None
      | [] => None
      end
  | Class p =>
      match s with
      | x :: s' => if p x then k s' c else None
      | [] => None
      end
  | EndText => match s with [] => k s c | _ :: _ => None end
  | Seq r1 r2 => run r1 s c (fun s' c' => run r2 s' c' k)
  | Alt r1 r2 => orElse (run r1 s c k) (run r2 s c k)
  | Star greedy r1 =>
      (fix loop (n : nat) (s : gostring) (c : caps) {struct n} : option A :=
         match n with
         | O => k s c
         | S n' =>
             let more :=
               run r1 s c (fun s' c' =>
                 if length s' <? length s then loop n' s' c' else None) in
             if greedy then orElse more (k s c) else orElse (k s c) more
         end) (length s) s c
  | Group n r1 =>
      run r1 s c (fun s' c' =>
        k s' ((n, take (length s - length s') s) :: c'))
  end.

(** A match at the start of [s]: the text after the match and the groups. *)
Definition matchAt (r : re) (s : gostring) : option (gostring * caps) :=
  run r s [] (fun s' c => Some (s', c)).

(** One match: the text skipped before it, the matched text, the captures
    and the text after it. *)
Record found := Found {
  before : gostring;
  whole : gostring;
  groups : caps;
  after : gostring
}.

(** The leftmost match in [s]. *)
Fixpoint find (r : re) (s : gostring) : option found :=
  match matchAt r s with
  | Some (rest, c) => Some (Found [] (take (length s - length rest) s) c rest)
  | None =>
      match s with
      | [] => None
      | x :: s' =>
          match find r s' with
          | Some f => Some (Found (x :: before f) (whole f) (groups f) (after f))
          | None => None
          end
      end
  end.

(** [FindStringIndex]: the byte offsets of the leftmost match. *)
Definition FindStringIndex (r : re) (s : gostring) : option (nat * nat) :=
  match find r s with
  | Some f => Some (length (before f), length (before f) + length (whole f))
  | None => None
  end.

(** The successive matches of [r] in [s], each with the text that precedes
    it, and the text left after the last one. As in Go, an empty match that
    touches the preceding match is dropped, and the scan moves on by one
    character after an empty match. [pre] is text already skipped and [adj]
    tells that the preceding match ended right here. *)
Fixpoint allMatches (r : re) (fuel : nat) (pre s : gostring) (adj : bool)
    : list found * gostring :=
  match fuel with
  | O => ([], pre ++ s)
  | S fuel' =>
      match find r s with
      | None => ([], pre ++ s)
      | Some f =>
          match before f, whole f with
          | [], [] =>
              match s with
              | [] =>
                  if adj then ([], pre) else ([Found pre [] (groups f) []], [])
              | x :: s' =>
                  if adj then allMatches r fuel' (pre ++ [x]) s' false
                  else
                    let '(ms, tl) := allMatches r fuel' [x] s' false in
                    (Found pre [] (groups f) s :: ms, tl)
              end
          | _, _ =>
              let '(ms, tl) := allMatches r fuel' [] (after f) true in
              (Found (pre ++ before f) (whole f) (groups f) (after f) :: ms, tl)
          end
      end
  end.

Definition matches (r : re) (s : gostring) : list found * gostring :=
  allMatches r (S (length s)) [] s false.

(** [FindAllStringSubmatch(s, -1)] for a pattern with [ngroups] groups: per
    match the matched text followed by the text of each group. *)
Definition submatch (ngroups : nat) (f : found) : list gostring :=
  whole f :: map (fun i => cap i (groups f)) (seq 1 ngroups).

Definition FindAllStringSubmatch (r : re) (ngroups : nat) (s : gostring)
    : list (list gostring) :=
  map (submatch ngroups) (fst (matches r s)).

(** [ReplaceAllString] with a replacement that holds no [$] reference. *)
Definition ReplaceAllString (r : re) (s repl : gostring) : gostring :=
  let '(ms, tl) := matches r s in
  flat_map (fun f => before f ++ repl) ms ++ tl.

(** Character classes. *)
Definition isWord (a : ascii) : bool :=
  let n := nat_of_ascii a in
  ((48 <=? n) && (n <=? 57)) || ((65 <=? n) && (n <=? 90))
  || ((97 <=? n) && (n <=? 122)) || (n =? 95).

Definition isSpace (a : ascii) : bool :=
  let n := nat_of_ascii a in
  (n =? 9) || (n =? 10) || (n =? 12) || (n =? 13) || (n =? 32).

Definition anyChar (a : ascii) : bool := negb (nat_of_ascii a =? 10).

Definition noneOf (l : gostring) (a : ascii) : bool :=
  negb (existsb (Ascii.eqb a) l).

Definition oneOf (l : gostring) (a : ascii) : bool := existsb (Ascii.eqb a) l.

End Regexp.

(** ** Package [strings] *)
Module Strings.

Fixpoint HasPrefix (s prefix : gostring) : bool :=
  match prefix, s with
  | [], _ => true
  | p :: prefix', x :: s' => Ascii.eqb x p && HasPrefix s' prefix'
  | _ :: _, [] => false
  end.

Definition HasSuffix (s suffix : gostring) : bool :=
  (length suffix <=? length s) && HasPrefix (drop (length s - length suffix) s) suffix.

(** [s[lo:hi]]; the callers below keep [0 <= lo <= hi <= len(s)]. *)
Definition slice (s : gostring) (lo hi : Z) : gostring :=
  take (Z.to_nat (hi - lo)) (drop (Z.to_nat lo) s).

Fixpoint indexFrom (s sub : gostring) (i : nat) : option nat :=
  if HasPrefix s sub then Some i
  else match s with
       | [] => None
       | _ :: s' => indexFrom s' sub (S i)
       end.

(** [Index]: the offset of the first occurrence, or -1. *)
Definition Index (s sub : gostring) : Z :=
  match indexFrom s sub 0 with
  | Some i => Z.of_nat i
  | None => (-1)%Z
  end.

Fixpoint lastIndexFrom (s sub : gostring) (i : nat) : option nat :=
  match s with
  | [] => if HasPrefix [] sub then Some i else None
  | _ :: s' =>
      match lastIndexFrom s' sub (S i) with
      | Some j => Some j
      | None => if HasPrefix s sub then Some i else None
      end
  end.

(** [LastIndex]: the offset of the last occurrence, or -1. *)
Definition LastIndex (s sub : gostring) : Z :=
  match lastIndexFrom s sub 0 with
  | Some i => Z.of_nat i
  | None => (-1)%Z
  end.

(** The text before and after the first occurrence of [old] in [s]. *)
Fixpoint cut (s old : gostring) : option (gostring * gostring) :=
  if HasPrefix s old then Some ([], drop (length old) s)
  else match s with
       | [] => None
       | x :: s' =>
           match cut s' old with
           | Some (pre, post) => Some (x :: pre, post)
           | None => None
           end
       end.

Fixpoint replaceFirst (fuel : nat) (s old new : gostring) (n : Z) : gostring :=
  match fuel with
  | O => s
  | S fuel' =>
      if (n =? 0)%Z then s
      else match cut s old with
           | None => s
           | Some (pre, post) =>
               pre ++ new ++ replaceFirst fuel' post old new (n - 1)
           end
  end.

(** An empty [old] matches before every character and at the end. *)
Fixpoint sprinkle (s new : gostring) (n : Z) : gostring :=
  if (n =? 0)%Z then s
  else match s with
       | [] => []
       | x :: s' => x :: new ++ sprinkle s' new (n - 1)
       end.

(** [Replace(s, old, new, n)]: the first [n] occurrences of [old], from the
    left and without overlap, become [new]; all of them when [n < 0]. *)
Definition Replace (s old new : gostring) (n : Z) : gostring :=
  if bool_decide (old = new) || (n =? 0)%Z then s
  else match old with
       | [] => new ++ sprinkle s new (n - 1)
       | _ :: _ => replaceFirst (S (length s)) s old new n
       end.

(** [ToLower] on the ASCII letters. Go's function also lowers the letters
    outside ASCII; what is proved of the order of names is stated for ASCII
    names. *)
Definition lowerByte (a : ascii) : ascii :=
  let n := nat_of_ascii a in
  if (65 <=? n) && (n <=? 90) then ascii_of_nat (n + 32) else a.

Definition ToLower (s : gostring) : gostring := map lowerByte s.

(** The white space [TrimSpace] removes, among the ASCII characters. Go's
    function also trims the white space outside ASCII (U+0085, U+00A0 and
    others); what is proved of trimmed text is stated for ASCII text. *)
Definition isTrimSpace (a : ascii) : bool :=
  let n := nat_of_ascii a in
  ((9 <=? n) && (n <=? 13)) || (n =? 32).

Fixpoint trimLeft (s : gostring) : gostring :=
  match s with
  | x :: s' => if isTrimSpace x then trimLeft s' else s
  | [] => []
  end.

Definition TrimSpace (s : gostring) : gostring :=
  rev (trimLeft (rev (trimLeft s))).

(** The comparison [a < b] of two Go strings: byte by byte. *)
Fixpoint ltb (a b : gostring) : bool :=
  match a, b with
  | _, [] => false
  | [], _ :: _ => true
  | x :: a', y :: b' =>
      (nat_of_ascii x <? nat_of_ascii y)
      || ((nat_of_ascii x =? nat_of_ascii y) && ltb a' b')
  end.

End Strings.

(** ** The patterns of the package *)

Import Regexp.

Definition seqs (rs : list re) : re := foldr Seq Emp rs.

Definition ch (s : string) : ascii :=
  match s with String a _ => a | EmptyString => zero end.

(** [\(?\?P<(\w+)>[^)]*\)?]: a required parameter, e.g. [(?P<name>regex)]. *)
Definition reqdRe : re :=
  seqs [Quest true (Lit (ch "(")); Lit (ch "?"); Lit (ch "P"); Lit (ch "<");
        Group 1 (Plus true (Class isWord)); Lit (ch ">");
        Star true (Class (noneOf (lit ")"))); Quest true (Lit (ch ")"))].

(** [(?U)\(.*\)\?]: an optional path element, not greedy, e.g. the first
    part of [(leases/)?renew]. *)
Definition optRe : re :=
  seqs [Lit (ch "("); Star false (Class anyChar); Lit (ch ")"); Lit (ch "?")].

(** [\( (.* ) \| (.* ) \)] without the blanks: an alternation, e.g.
    [(raw/?$|raw/(?P<path>.+))]. *)
Definition altRe : re :=
  seqs [Lit (ch "("); Group 1 (Star true (Class anyChar)); Lit (ch "|");
        Group 2 (Star true (Class anyChar)); Lit (ch ")")].

(** [{(\w+)}]: an OpenAPI parameter, e.g. in [lookup/{urltoken}]. *)
Definition pathFieldsRe : re :=
  seqs [Lit (ch "{"); Group 1 (Plus true (Class isWord)); Lit (ch "}")].

(** [[()^$?]]: the characters stripped during cleaning. *)
Definition cleanCharsRe : re := Class (oneOf (lit "()^$?")).

(** [/\?\$?$]: the suffixes stripped during cleaning. *)
Definition cleanSuffixRe : re :=
  seqs [Lit (ch "/"); Lit (ch "?"); Quest true (Lit (ch "$")); EndText].

(** [\s+]: white space, compressed during cleaning. *)
Definition wsRe : re := Plus true (Class isSpace).

(** ** Pattern expansion *)

Import Strings.

(** Modelled from the spec: [GenericNameRegex] lives in another file of the
    package; it is the shared generic name fragment that [expandPattern]
    elides, whose text the comment in [expandPattern] spells out. *)
Definition GenericNameRegex (name : gostring) : gostring :=
  lit "(?P<" ++ name ++ lit ">\w(([\w-.]+)?\w)?)".

(** Up to [2 ^ n] steps of a loop whose body is [step]; the flag tells that
    the loop has left. *)
Fixpoint runPow {St} (step : St -> option St) (n : nat) (st : St) : St * bool :=
  match n with
  | O =>
      match step st with
      | Some st' => (st', false)
      | None => (st, true)
      end
  | S n' =>
      let '(st1, fin) := runPow step n' st in
      if fin then (st1, true) else runPow step n' st1
  end.

(** One turn of the loop over [paths] at index [i]; [None] when [i] has
    reached [len(paths)]. A match keeps [i] (the [i--] and the [i++]). *)
Definition optStep (st : list gostring * nat) : option (list gostring * nat) :=
  let '(paths, i) := st in
  match paths !! i with
  | None => None
  | Some p =>
      match FindStringIndex optRe p with
      | Some (m0, m1) =>
          let m0z := Z.of_nat m0 in
          let m1z := Z.of_nat m1 in
          let lenz := Z.of_nat (length p) in
          Some (<[i := slice p 0 m0z ++ slice p (m0z + 1) (m1z - 2)
                          ++ slice p m1z lenz]> paths
                  ++ [slice p 0 m0z ++ slice p m1z lenz], i)
      | None => Some (paths, S i)
      end
  end.

(** The loop is over after at most [2 ^ optBudget paths] turns: a turn either
    moves on, or trades a path for two that are three bytes shorter. *)
Definition optBudget (paths : list gostring) : nat :=
  S (foldr (fun p n => S (length p) + n) 0 paths).

Definition expandOptional (paths : list gostring) : list gostring :=
  fst (fst (runPow optStep (optBudget paths) (paths, 0))).

(** The named parameters of one path become [{name}], then the path is
    cleaned. *)
Definition replaceNamed (path : gostring) : gostring :=
  let result := FindAllStringSubmatch reqdRe 1 path in
  fold_left
    (fun path p =>
       let par := nth 1 p [] in
       Replace path (nth 0 p []) (lit "{" ++ par ++ lit "}") 1)
    result path.

Definition cleanPath (path : gostring) : gostring :=
  let path := ReplaceAllString cleanSuffixRe path [] in
  ReplaceAllString cleanCharsRe path [].

(** The text [expandPattern] removes from the pattern. *)
Definition regexToRemove : gostring :=
  let base := GenericNameRegex [] in
  let start := Index base (lit ">") in
  let end_ := LastIndex base (lit ")") in
  if negb (start =? -1)%Z && negb (end_ =? -1)%Z && (start <? end_)%Z
  then slice base (start + 1) end_
  else [].

(** The paths the loops start from: the halves of the first alternation, or
    the pattern itself. *)
Definition seedPaths (pattern : gostring) : list gostring :=
  let matches := FindAllStringSubmatch altRe 2 pattern in
  match matches with
  | m :: _ => [nth 1 m []; nth 2 m []]
  | [] => [pattern]
  end.

Definition expandPattern (pattern : gostring) : list gostring :=
  let pattern := Replace pattern regexToRemove [] (-1) in
  let paths := seedPaths pattern in
  let paths := expandOptional paths in
  map (fun path => cleanPath (replaceNamed path)) paths.

(** The candidate paths of a pattern: what [expandPattern] holds in [paths]
    when the loop over the optional elements is left. *)
Definition candidates (pattern : gostring) : list gostring :=
  expandOptional (seedPaths (Replace pattern regexToRemove [] (-1))).

(** Every match of [reqdRe] in [path], replaced where it stands by the name
    of its group in braces. *)
Definition rewriteCaptures (path : gostring) : gostring :=
  let '(ms, tl) := matches reqdRe path in
  flat_map (fun f => before f ++ lit "{" ++ cap 1 (groups f) ++ lit "}") ms ++ tl.

(** ** The matcher on the patterns of the package, without backtracking *)

(** A greedy star over a character class, as a recursion on the input. *)
Fixpoint starClass {A} (p : ascii -> bool) (k : gostring -> caps -> option A)
    (s : gostring) (c : caps) : option A :=
  match s with
  | x :: s' => if p x then orElse (starClass p k s' c) (k s c) else k s c
  | [] => k s c
  end.

(** The longest run of characters of a class at the start of [s], and what
    follows it. *)
Fixpoint takeClass (p : ascii -> bool) (s : gostring) : gostring :=
  match s with
  | x :: s' => if p x then x :: takeClass p s' else []
  | [] => []
  end.

Fixpoint skipClass (p : ascii -> bool) (s : gostring) : gostring :=
  match s with
  | x :: s' => if p x then skipClass p s' else s
  | [] => []
  end.

(** [reqdRe] at the start of [s], after the optional parenthesis: the name
    and the text after the match. *)
Definition reqdBody (s : gostring) : option (gostring * gostring) :=
  match s with
  | q :: P :: lt :: s1 =>
      if Ascii.eqb q (ch "?") && Ascii.eqb P (ch "P") && Ascii.eqb lt (ch "<")
      then
        match takeClass isWord s1, skipClass isWord s1 with
        | _ :: _, gt :: s3 =>
            if Ascii.eqb gt (ch ">")
            then
              let s4 := skipClass (noneOf (lit ")")) s3 in
              Some (takeClass isWord s1,
                    match s4 with
                    | x :: s5 => if Ascii.eqb x (ch ")") then s5 else s4
                    | [] => s4
                    end)
            else None
        | _, _ => None
        end
      else None
  | _ => None
  end.

(** [reqdRe] at the start of [s]. *)
Definition reqdAt (s : gostring) : option (gostring * gostring) :=
  match s with
  | x :: s' =>
      if Ascii.eqb x (ch "(") then orElse (reqdBody s') (reqdBody s)
      else reqdBody s
  | [] => None
  end.

(** No match of [r] starts inside [a] when [z] follows. *)
Definition quiet (r : re) (a z : gostring) : Prop :=
  forall a1 a2, a = a1 ++ a2 -> a2 <> [] -> matchAt r (a2 ++ z) = None.

(** The text that makes a match of [reqdRe]: the opening, a name and the
    closing angle. *)
Definition keyText (name : gostring) : gostring :=
  ch "?" :: ch "P" :: ch "<" :: name ++ [ch ">"].

(** A name in braces. *)
Definition braces (name : gostring) : gostring := lit "{" ++ name ++ lit "}".

(** The body of the loop in [replaceNamed]. *)
Definition replaceStep (path : gostring) (p : list gostring) : gostring :=
  Replace path (nth 0 p []) (lit "{" ++ nth 1 p [] ++ lit "}") 1.

(** [s'] is [s] without some of its characters, all of them in the class
    [q]. *)
Inductive Deleted (q : ascii -> bool) : gostring -> gostring -> Prop :=
| Deleted_nil : Deleted q [] []
| Deleted_keep x s s' : Deleted q s s' -> Deleted q (x :: s) (x :: s')
| Deleted_drop x s s' : q x = true -> Deleted q s s' -> Deleted q (x :: s) s'.

(** The characters that the cleaning may remove. *)
Definition suffixChar (a : ascii) : bool := oneOf (lit "/?$") a.
Definition cleanChar (a : ascii) : bool := oneOf (lit "/?$()^") a.

(** The least number of characters that a match of [r] takes. *)
Fixpoint minLen (r : re) : nat :=
  match r with
  | Emp | EndText | Star _ _ => 0
  | Lit _ | Class _ => 1
  | Seq r1 r2 => minLen r1 + minLen r2
  | Alt r1 r2 => Nat.min (minLen r1) (minLen r2)
  | Group _ r1 => minLen r1
  end.

(** The weight of the paths that the loop over the optional elements has
    yet to visit. *)
Definition optWeight (st : list gostring * nat) : nat :=
  foldr (fun p n => 2 ^ S (length p) + n) 0 (drop st.2 st.1).

(** The paths before the index hold no optional element any more. *)
Definition optSettled (st : list gostring * nat) : Prop :=
  forall j p, j < st.2 -> st.1 !! j = Some p -> FindStringIndex optRe p = None.

(** ** The data model *)

(** [sort.Slice] on a short slice is an insertion sort: every element in
    turn moves to the left for as long as it is less than its left neighbour,
    so that elements that compare equal keep the order in which they came.
    [insertBy] takes the sorted part from its right end. Go runs this loop on
    every slice of up to 6 elements (up to 12 from Go 1.19 on); on a longer
    slice its result is the same whenever no two elements compare equal. *)
Fixpoint insertBy {A} (less : A -> A -> bool) (x : A) (sorted : list A) : list A :=
  match sorted with
  | [] => [x]
  | y :: l' => if less x y then y :: insertBy less x l' else x :: sorted
  end.

Definition sortSlice {A} (less : A -> A -> bool) (l : list A) : list A :=
  reverse (fold_left (fun sorted x => insertBy less x sorted) l []).

(** The outcome of a Go call that may return an error or panic. *)
Inductive result (E A : Type) : Type :=
| Ok (a : A)
| Fail (e : E)
| Panic.
Arguments Ok {E A} a.
Arguments Fail {E A} e.
Arguments Panic {E A}.

#[global] Instance result_bind {E} : MBind (result E) :=
  fun A B k m =>
    match m with
    | Ok a => k a
    | Fail e => Fail e
    | Panic => Panic
    end.

(** A [for ... range] loop over [l] whose body updates [st] and may leave
    the function. *)
Fixpoint forRange {E A St} (l : list A) (body : St -> A -> result E St) (st : St)
    : result E St :=
  match l with
  | [] => Ok st
  | x :: l' => st' ← body st x; forRange l' body st'
  end.

(** Modelled from the spec: the field types of the package, declared in
    another file; a value that none of the names covers maps like
    [TypeInvalid]. *)
Inductive FieldType : Type :=
| TypeInvalid | TypeString | TypeInt | TypeBool | TypeMap
| TypeDurationSecond | TypeSlice | TypeStringSlice | TypeCommaStringSlice
| TypeLowerCaseString | TypeNameString | TypeKVPairs | TypeCommaIntSlice
| TypeHeader.

#[global] Instance FieldType_eq_dec : EqDecision FieldType.
Proof. solve_decision. Defined.

(** Modelled from the spec: the part of a field definition that the
    generator reads. *)
Record FieldSchema := {
  fsType : FieldType;
  fsDescription : gostring;
  fsDeprecated : bool
}.

(** Modelled from the spec: the verbs of package [logical]; [Operation] is a
    string type there. *)
Abbreviation Operation := gostring (only parsing).
Definition CreateOperation : Operation := lit "create".
Definition ReadOperation : Operation := lit "read".
Definition UpdateOperation : Operation := lit "update".
Definition DeleteOperation : Operation := lit "delete".
Definition ListOperation : Operation := lit "list".

(** Modelled from the spec: the backend kinds of package [logical]. *)
Inductive BackendType : Type := TypeUnknown | TypeLogical | TypeCredential.

(** Modelled from the spec: the special paths of a backend. *)
Record Paths := {
  Root : list gostring;
  Unauthenticated : list gostring
}.

(** [schemaType]. *)
Record schemaType := {
  baseType : gostring;
  items : gostring;
  format : gostring
}.

(** [convertType]; the warning of the default case is not modelled. *)
Definition convertType (t : FieldType) : schemaType :=
  match t with
  | TypeString | TypeNameString | TypeHeader =>
      {| baseType := lit "string"; items := []; format := [] |}
  | TypeLowerCaseString =>
      {| baseType := lit "string"; items := []; format := lit "lowercase" |}
  | TypeInt => {| baseType := lit "number"; items := []; format := [] |}
  | TypeDurationSecond =>
      {| baseType := lit "number"; items := []; format := lit "seconds" |}
  | TypeBool => {| baseType := lit "boolean"; items := []; format := [] |}
  | TypeMap => {| baseType := lit "object"; items := []; format := lit "map" |}
  | TypeKVPairs =>
      {| baseType := lit "object"; items := []; format := lit "kvpairs" |}
  | TypeSlice =>
      {| baseType := lit "array"; items := lit "object"; format := [] |}
  | TypeStringSlice | TypeCommaStringSlice =>
      {| baseType := lit "array"; items := lit "string"; format := [] |}
  | TypeCommaIntSlice =>
      {| baseType := lit "array"; items := lit "number"; format := [] |}
  | TypeInvalid => {| baseType := []; items := []; format := lit "unknown" |}
  end.

(** [cleanString]. *)
Definition cleanString (s : gostring) : gostring :=
  let s := TrimSpace s in
  ReplaceAllString wsRe s (lit " ").

(** [specialPathMatch]: an exact match, or a prefix match of an entry that
    ends with a star. *)
Fixpoint specialPathMatch (path : gostring) (specialPaths : list gostring) : bool :=
  match specialPaths with
  | [] => false
  | sp :: rest =>
      if bool_decide (sp = path)
         || (HasSuffix sp (lit "*")
             && HasPrefix path (slice sp 0 (Z.of_nat (length sp) - 1)))
      then true
      else specialPathMatch path rest
  end.

Set Warnings "-register-all".

Section Generator.

(** Types of the packages [logical], [wrapping] and [framework] that the
    generator only passes along: example data ([map[string]interface{}]),
    secrets, auth blocks, wrap information, logical responses, legacy
    callbacks, and Go's [error]. *)
Variables (DataMap LSecret LAuth WrapInfo LResponse OperationFunc error : Type).

(** [cleanedResponse]. *)
Record cleanedResponse := {
  crSecret : option LSecret;
  crAuth : option LAuth;
  crData : DataMap;
  crRedirect : gostring;
  crWarnings : list gostring;
  crWrapInfo : option WrapInfo
}.

(** [mapstructure.Decode(resp, &r)] into a zero [r]: the decoded value, or
    the error of the structural copy. *)
Variable Decode : LResponse -> cleanedResponse + error.

(** [cleanResponse]. *)
Definition cleanResponse (resp : LResponse) : result error cleanedResponse :=
  match Decode resp with
  | inl r => Ok r
  | inr err => Fail err
  end.

(** What an [Example interface{}] of a schema holds. *)
Inductive exampleValue : Type :=
| ExampleData (d : DataMap)
| ExampleResponse (r : cleanedResponse).

(** [oasSchema]; a nil pointer is [None], a nil map is the empty map. *)
Inductive oasSchema : Type := OasSchema {
  sType : gostring;
  sDescription : gostring;
  sProperties : gmap gostring oasSchema;
  sItems : option oasSchema;
  sFormat : gostring;
  sExample : option exampleValue;
  sDeprecated : bool
}.

Definition emptySchema : oasSchema :=
  OasSchema [] [] ∅ None [] None false.

(** [oasMediaTypeObject] and [oasContent]. *)
Record oasMediaTypeObject := { mtSchema : option oasSchema }.

Record oasResponse := {
  rDescription : gostring;
  rContent : gmap gostring oasMediaTypeObject
}.

Record oasRequestBody := {
  rbDescription : gostring;
  rbContent : gmap gostring oasMediaTypeObject
}.

Record oasParameter := {
  pName : gostring;
  pDescription : gostring;
  pIn : gostring;
  pSchema : option oasSchema;
  pRequired : bool;
  pDeprecated : bool
}.

Record OASOperation := {
  opSummary : gostring;
  opDescription : gostring;
  opTags : list gostring;
  opParameters : list oasParameter;
  opRequestBody : option oasRequestBody;
  opResponses : gmap gostring oasResponse;
  opDeprecated : bool
}.

Record oasPathItem := {
  piDescription : gostring;
  piParameters : list oasParameter;
  piSudo : bool;
  piUnauthenticated : bool;
  piCreateSupported : bool;
  piGet : option OASOperation;
  piPost : option OASOperation;
  piDelete : option OASOperation
}.

Record oasLicense := { lName : gostring; lURL : gostring }.

Record oasInfo := {
  iTitle : gostring;
  iDescription : gostring;
  iVersion : gostring;
  iLicense : oasLicense
}.

Record OASDocument := {
  dVersion : gostring;
  dInfo : oasInfo;
  dPaths : gmap gostring oasPathItem
}.

Definition oasStdRespOK : oasResponse :=
  {| rDescription := lit "OK"; rContent := ∅ |}.

Definition oasStdRespNoContent : oasResponse :=
  {| rDescription := lit "empty body"; rContent := ∅ |}.

(** Modelled from the spec: what a handler declares, [OperationProperties]
    with its [RequestExample] and [Response], declared in another file. *)
Record RequestExample := {
  reDescription : gostring;
  reData : DataMap;
  reResponse : option LResponse
}.

Record Response := {
  respDescription : gostring;
  respMediaType : gostring;
  respExample : option LResponse
}.

Record OperationProperties := {
  propSummary : gostring;
  propDescription : gostring;
  propExamples : list RequestExample;
  propResponses : gmap gostring (list Response);
  propUnpublished : bool;
  propDeprecated : bool
}.

(** The interface [OperationHandler], of which the generator calls
    [Properties], and the handler [&PathOperation{Callback: cb, Summary: s}]
    built for a legacy callback. *)
Variable OperationHandler : Type.
Variable Properties : OperationHandler -> OperationProperties.
Variable PathOperation : OperationFunc -> gostring -> OperationHandler.

(** Modelled from the spec: the part of a route definition ([Path]) that the
    generator reads. [Operations] is [None] for a nil map, and a field may
    be a nil pointer. *)
Record Path := {
  Pattern : gostring;
  Fields : gmap gostring (option FieldSchema);
  Operations : option (gmap Operation OperationHandler);
  Callbacks : gmap Operation OperationFunc;
  HelpSynopsis : gostring
}.

(** The order in which a [range] over a Go map visits its entries is left
    open by the language: a scheduler fixes one for each kind of map. *)
Record Scheduler := {
  rangeFields :
    gmap gostring (option FieldSchema) -> list (gostring * option FieldSchema);
  rangeFields_perm : forall m, rangeFields m ≡ₚ map_to_list m;
  rangeOps :
    gmap Operation OperationHandler -> list (Operation * OperationHandler);
  rangeOps_perm : forall m, rangeOps m ≡ₚ map_to_list m;
  rangeResponses :
    gmap gostring (list Response) -> list (gostring * list Response);
  rangeResponses_perm : forall m, rangeResponses m ≡ₚ map_to_list m
}.

Variable sched : Scheduler.

(** [splitFields]. The first loop records every [{name}] of the pattern,
    with the nil pointer when the route declares no such field; the second
    loop reads [field.Type], which panics on a nil pointer. *)
Definition splitFields (allFields : gmap gostring (option FieldSchema))
    (pattern : gostring)
    : result error (gmap gostring (option FieldSchema)
                    * gmap gostring (option FieldSchema)) :=
  let pathFields :=
    foldl (fun pf m =>
             let name := nth 1 m [] in
             <[name := default None (allFields !! name)]> pf)
          ∅ (FindAllStringSubmatch pathFieldsRe 1 pattern) in
  forRange (rangeFields sched allFields)
    (fun '(pf, bf) '(name, field) =>
       match pf !! name with
       | Some _ => Ok (pf, bf)
       | None =>
           match field with
           | None => Panic
           | Some f =>
               if bool_decide (fsType f = TypeHeader)
               then Ok (<[name := field]> pf, bf)
               else Ok (pf, <[name := field]> bf)
           end
       end)
    (pathFields, ∅).

(** A schema of which only the type is set. *)
Definition typeSchema (t : gostring) : oasSchema :=
  OasSchema t [] ∅ None [] None false.

(** The body of the loop over [pathFields] in [documentPath]: reading
    [field.Type] panics when [field] is nil. *)
Definition parameterFor (name : gostring) (field : option FieldSchema)
    : result error oasParameter :=
  match field with
  | None => Panic
  | Some field =>
      let header := bool_decide (fsType field = TypeHeader) in
      let location := if header then lit "header" else lit "path" in
      let required := if header then false else true in
      let t := convertType (fsType field) in
      Ok {| pName := name;
            pDescription := cleanString (fsDescription field);
            pIn := location;
            pSchema := Some (typeSchema (baseType t));
            pRequired := required;
            pDeprecated := fsDeprecated field |}
  end.

(** The comparison handed to [sort.Slice]. *)
Definition parameterLess (a b : oasParameter) : bool :=
  ltb (ToLower (pName a)) (ToLower (pName b)).

(** The schema of one body field. *)
Definition propertySchema (field : FieldSchema) : oasSchema :=
  let openapiField := convertType (fsType field) in
  OasSchema (baseType openapiField) (cleanString (fsDescription field)) ∅
    (if bool_decide (baseType openapiField = lit "array")
     then Some (typeSchema (items openapiField))
     else None)
    (format openapiField) None (fsDeprecated field).

(** The request body of a create or update operation. An example taken from
    [props.Examples] is a non-nil interface value even when its map is nil. *)
Definition requestBodyFor (bodyFields : gmap gostring (option FieldSchema))
    (props : OperationProperties) : result error (option oasRequestBody) :=
  properties ←
    forRange (rangeFields sched bodyFields)
      (fun (ps : gmap gostring oasSchema) '(name, field) =>
         match field with
         | None => Panic
         | Some f => Ok (<[name := propertySchema f]> ps)
         end) ∅;
  let example :=
    match propExamples props with
    | ex :: _ => Some (ExampleData (reData ex))
    | [] => None
    end in
  let s := OasSchema (lit "object") [] properties None [] example false in
  if (0 <? size properties) || bool_decide (is_Some example)
  then Ok (Some {| rbDescription := [];
                   rbContent :=
                     {[ lit "application/json" := {| mtSchema := Some s |} ]} |})
  else Ok None.

(** The responses declared for one status code: the description of the first
    one, and per media type the first example, sanitized. *)
Definition responseGroup (responses : list Response)
    : result error (gostring * gmap gostring oasMediaTypeObject) :=
  forRange (imap (fun i resp => (i, resp)) responses)
    (fun '(description, content) '(i, resp) =>
       let description :=
         if i =? 0 then respDescription resp else description in
       match respExample resp with
       | None => Ok (description, content)
       | Some example =>
           let mediaType :=
             if bool_decide (respMediaType resp = [])
             then lit "application/json"
             else respMediaType resp in
           cr ← cleanResponse example;
           match content !! mediaType with
           | Some _ => Ok (description, content)
           | None =>
               Ok (description,
                   <[mediaType :=
                       {| mtSchema :=
                            Some (OasSchema [] [] ∅ None []
                                    (Some (ExampleResponse cr)) false) |}]>
                     content)
           end
       end)
    ([], ∅).

(** The operation object of one handler that is documented. *)
Definition buildOperation (operations : gmap Operation OperationHandler)
    (bodyFields : gmap gostring (option FieldSchema))
    (backendType : BackendType) (opType : Operation)
    (props : OperationProperties) : result error OASOperation :=
  requestBody ←
    (if bool_decide (opType = CreateOperation)
        || bool_decide (opType = UpdateOperation)
     then requestBodyFor bodyFields props
     else Ok None);
  let parameters :=
    if bool_decide (opType = ListOperation)
       || (bool_decide (opType = ReadOperation)
           && bool_decide (is_Some (operations !! ListOperation)))
    then [ {| pName := lit "list";
              pDescription := lit "Return a list if `true`";
              pIn := lit "query";
              pSchema := Some (typeSchema (lit "string"));
              pRequired := false;
              pDeprecated := false |} ]
    else [] in
  let tags :=
    match backendType with
    | TypeLogical => [lit "secrets"]
    | TypeCredential => [lit "auth"]
    | TypeUnknown => []
    end in
  let defaults : gmap gostring oasResponse :=
    if size (propResponses props) =? 0 then
      if bool_decide (opType = DeleteOperation)
      then {[ lit "204" := oasStdRespNoContent ]}
      else {[ lit "200" := oasStdRespOK ]}
    else ∅ in
  responses ←
    forRange (rangeResponses sched (propResponses props))
      (fun (rs : gmap gostring oasResponse) '(code, responses) =>
         '(description, content) ← responseGroup responses;
         Ok (<[code := {| rDescription := description;
                          rContent := content |}]> rs))
      defaults;
  Ok {| opSummary := propSummary props;
        opDescription := propDescription props;
        opTags := tags;
        opParameters := parameters;
        opRequestBody := requestBody;
        opResponses := responses;
        opDeprecated := propDeprecated props |}.

Definition setCreateSupported (pi : oasPathItem) : oasPathItem :=
  {| piDescription := piDescription pi; piParameters := piParameters pi;
     piSudo := piSudo pi; piUnauthenticated := piUnauthenticated pi;
     piCreateSupported := true;
     piGet := piGet pi; piPost := piPost pi; piDelete := piDelete pi |}.

(** The [switch opType] that closes the loop body. *)
Definition assignOperation (pi : oasPathItem) (opType : Operation)
    (op : OASOperation) : oasPathItem :=
  let post := bool_decide (opType = CreateOperation)
              || bool_decide (opType = UpdateOperation) in
  let get := bool_decide (opType = ReadOperation)
             || bool_decide (opType = ListOperation) in
  let del := bool_decide (opType = DeleteOperation) in
  {| piDescription := piDescription pi; piParameters := piParameters pi;
     piSudo := piSudo pi; piUnauthenticated := piUnauthenticated pi;
     piCreateSupported := piCreateSupported pi;
     piGet := if get then Some op else piGet pi;
     piPost := if post then Some op else piPost pi;
     piDelete := if del then Some op else piDelete pi |}.

(** The body of the loop over [operations] in [documentPath]. *)
Definition operationStep (operations : gmap Operation OperationHandler)
    (bodyFields : gmap gostring (option FieldSchema))
    (backendType : BackendType) (pi : oasPathItem)
    (entry : Operation * OperationHandler) : result error oasPathItem :=
  let '(opType, opHandler) := entry in
  let props := Properties opHandler in
  if propUnpublished props then Ok pi
  else
    let pi :=
      if bool_decide (opType = CreateOperation)
      then setCreateSupported pi else pi in
    if bool_decide (opType = CreateOperation)
       && bool_decide (is_Some (operations !! UpdateOperation))
    then Ok pi
    else if bool_decide (opType = ListOperation)
            && bool_decide (is_Some (operations !! ReadOperation))
    then Ok pi
    else
      op ← buildOperation operations bodyFields backendType opType props;
      Ok (assignOperation pi opType op).

(** The verb handlers of a route: the [Operations] map, or one built from
    the legacy [Callbacks]. *)
Definition resolveOperations (p : Path) : gmap Operation OperationHandler :=
  match Operations p with
  | Some operations => operations
  | None => (fun cb => PathOperation cb (HelpSynopsis p)) <$> Callbacks p
  end.

(** The loop over [pathFields] in [documentPath]. *)
Definition pathParameters (pathFields : gmap gostring (option FieldSchema))
    : result error (list oasParameter) :=
  forRange (rangeFields sched pathFields)
    (fun ps '(name, field) =>
       param ← parameterFor name field;
       Ok (ps ++ [param])) [].

(** The path item as it stands when the loop over the handlers starts. *)
Definition startItem (p : Path) (sudoPaths unauthPaths : list gostring)
    (path : gostring) (parameters : list oasParameter) : oasPathItem :=
  {| piDescription := cleanString (HelpSynopsis p);
     piParameters := sortSlice parameterLess parameters;
     piSudo := specialPathMatch path sudoPaths;
     piUnauthenticated := specialPathMatch path unauthPaths;
     piCreateSupported := false;
     piGet := None; piPost := None; piDelete := None |}.

(** The body of the loop over [paths] in [documentPath], up to the store
    into the document. *)
Definition pathItemFor (p : Path) (sudoPaths unauthPaths : list gostring)
    (backendType : BackendType) (path : gostring) : result error oasPathItem :=
  let operations := resolveOperations p in
  '(pathFields, bodyFields) ← splitFields (Fields p) path;
  parameters ← pathParameters pathFields;
  forRange (rangeOps sched operations)
    (operationStep operations bodyFields backendType)
    (startItem p sudoPaths unauthPaths path parameters).

Definition setPath (doc : OASDocument) (key : gostring) (pi : oasPathItem)
    : OASDocument :=
  {| dVersion := dVersion doc; dInfo := dInfo doc;
     dPaths := <[key := pi]> (dPaths doc) |}.

Fixpoint pathsLoop (p : Path) (sudoPaths unauthPaths : list gostring)
    (backendType : BackendType) (paths : list gostring) (doc : OASDocument)
    : result error () * OASDocument :=
  match paths with
  | [] => (Ok (), doc)
  | path :: rest =>
      match pathItemFor p sudoPaths unauthPaths backendType path with
      | Ok pi =>
          pathsLoop p sudoPaths unauthPaths backendType rest
            (setPath doc (lit "/" ++ path) pi)
      | Fail err => (Fail err, doc)
      | Panic => (Panic, doc)
      end
  end.

(** [documentPath]: the error it returns ([Ok ()] for nil) and the document
    as the call leaves it. *)
Definition documentPath (p : Path) (specialPaths : option Paths)
    (backendType : BackendType) (doc : OASDocument)
    : result error () * OASDocument :=
  let sudoPaths :=
    match specialPaths with Some sp => Root sp | None => [] end in
  let unauthPaths :=
    match specialPaths with Some sp => Unauthenticated sp | None => [] end in
  let paths := expandPattern (Pattern p) in
  pathsLoop p sudoPaths unauthPaths backendType paths doc.

(** Modelled from the spec: the part of a [Backend] that [documentPaths]
    reads. *)
Record Backend := {
  bPaths : list Path;
  bSpecialPaths : option Paths;
  bBackendType : BackendType
}.

Fixpoint routesLoop (routes : list Path) (specialPaths : option Paths)
    (backendType : BackendType) (doc : OASDocument)
    : result error () * OASDocument :=
  match routes with
  | [] => (Ok (), doc)
  | p :: rest =>
      match documentPath p specialPaths backendType doc with
      | (Ok _, doc') => routesLoop rest specialPaths backendType doc'
      | (Fail err, doc') => (Fail err, doc')
      | (Panic, doc') => (Panic, doc')
      end
  end.

(** [documentPaths]. *)
Definition documentPaths (backend : Backend) (doc : OASDocument)
    : result error () * OASDocument :=
  routesLoop (bPaths backend) (bSpecialPaths backend) (bBackendType backend) doc.

End Generator.

Arguments crSecret {DataMap LSecret LAuth WrapInfo} c.
Arguments crAuth {DataMap LSecret LAuth WrapInfo} c.
Arguments crData {DataMap LSecret LAuth WrapInfo} c.
Arguments crRedirect {DataMap LSecret LAuth WrapInfo} c.
Arguments crWarnings {DataMap LSecret LAuth WrapInfo} c.
Arguments crWrapInfo {DataMap LSecret LAuth WrapInfo} c.
Arguments sType {DataMap LSecret LAuth WrapInfo} o.
Arguments sDescription {DataMap LSecret LAuth WrapInfo} o.
Arguments sProperties {DataMap LSecret LAuth WrapInfo} o.
Arguments sItems {DataMap LSecret LAuth WrapInfo} o.
Arguments sFormat {DataMap LSecret LAuth WrapInfo} o.
Arguments sExample {DataMap LSecret LAuth WrapInfo} o.
Arguments sDeprecated {DataMap LSecret LAuth WrapInfo} o.
Arguments mtSchema {DataMap LSecret LAuth WrapInfo} o.
Arguments rDescription {DataMap LSecret LAuth WrapInfo} o.
Arguments rContent {DataMap LSecret LAuth WrapInfo} o.
Arguments rbDescription {DataMap LSecret LAuth WrapInfo} o.
Arguments rbContent {DataMap LSecret LAuth WrapInfo} o.
Arguments pName {DataMap LSecret LAuth WrapInfo} o.
Arguments pDescription {DataMap LSecret LAuth WrapInfo} o.
Arguments pIn {DataMap LSecret LAuth WrapInfo} o.
Arguments pSchema {DataMap LSecret LAuth WrapInfo} o.
Arguments pRequired {DataMap LSecret LAuth WrapInfo} o.
Arguments pDeprecated {DataMap LSecret LAuth WrapInfo} o.
Arguments opSummary {DataMap LSecret LAuth WrapInfo} o.
Arguments opDescription {DataMap LSecret LAuth WrapInfo} o.
Arguments opTags {DataMap LSecret LAuth WrapInfo} o.
Arguments opParameters {DataMap LSecret LAuth WrapInfo} o.
Arguments opRequestBody {DataMap LSecret LAuth WrapInfo} o.
Arguments opResponses {DataMap LSecret LAuth WrapInfo} o.
Arguments opDeprecated {DataMap LSecret LAuth WrapInfo} o.
Arguments piDescription {DataMap LSecret LAuth WrapInfo} o.
Arguments piParameters {DataMap LSecret LAuth WrapInfo} o.
Arguments piSudo {DataMap LSecret LAuth WrapInfo} o.
Arguments piUnauthenticated {DataMap LSecret LAuth WrapInfo} o.
Arguments piCreateSupported {DataMap LSecret LAuth WrapInfo} o.
Arguments piGet {DataMap LSecret LAuth WrapInfo} o.
Arguments piPost {DataMap LSecret LAuth WrapInfo} o.
Arguments piDelete {DataMap LSecret LAuth WrapInfo} o.
Arguments dVersion {DataMap LSecret LAuth WrapInfo} o.
Arguments dInfo {DataMap LSecret LAuth WrapInfo} o.
Arguments dPaths {DataMap LSecret LAuth WrapInfo} o.
Arguments reDescription {DataMap LResponse} r.
Arguments reData {DataMap LResponse} r.
Arguments reResponse {DataMap LResponse} r.
Arguments respDescription {LResponse} r.
Arguments respMediaType {LResponse} r.
Arguments respExample {LResponse} r.
Arguments propSummary {DataMap LResponse} o.
Arguments propDescription {DataMap LResponse} o.
Arguments propExamples {DataMap LResponse} o.
Arguments propResponses {DataMap LResponse} o.
Arguments propUnpublished {DataMap LResponse} o.
Arguments propDeprecated {DataMap LResponse} o.
Arguments Pattern {OperationFunc OperationHandler} p.
Arguments Fields {OperationFunc OperationHandler} p.
Arguments Operations {OperationFunc OperationHandler} p.
Arguments Callbacks {OperationFunc OperationHandler} p.
Arguments HelpSynopsis {OperationFunc OperationHandler} p.
Arguments bPaths {OperationFunc OperationHandler} b.
Arguments bSpecialPaths {OperationFunc OperationHandler} b.
Arguments bBackendType {OperationFunc OperationHandler} b.
Arguments cleanResponse {DataMap LSecret LAuth WrapInfo LResponse error} Decode resp.
Arguments Scheduler LResponse OperationHandler : clear implicits.
Arguments rangeFields {LResponse OperationHandler} s m.
Arguments rangeOps {LResponse OperationHandler} s m.
Arguments rangeResponses {LResponse OperationHandler} s m.
Arguments rangeFields_perm {LResponse OperationHandler} s m.
Arguments rangeOps_perm {LResponse OperationHandler} s m.
Arguments rangeResponses_perm {LResponse OperationHandler} s m.
Arguments splitFields {LResponse} error {OperationHandler} sched allFields pattern.
Arguments parameterFor {DataMap LSecret LAuth WrapInfo} error name field.
Arguments parameterLess {DataMap LSecret LAuth WrapInfo} a b.
Arguments propertySchema {DataMap LSecret LAuth WrapInfo} field.
Arguments typeSchema {DataMap LSecret LAuth WrapInfo} t.
Arguments requestBodyFor {DataMap LSecret LAuth WrapInfo LResponse} error
  {OperationHandler} sched bodyFields props.
Arguments responseGroup {DataMap LSecret LAuth WrapInfo LResponse error}
  Decode responses.
Arguments buildOperation {DataMap LSecret LAuth WrapInfo LResponse error}
  Decode {OperationHandler} sched operations bodyFields backendType opType props.
Arguments setCreateSupported {DataMap LSecret LAuth WrapInfo} pi.
Arguments assignOperation {DataMap LSecret LAuth WrapInfo} pi opType op.
Arguments operationStep {DataMap LSecret LAuth WrapInfo LResponse error}
  Decode {OperationHandler} Properties sched operations bodyFields backendType
  pi entry.
Arguments resolveOperations {OperationFunc OperationHandler} PathOperation p.
Arguments pathItemFor {DataMap LSecret LAuth WrapInfo LResponse OperationFunc error}
  Decode {OperationHandler} Properties PathOperation sched p sudoPaths
  unauthPaths backendType path.
Arguments pathParameters {DataMap LSecret LAuth WrapInfo LResponse} error
  {OperationHandler} sched pathFields.
Arguments startItem {DataMap LSecret LAuth WrapInfo OperationFunc
  OperationHandler} p sudoPaths unauthPaths path parameters.
Arguments setPath {DataMap LSecret LAuth WrapInfo} doc key pi.
Arguments pathsLoop {DataMap LSecret LAuth WrapInfo LResponse OperationFunc error}
  Decode {OperationHandler} Properties PathOperation sched p sudoPaths
  unauthPaths backendType paths doc.
Arguments documentPath {DataMap LSecret LAuth WrapInfo LResponse OperationFunc error}
  Decode {OperationHandler} Properties PathOperation sched p specialPaths
  backendType doc.
Arguments routesLoop {DataMap LSecret LAuth WrapInfo LResponse OperationFunc error}
  Decode {OperationHandler} Properties PathOperation sched routes specialPaths
  backendType doc.
Arguments documentPaths {DataMap LSecret LAuth WrapInfo LResponse OperationFunc error}
  Decode {OperationHandler} Properties PathOperation sched backend doc.
Arguments oasStdRespOK {DataMap LSecret LAuth WrapInfo}.
Arguments oasStdRespNoContent {DataMap LSecret LAuth WrapInfo}.

(** ** The documented handlers of a route, without the loop *)

Section Documented.
Context {DataMap LResponse OperationHandler : Type}.
Context (Properties : OperationHandler -> OperationProperties DataMap LResponse).

Definition published (h : OperationHandler) : bool :=
  negb (propUnpublished (Properties h)).

(** The handler of verb [k] reaches the operation builder: it is published
    and no merge rule sets it aside. *)
Definition documented (ops : gmap gostring OperationHandler)
    (k : gostring) (h : OperationHandler) : bool :=
  published h
  && negb (bool_decide (k = CreateOperation)
           && bool_decide (is_Some (ops !! UpdateOperation)))
  && negb (bool_decide (k = ListOperation)
           && bool_decide (is_Some (ops !! ReadOperation))).

(** What the loop body does to the flag before any merge rule. *)
Definition touch {LSecret LAuth WrapInfo} (k : gostring) (h : OperationHandler)
    (pi : oasPathItem DataMap LSecret LAuth WrapInfo)
    : oasPathItem DataMap LSecret LAuth WrapInfo :=
  if published h && bool_decide (k = CreateOperation)
  then setCreateSupported pi else pi.

(** The handler that fills a slot, if any: the first published one of the
    verbs in [ks], provided the earlier verbs are not defined at all. *)
Definition firstDefined (ops : gmap gostring OperationHandler)
    (k1 k2 : gostring) : option (gostring * OperationHandler) :=
  match ops !! k1 with
  | Some h1 => if published h1 then Some (k1, h1) else None
  | None =>
      match ops !! k2 with
      | Some h2 => if published h2 then Some (k2, h2) else None
      | None => None
      end
  end.

Definition createPublished (ops : gmap gostring OperationHandler) : bool :=
  match ops !! CreateOperation with
  | Some h => published h
  | None => false
  end.

End Documented.

(** The three operation slots of a path item. *)
Inductive slot : Type := SGet | SPost | SDelete.

Definition slotOf {DataMap LSecret LAuth WrapInfo} (s : slot)
    (pi : oasPathItem DataMap LSecret LAuth WrapInfo)
    : option (OASOperation DataMap LSecret LAuth WrapInfo) :=
  match s with
  | SGet => piGet pi
  | SPost => piPost pi
  | SDelete => piDelete pi
  end.

(** The verbs that the closing [switch] stores in a slot. *)
Definition writes (k : gostring) (s : slot) : bool :=
  match s with
  | SGet => bool_decide (k = ReadOperation) || bool_decide (k = ListOperation)
  | SPost => bool_decide (k = CreateOperation) || bool_decide (k = UpdateOperation)
  | SDelete => bool_decide (k = DeleteOperation)
  end.

(** The handler that ends up in a slot. *)
Definition slotWriter {DataMap LResponse OperationHandler}
    (Properties : OperationHandler -> OperationProperties DataMap LResponse)
    (ops : gmap gostring OperationHandler) (s : slot)
    : option (gostring * OperationHandler) :=
  match s with
  | SGet => firstDefined Properties ops ReadOperation ListOperation
  | SPost => firstDefined Properties ops UpdateOperation CreateOperation
  | SDelete => firstDefined Properties ops DeleteOperation DeleteOperation
  end.

(** Two outcomes of the same kind, with the same value when there is one. *)
Definition agree {E A} (r1 r2 : result E A) : Prop :=
  match r1, r2 with
  | Ok a, Ok b => a = b
  | Fail _, Fail _ => True
  | Panic, Panic => True
  | _, _ => False
  end.

(** The fields of a path item that the loop over the handlers never
    writes. *)
Definition sameHead {DataMap LSecret LAuth WrapInfo}
    (pi pi' : oasPathItem DataMap LSecret LAuth WrapInfo) : Prop :=
  piDescription pi' = piDescription pi
  /\ piParameters pi' = piParameters pi
  /\ piSudo pi' = piSudo pi
  /\ piUnauthenticated pi' = piUnauthenticated pi.

(** The route [p] with the verb handlers [ops]. *)
Definition withOperations {OperationFunc OperationHandler}
    (p : Path OperationFunc OperationHandler)
    (ops : gmap gostring OperationHandler) : Path OperationFunc OperationHandler :=
  {| Pattern := Pattern p; Fields := Fields p; Operations := Some ops;
     Callbacks := Callbacks p; HelpSynopsis := HelpSynopsis p |}.

(** The structural copy of some response example that [props] declares
    fails with [err]. *)
Definition copyFails {DataMap LSecret LAuth WrapInfo LResponse error}
    (Decode : LResponse -> cleanedResponse DataMap LSecret LAuth WrapInfo + error)
    (props : OperationProperties DataMap LResponse) (err : error) : Prop :=
  exists code rs resp example,
    propResponses props !! code = Some rs
    /\ resp ∈ rs
    /\ respExample resp = Some example
    /\ Decode example = inr err.

(** ** Sample inputs

    A small instance of the outside world: a logical response is a flag that
    tells whether its structural copy succeeds, handlers are their own
    properties, and errors are messages. *)
Module Sample.

Definition cleaned : Type := cleanedResponse () () () ().
Definition props : Type := OperationProperties () bool.

Definition Decode (resp : bool) : cleaned + gostring :=
  if resp
  then inl {| crSecret := None; crAuth := None; crData := ();
              crRedirect := []; crWarnings := []; crWrapInfo := None |}
  else inr (lit "decode failed").

Definition Properties (h : props) : props := h.

Definition PathOperation (cb : ()) (summary : gostring) : props :=
  {| propSummary := TrimSpace summary; propDescription := [];
     propExamples := []; propResponses := ∅;
     propUnpublished := false; propDeprecated := false |}.

(** The scheduler that visits every map in the order of its keys. *)
Definition keyOrder : Scheduler bool props :=
  {| rangeFields := map_to_list;
     rangeFields_perm := fun m => reflexivity (map_to_list m);
     rangeOps := map_to_list;
     rangeOps_perm := fun m => reflexivity (map_to_list m);
     rangeResponses := map_to_list;
     rangeResponses_perm := fun m => reflexivity (map_to_list m) |}.

(** The scheduler that visits the verb handlers the other way round. *)
Definition reverseOps : Scheduler bool props :=
  {| rangeFields := map_to_list;
     rangeFields_perm := fun m => reflexivity (map_to_list m);
     rangeOps := fun m => reverse (map_to_list m);
     rangeOps_perm := fun m => reverse_Permutation (map_to_list m);
     rangeResponses := map_to_list;
     rangeResponses_perm := fun m => reflexivity (map_to_list m) |}.

Definition emptyDoc : OASDocument () () () () :=
  {| dVersion := lit "3.0.2";
     dInfo := {| iTitle := []; iDescription := []; iVersion := [];
                 iLicense := {| lName := []; lURL := [] |} |};
     dPaths := ∅ |}.

Definition handler (summary : string) (unpublished : bool) : props :=
  {| propSummary := lit summary; propDescription := [];
     propExamples := []; propResponses := ∅;
     propUnpublished := unpublished; propDeprecated := false |}.

(** A handler that declares one response, whose example is [example]. *)
Definition handlerWithExample (summary : string) (example : bool) : props :=
  {| propSummary := lit summary; propDescription := [];
     propExamples := [];
     propResponses :=
       {[ lit "200" := [ {| respDescription := lit "OK";
                            respMediaType := [];
                            respExample := Some example |} ] ]};
     propUnpublished := false; propDeprecated := false |}.

Definition stringField : option FieldSchema :=
  Some {| fsType := TypeString; fsDescription := []; fsDeprecated := false |}.

Definition route (pattern : string)
    (fields : gmap gostring (option FieldSchema))
    (operations : gmap gostring props) : Path () props :=
  {| Pattern := lit pattern; Fields := fields;
     Operations := Some operations; Callbacks := ∅; HelpSynopsis := [] |}.

Definition run (sched : Scheduler bool props) (p : Path () props) :=
  documentPath Decode Properties PathOperation sched p None TypeLogical emptyDoc.

(** A route whose two path fields are named [Zeta] and [alpha]. *)
Definition zetaAlphaRoute : Path () props :=
  route "x/(?P<Zeta>a)/(?P<alpha>b)"
    (<[lit "Zeta" := stringField]> {[ lit "alpha" := stringField ]}) ∅.

(** A route whose placeholder has no field. *)
Definition lookupRoute : Path () props :=
  route "lookup/(?P<urltoken>.+)" ∅ ∅.

Definition createUpdateRoute : Path () props :=
  route "config" ∅
    (<[CreateOperation := handler "create it" false]>
       {[ UpdateOperation := handler "update it" false ]}).

(** The update handler is defined, but unpublished. *)
Definition hiddenUpdateRoute : Path () props :=
  route "config" ∅
    (<[CreateOperation := handler "create it" false]>
       {[ UpdateOperation := handler "update it" true ]}).

Definition listReadRoute : Path () props :=
  route "keys" ∅
    (<[ListOperation := handler "list them" false]>
       {[ ReadOperation := handler "read one" false ]}).

(** The delete handler is defined, but unpublished. *)
Definition hiddenDeleteRoute : Path () props :=
  route "keys" ∅
    (<[DeleteOperation := handler "delete one" true]>
       {[ ReadOperation := handler "read one" false ]}).

(** The example of the read handler cannot be copied. *)
Definition failingRoute : Path () props :=
  route "status" ∅ {[ ReadOperation := handlerWithExample "read it" false ]}.

Definition backend : Backend () props :=
  {| bPaths := [createUpdateRoute; failingRoute; listReadRoute];
     bSpecialPaths := None;
     bBackendType := TypeLogical |}.

End Sample.

(** ** What the further properties are stated with *)

(** [sp] is an entry that ends with a star and [path] starts with the text
    before the star. *)
Definition starMatch (sp path : gostring) : Prop :=
  exists q r, sp = q ++ lit "*" /\ path = q ++ r.

(** Only ASCII characters: on such text the byte-wise [TrimSpace] and
    [ToLower] above are Go's. *)
Definition isASCII (s : gostring) : bool :=
  forallb (fun a => nat_of_ascii a <? 128) s.

(** Every run of [\s] characters as one blank; [inRun] tells that the
    character before was one of the run. *)
Fixpoint squeeze (inRun : bool) (s : gostring) : gostring :=
  match s with
  | [] => []
  | x :: s' =>
      if isSpace x
      then if inRun then squeeze true s' else ch " " :: squeeze true s'
      else x :: squeeze false s'
  end.

(** Text that neither starts nor ends with white space. *)
Definition trimmed (t : gostring) : Prop :=
  (forall x u, t = x :: u -> isTrimSpace x = false)
  /\ (forall u x, t = u ++ [x] -> isTrimSpace x = false).

(** Every match of [r] holds the character [a]. *)
Fixpoint needs (a : ascii) (r : re) : bool :=
  match r with
  | Lit b => Ascii.eqb a b
  | Seq r1 r2 => needs a r1 || needs a r2
  | Alt r1 r2 => needs a r1 && needs a r2
  | Group _ r1 => needs a r1
  | Emp | Class _ | EndText | Star _ _ => false
  end.

(** Text that means nothing to the expander: no parenthesis, anchor,
    question mark, bar, backslash or line feed. *)
Definition plainChar (a : ascii) : bool :=
  noneOf (lit "()^$?|\") a && anyChar a.

Definition plain (s : gostring) : bool := forallb plainChar s.

(** [t] occurs in [s]. *)
Definition occursIn (t s : gostring) : Prop := exists a b, s = a ++ t ++ b.

(** A lazy star over a character class, as a recursion on the input. *)
Fixpoint lazyClass {A} (p : ascii -> bool) (k : gostring -> caps -> option A)
    (s : gostring) (c : caps) : option A :=
  orElse (k s c)
    match s with
    | x :: s' => if p x then lazyClass p k s' c else None
    | [] => None
    end.

(** The states that a loop with body [step] goes through. *)
Inductive Reach {St} (step : St -> option St) : St -> St -> Prop :=
| Reach_here st : Reach step st st
| Reach_step st st1 st2 :
    step st = Some st1 -> Reach step st1 st2 -> Reach step st st2.

(** A named parameter as a route writes it: [(?P<name>body)]. *)
Definition namedParameter (name body : gostring) : gostring :=
  lit "(?P<" ++ name ++ lit ">" ++ body ++ lit ")".

(** A name of word characters. *)
Definition wordName (name : gostring) : bool :=
  negb (bool_decide (name = [])) && forallb isWord name.

(** The text of a simple parameter body: no parenthesis and no bar. *)
Definition simpleBody (body : gostring) : bool :=
  forallb (noneOf (lit "()|")) body.

(** The names in braces of an expanded path. *)
Definition placeholders (pattern : gostring) : list gostring :=
  map (fun m => nth 1 m []) (FindAllStringSubmatch pathFieldsRe 1 pattern).

Definition isHeader (f : FieldSchema) : bool :=
  bool_decide (fsType f = TypeHeader).

(** The two groups of [splitFields], name by name: a placeholder of the path
    is a path field, with the nil pointer when the route declares no such
    field; any other field is a path field when it is a header and a body
    field otherwise. *)
Definition pathFieldOf (allFields : gmap gostring (option FieldSchema))
    (pattern name : gostring) : option (option FieldSchema) :=
  if bool_decide (name ∈ placeholders pattern)
  then Some (default None (allFields !! name))
  else match allFields !! name with
       | Some (Some f) => if isHeader f then Some (Some f) else None
       | _ => None
       end.

Definition bodyFieldOf (allFields : gmap gostring (option FieldSchema))
    (pattern name : gostring) : option (option FieldSchema) :=
  if bool_decide (name ∈ placeholders pattern) then None
  else match allFields !! name with
       | Some (Some f) => if isHeader f then None else Some (Some f)
       | _ => None
       end.

(** [OASVersion]. *)
Definition OASVersion : gostring := lit "3.0.2".

(** [NewOASDocument]; [version] stands for [version.GetVersion().Version]. *)
Definition NewOASDocument {DataMap LSecret LAuth WrapInfo : Type} (version : gostring)
    : OASDocument DataMap LSecret LAuth WrapInfo :=
  {| dVersion := OASVersion;
     dInfo :=
       {| iTitle := lit "HashiCorp Vault API";
          iDescription :=
            lit "HTTP API that gives you full access to Vault. All API routes are prefixed with `/v1/`.";
          iVersion := version;
          iLicense :=
            {| lName := lit "Mozilla Public License 2.0";
               lURL := lit "https://www.mozilla.org/en-US/MPL/2.0" |} |};
     dPaths := ∅ |}.

(** The special paths that [documentPath] reads from a possibly nil
    [*logical.Paths]. *)
Definition sudoPathsOf (specialPaths : option Paths) : list gostring :=
  match specialPaths with Some sp => Root sp | None => [] end.

Definition unauthPathsOf (specialPaths : option Paths) : list gostring :=
  match specialPaths with Some sp => Unauthenticated sp | None => [] end.

(** The keys of the document that a route writes. *)
Definition routeKeys {OperationFunc OperationHandler : Type}
    (p : Path OperationFunc OperationHandler) : list gostring :=
  (fun path => lit "/" ++ path) <$> expandPattern (Pattern p).

(** The tags of an operation, by the type of the backend. *)
Definition tagsOf (backendType : BackendType) : list gostring :=
  match backendType with
  | TypeLogical => [lit "secrets"]
  | TypeCredential => [lit "auth"]
  | TypeUnknown => []
  end.

(** The parameter that [documentPath] builds for a path field. *)
Definition parameterOf {DataMap LSecret LAuth WrapInfo : Type}
    (name : gostring) (f : FieldSchema)
    : oasParameter DataMap LSecret LAuth WrapInfo :=
  {| pName := name;
     pDescription := cleanString (fsDescription f);
     pIn := if isHeader f then lit "header" else lit "path";
     pSchema := Some (typeSchema (baseType (convertType (fsType f))));
     pRequired := negb (isHeader f);
     pDeprecated := fsDeprecated f |}.

(** The example of a request body: the data of the first example that the
    handler declares. *)
Definition requestExample {DataMap LSecret LAuth WrapInfo LResponse : Type}
    (props : OperationProperties DataMap LResponse)
    : option (exampleValue DataMap LSecret LAuth WrapInfo) :=
  match propExamples props with
  | ex :: _ => Some (ExampleData _ _ _ _ (reData ex))
  | [] => None
  end.

(** The schema of a request body with the body fields [bf]. *)
Definition bodySchema {DataMap LSecret LAuth WrapInfo LResponse : Type}
    (bf : gmap gostring (option FieldSchema))
    (props : OperationProperties DataMap LResponse)
    : oasSchema DataMap LSecret LAuth WrapInfo :=
  OasSchema _ _ _ _ (lit "object") [] (omap (fmap propertySchema) bf) None []
    (requestExample props) false.

(** The media type under which an example is filed. *)
Definition mediaTypeOf {LResponse : Type} (resp : Response LResponse) : gostring :=
  if bool_decide (respMediaType resp = []) then lit "application/json"
  else respMediaType resp.

(** [resp] carries an example for the media type [mt]. *)
Definition exampleFor {LResponse : Type} (mt : gostring) (resp : Response LResponse) : bool :=
  bool_decide (is_Some (respExample resp)) && bool_decide (mediaTypeOf resp = mt).

(** The body of the loop of [responseGroup]. *)
Definition groupStep {DataMap LSecret LAuth WrapInfo LResponse error : Type}
    (Decode : LResponse -> cleanedResponse DataMap LSecret LAuth WrapInfo + error)
    (st : gostring * gmap gostring (oasMediaTypeObject DataMap LSecret LAuth WrapInfo))
    (entry : nat * Response LResponse)
    : result error
        (gostring * gmap gostring (oasMediaTypeObject DataMap LSecret LAuth WrapInfo)) :=
  let '(description, content) := st in
  let '(i, resp) := entry in
  let description :=
    if i =? 0 then respDescription resp else description in
  match respExample resp with
  | None => Ok (description, content)
  | Some example =>
      let mediaType :=
        if bool_decide (respMediaType resp = [])
        then lit "application/json"
        else respMediaType resp in
      cr ← cleanResponse Decode example;
      match content !! mediaType with
      | Some _ => Ok (description, content)
      | None =>
          Ok (description,
              <[mediaType :=
                  {| mtSchema :=
                       Some (OasSchema _ _ _ _ [] [] ∅ None []
                               (Some (ExampleResponse _ _ _ _ cr)) false) |}]>
                content)
      end
  end.

(** The media type object that holds a sanitized example. *)
Definition exampleObject {DataMap LSecret LAuth WrapInfo : Type}
    (cr : cleanedResponse DataMap LSecret LAuth WrapInfo)
    : oasMediaTypeObject DataMap LSecret LAuth WrapInfo :=
  {| mtSchema :=
       Some (OasSchema _ _ _ _ [] [] ∅ None []
               (Some (ExampleResponse _ _ _ _ cr)) false) |}.

(** Text that holds no [?P<], the opening of a named parameter. *)
Definition captureFree (t : gostring) : bool :=
  (Index t (lit "?P<") =? -1)%Z.

(** The body of a named parameter that its first closing parenthesis
    ends. *)
Definition closedBody (body : gostring) : bool :=
  forallb (noneOf (lit ")")) body.

(** A named parameter [(?P<name>body)] in a candidate path, with the text
    before it. The loop over the optional elements may have taken its
    opening or its closing parenthesis away. *)
Record capture := Capture {
  capBefore : gostring;
  capOpened : bool;
  capName : gostring;
  capBody : gostring;
  capClosed : bool
}.

Definition captureText (c : capture) : gostring :=
  (if capOpened c then lit "(" else []) ++ keyText (capName c) ++ capBody c
    ++ (if capClosed c then lit ")" else []).

(** A path written as named parameters, each after some text, and the text
    after the last one. *)
Fixpoint withCaptures (segs : list capture) (tail : gostring) : gostring :=
  match segs with
  | [] => tail
  | c :: segs' => capBefore c ++ captureText c ++ withCaptures segs' tail
  end.

(** The text around the parameters holds no [?P<]; a parameter without
    its opening parenthesis does not follow one; names are words; no body
    holds a closing parenthesis, and a parameter without its closing
    parenthesis ends the path. *)
Fixpoint wellFormed (segs : list capture) (tail : gostring) : bool :=
  match segs with
  | [] => captureFree tail
  | c :: segs' =>
      captureFree (capBefore c)
      && (capOpened c || negb (bool_decide (last (capBefore c) = Some (ch "("))))
      && wordName (capName c) && closedBody (capBody c)
      && (capClosed c || bool_decide (withCaptures segs' tail = []))
      && wellFormed segs' tail
  end.

(** The same path with every named parameter replaced by its name in
    braces, the text before each one passed through [clean]. *)
Fixpoint withPlaceholders (clean : gostring -> gostring) (segs : list capture)
    (tail : gostring) : gostring :=
  match segs with
  | [] => tail
  | c :: segs' =>
      clean (capBefore c) ++ braces (capName c) ++ withPlaceholders clean segs' tail
  end.

(** [t] without the characters that the cleaning strips. *)
Definition stripped (t : gostring) : gostring :=
  ReplaceAllString cleanCharsRe t [].

(** Only ASCII names in a field map. *)
Definition asciiNames (fields : gmap gostring (option FieldSchema)) : bool :=
  forallb (fun '(name, _) => isASCII name) (map_to_list fields).

(** The path item with other parameters. *)
Definition withParameters {DataMap LSecret LAuth WrapInfo : Type}
    (ps : list (oasParameter DataMap LSecret LAuth WrapInfo))
    (pi : oasPathItem DataMap LSecret LAuth WrapInfo)
    : oasPathItem DataMap LSecret LAuth WrapInfo :=
  {| piDescription := piDescription pi; piParameters := ps;
     piSudo := piSudo pi; piUnauthenticated := piUnauthenticated pi;
     piCreateSupported := piCreateSupported pi;
     piGet := piGet pi; piPost := piPost pi; piDelete := piDelete pi |}.

(** Two path items that differ at most in the order of their parameters. *)
Definition sameButOrder {DataMap LSecret LAuth WrapInfo : Type}
    (pi1 pi2 : oasPathItem DataMap LSecret LAuth WrapInfo) : Prop :=
  piDescription pi1 = piDescription pi2
  /\ piSudo pi1 = piSudo pi2
  /\ piUnauthenticated pi1 = piUnauthenticated pi2
  /\ piCreateSupported pi1 = piCreateSupported pi2
  /\ piGet pi1 = piGet pi2 /\ piPost pi1 = piPost pi2
  /\ piDelete pi1 = piDelete pi2
  /\ piParameters pi1 ≡ₚ piParameters pi2.

(** Two outcomes of the same kind, with related results. *)
Definition agreeUpTo {E A} (R : A -> A -> Prop) (r1 r2 : result E A) : Prop :=
  match r1, r2 with
  | Ok a, Ok b => R a b
  | Fail _, Fail _ => True
  | Panic, Panic => True
  | _, _ => False
  end.

(** Two documents that differ at most in the order of the parameters of
    their path items. *)
Definition sameButOrders {DataMap LSecret LAuth WrapInfo : Type}
    (d1 d2 : OASDocument DataMap LSecret LAuth WrapInfo) : Prop :=
  dVersion d1 = dVersion d2 /\ dInfo d1 = dInfo d2
  /\ forall key, option_Forall2 sameButOrder (dPaths d1 !! key) (dPaths d2 !! key).

(** The vertical tab: white space for [TrimSpace], but not for [\s]. *)
Definition verticalTab : ascii := ascii_of_nat 11.

(** Only ASCII descriptions in a field map. *)
Definition asciiDescriptions (fields : gmap gostring (option FieldSchema)) : bool :=
  forallb (fun '(_, field) =>
             match field with
             | Some f => isASCII (fsDescription f)
             | None => true
             end)
    (map_to_list fields).

(** More sample inputs: a scheduler that visits every map against the order
    of its keys, a route whose handler declares an example that can be
    copied, and backends whose routes are all documented. *)
Module Sample2.

Import Sample.

Definition reverseAll : Scheduler bool props :=
  {| rangeFields := fun m => reverse (map_to_list m);
     rangeFields_perm := fun m => reverse_Permutation (map_to_list m);
     rangeOps := fun m => reverse (map_to_list m);
     rangeOps_perm := fun m => reverse_Permutation (map_to_list m);
     rangeResponses := fun m => reverse (map_to_list m);
     rangeResponses_perm := fun m => reverse_Permutation (map_to_list m) |}.

Definition exampleResponse : Response bool :=
  {| respDescription := lit "OK"; respMediaType := [];
     respExample := Some true |}.

(** What [responseGroup] makes of the response above. *)
Definition exampleContent : gmap gostring (oasMediaTypeObject () () () ()) :=
  {[ lit "application/json" :=
       exampleObject {| crSecret := None; crAuth := None; crData := ();
                        crRedirect := []; crWarnings := []; crWrapInfo := None |} ]}.

Definition exampleRoute : Path () props :=
  route "status" ∅ {[ ReadOperation := handlerWithExample "read it" true ]}.

Definition okBackend : Backend () props :=
  {| bPaths := [createUpdateRoute; listReadRoute];
     bSpecialPaths := None;
     bBackendType := TypeLogical |}.

(** Two routes with the same path. *)
Definition sharedBackend : Backend () props :=
  {| bPaths := [createUpdateRoute; hiddenUpdateRoute];
     bSpecialPaths := None;
     bBackendType := TypeLogical |}.

Definition docs (b : Backend () props) (doc : OASDocument () () () ()) :=
  documentPaths Decode Properties PathOperation keyOrder b doc.

(** A route whose two path fields have names that differ in case only. *)
Definition tieRoute : Path () props :=
  route "t/(?P<Ab>a)/(?P<aB>b)"
    (<[lit "Ab" := stringField]> {[ lit "aB" := stringField ]}) ∅.

(** A route with a synopsis, and special paths that its path matches. *)
Definition synopsisRoute : Path () props :=
  {| Pattern := lit "sys/config"; Fields := ∅;
     Operations := Some {[ ReadOperation := handler "read it" false ]};
     Callbacks := ∅; HelpSynopsis := lit "  Reads   the config. " |}.

Definition specialPaths : Paths :=
  {| Root := [lit "sys/*"]; Unauthenticated := [lit "sys/health"] |}.

(** A route with a path field and a header field, each with a
    description. *)
Definition describedRoute : Path () props :=
  route "roles/(?P<name>\w+)"
    (<[lit "name" :=
         Some {| fsType := TypeString; fsDescription := lit " The  name ";
                 fsDeprecated := false |}]>
       {[ lit "X-Token" :=
            Some {| fsType := TypeHeader; fsDescription := lit "A token";
                    fsDeprecated := true |} ]}) ∅.

End Sample2.

(** ** Facts on the loops *)

Section Loops.
Context {E A St : Type}.
Implicit Types (body : St -> A -> result E St).

Lemma forRange_cons x l body st :
  forRange (x :: l) body st = (st' ← body st x; forRange l body st').
Proof. done. Qed.

Lemma forRange_app l1 l2 body st :
  forRange (l1 ++ l2) body st = (st' ← forRange l1 body st; forRange l2 body st').
Proof.
  revert st. induction l1 as [|x l1 IH]; intros st; simpl; [done|].
  destruct (body st x); simpl; auto.
Qed.

(** A loop whose turns keep an invariant keeps it. *)
Lemma forRange_invariant (P : St -> Prop) l body st st' :
  (forall s x s', x ∈ l -> P s -> body s x = Ok s' -> P s') ->
  P st -> forRange l body st = Ok st' -> P st'.
Proof.
  revert st. induction l as [|x l IH]; intros st Hb HP H; simpl in H.
  - by simplify_eq.
  - destruct (body st x) as [s1| |] eqn:Hx; simpl in H; try done.
    apply (IH s1); auto.
    + intros s y s' Hy. apply Hb. by right.
    + eapply Hb; eauto. by left.
Qed.

Lemma forRange_ext l body1 body2 st :
  (forall s x, x ∈ l -> body1 s x = body2 s x) ->
  forRange l body1 st = forRange l body2 st.
Proof.
  revert st. induction l as [|x l IH]; intros st Hb; simpl; [done|].
  rewrite Hb by (by left). destruct (body2 st x); simpl; auto.
  apply IH. intros s y Hy. apply Hb. by right.
Qed.

Lemma forRange_no_panic l body st :
  (forall s x, x ∈ l -> body s x <> Panic) -> forRange l body st <> Panic.
Proof.
  revert st. induction l as [|x l IH]; intros st Hb; simpl; [done|].
  destruct (body st x) eqn:Hx; simpl.
  - apply IH. intros s y Hy. apply Hb. by right.
  - done.
  - destruct (Hb st x); [by left|done].
Qed.

Lemma forRange_no_fail l body st :
  (forall s x err, x ∈ l -> body s x <> Fail err) ->
  forall err, forRange l body st <> Fail err.
Proof.
  revert st. induction l as [|x l IH]; intros st Hb err; simpl; [done|].
  destruct (body st x) eqn:Hx; simpl.
  - apply IH. intros s y e Hy. apply Hb. by right.
  - destruct (Hb st x e); [by left|done].
  - done.
Qed.

Lemma forRange_fail_inv l body st err :
  forRange l body st = Fail err -> exists s x, x ∈ l /\ body s x = Fail err.
Proof.
  revert st. induction l as [|x l IH]; intros st H; simpl in H; [done|].
  destruct (body st x) eqn:Hx; simpl in H.
  - destruct (IH _ H) as (s & y & Hy & Hb). exists s, y. split; [by right|done].
  - simplify_eq. exists st, x. split; [by left|done].
  - done.
Qed.

Lemma forRange_panic_inv l body st :
  forRange l body st = Panic -> exists s x, x ∈ l /\ body s x = Panic.
Proof.
  revert st. induction l as [|x l IH]; intros st H; simpl in H; [done|].
  destruct (body st x) eqn:Hx; simpl in H.
  - destruct (IH _ H) as (s & y & Hy & Hb). exists s, y. split; [by right|done].
  - done.
  - exists st, x. split; [by left|done].
Qed.

(** A loop with a turn that always fails does not end well. *)
Lemma forRange_not_ok l body st x :
  x ∈ l -> (forall s s', body s x <> Ok s') -> forall st', forRange l body st <> Ok st'.
Proof.
  revert st. induction l as [|y l IH]; intros st Hin Hx st' H.
  - by apply elem_of_nil in Hin.
  - simpl in H. destruct (body st y) as [s1| |] eqn:Hy; simpl in H; try done.
    apply elem_of_cons in Hin as [->|Hin]; [by destruct (Hx st s1)|].
    by apply (IH s1 Hin Hx st').
Qed.

End Loops.

(** The loops of [expandPattern] keep what every turn keeps. *)
Lemma runPow_invariant {St} (P : St -> Prop) (step : St -> option St) n st :
  (forall s s', P s -> step s = Some s' -> P s') ->
  P st -> P (runPow step n st).1.
Proof.
  intros Hstep. revert st. induction n as [|n IH]; intros st HP; simpl.
  - destruct (step st) eqn:Hs; simpl; eauto.
  - pose proof (IH st HP) as H1.
    destruct (runPow step n st) as [st1 fin]. simpl in H1.
    destruct fin; simpl; auto.
Qed.

Lemma expandOptional_nonempty paths : paths <> [] -> expandOptional paths <> [].
Proof.
  intros Hne. unfold expandOptional.
  apply (runPow_invariant (fun st : list gostring * nat => st.1 <> [])); [|done].
  intros [ps i] [ps' i'] Hps Hstep. unfold optStep in Hstep. simpl in *.
  destruct (ps !! i) as [p|]; [|done].
  destruct (FindStringIndex optRe p) as [[m0 m1]|]; simplify_eq; [|done].
  intros Happ. by apply app_eq_nil in Happ as [_ ?].
Qed.

Lemma expandPattern_nonempty pattern : expandPattern pattern <> [].
Proof.
  unfold expandPattern. intros H. apply fmap_nil_inv in H.
  revert H. apply expandOptional_nonempty.
  unfold seedPaths. by destruct (FindAllStringSubmatch _ _ _).
Qed.

(** ** Facts on sorting *)

Section Sorting.
Context {A : Type} (less : A -> A -> bool).
Hypothesis less_asym : forall a b, less a b = true -> less b a = false.
Hypothesis less_negtrans :
  forall a b c, less b a = false -> less c b = false -> less c a = false.

Lemma insertBy_perm x l : insertBy less x l ≡ₚ x :: l.
Proof.
  induction l as [|y l IH]; simpl; [done|].
  destruct (less x y); [|done]. rewrite IH. apply perm_swap.
Qed.

Lemma insertAll_perm l sorted :
  fold_left (fun sorted x => insertBy less x sorted) l sorted ≡ₚ l ++ sorted.
Proof.
  revert sorted. induction l as [|x l IH]; intros sorted; simpl; [done|].
  rewrite IH, insertBy_perm. by rewrite Permutation_middle.
Qed.

Lemma sortSlice_perm l : sortSlice less l ≡ₚ l.
Proof.
  unfold sortSlice. by rewrite reverse_Permutation, insertAll_perm, app_nil_r.
Qed.

(** The sorted part, read from its right end, never goes up. *)
Lemma insertBy_sorted x l :
  StronglySorted (fun a b => less a b = false) l ->
  StronglySorted (fun a b => less a b = false) (insertBy less x l).
Proof.
  induction 1 as [|y l Hl IH Hy]; simpl.
  - repeat constructor.
  - destruct (less x y) eqn:Hxy.
    + constructor; [done|].
      rewrite insertBy_perm. constructor; [by apply less_asym|done].
    + constructor; [by constructor|].
      constructor; [done|].
      eapply Forall_impl; [exact Hy|]. simpl. intros z Hz.
      by eapply less_negtrans.
Qed.

Lemma insertAll_sorted l sorted :
  StronglySorted (fun a b => less a b = false) sorted ->
  StronglySorted (fun a b => less a b = false)
    (fold_left (fun sorted x => insertBy less x sorted) l sorted).
Proof.
  revert sorted. induction l as [|x l IH]; intros sorted Hs; simpl; [done|].
  by apply IH, insertBy_sorted.
Qed.

Lemma StronglySorted_snoc (R : A -> A -> Prop) l x :
  StronglySorted R l -> Forall (fun y => R y x) l -> StronglySorted R (l ++ [x]).
Proof.
  induction 1 as [|y l Hl IH Hy]; intros Hx; simpl.
  - repeat constructor.
  - apply Forall_cons in Hx as [Hyx Hx]. constructor; [exact (IH Hx)|].
    apply Forall_app. split; [done|]. by constructor.
Qed.

Lemma StronglySorted_reverse (R : A -> A -> Prop) l :
  StronglySorted R l -> StronglySorted (fun a b => R b a) (reverse l).
Proof.
  induction 1 as [|y l Hl IH Hy]; [constructor|].
  rewrite reverse_cons. apply StronglySorted_snoc; [done|].
  rewrite Forall_forall. intros z Hz. apply elem_of_reverse in Hz.
  rewrite reverse_involutive in Hz.
  rewrite Forall_forall in Hy. exact (Hy z Hz).
Qed.

Lemma sortSlice_sorted l :
  StronglySorted (fun a b => less b a = false) (sortSlice less l).
Proof.
  unfold sortSlice.
  apply (StronglySorted_reverse (fun a b => less a b = false)).
  apply insertAll_sorted. constructor.
Qed.

End Sorting.

Lemma ltb_irrefl a : ltb a a = false.
Proof.
  induction a as [|x a IH]; simpl; [done|].
  rewrite Nat.ltb_irrefl, Nat.eqb_refl. done.
Qed.

Lemma ltb_trans a b c : ltb a b = true -> ltb b c = true -> ltb a c = true.
Proof.
  revert b c. induction a as [|x a IH]; intros [|y b] [|z c]; simpl; try done.
  intros H1 H2.
  apply orb_true_iff in H1, H2. apply orb_true_iff.
  destruct H1 as [H1|H1], H2 as [H2|H2].
  - left. apply Nat.ltb_lt in H1, H2. apply Nat.ltb_lt. lia.
  - apply andb_true_iff in H2 as [H2 _]. apply Nat.eqb_eq in H2.
    left. by rewrite <- H2.
  - apply andb_true_iff in H1 as [H1 _]. apply Nat.eqb_eq in H1.
    left. by rewrite H1.
  - apply andb_true_iff in H1 as [H1 H1'], H2 as [H2 H2'].
    apply Nat.eqb_eq in H1, H2. right. apply andb_true_iff. split.
    + apply Nat.eqb_eq. congruence.
    + eauto.
Qed.

Lemma ltb_asym a b : ltb a b = true -> ltb b a = false.
Proof.
  intros H. destruct (ltb b a) eqn:Hba; [|done].
  pose proof (ltb_trans _ _ _ H Hba) as Haa. by rewrite ltb_irrefl in Haa.
Qed.

Lemma ltb_connex a b : ltb a b = false -> ltb b a = false -> a = b.
Proof.
  revert b. induction a as [|x a IH]; intros [|y b]; simpl; try done.
  intros H1 H2.
  apply orb_false_iff in H1 as [H1 H1'], H2 as [H2 H2'].
  apply Nat.ltb_ge in H1, H2.
  assert (nat_of_ascii x = nat_of_ascii y) as Hxy by lia.
  rewrite Hxy, Nat.eqb_refl in H1', H2'. simpl in *.
  f_equal; [|by apply IH].
  rewrite <- (ascii_nat_embedding x), <- (ascii_nat_embedding y). by rewrite Hxy.
Qed.

Lemma ltb_negtrans a b c :
  ltb b a = false -> ltb c b = false -> ltb c a = false.
Proof.
  intros H1 H2. destruct (ltb c a) eqn:Hca; [|done].
  destruct (ltb a b) eqn:Hab.
  - by rewrite (ltb_trans _ _ _ Hca Hab) in H2.
  - rewrite (ltb_connex _ _ Hab H1) in Hca. congruence.
Qed.

(** ** Facts on the matcher *)

Section Matcher.
Context {A : Type}.
Implicit Types (k : gostring -> caps -> option A).

Lemma orElse_None_r (x : option A) : orElse x None = x.
Proof. by destruct x. Qed.

Lemma run_star_class p k s c :
  run (Star true (Class p)) s c k = starClass p k s c.
Proof.
  simpl.
  assert (forall n s, length s <= n ->
            (fix loop (n : nat) (s : gostring) (c : caps) {struct n} : option A :=
               match n with
               | O => k s c
               | S n' =>
                   orElse
                     match s with
                     | [] => None
                     | x :: s' =>
                         if p x
                         then if length s' <? length s then loop n' s' c else None
                         else None
                     end (k s c)
               end) n s c = starClass p k s c) as H.
  { induction n as [|n IH]; intros s0 Hn.
    - destruct s0; [done|simpl in Hn; lia].
    - destruct s0 as [|x s0]; [done|]. simpl in Hn. simpl starClass.
      destruct (p x); [|done].
      replace (length s0 <? length (x :: s0)) with true
        by (symmetry; apply Nat.ltb_lt; simpl; lia).
      rewrite IH by lia. done. }
  by apply H.
Qed.

(** When what follows cannot start with a character of the class, the star
    takes the longest run. *)
Lemma starClass_longest p k s c :
  (forall x s' c', p x = true -> k (x :: s') c' = None) ->
  starClass p k s c = k (skipClass p s) c.
Proof.
  intros Hk. induction s as [|x s IH]; simpl; [done|].
  destruct (p x) eqn:Hp; [|done].
  by rewrite IH, (Hk x s c Hp), orElse_None_r.
Qed.

(** The same when what follows never fails. *)
Lemma starClass_total p k s c :
  (forall s' c', is_Some (k s' c')) ->
  starClass p k s c = k (skipClass p s) c.
Proof.
  intros Hk. induction s as [|x s IH]; simpl; [done|].
  destruct (p x) eqn:Hp; [|done].
  rewrite IH. by destruct (Hk (skipClass p s) c) as [v ->].
Qed.

End Matcher.

Lemma takeClass_skipClass p s : takeClass p s ++ skipClass p s = s.
Proof.
  induction s as [|x s IH]; simpl; [done|].
  destruct (p x); simpl; [by rewrite IH|done].
Qed.

Lemma takeClass_all p s : forallb p (takeClass p s) = true.
Proof.
  induction s as [|x s IH]; simpl; [done|].
  destruct (p x) eqn:Hp; simpl; [by rewrite Hp|done].
Qed.

Lemma skipClass_head p s x s' : skipClass p s = x :: s' -> p x = false.
Proof.
  induction s as [|y s IH]; simpl; [done|].
  destruct (p y) eqn:Hp; [done|]. by intros [= <- <-].
Qed.

Lemma skipClass_length p s : length (skipClass p s) <= length s.
Proof.
  induction s as [|x s IH]; simpl; [done|]. destruct (p x); simpl; lia.
Qed.

Lemma take_takeClass p s :
  take (length s - length (skipClass p s)) s = takeClass p s.
Proof.
  rewrite <- (takeClass_skipClass p s) at 1 3.
  rewrite length_app.
  replace (length (takeClass p s) + length (skipClass p s)
           - length (skipClass p s)) with (length (takeClass p s)) by lia.
  by rewrite take_app_length.
Qed.

Section Equations.
Context {A : Type}.
Implicit Types (k : gostring -> caps -> option A).

Lemma run_Seq r1 r2 s c k :
  run (Seq r1 r2) s c k = run r1 s c (fun s' c' => run r2 s' c' k).
Proof. done. Qed.

Lemma run_Emp s c k : run Emp s c k = k s c.
Proof. done. Qed.

Lemma run_Lit a s c k :
  run (Lit a) s c k =
    match s with
    | x :: s' => if Ascii.eqb x a then k s' c else None
    | [] => None
    end.
Proof. done. Qed.

Lemma run_Quest a s c k :
  run (Quest true (Lit a)) s c k = orElse (run (Lit a) s c k) (k s c).
Proof. done. Qed.

Lemma run_Group n r s c k :
  run (Group n r) s c k =
    run r s c (fun s' c' => k s' ((n, take (length s - length s') s) :: c')).
Proof. done. Qed.

Lemma run_Plus_class p s c k :
  run (Plus true (Class p)) s c k =
    match s with
    | x :: s' => if p x then starClass p k s' c else None
    | [] => None
    end.
Proof.
  unfold Plus. rewrite run_Seq. destruct s as [|x s]; [done|].
  change (run (Class p) (x :: s) c ?k')
    with (if p x then k' s c else None).
  destruct (p x); [|done]. apply run_star_class.
Qed.

End Equations.

Lemma isWord_not a b : isWord a = true -> isWord b = false -> Ascii.eqb a b = false.
Proof.
  intros Ha Hb. destruct (Ascii.eqb a b) eqn:E; [|done].
  apply Ascii.eqb_eq in E. congruence.
Qed.

(** The part of [reqdRe] after the optional parenthesis matches as
    [reqdBody] says. *)
Lemma run_reqdBody s c :
  run (seqs [Lit (ch "?"); Lit (ch "P"); Lit (ch "<");
             Group 1 (Plus true (Class isWord)); Lit (ch ">");
             Star true (Class (noneOf (lit ")"))); Quest true (Lit (ch ")"))])
    s c (fun s' c' => Some (s', c'))
  = match reqdBody s with
    | Some (name, rest) => Some (rest, (1, name) :: c)
    | None => None
    end.
Proof.
  unfold seqs. cbn [foldr]. unfold reqdBody.
  destruct s as [|q [|P [|lt s1]]]; try done.
  - rewrite run_Seq, run_Lit. destruct (Ascii.eqb q (ch "?")); [|done].
    by rewrite run_Seq, run_Lit.
  - rewrite run_Seq, run_Lit. destruct (Ascii.eqb q (ch "?")); [|done].
    rewrite run_Seq, run_Lit. destruct (Ascii.eqb P (ch "P")); [|done].
    by rewrite run_Seq, run_Lit.
  - rewrite run_Seq, run_Lit. destruct (Ascii.eqb q (ch "?")); [|done].
    rewrite run_Seq, run_Lit. destruct (Ascii.eqb P (ch "P")); [|done].
    rewrite run_Seq, run_Lit. destruct (Ascii.eqb lt (ch "<")); [|done].
    cbn [andb].
    rewrite run_Seq, run_Group, run_Plus_class.
    destruct s1 as [|x s1]; [done|]. cbn [takeClass skipClass].
    destruct (isWord x) eqn:Hx; [|done].
    rewrite starClass_longest.
    2:{ intros y s' c' Hy. rewrite run_Seq, run_Lit.
        by rewrite (isWord_not y (ch ">") Hy). }
    rewrite run_Seq, run_Lit.
    pose proof (take_takeClass isWord (x :: s1)) as Htake.
    cbn [takeClass skipClass] in Htake. rewrite Hx in Htake. rewrite Htake.
    destruct (skipClass isWord s1) as [|gt s3]; [done|].
    destruct (Ascii.eqb gt (ch ">")); [|done].
    rewrite run_Seq, run_star_class, starClass_total.
    2:{ intros s' c'. rewrite run_Seq, run_Quest, run_Lit, run_Emp.
        destruct s' as [|y s']; [by eexists|].
        destruct (Ascii.eqb y (ch ")")); by eexists. }
    rewrite run_Seq, run_Quest, run_Lit, run_Emp.
    destruct (skipClass _ s3) as [|y s5]; [done|].
    by destruct (Ascii.eqb y (ch ")")).
Qed.

Lemma reqdBody_paren s : reqdBody (ch "(" :: s) = None.
Proof. unfold reqdBody. by destruct s as [|P [|lt s1]]. Qed.

(** [reqdRe] matches as [reqdAt] says. *)
Lemma matchAt_reqdRe s :
  matchAt reqdRe s =
    match reqdAt s with
    | Some (name, rest) => Some (rest, [(1, name)])
    | None => None
    end.
Proof.
  unfold matchAt, reqdRe.
  change (seqs (?r :: ?rs)) with (Seq r (seqs rs)).
  rewrite run_Seq, run_Quest, run_Lit. cbv beta.
  rewrite (run_reqdBody s).
  unfold reqdAt. destruct s as [|x s]; [done|].
  destruct (Ascii.eqb x (ch "(")) eqn:Hx.
  - rewrite run_reqdBody.
    apply Ascii.eqb_eq in Hx. subst x. rewrite reqdBody_paren.
    rewrite orElse_None_r.
    by destruct (reqdBody s) as [[name rest]|].
  - cbn [orElse]. by destruct (reqdBody (x :: s)) as [[name rest]|].
Qed.

(** *** The leftmost match *)

Lemma quiet_nil r z : quiet r [] z.
Proof. intros a1 a2 H Hne. symmetry in H. by apply app_eq_nil in H as [_ ?]. Qed.

Lemma quiet_cons r x a z :
  matchAt r (x :: a ++ z) = None -> quiet r a z -> quiet r (x :: a) z.
Proof.
  intros Hx Ha a1 a2 Heq Hne. destruct a1 as [|y a1]; simpl in Heq.
  - by subst.
  - injection Heq as -> ->. by apply (Ha a1 a2).
Qed.

Lemma quiet_app r a b z : quiet r a (b ++ z) -> quiet r b z -> quiet r (a ++ b) z.
Proof.
  intros Ha Hb a1 a2 Heq Hne.
  apply app_eq_app in Heq as [l [[-> ->]|[-> ->]]].
  - destruct l as [|x l].
    + rewrite app_nil_l. apply (Hb [] b); [done|]. intros ->.
      by rewrite app_nil_r in Hne.
    + rewrite <- app_assoc. by apply (Ha a1 (x :: l)).
  - by apply (Hb l a2).
Qed.

Section Find.
Context (r : re).
Hypothesis match_suffix :
  forall s rest c, matchAt r s = Some (rest, c) -> exists m, s = m ++ rest.

(** What [find] returns is a match, none starts before it, and the three
    parts make up the input. *)
Lemma find_spec s f :
  find r s = Some f ->
  s = before f ++ whole f ++ after f
  /\ matchAt r (whole f ++ after f) = Some (after f, groups f)
  /\ quiet r (before f) (whole f ++ after f).
Proof.
  revert f. induction s as [|x s IH]; intros f; simpl.
  - destruct (matchAt r []) as [[rest c]|] eqn:Hm; [|done].
    intros [= <-]. simpl.
    destruct (match_suffix _ _ _ Hm) as [m Heq].
    symmetry in Heq. apply app_eq_nil in Heq as [-> ->]. simpl.
    split; [done|]. split; [done|]. apply quiet_nil.
  - destruct (matchAt r (x :: s)) as [[rest c]|] eqn:Hm.
    + intros [= <-]. simpl.
      destruct (match_suffix _ _ _ Hm) as [m Heq].
      assert (take (S (length s) - length rest) (x :: s) = m) as ->.
      { change (S (length s)) with (length (x :: s)). rewrite Heq.
        rewrite length_app.
        replace (length m + length rest - length rest) with (length m) by lia.
        by rewrite take_app_length. }
      rewrite <- Heq. split; [done|]. split; [done|]. apply quiet_nil.
    + destruct (find r s) as [f'|] eqn:Hf; [|done].
      intros [= <-]. simpl.
      destruct (IH f' eq_refl) as (Heq & Hmatch & Hquiet).
      split; [by rewrite Heq at 1|]. split; [done|].
      apply quiet_cons; [|done]. by rewrite <- Heq.
Qed.

(** When no match is empty, the scan is a plain recursion. *)
Hypothesis match_nonempty : forall s c, matchAt r s <> Some (s, c).

Lemma find_nonempty s f : find r s = Some f -> whole f <> [].
Proof.
  intros Hf Hw. destruct (find_spec s f Hf) as (_ & Hm & _).
  rewrite Hw in Hm. simpl in Hm. by apply match_nonempty in Hm.
Qed.

Lemma allMatches_step fuel pre s adj :
  allMatches r (S fuel) pre s adj =
    match find r s with
    | None => ([], pre ++ s)
    | Some f =>
        let '(ms, tl) := allMatches r fuel [] (after f) true in
        (Found (pre ++ before f) (whole f) (groups f) (after f) :: ms, tl)
    end.
Proof.
  simpl. destruct (find r s) as [f|] eqn:Hf; [|done].
  pose proof (find_nonempty s f Hf) as Hne.
  destruct (before f), (whole f); done.
Qed.

End Find.

(** *** The shape of a match of [reqdRe] *)

Lemma takeClass_stop p w x r :
  forallb p w = true -> p x = false -> takeClass p (w ++ x :: r) = w.
Proof.
  induction w as [|y w IH]; simpl; intros Hw Hx; [by rewrite Hx|].
  apply andb_true_iff in Hw as [-> Hw]. by rewrite IH.
Qed.

Lemma skipClass_stop p w x r :
  forallb p w = true -> p x = false -> skipClass p (w ++ x :: r) = x :: r.
Proof.
  induction w as [|y w IH]; simpl; intros Hw Hx; [by rewrite Hx|].
  apply andb_true_iff in Hw as [-> Hw]. by rewrite IH.
Qed.

Lemma reqdBody_intro name r :
  name <> [] -> forallb isWord name = true ->
  is_Some (reqdBody (keyText name ++ r)).
Proof.
  intros Hne Hw. unfold keyText, reqdBody. cbn [app].
  rewrite !Ascii.eqb_refl. cbn [andb]. rewrite <- app_assoc. cbn [app].
  rewrite takeClass_stop, skipClass_stop by done.
  destruct name as [|x name]; [done|].
  rewrite Ascii.eqb_refl. by eexists.
Qed.

Lemma reqdBody_inv s name rest :
  reqdBody s = Some (name, rest) ->
  name <> [] /\ forallb isWord name = true
  /\ exists t, s = keyText name ++ t ++ rest.
Proof.
  unfold reqdBody. destruct s as [|q [|P [|lt s1]]]; try done.
  destruct (Ascii.eqb q (ch "?")) eqn:Hq; [|done].
  destruct (Ascii.eqb P (ch "P")) eqn:HP; [|done].
  destruct (Ascii.eqb lt (ch "<")) eqn:Hlt; [|done].
  apply Ascii.eqb_eq in Hq, HP, Hlt. subst. cbn [andb].
  pose proof (takeClass_skipClass isWord s1) as Hs1.
  pose proof (takeClass_all isWord s1) as Hall.
  destruct (takeClass isWord s1) as [|x w] eqn:Hw; [done|].
  destruct (skipClass isWord s1) as [|gt s3] eqn:Hs3; [done|].
  destruct (Ascii.eqb gt (ch ">")) eqn:Hgt; [|done].
  apply Ascii.eqb_eq in Hgt. subst gt.
  pose proof (takeClass_skipClass (noneOf (lit ")")) s3) as Hs4.
  remember (takeClass (noneOf (lit ")")) s3) as t0 eqn:Ht0. clear Ht0.
  destruct (skipClass (noneOf (lit ")")) s3) as [|y s5].
  - intros [= <- <-]. split; [done|]. split; [done|].
    exists t0. subst s1 s3. unfold keyText. cbn [app].
    by rewrite <- !app_assoc.
  - destruct (Ascii.eqb y (ch ")")) eqn:Hy; intros [= <- <-];
      (split; [done|]); (split; [done|]).
    + exists (t0 ++ [y]). subst s1 s3. unfold keyText. cbn [app].
      by rewrite <- !app_assoc.
    + exists t0. subst s1 s3. unfold keyText. cbn [app].
      by rewrite <- !app_assoc.
Qed.

(** A match of [reqdRe] is a key text, after a parenthesis or not, and
    some more text. *)
Lemma reqdAt_inv s name rest :
  reqdAt s = Some (name, rest) ->
  name <> [] /\ forallb isWord name = true
  /\ exists pre t,
       (pre = [] \/ pre = [ch "("]) /\ s = (pre ++ keyText name ++ t) ++ rest.
Proof.
  unfold reqdAt. destruct s as [|x s]; [done|].
  destruct (Ascii.eqb x (ch "(")) eqn:Hx.
  - apply Ascii.eqb_eq in Hx. subst x. rewrite reqdBody_paren, orElse_None_r.
    intros H. apply reqdBody_inv in H as (Hne & Hw & t & ->).
    split; [done|]. split; [done|]. exists [ch "("], t.
    split; [by right|]. cbn [app]. by rewrite <- !app_assoc.
  - intros H. apply reqdBody_inv in H as (Hne & Hw & t & ->).
    split; [done|]. split; [done|]. exists [], t.
    split; [by left|]. cbn [app]. by rewrite <- !app_assoc.
Qed.

Lemma reqdAt_intro pre name r :
  pre = [] \/ pre = [ch "("] ->
  name <> [] -> forallb isWord name = true ->
  is_Some (reqdAt (pre ++ keyText name ++ r)).
Proof.
  intros [-> | ->] Hne Hw.
  - cbn [app]. unfold reqdAt.
    change (keyText name ++ r) with (ch "?" :: (ch "P" :: ch "<" :: name ++ [ch ">"]) ++ r).
    change (Ascii.eqb (ch "?") (ch "(")) with false. cbv iota.
    by apply (reqdBody_intro name r).
  - cbn [app]. unfold reqdAt. rewrite Ascii.eqb_refl.
    destruct (reqdBody_intro name r Hne Hw) as [v ->]. by eexists.
Qed.

Lemma reqdAt_head x s :
  is_Some (reqdAt (x :: s)) -> x = ch "(" \/ x = ch "?".
Proof.
  intros [[name rest] H].
  apply reqdAt_inv in H as (_ & _ & pre & t & [-> | ->] & Heq);
    cbn [app keyText] in Heq; injection Heq as -> _; auto.
Qed.

(** A brace is no part of a key text: a match that starts before a brace
    has its key text before the brace. *)
Lemma reqdAt_brace g X Y :
  is_Some (reqdAt (g ++ ch "{" :: X)) -> is_Some (reqdAt (g ++ Y)).
Proof.
  intros [[name rest] H].
  apply reqdAt_inv in H as (Hne & Hw & pre & t & Hpre & Heq).
  rewrite <- !app_assoc in Heq.
  assert (ch "{" ∉ pre ++ keyText name) as Hnot.
  { intros Hin. apply elem_of_app in Hin as [Hin|Hin].
    - destruct Hpre as [-> | ->]; [by apply elem_of_nil in Hin|].
      apply list_elem_of_singleton in Hin. discriminate Hin.
    - unfold keyText in Hin.
      rewrite !elem_of_cons, elem_of_app, list_elem_of_singleton in Hin.
      destruct Hin as [Hin|[Hin|[Hin|[Hin|Hin]]]]; try discriminate Hin.
      rewrite forallb_forall in Hw. apply list_elem_of_In, Hw in Hin.
      discriminate Hin. }
  rewrite (app_assoc pre) in Heq.
  apply app_eq_app in Heq as [l [[-> Hl]|[Hkey Hl]]].
  - rewrite <- !app_assoc. by apply reqdAt_intro.
  - destruct l as [|y l].
    + rewrite app_nil_r in Hkey. subst g.
      rewrite <- !app_assoc. by apply reqdAt_intro.
    + injection Hl as <- _. exfalso. apply Hnot. rewrite Hkey.
      apply elem_of_app. right. by left.
Qed.

Lemma matchAt_reqdRe_None s : matchAt reqdRe s = None <-> reqdAt s = None.
Proof.
  rewrite matchAt_reqdRe. destruct (reqdAt s) as [[name rest]|]; done.
Qed.

Lemma matchAt_reqdRe_suffix s rest c :
  matchAt reqdRe s = Some (rest, c) -> exists m, s = m ++ rest.
Proof.
  rewrite matchAt_reqdRe.
  destruct (reqdAt s) as [[name rest']|] eqn:H; [|done].
  intros [= <- <-].
  apply reqdAt_inv in H as (_ & _ & pre & t & _ & ->). by eexists.
Qed.

Lemma matchAt_reqdRe_nonempty s c : matchAt reqdRe s <> Some (s, c).
Proof.
  rewrite matchAt_reqdRe.
  destruct (reqdAt s) as [[name rest']|] eqn:H; [|done].
  intros [= -> <-].
  apply reqdAt_inv in H as (_ & _ & pre & t & Hpre & Heq).
  apply (f_equal length) in Heq. rewrite !length_app in Heq.
  unfold keyText in Heq. simpl in Heq. lia.
Qed.

(** *** Replacing the first occurrence *)

Lemma HasPrefix_app m r : HasPrefix (m ++ r) m = true.
Proof.
  induction m as [|x m IH]; simpl; [by destruct r|].
  by rewrite Ascii.eqb_refl, IH.
Qed.

Lemma HasPrefix_inv s m : HasPrefix s m = true -> exists r, s = m ++ r.
Proof.
  revert s. induction m as [|x m IH]; intros s H; simpl in H.
  - by exists s.
  - destruct s as [|y s]; [done|].
    apply andb_true_iff in H as [Hxy H]. apply Ascii.eqb_eq in Hxy. subst y.
    destruct (IH s H) as [r ->]. by exists r.
Qed.

(** [cut] finds the occurrence of [m] after [a] when none starts inside
    [a]. *)
Lemma cut_first a m r :
  (forall a1 a2, a = a1 ++ a2 -> a2 <> [] -> HasPrefix (a2 ++ m ++ r) m = false) ->
  cut (a ++ m ++ r) m = Some (a, r).
Proof.
  induction a as [|x a IH]; intros Hno.
  - cbn [app]. destruct (m ++ r) eqn:Hmr.
    + simpl. destruct m; [|done]. simpl in Hmr. subst. done.
    + unfold cut; fold cut. rewrite <- Hmr.
      rewrite HasPrefix_app. by rewrite drop_app_length.
  - assert (HasPrefix ((x :: a) ++ m ++ r) m = false) as H0
      by (by apply (Hno [] (x :: a))).
    cbn [app] in *. unfold cut; fold cut. rewrite H0.
    rewrite IH; [done|].
    intros a1 a2 -> Hne. by apply (Hno (x :: a1) a2).
Qed.

Lemma Replace_first a m new r :
  m <> [] -> m <> new ->
  (forall a1 a2, a = a1 ++ a2 -> a2 <> [] -> HasPrefix (a2 ++ m ++ r) m = false) ->
  Replace (a ++ m ++ r) m new 1 = a ++ new ++ r.
Proof.
  intros Hne Hnew Hno. unfold Replace.
  rewrite bool_decide_eq_false_2 by done. cbn [orb Z.eqb].
  destruct m as [|x m]; [done|].
  cbn [replaceFirst Z.eqb]. rewrite (cut_first a (x :: m) r Hno).
  destruct (length (a ++ (x :: m) ++ r)); done.
Qed.

(** *** The loop of [replaceNamed] *)

Lemma quiet_braces name z :
  forallb isWord name = true -> quiet reqdRe (braces name) z.
Proof.
  intros Hw a1 a2 Heq Hne. apply matchAt_reqdRe_None.
  destruct a2 as [|y a2]; [done|].
  destruct (reqdAt ((y :: a2) ++ z)) eqn:Hat; [|done].
  exfalso.
  assert (y ∈ braces name) as Hy.
  { rewrite Heq. apply elem_of_app. right. by left. }
  assert (is_Some (reqdAt (y :: a2 ++ z))) as Hs by eauto.
  apply reqdAt_head in Hs.
  unfold braces in Hy. change (lit "{") with [ch "{"] in Hy.
  change (lit "}") with [ch "}"] in Hy.
  rewrite !elem_of_app, !list_elem_of_singleton in Hy.
  destruct Hy as [->|[Hy| ->]].
  - destruct Hs as [Hs|Hs]; discriminate Hs.
  - rewrite forallb_forall in Hw. apply list_elem_of_In, Hw in Hy.
    destruct Hs as [-> | ->]; discriminate Hy.
  - destruct Hs as [Hs|Hs]; discriminate Hs.
Qed.

Lemma quiet_before_braces g m r name z :
  quiet reqdRe g (m ++ r) -> quiet reqdRe g (braces name ++ z).
Proof.
  intros Hq a1 a2 Heq Hne. apply matchAt_reqdRe_None.
  destruct (reqdAt (a2 ++ braces name ++ z)) eqn:Hat; [|done].
  exfalso.
  assert (is_Some (reqdAt (a2 ++ ch "{" :: name ++ lit "}" ++ z))) as Hs.
  { unfold braces in Hat. change (lit "{") with [ch "{"] in Hat.
    rewrite <- !app_assoc in Hat. cbn [app] in Hat. eauto. }
  apply (reqdAt_brace a2 _ (m ++ r)) in Hs.
  specialize (Hq a1 a2 Heq Hne). apply matchAt_reqdRe_None in Hq.
  rewrite Hq in Hs. by destruct Hs.
Qed.

(** Each turn of the loop replaces the match it was made for: the text of a
    match occurs nowhere before the match, neither in the text that is yet
    to be rewritten nor in the part already rewritten. *)
Lemma replaceNamed_loop fuel p s adj :
  length s < fuel ->
  (forall z, quiet reqdRe p z) ->
  fold_left replaceStep (map (submatch 1) (allMatches reqdRe fuel [] s adj).1)
    (p ++ s)
  = p ++ flat_map (fun f => before f ++ braces (cap 1 (groups f)))
           (allMatches reqdRe fuel [] s adj).1
      ++ (allMatches reqdRe fuel [] s adj).2.
Proof.
  revert p s adj. induction fuel as [|fuel IH]; intros p s adj Hlen Hp; [lia|].
  rewrite (allMatches_step reqdRe matchAt_reqdRe_suffix matchAt_reqdRe_nonempty).
  destruct (find reqdRe s) as [f|] eqn:Hf; [|done].
  destruct (find_spec reqdRe matchAt_reqdRe_suffix s f Hf) as (Hs & Hm & Hq).
  destruct f as [fb fw fg fa]. cbn [before whole groups after] in *.
  rewrite matchAt_reqdRe in Hm.
  destruct (reqdAt (fw ++ fa)) as [[name rest]|] eqn:Hat; [|done].
  injection Hm as -> Hg.
  pose proof Hat as Hinv.
  apply reqdAt_inv in Hinv as (Hne & Hw & pre & t & Hpre & Heq).
  apply app_inv_tail in Heq.
  assert (length fa < fuel) as Hlen'.
  { rewrite Hs, !length_app in Hlen. rewrite Heq, !length_app in Hlen.
    unfold keyText in Hlen. simpl in Hlen. lia. }
  assert (forall b, is_Some (reqdAt (fw ++ b))) as Hany.
  { intros b. rewrite Heq, <- !app_assoc. by apply reqdAt_intro. }
  assert (cap 1 fg = name) as Hcap by (by rewrite <- Hg).
  destruct (allMatches reqdRe fuel [] fa true) as [ms tl] eqn:Hrest.
  cbn [fst snd map fold_left flat_map app before whole groups].
  assert (replaceStep (p ++ s) (submatch 1 (Found fb fw fg fa))
          = (p ++ fb ++ braces name) ++ fa) as ->.
  { unfold replaceStep, submatch. cbn [nth map seq whole groups]. rewrite Hcap.
    rewrite Hs at 1. rewrite (app_assoc p).
    rewrite Replace_first.
    - unfold braces. by rewrite <- !app_assoc.
    - intros Hw0. rewrite Hw0 in Heq. symmetry in Heq.
      apply app_eq_nil in Heq as [_ Heq]. by apply app_eq_nil in Heq as [? _].
    - intros Heq'. rewrite Heq in Heq'.
      destruct Hpre as [-> | ->]; discriminate Heq'.
    - intros a1 a2 Ha Hne2.
      destruct (HasPrefix (a2 ++ fw ++ fa) fw) eqn:Hpre2; [|done].
      exfalso. apply HasPrefix_inv in Hpre2 as [b Hb].
      assert (quiet reqdRe (p ++ fb) (fw ++ fa)) as Hq2
        by (apply quiet_app; [apply Hp|done]).
      specialize (Hq2 a1 a2 Ha Hne2). apply matchAt_reqdRe_None in Hq2.
      rewrite Hb in Hq2. destruct (Hany b) as [v Hv]. congruence. }
  pose proof (IH (p ++ fb ++ braces name) fa true Hlen') as IH'.
  rewrite Hrest in IH'. cbn [fst snd] in IH'. rewrite IH'.
  - rewrite Hcap. by rewrite <- !app_assoc.
  - intros z. apply quiet_app; [apply Hp|].
    apply quiet_app; [|by apply quiet_braces].
    by eapply quiet_before_braces.
Qed.

(** The loop of [replaceNamed] rewrites every match of [reqdRe] where it
    stands. *)
Lemma replaceNamed_rewriteCaptures path : replaceNamed path = rewriteCaptures path.
Proof.
  unfold replaceNamed, rewriteCaptures, FindAllStringSubmatch, matches.
  pose proof (replaceNamed_loop (S (length path)) [] path false) as H.
  cbn [app] in H.
  change (fun path0 p => Replace path0 (nth 0 p []) (lit "{" ++ nth 1 p [] ++ lit "}") 1)
    with replaceStep.
  rewrite H; [|lia|intros z; apply quiet_nil].
  by destruct (allMatches reqdRe (S (length path)) [] path false).
Qed.

(** *** What the cleaning removes *)

Lemma Deleted_refl q s : Deleted q s s.
Proof. induction s; by constructor. Qed.

Lemma Deleted_all q w : forallb q w = true -> Deleted q w [].
Proof.
  induction w as [|x w IH]; simpl; intros H; [constructor|].
  apply andb_true_iff in H as [Hx Hw]. constructor; auto.
Qed.

Lemma Deleted_app q s1 s1' s2 s2' :
  Deleted q s1 s1' -> Deleted q s2 s2' -> Deleted q (s1 ++ s2) (s1' ++ s2').
Proof. induction 1; intros H2; simpl; [done|constructor; auto..]. Qed.

Lemma Deleted_trans q s1 s2 s3 :
  Deleted q s1 s2 -> Deleted q s2 s3 -> Deleted q s1 s3.
Proof.
  intros H. revert s3. induction H; intros s3 H3.
  - done.
  - inversion H3; subst; constructor; auto.
  - constructor; auto.
Qed.

Lemma Deleted_weaken (q q' : ascii -> bool) s s' :
  (forall x, q x = true -> q' x = true) -> Deleted q s s' -> Deleted q' s s'.
Proof. intros Hq. induction 1; constructor; auto. Qed.

Lemma Deleted_prefix q x s' b :
  forallb (fun y => negb (q y)) x = true ->
  Deleted q (x ++ b) s' -> exists b', s' = x ++ b'.
Proof.
  revert s'. induction x as [|y x IH]; intros s' Hx H; simpl in *.
  - by exists s'.
  - apply andb_true_iff in Hx as [Hy Hx].
    inversion H as [|? ? s0 H0|? ? ? Hq H0]; subst.
    + destruct (IH s0 Hx H0) as [b' ->]. by exists b'.
    + rewrite Hq in Hy. done.
Qed.

(** Text that holds no character of the class stays where it is. *)
Lemma Deleted_keeps q a x b s' :
  forallb (fun y => negb (q y)) x = true ->
  Deleted q (a ++ x ++ b) s' -> exists a' b', s' = a' ++ x ++ b'.
Proof.
  intros Hx. revert s'. induction a as [|y a IH]; intros s' H; simpl in H.
  - destruct (Deleted_prefix q x s' b Hx H) as [b' ->]. by exists [], b'.
  - inversion H as [|? ? s0 H0|? ? ? Hq H0]; subst.
    + destruct (IH s0 H0) as (a' & b' & ->). by exists (y :: a'), b'.
    + destruct (IH s' H0) as (a' & b' & ->). by exists a', b'.
Qed.

Section ReplaceAll.
Context (r : re) (q : ascii -> bool).
Hypothesis match_suffix :
  forall s rest c, matchAt r s = Some (rest, c) -> exists m, s = m ++ rest.
Hypothesis match_nonempty : forall s c, matchAt r s <> Some (s, c).
Hypothesis match_class :
  forall m rest c, matchAt r (m ++ rest) = Some (rest, c) -> forallb q m = true.

Lemma allMatches_deleted fuel pre s adj :
  length s < fuel ->
  Deleted q (pre ++ s)
    (flat_map (fun f => before f ++ []) (allMatches r fuel pre s adj).1
       ++ (allMatches r fuel pre s adj).2).
Proof.
  revert pre s adj. induction fuel as [|fuel IH]; intros pre s adj Hlen; [lia|].
  rewrite (allMatches_step r match_suffix match_nonempty).
  destruct (find r s) as [f|] eqn:Hf; [|apply Deleted_refl].
  destruct (find_spec r match_suffix s f Hf) as (Hs & Hm & Hq).
  pose proof (find_nonempty r match_suffix match_nonempty s f Hf) as Hne.
  assert (length (after f) < fuel) as Hlen'.
  { rewrite Hs, !length_app in Hlen. destruct (whole f); [done|]. simpl in Hlen. lia. }
  specialize (IH [] (after f) true Hlen').
  destruct (allMatches r fuel [] (after f) true) as [ms tl].
  cbn [fst snd flat_map before app] in *.
  rewrite Hs at 1. rewrite !app_nil_r, <- !app_assoc.
  apply Deleted_app; [apply Deleted_refl|].
  apply Deleted_app; [apply Deleted_refl|].
  change (flat_map (fun f0 => before f0 ++ []) ms ++ tl)
    with ([] ++ (flat_map (fun f0 => before f0 ++ []) ms ++ tl)).
  apply Deleted_app; [|done].
  apply Deleted_all. by eapply match_class.
Qed.

Lemma ReplaceAllString_deleted s : Deleted q s (ReplaceAllString r s []).
Proof.
  unfold ReplaceAllString, matches.
  pose proof (allMatches_deleted (S (length s)) [] s false) as H.
  destruct (allMatches r (S (length s)) [] s false) as [ms tl].
  apply H. lia.
Qed.

(** The matches and the text between them make up the input. *)
Lemma allMatches_tiles fuel pre s adj :
  length s < fuel ->
  pre ++ s
  = flat_map (fun f => before f ++ whole f) (allMatches r fuel pre s adj).1
      ++ (allMatches r fuel pre s adj).2.
Proof.
  revert pre s adj. induction fuel as [|fuel IH]; intros pre s adj Hlen; [lia|].
  rewrite (allMatches_step r match_suffix match_nonempty).
  destruct (find r s) as [f|] eqn:Hf; [|done].
  destruct (find_spec r match_suffix s f Hf) as (Hs & Hm & Hq).
  pose proof (find_nonempty r match_suffix match_nonempty s f Hf) as Hne.
  assert (length (after f) < fuel) as Hlen'.
  { rewrite Hs, !length_app in Hlen. destruct (whole f); [done|]. simpl in Hlen. lia. }
  specialize (IH [] (after f) true Hlen').
  destruct (allMatches r fuel [] (after f) true) as [ms tl].
  cbn [fst snd flat_map before whole app] in *.
  rewrite Hs at 1. rewrite IH. by rewrite <- !app_assoc.
Qed.

End ReplaceAll.

Lemma Class_facts p :
  (forall s rest c, matchAt (Class p) s = Some (rest, c) -> exists m, s = m ++ rest)
  /\ (forall s c, matchAt (Class p) s <> Some (s, c))
  /\ (forall m rest c, matchAt (Class p) (m ++ rest) = Some (rest, c) ->
        forallb p m = true).
Proof.
  unfold matchAt. repeat split.
  - intros [|x s] rest c H; simpl in H; [done|].
    destruct (p x); [|done]. injection H as <- _. by exists [x].
  - intros [|x s] c H; simpl in H; [done|].
    destruct (p x); [|done]. injection H as H _.
    apply (f_equal length) in H. simpl in H. lia.
  - intros m rest c H.
    destruct (m ++ rest) as [|x s] eqn:Hms; simpl in H; [done|].
    destruct (p x) eqn:Hx; [|done]. injection H as <- _.
    assert (m = [x]) as ->.
    { apply (app_inv_tail s). by rewrite Hms. }
    simpl. by rewrite Hx.
Qed.

Lemma cleanSuffixRe_match s rest c :
  matchAt cleanSuffixRe s = Some (rest, c) ->
  rest = [] /\ (s = lit "/?" \/ s = lit "/?$").
Proof.
  unfold matchAt, cleanSuffixRe, seqs. cbn [foldr].
  rewrite run_Seq, run_Lit. destruct s as [|x1 s]; [done|].
  destruct (Ascii.eqb x1 (ch "/")) eqn:H1; [|done].
  apply Ascii.eqb_eq in H1. subst x1.
  rewrite run_Seq, run_Lit. destruct s as [|x2 s]; [done|].
  destruct (Ascii.eqb x2 (ch "?")) eqn:H2; [|done].
  apply Ascii.eqb_eq in H2. subst x2.
  rewrite run_Seq, run_Quest, run_Lit.
  destruct s as [|x3 s].
  - simpl. intros [= <- _]. auto.
  - destruct (Ascii.eqb x3 (ch "$")) eqn:H3.
    + apply Ascii.eqb_eq in H3. subst x3.
      destruct s as [|x4 s]; simpl.
      * intros [= <- _]. auto.
      * done.
    + simpl. done.
Qed.

Lemma cleanSuffixRe_facts :
  (forall s rest c, matchAt cleanSuffixRe s = Some (rest, c) -> exists m, s = m ++ rest)
  /\ (forall s c, matchAt cleanSuffixRe s <> Some (s, c))
  /\ (forall m rest c, matchAt cleanSuffixRe (m ++ rest) = Some (rest, c) ->
        forallb suffixChar m = true).
Proof.
  repeat split.
  - intros s rest c H. apply cleanSuffixRe_match in H as [-> _].
    exists s. by rewrite app_nil_r.
  - intros s c H. apply cleanSuffixRe_match in H as [-> [H|H]]; discriminate H.
  - intros m rest c H. apply cleanSuffixRe_match in H as [-> [H|H]];
      rewrite app_nil_r in H; subst m; reflexivity.
Qed.

Lemma oneOf_subset l l' x :
  (forall y, In y l -> In y l') -> oneOf l x = true -> oneOf l' x = true.
Proof.
  unfold oneOf. rewrite !existsb_exists. intros Hsub (y & Hy & Hxy). eauto.
Qed.

(** The cleaning only removes characters among [/ ? $ ( ) ^]. *)
Lemma cleanPath_deleted path : Deleted cleanChar path (cleanPath path).
Proof.
  unfold cleanPath.
  destruct cleanSuffixRe_facts as (Hs1 & Hs2 & Hs3).
  destruct (Class_facts (oneOf (lit "()^$?"))) as (Hc1 & Hc2 & Hc3).
  eapply Deleted_trans.
  - eapply (Deleted_weaken suffixChar).
    2: by apply (ReplaceAllString_deleted cleanSuffixRe suffixChar).
    intros x. apply oneOf_subset. intros y Hy. simpl in *. tauto.
  - eapply (Deleted_weaken (oneOf (lit "()^$?"))).
    2: by apply (ReplaceAllString_deleted (Class (oneOf (lit "()^$?")))).
    intros x. apply oneOf_subset. intros y Hy. simpl in *. tauto.
Qed.

Lemma isWord_not_cleanChar x : isWord x = true -> cleanChar x = false.
Proof.
  intros Hw. unfold cleanChar, oneOf. simpl.
  repeat match goal with
         | |- context [Ascii.eqb x ?c] =>
             let E := fresh "E" in
             destruct (Ascii.eqb x c) eqn:E;
               [apply Ascii.eqb_eq in E; subst x; vm_compute in Hw; discriminate Hw|]
         end.
  done.
Qed.

(** A name in braces outlives the cleaning. *)
Lemma cleanPath_keeps_braces a name b :
  forallb isWord name = true ->
  exists a' b', cleanPath (a ++ braces name ++ b) = a' ++ braces name ++ b'.
Proof.
  intros Hw. apply (Deleted_keeps cleanChar a (braces name) b).
  - unfold braces. rewrite !forallb_app. simpl.
    rewrite andb_true_r. 
    rewrite forallb_forall in Hw. rewrite forallb_forall.
    intros x Hx. by rewrite (isWord_not_cleanChar x (Hw x Hx)).
  - apply cleanPath_deleted.
Qed.

(** *** Every match takes its characters from the front of the input *)

Lemma run_consumes r :
  forall {A} s c (k : gostring -> caps -> option A) v,
    run r s c k = Some v ->
    exists m s' c', s = m ++ s' /\ minLen r <= length m /\ k s' c' = Some v.
Proof.
  induction r as [| a | p | | r1 IH1 r2 IH2 | r1 IH1 r2 IH2 | g r1 IH1 | n r1 IH1];
    intros A s c k v H.
  - exists [], s, c. simpl. split; [done|]. split; [lia|done].
  - simpl in H. destruct s as [|x s]; [done|].
    destruct (Ascii.eqb x a); [|done].
    exists [x], s, c. simpl. split; [done|]. split; [lia|done].
  - simpl in H. destruct s as [|x s]; [done|].
    destruct (p x); [|done].
    exists [x], s, c. simpl. split; [done|]. split; [lia|done].
  - simpl in H. destruct s as [|x s]; [|done].
    exists [], [], c. simpl. split; [done|]. split; [lia|done].
  - rewrite run_Seq in H.
    apply IH1 in H as (m1 & s1 & c1 & -> & Hl1 & H).
    apply IH2 in H as (m2 & s2 & c2 & -> & Hl2 & H).
    exists (m1 ++ m2), s2, c2. rewrite <- app_assoc. split; [done|].
    rewrite length_app. simpl. split; [lia|done].
  - simpl in H. unfold orElse in H.
    destruct (run r1 s c k) as [v1|] eqn:H1.
    + injection H as ->. apply IH1 in H1 as (m & s' & c' & -> & Hl & H).
      exists m, s', c'. split; [done|]. simpl. split; [lia|done].
    + apply IH2 in H as (m & s' & c' & -> & Hl & H).
      exists m, s', c'. split; [done|]. simpl. split; [lia|done].
  - simpl in H. simpl minLen.
    assert (forall n s c,
              (fix loop (n : nat) (s : gostring) (c : caps) {struct n} : option A :=
                 match n with
                 | O => k s c
                 | S n' =>
                     let more :=
                       run r1 s c (fun s' c' =>
                         if length s' <? length s then loop n' s' c' else None) in
                     if g then orElse more (k s c) else orElse (k s c) more
                 end) n s c = Some v ->
              exists m s' c', s = m ++ s' /\ k s' c' = Some v) as Hloop.
    { clear H s c. induction n as [|n IHn]; intros s c H.
      - by exists [], s, c.
      - cbv zeta in H.
        match type of H with
        | context [run r1 s c ?k'] =>
            destruct (run r1 s c k') as [v1|] eqn:Hmore
        end.
        + assert (v1 = v \/ k s c = Some v) as [-> | Hk].
          { destruct g; simpl in H; [left; congruence|].
            destruct (k s c); simpl in H; [right; congruence|left; congruence]. }
          * apply IH1 in Hmore as (m1 & s1 & c1 & -> & _ & Hmore).
            destruct (length s1 <? length (m1 ++ s1)); [|done].
            apply IHn in Hmore as (m2 & s2 & c2 & -> & Hk).
            exists (m1 ++ m2), s2, c2. by rewrite <- app_assoc.
          * by exists [], s, c.
        + exists [], s, c. split; [done|].
          destruct g; simpl in H; [done|]. by destruct (k s c). }
    apply Hloop in H as (m & s' & c' & -> & Hk).
    exists m, s', c'. split; [done|]. split; [lia|done].
  - rewrite run_Group in H.
    apply IH1 in H as (m & s' & c' & -> & Hl & H).
    eexists m, s', _. split; [done|]. split; [done|exact H].
Qed.

Lemma matchAt_consumes r s rest c :
  matchAt r s = Some (rest, c) ->
  exists m, s = m ++ rest /\ minLen r <= length m.
Proof.
  unfold matchAt. intros H.
  apply run_consumes in H as (m & s' & c' & -> & Hl & [= -> _]).
  by exists m.
Qed.

Lemma matchAt_suffix r s rest c :
  matchAt r s = Some (rest, c) -> exists m, s = m ++ rest.
Proof. intros H. apply matchAt_consumes in H as (m & -> & _). by exists m. Qed.

Lemma find_consumes r s f :
  find r s = Some f -> minLen r <= length (whole f).
Proof.
  intros Hf.
  destruct (find_spec r (matchAt_suffix r) s f Hf) as (_ & Hm & _).
  apply matchAt_consumes in Hm as (m & Heq & Hl).
  apply app_inv_tail in Heq. by subst.
Qed.

(** *** The loop over the optional elements comes to its end *)

Lemma runPow_spends {St} (step : St -> option St) (weight : St -> nat) n st :
  (forall s s', step s = Some s' -> weight s' < weight s) ->
  if (runPow step n st).2
  then step (runPow step n st).1 = None
  else weight (runPow step n st).1 + 2 ^ n <= weight st.
Proof.
  intros Hstep. revert st. induction n as [|n IH]; intros st.
  - simpl. destruct (step st) as [st'|] eqn:Hs; simpl; [|done].
    apply Hstep in Hs. lia.
  - simpl. pose proof (IH st) as H1.
    destruct (runPow step n st) as [st1 fin1]. simpl in H1.
    destruct fin1; simpl; [done|].
    pose proof (IH st1) as H2.
    destruct (runPow step n st1) as [st2 fin2]. simpl in *.
    destruct fin2; [done|]. lia.
Qed.

Lemma runPow_finishes {St} (step : St -> option St) (weight : St -> nat) n st :
  (forall s s', step s = Some s' -> weight s' < weight s) ->
  weight st < 2 ^ n ->
  step (runPow step n st).1 = None.
Proof.
  intros Hstep Hw. pose proof (runPow_spends step weight n st Hstep) as H.
  destruct (runPow step n st).2; [done|lia].
Qed.

Lemma optWeight_budget paths : optWeight (paths, 0) < 2 ^ optBudget paths.
Proof.
  unfold optWeight, optBudget. simpl. rewrite drop_0.
  induction paths as [|p paths IH]; simpl; [lia|].
  set (b := foldr (fun p n => S (length p + n)) 0 paths) in *.
  set (w := foldr (fun p n => 2 ^ length p + (2 ^ length p + 0) + n) 0 paths) in *.
  simpl in IH.
  assert (2 ^ (length p + b) = 2 ^ length p * 2 ^ b) as Hpow
    by apply Nat.pow_add_r.
  rewrite Hpow.
  assert (1 <= 2 ^ length p) by (apply Nat.neq_0_lt_0, Nat.pow_nonzero; lia).
  assert (1 <= 2 ^ b) by (apply Nat.neq_0_lt_0, Nat.pow_nonzero; lia).
  nia.
Qed.

Lemma slice_length s lo hi :
  (0 <= lo)%Z -> (lo <= hi)%Z -> (hi <= Z.of_nat (length s))%Z ->
  length (slice s lo hi) = Z.to_nat (hi - lo).
Proof.
  intros H1 H2 H3. unfold slice. rewrite length_take, length_drop. lia.
Qed.

Lemma optStep_weight st st' : optStep st = Some st' -> optWeight st' < optWeight st.
Proof.
  destruct st as [paths i]. unfold optStep.
  destruct (paths !! i) as [p|] eqn:Hp; [|done].
  pose proof (lookup_lt_Some _ _ _ Hp) as Hi.
  assert (drop i paths = p :: drop (S i) paths) as Hdrop
    by (by apply drop_S).
  unfold FindStringIndex.
  destruct (find optRe p) as [f|] eqn:Hf.
  - intros [= <-]. unfold optWeight. cbn [fst snd].
    rewrite Hdrop.
    destruct (find_spec optRe (matchAt_suffix optRe) p f Hf) as (Hs & _ & _).
    pose proof (find_consumes optRe p f Hf) as Hl.
    change (minLen optRe) with 3 in Hl.
    assert (length p = length (before f) + length (whole f) + length (after f))
      as Hlen by (rewrite Hs at 1; rewrite !length_app; lia).
    rewrite drop_app_le by (rewrite length_insert; lia).
    rewrite drop_insert_ge by lia.
    replace (i - i) with 0 by lia. rewrite Hdrop. cbn [insert list_insert].
    rewrite foldr_app. cbn [foldr app].
    rewrite !length_app, !slice_length by lia.
    set (rest := drop (S i) paths).
    assert (forall a (l : list gostring),
              foldr (fun (q : gostring) n => 2 ^ S (length q) + n) a l
              = foldr (fun (q : gostring) n => 2 ^ S (length q) + n) 0 l + a)
      as Hacc.
    { intros a l. induction l as [|q l IH]; cbn [foldr]; [done|].
      rewrite IH. lia. }
    rewrite Hacc.
    set (w := foldr (fun (q : gostring) n => 2 ^ S (length q) + n) 0 rest).
    set (n1 := Z.to_nat (Z.of_nat (length (before f)) - 0)
               + (Z.to_nat (Z.of_nat (length (before f) + length (whole f)) - 2
                            - (Z.of_nat (length (before f)) + 1))
                  + Z.to_nat (Z.of_nat (length p)
                              - Z.of_nat (length (before f) + length (whole f))))).
    set (n2 := Z.to_nat (Z.of_nat (length (before f)) - 0)
               + Z.to_nat (Z.of_nat (length p)
                           - Z.of_nat (length (before f) + length (whole f)))).
    assert (S n1 < length p) as Hn1 by lia.
    assert (S n2 < length p) as Hn2 by lia.
    assert (2 ^ S n1 <= 2 ^ (length p - 1)) as H1
      by (apply Nat.pow_le_mono_r; lia).
    assert (2 ^ S n2 <= 2 ^ (length p - 1)) as H2
      by (apply Nat.pow_le_mono_r; lia).
    assert (2 ^ S (length p) = 4 * 2 ^ (length p - 1)) as H3.
    { replace (S (length p)) with (2 + (length p - 1)) by lia.
      by rewrite Nat.pow_add_r. }
    assert (1 <= 2 ^ (length p - 1))
      by (apply Nat.neq_0_lt_0, Nat.pow_nonzero; lia).
    lia.
  - intros [= <-]. unfold optWeight. cbn [fst snd]. rewrite Hdrop.
    cbn [foldr].
    assert (1 <= 2 ^ S (length p))
      by (apply Nat.neq_0_lt_0, Nat.pow_nonzero; lia).
    lia.
Qed.

Lemma optStep_settled st st' :
  optSettled st -> optStep st = Some st' -> optSettled st'.
Proof.
  destruct st as [paths i]. unfold optStep, optSettled. cbn [fst snd].
  intros Hinv.
  destruct (paths !! i) as [p|] eqn:Hp; [|done].
  pose proof (lookup_lt_Some _ _ _ Hp) as Hi.
  destruct (FindStringIndex optRe p) as [[m0 m1]|] eqn:Hfind.
  - intros [= <-]. cbn [fst snd]. intros j q Hj Hq.
    rewrite lookup_app_l in Hq by (rewrite length_insert; lia).
    rewrite list_lookup_insert_ne in Hq by lia. eauto.
  - intros [= <-]. cbn [fst snd]. intros j q Hj Hq.
    destruct (decide (j = i)) as [->|Hne]; [congruence|].
    apply (Hinv j q); [lia|done].
Qed.

(** When the loop is left, no path holds an optional element. *)
Lemma expandOptional_settled paths p :
  p ∈ expandOptional paths -> FindStringIndex optRe p = None.
Proof.
  unfold expandOptional. intros Hin.
  pose proof (runPow_finishes optStep optWeight (optBudget paths) (paths, 0)
                optStep_weight (optWeight_budget paths)) as Hend.
  pose proof (runPow_invariant optSettled optStep (optBudget paths) (paths, 0)
                optStep_settled) as Hinv.
  destruct (runPow optStep (optBudget paths) (paths, 0)).1 as [paths' i] eqn:Hst.
  cbn [fst] in Hin.
  unfold optStep in Hend.
  destruct (paths' !! i) as [q|] eqn:Hq.
  { by destruct (FindStringIndex optRe q) as [[m0 m1]|]. }
  apply lookup_ge_None in Hq.
  apply list_elem_of_lookup in Hin as [j Hj].
  pose proof (lookup_lt_Some _ _ _ Hj) as Hlt.
  apply (Hinv ltac:(intros ? ? Hlt0; simpl in Hlt0; lia) j p); simpl; [lia|done].
Qed.

(** *** The named parameters of a candidate path *)

(** Every match of [reqdRe] is a key text, after a parenthesis or not,
    and some more text; its group holds the name. *)
Lemma allMatches_reqdRe_shape fuel pre s adj f :
  f ∈ (allMatches reqdRe fuel pre s adj).1 ->
  forallb isWord (cap 1 (groups f)) = true
  /\ exists p t,
       (p = [] \/ p = [ch "("])
       /\ whole f = p ++ keyText (cap 1 (groups f)) ++ t.
Proof.
  revert pre s adj. induction fuel as [|fuel IH]; intros pre s adj Hin.
  - by apply elem_of_nil in Hin.
  - rewrite (allMatches_step reqdRe matchAt_reqdRe_suffix matchAt_reqdRe_nonempty)
      in Hin.
    destruct (find reqdRe s) as [f0|] eqn:Hf; [|by apply elem_of_nil in Hin].
    destruct (allMatches reqdRe fuel [] (after f0) true) as [ms tl] eqn:Hrest.
    cbn [fst] in Hin. apply elem_of_cons in Hin as [->|Hin].
    + destruct (find_spec reqdRe matchAt_reqdRe_suffix s f0 Hf) as (_ & Hm & _).
      cbn [whole groups].
      rewrite matchAt_reqdRe in Hm.
      destruct (reqdAt (whole f0 ++ after f0)) as [[name rest]|] eqn:Hat; [|done].
      injection Hm as -> <-. cbn [cap Nat.eqb].
      apply reqdAt_inv in Hat as (_ & Hw & p & t & Hp & Heq).
      apply app_inv_tail in Heq. split; [done|]. by exists p, t.
    + apply (IH [] (after f0) true). by rewrite Hrest.
Qed.

Lemma flat_map_elem {B} (g : found -> list B) (f : found) ms :
  f ∈ ms -> exists a b, flat_map g ms = a ++ g f ++ b.
Proof.
  intros Hin. apply list_elem_of_split in Hin as (l1 & l2 & ->).
  rewrite flat_map_app. cbn [flat_map].
  by exists (flat_map g l1), (flat_map g l2).
Qed.

(** The paths that [expandPattern] returns are the candidate paths, which
    hold no optional element any more, rewritten and cleaned. In every
    candidate path the matches of [reqdRe], each a named parameter
    [(?P<name>], and the text between them make up the path; the loop of
    [replaceNamed] puts [{name}] in the place of every match, also when the
    same text is matched more than once; and each [{name}] is still there
    after the cleaning. *)
Lemma replaceNamed_matches :
  (forall pattern,
     expandPattern pattern
     = map (fun c => cleanPath (replaceNamed c)) (candidates pattern)
     /\ forall c, c ∈ candidates pattern -> FindStringIndex optRe c = None)
  /\ forall c : gostring,
       c = flat_map (fun f => before f ++ whole f) (matches reqdRe c).1
             ++ (matches reqdRe c).2
       /\ replaceNamed c
          = flat_map (fun f => before f ++ braces (cap 1 (groups f)))
              (matches reqdRe c).1
              ++ (matches reqdRe c).2
       /\ forall f, f ∈ (matches reqdRe c).1 ->
            (exists p t,
               (p = [] \/ p = [ch "("])
               /\ whole f = p ++ keyText (cap 1 (groups f)) ++ t)
            /\ exists a b,
                 cleanPath (replaceNamed c)
                 = a ++ braces (cap 1 (groups f)) ++ b.
Proof.
  split.
  { intros pattern. split; [done|]. apply expandOptional_settled. }
  intros c.
  assert (replaceNamed c
          = flat_map (fun f => before f ++ braces (cap 1 (groups f)))
              (matches reqdRe c).1 ++ (matches reqdRe c).2) as Hrw.
  { rewrite replaceNamed_rewriteCaptures. unfold rewriteCaptures.
    by destruct (matches reqdRe c). }
  split; [|split; [done|]].
  - unfold matches.
    rewrite <- (allMatches_tiles reqdRe matchAt_reqdRe_suffix
                  matchAt_reqdRe_nonempty); [done|lia].
  - intros f Hin.
    destruct (allMatches_reqdRe_shape _ _ _ _ f Hin) as (Hw & Hshape).
    split; [done|].
    destruct (flat_map_elem
                (fun f => before f ++ braces (cap 1 (groups f))) f _ Hin)
      as (a & b & Hab).
    rewrite Hrw, Hab. rewrite <- !app_assoc.
    rewrite (app_assoc a).
    by apply cleanPath_keeps_braces.
Qed.

(** The loop of [replaceNamed] on a path that holds the same named
    parameter twice. *)
Lemma replaceNamed_twice :
  replaceNamed (lit "(?P<a>x)/(?P<a>x)") = lit "{a}/{a}".
Proof. vm_compute. reflexivity. Qed.

(** ** Facts on the generator *)

Section Facts.
Context {DataMap LSecret LAuth WrapInfo LResponse OperationFunc error : Type}.
Context (Decode : LResponse -> cleanedResponse DataMap LSecret LAuth WrapInfo + error).
Context {OperationHandler : Type}.
Context (Properties : OperationHandler -> OperationProperties DataMap LResponse).
Context (PathOperation : OperationFunc -> gostring -> OperationHandler).

Abbreviation pathItem := (oasPathItem DataMap LSecret LAuth WrapInfo).
Abbreviation operation := (OASOperation DataMap LSecret LAuth WrapInfo).

Section OperationsLoop.
Context (sched : Scheduler LResponse OperationHandler).
Context (ops : gmap gostring OperationHandler).
Context (bf : gmap gostring (option FieldSchema)) (bt : BackendType).

Local Abbreviation step := (operationStep Decode Properties sched ops bf bt).
Local Abbreviation build k h := (buildOperation Decode sched ops bf bt k (Properties h)).

Lemma step_unfold (pi : pathItem) k h :
  step pi (k, h) =
    if documented Properties ops k h
    then op ← build k h; Ok (assignOperation (touch Properties k h pi) k op)
    else Ok (touch Properties k h pi).
Proof.
  unfold operationStep, documented, touch, published.
  destruct (propUnpublished (Properties h)); simpl; [done|].
  destruct (bool_decide (k = CreateOperation)); simpl.
  - destruct (bool_decide (is_Some (ops !! UpdateOperation))); simpl; [done|].
    destruct (bool_decide (k = ListOperation)
              && bool_decide (is_Some (ops !! ReadOperation))); done.
  - destruct (bool_decide (k = ListOperation)
              && bool_decide (is_Some (ops !! ReadOperation))); done.
Qed.

Lemma slotOf_touch s k h (pi : pathItem) :
  slotOf s (touch Properties k h pi) = slotOf s pi.
Proof. unfold touch. destruct (_ && _), s; done. Qed.

Lemma slotOf_assign s k op (pi : pathItem) :
  slotOf s (assignOperation pi k op) = if writes k s then Some op else slotOf s pi.
Proof. destruct s; done. Qed.

(** A slot keeps its content over turns that do not store into it. *)
Lemma loop_no_writer s l (pi0 pi : pathItem) :
  forRange l step pi0 = Ok pi ->
  (forall k h, (k, h) ∈ l -> documented Properties ops k h && writes k s = false) ->
  slotOf s pi = slotOf s pi0.
Proof.
  intros Hloop Hl.
  apply (forRange_invariant (fun p => slotOf s p = slotOf s pi0) l step pi0 pi);
    [|done|done].
  intros p [k h] p' Hin Hp. rewrite step_unfold. specialize (Hl k h Hin).
  destruct (documented Properties ops k h); simpl in *.
  - destruct (build k h) as [op| |]; simpl; try done.
    intros [= <-]. by rewrite slotOf_assign, Hl, slotOf_touch.
  - intros [= <-]. by rewrite slotOf_touch.
Qed.

(** The last turn that stores into a slot decides its content. *)
Lemma loop_last_writer s l1 k h l2 (pi0 pi : pathItem) :
  forRange (l1 ++ (k, h) :: l2) step pi0 = Ok pi ->
  documented Properties ops k h = true -> writes k s = true ->
  (forall k' h', (k', h') ∈ l2 ->
     documented Properties ops k' h' && writes k' s = false) ->
  exists op, build k h = Ok op /\ slotOf s pi = Some op.
Proof.
  intros Hloop Hd Hw Hl2. rewrite forRange_app in Hloop.
  destruct (forRange l1 step pi0) as [pi1| |]; try done.
  change (forRange ((k, h) :: l2) step pi1 = Ok pi) in Hloop.
  rewrite forRange_cons, step_unfold, Hd in Hloop.
  destruct (build k h) as [op| |]; simpl in Hloop; try done.
  exists op. split; [done|].
  rewrite (loop_no_writer s l2 _ pi Hloop Hl2).
  by rewrite slotOf_assign, Hw.
Qed.

Ltac absurd_verbs :=
  match goal with
  | H : _ = _ |- _ => exfalso; vm_compute in H; discriminate H
  end.

Ltac verb_neq := let H := fresh in intros H; vm_compute in H; discriminate H.

Lemma firstDefined_lookup k1 k2 k h :
  firstDefined Properties ops k1 k2 = Some (k, h) ->
  ops !! k = Some h /\ published Properties h = true.
Proof.
  unfold firstDefined. intros H.
  destruct (ops !! k1) as [h1|] eqn:H1.
  - destruct (published Properties h1) eqn:Hp; simplify_eq. done.
  - destruct (ops !! k2) as [h2|] eqn:H2; [|done].
    destruct (published Properties h2) eqn:Hp; simplify_eq. done.
Qed.

Lemma slotWriter_lookup s k h :
  slotWriter Properties ops s = Some (k, h) ->
  ops !! k = Some h /\ published Properties h = true.
Proof. destruct s; apply firstDefined_lookup. Qed.

(** The handler that stores into a slot is the one [slotWriter] names. *)
Lemma writer_spec s k h :
  ops !! k = Some h ->
  documented Properties ops k h && writes k s = true <->
  slotWriter Properties ops s = Some (k, h).
Proof.
  intros Hk.
  unfold documented, writes, slotWriter, firstDefined.
  destruct s; simpl;
    repeat case_bool_decide; subst; try absurd_verbs;
    rewrite ?Hk; simpl;
    repeat match goal with
           | H : is_Some (ops !! ?x) |- _ =>
               let h' := fresh "h" in
               let E := fresh "E" in
               destruct H as [h' E]; try rewrite E in *
           | H : ¬ is_Some (ops !! ?x) |- _ =>
               let E := fresh "E" in
               assert (ops !! x = None) as E
                 by (destruct (ops !! x); [exfalso; eauto|done]);
               clear H; try rewrite E in *
           end;
    simplify_eq; rewrite ?Hk; simpl;
    repeat match goal with
           | |- context [ops !! ?x] => destruct (ops !! x) eqn:?
           end;
    repeat match goal with
           | |- context [published Properties ?x] =>
               destruct (published Properties x) eqn:?
           end;
    simpl; try (split; [done|intros; simplify_eq]); try naive_solver.
Qed.

(** Whatever the order of the turns, a slot holds the operation of the
    handler that [slotWriter] names, or is left as it was. *)
Lemma loop_slot_spec s l (pi0 pi : pathItem) :
  l ≡ₚ map_to_list ops ->
  forRange l step pi0 = Ok pi ->
  match slotWriter Properties ops s with
  | Some (k, h) => exists op, build k h = Ok op /\ slotOf s pi = Some op
  | None => slotOf s pi = slotOf s pi0
  end.
Proof.
  intros Hperm Hloop.
  assert (forall k h, (k, h) ∈ l -> ops !! k = Some h) as Hin.
  { intros k h Hkh. rewrite Hperm in Hkh. by apply elem_of_map_to_list in Hkh. }
  assert (NoDup l) as Hnd.
  { rewrite Hperm. apply NoDup_map_to_list. }
  destruct (slotWriter Properties ops s) as [[k h]|] eqn:Hw.
  - destruct (slotWriter_lookup _ _ _ Hw) as [Hk _].
    assert ((k, h) ∈ l) as Hkl.
    { rewrite Hperm. by apply elem_of_map_to_list. }
    apply list_elem_of_split in Hkl as (l1 & l2 & ->).
    apply writer_spec in Hw as Hw'; [|done].
    apply andb_true_iff in Hw' as [Hd Hws].
    eapply loop_last_writer; eauto.
    intros k' h' Hin'.
    destruct (documented Properties ops k' h' && writes k' s) eqn:Hw2; [|done].
    apply writer_spec in Hw2; [|apply Hin; set_solver].
    rewrite Hw in Hw2. simplify_eq.
    apply NoDup_app in Hnd as (_ & _ & Hnd). apply NoDup_cons in Hnd as [Hnd _].
    done.
  - eapply loop_no_writer; eauto.
    intros k h Hkh.
    destruct (documented Properties ops k h && writes k s) eqn:Hw2; [|done].
    apply writer_spec in Hw2; [|by apply Hin]. congruence.
Qed.

Lemma loop_sameHead l (pi0 pi : pathItem) :
  forRange l step pi0 = Ok pi -> sameHead pi0 pi.
Proof.
  intros Hloop.
  apply (forRange_invariant (sameHead pi0) l step pi0 pi); [|done|done].
  intros p [k h] p' _ Hp. rewrite step_unfold.
  assert (sameHead pi0 (touch Properties k h p)) as Ht.
  { unfold touch. destruct (_ && _); done. }
  destruct (documented Properties ops k h).
  - destruct (build k h) as [op| |]; simpl; try done.
    intros [= <-]. done.
  - intros [= <-]. done.
Qed.

Lemma touch_createSupported k h (pi : pathItem) :
  piCreateSupported (touch Properties k h pi) =
    piCreateSupported pi
    || (published Properties h && bool_decide (k = CreateOperation)).
Proof.
  unfold touch. destruct (_ && _); simpl; [|by rewrite orb_false_r].
  by rewrite orb_true_r.
Qed.

(** The flag is set by the turn of a published create handler, and by no
    other turn. *)
Lemma loop_createSupported l (pi0 pi : pathItem) :
  l ≡ₚ map_to_list ops ->
  forRange l step pi0 = Ok pi ->
  piCreateSupported pi = piCreateSupported pi0 || createPublished Properties ops.
Proof.
  intros Hperm Hloop.
  assert (forall k h, (k, h) ∈ l -> ops !! k = Some h) as Hin.
  { intros k h Hkh. rewrite Hperm in Hkh. by apply elem_of_map_to_list in Hkh. }
  assert (forall l' (p p' : pathItem),
            forRange l' step p = Ok p' ->
            piCreateSupported p' =
              piCreateSupported p
              || existsb (fun '(k, h) =>
                   published Properties h && bool_decide (k = CreateOperation)) l')
    as Hgen.
  { induction l' as [|[k h] l' IH]; intros p p' Hl.
    - simpl in Hl. simplify_eq. simpl. by rewrite orb_false_r.
    - rewrite forRange_cons, step_unfold in Hl.
      assert (exists p1, forRange l' step p1 = Ok p'
                /\ piCreateSupported p1 =
                     piCreateSupported (touch Properties k h p))
        as (p1 & Hp1 & Hcs).
      { destruct (documented Properties ops k h).
        - destruct (build k h) as [op| |]; simpl in Hl; try done.
          eexists. split; [exact Hl|done].
        - simpl in Hl. eexists. split; [exact Hl|done]. }
      rewrite (IH _ _ Hp1), Hcs, touch_createSupported. simpl.
      by rewrite orb_assoc. }
  rewrite (Hgen _ _ _ Hloop). f_equal.
  unfold createPublished.
  destruct (ops !! CreateOperation) as [hc|] eqn:Hc.
  - destruct (published Properties hc) eqn:Hp.
    + apply existsb_exists. exists (CreateOperation, hc). split.
      * apply list_elem_of_In. rewrite Hperm. by apply elem_of_map_to_list.
      * rewrite Hp. by rewrite bool_decide_eq_true_2.
    + apply not_true_is_false. intros Hex.
      apply existsb_exists in Hex as ([k h] & Hkh & Hb).
      apply list_elem_of_In, Hin in Hkh.
      apply andb_true_iff in Hb as [Hb1 Hb2]. apply bool_decide_eq_true in Hb2.
      subst. congruence.
  - apply not_true_is_false. intros Hex.
    apply existsb_exists in Hex as ([k h] & Hkh & Hb).
    apply list_elem_of_In, Hin in Hkh.
    apply andb_true_iff in Hb as [Hb1 Hb2]. apply bool_decide_eq_true in Hb2.
    subst. congruence.
Qed.

(** The loop ends well exactly when every documented handler builds. *)
Lemma loop_ok_iff l (pi0 : pathItem) :
  (exists pi, forRange l step pi0 = Ok pi) <->
  (forall k h, (k, h) ∈ l -> documented Properties ops k h = true ->
     exists op, build k h = Ok op).
Proof.
  revert pi0. induction l as [|[k h] l IH]; intros pi0.
  - split; [|by eexists]. intros _ k h Hin. by apply elem_of_nil in Hin.
  - rewrite forRange_cons, step_unfold. split.
    + intros [pi Hpi] k' h' Hin Hd.
      apply elem_of_cons in Hin as [[= -> ->]|Hin].
      * rewrite Hd in Hpi. destruct (build k h); simpl in Hpi; try done. by eexists.
      * destruct (documented Properties ops k h).
        -- destruct (build k h); simpl in Hpi; try done.
           eapply IH; eauto.
        -- simpl in Hpi. eapply IH; eauto.
    + intros Hall.
      destruct (documented Properties ops k h) eqn:Hd.
      * destruct (Hall k h) as [op Hop]; [by left|done|].
        rewrite Hop. simpl. apply IH. intros k' h' Hin. apply Hall. by right.
      * simpl. apply IH. intros k' h' Hin. apply Hall. by right.
Qed.

(** An error or a panic of the loop is that of a documented handler. *)
Lemma loop_not_ok l (pi0 : pathItem) r :
  forRange l step pi0 = r -> (forall pi, r <> Ok pi) ->
  exists k h, (k, h) ∈ l /\ documented Properties ops k h = true
    /\ match r with
       | Ok _ => False
       | Fail err => build k h = Fail err
       | Panic => build k h = Panic
       end.
Proof.
  revert pi0. induction l as [|[k h] l IH]; intros pi0 Hr Hbad.
  - simpl in Hr. subst. by destruct (Hbad pi0).
  - rewrite forRange_cons, step_unfold in Hr.
    destruct (documented Properties ops k h) eqn:Hd.
    + destruct (build k h) as [op| |] eqn:Hb; simpl in Hr.
      * destruct (IH _ Hr Hbad) as (k' & h' & Hin & Hd' & Hr').
        exists k', h'. split; [by right|done].
      * subst. exists k, h. split; [by left|done].
      * subst. exists k, h. split; [by left|done].
    + simpl in Hr. destruct (IH _ Hr Hbad) as (k' & h' & Hin & Hd' & Hr').
      exists k', h'. split; [by right|done].
Qed.

Lemma requestBodyFor_no_panic props :
  (forall n, bf !! n <> Some None) ->
  requestBodyFor (DataMap:=DataMap) (LSecret:=LSecret) (LAuth:=LAuth)
    (WrapInfo:=WrapInfo) error sched bf props <> Panic.
Proof.
  intros Hbf. unfold requestBodyFor.
  match goal with
  | |- context [forRange ?l ?b ?s] =>
      pose proof (forRange_no_panic (E:=error) l b s) as Hnp;
      destruct (forRange l b s) as [ps| |] eqn:Hps
  end; simpl.
  - by destruct (_ || _).
  - done.
  - exfalso. apply Hnp; [|done].
    intros s [n f] Hin.
    rewrite rangeFields_perm in Hin. apply elem_of_map_to_list in Hin.
    destruct f; [done|]. by destruct (Hbf n).
Qed.

Lemma responseGroup_no_panic responses : responseGroup Decode responses <> Panic.
Proof.
  unfold responseGroup. apply forRange_no_panic.
  intros [d c] [i resp] _.
  destruct (respExample resp) as [ex|]; [|done].
  unfold cleanResponse. destruct (Decode ex); simpl; [|done].
  by destruct (c !! _).
Qed.

(** A handler never panics in the builder once the body fields are not
    nil. *)
Lemma build_no_panic k props :
  (forall n, bf !! n <> Some None) ->
  buildOperation Decode sched ops bf bt k props <> Panic.
Proof.
  intros Hbf. unfold buildOperation.
  assert (forall (r : result error (option (oasRequestBody DataMap LSecret LAuth WrapInfo)))
                 (f : _ -> result error operation),
            r <> Panic -> (forall x, f x <> Panic) -> (x ← r; f x) <> Panic)
    as Hbind.
  { intros [x| |] f Hr Hf; simpl; auto. }
  apply Hbind.
  - destruct (_ || _); [|done]. by apply requestBodyFor_no_panic.
  - intros rb.
    match goal with
    | |- context [forRange ?l ?b ?s] =>
        pose proof (forRange_no_panic (E:=error) l b s) as Hnp;
        destruct (forRange l b s) as [ps| |] eqn:Hps
    end; simpl; try done.
    exfalso. apply Hnp; [|done].
    intros s [code rs] _.
    pose proof (responseGroup_no_panic rs) as Hg.
    destruct (responseGroup Decode rs) as [[d c]| |]; simpl; done.
Qed.

(** The order of the turns does not show in the outcome of the loop. *)
Lemma loop_perm l l' (pi0 : pathItem) :
  l ≡ₚ map_to_list ops -> l' ≡ₚ map_to_list ops ->
  (forall n, bf !! n <> Some None) ->
  agree (forRange l step pi0) (forRange l' step pi0).
Proof.
  intros Hl Hl' Hbf.
  assert (forall l1 l2, l1 ≡ₚ map_to_list ops -> l2 ≡ₚ map_to_list ops ->
            forall pi, forRange l1 step pi0 = Ok pi ->
                       forRange l2 step pi0 = Ok pi) as Hok.
  { intros l1 l2 H1 H2 pi Hpi.
    assert (exists pi', forRange l2 step pi0 = Ok pi') as [pi' Hpi'].
    { apply loop_ok_iff. intros k h Hin.
      assert (exists pi, forRange l1 step pi0 = Ok pi) as Hex by eauto.
      rewrite loop_ok_iff in Hex. apply Hex. by rewrite H1, <- H2. }
    rewrite Hpi'. f_equal.
    pose proof (loop_sameHead _ _ _ Hpi) as (Hd & Hp & Hs & Hu).
    pose proof (loop_sameHead _ _ _ Hpi') as (Hd' & Hp' & Hs' & Hu').
    pose proof (loop_createSupported _ _ _ H1 Hpi) as Hc.
    pose proof (loop_createSupported _ _ _ H2 Hpi') as Hc'.
    assert (forall s, slotOf s pi' = slotOf s pi) as Hslots.
    { intros s.
      pose proof (loop_slot_spec s _ _ _ H1 Hpi) as Hs1.
      pose proof (loop_slot_spec s _ _ _ H2 Hpi') as Hs2.
      destruct (slotWriter Properties ops s) as [[k h]|].
      - destruct Hs1 as (op & Hop & ->), Hs2 as (op' & Hop' & ->). congruence.
      - congruence. }
    pose proof (Hslots SGet) as Hg. pose proof (Hslots SPost) as Hpo.
    pose proof (Hslots SDelete) as Hde. simpl in Hg, Hpo, Hde.
    destruct pi, pi'; simpl in *. congruence. }
  assert (forall l1, l1 ≡ₚ map_to_list ops -> forRange l1 step pi0 <> Panic)
    as Hnp.
  { intros l1 _ Hp.
    destruct (loop_not_ok l1 pi0 Panic Hp) as (k & h & _ & _ & Hb); [done|].
    by apply build_no_panic in Hb. }
  destruct (forRange l step pi0) as [pi| |] eqn:H1.
  - by rewrite (Hok l l' Hl Hl' pi H1).
  - destruct (forRange l' step pi0) as [pi'| |] eqn:H2; simpl; try done.
    + rewrite (Hok l' l Hl' Hl pi' H2) in H1. done.
    + by destruct (Hnp l' Hl').
  - by destruct (Hnp l Hl).
Qed.
End OperationsLoop.

Section Routes.
Context (sched : Scheduler LResponse OperationHandler).

Local Abbreviation docPath := (documentPath Decode Properties PathOperation sched).
Local Abbreviation itemFor := (pathItemFor Decode Properties PathOperation sched).

(** [splitFields] hands on no nil pointer among the body fields. *)
Lemma splitFields_body fields path pf bf :
  splitFields error sched fields path = Ok (pf, bf) ->
  forall n, bf !! n <> Some None.
Proof.
  unfold splitFields. intros H.
  match type of H with
  | forRange ?l ?b ?s = _ =>
      apply (forRange_invariant
               (fun st : gmap gostring (option FieldSchema)
                         * gmap gostring (option FieldSchema) =>
                  forall n, st.2 !! n <> Some None) l b s (pf, bf))
  end; [| |done].
  - intros [pf1 bf1] [name field] [pf2 bf2] _ Hinv. simpl in *.
    destruct (pf1 !! name); [by intros [= <- <-]|].
    destruct field as [f|]; [|done].
    destruct (bool_decide _); intros [= <- <-]; [done|].
    intros n. destruct (decide (name = n)) as [->|Hne].
    + by rewrite lookup_insert_eq.
    + by rewrite lookup_insert_ne.
  - simpl. intros n. by rewrite lookup_empty.
Qed.

Lemma pathItemFor_ok p sudo unauth bt path pi :
  itemFor p sudo unauth bt path = Ok pi ->
  exists pf bf params,
    splitFields error sched (Fields p) path = Ok (pf, bf)
    /\ pathParameters error sched pf = Ok params
    /\ forRange (rangeOps sched (resolveOperations PathOperation p))
         (operationStep Decode Properties sched
            (resolveOperations PathOperation p) bf bt)
         (startItem p sudo unauth path params) = Ok pi.
Proof.
  unfold pathItemFor. intros H.
  destruct (splitFields error sched (Fields p) path) as [[pf bf]| |] eqn:Hs;
    simpl in H; try done.
  destruct (pathParameters error sched pf) as [params| |] eqn:Hp;
    simpl in H; try done.
  by exists pf, bf, params.
Qed.

Lemma pathsLoop_single p sudo unauth bt path doc :
  pathsLoop Decode Properties PathOperation sched p sudo unauth bt [path] doc
  = match itemFor p sudo unauth bt path with
    | Ok pi => (Ok (), setPath doc (lit "/" ++ path) pi)
    | Fail err => (Fail err, doc)
    | Panic => (Panic, doc)
    end.
Proof. simpl. by destruct (itemFor p sudo unauth bt path). Qed.

Lemma pathsLoop_other p sudo unauth bt paths doc doc' r key :
  pathsLoop Decode Properties PathOperation sched p sudo unauth bt paths doc
    = (r, doc') ->
  (forall path, path ∈ paths -> key <> lit "/" ++ path) ->
  dPaths doc' !! key = dPaths doc !! key.
Proof.
  revert doc. induction paths as [|path rest IH]; intros doc H Hkey; simpl in H.
  - by simplify_eq.
  - destruct (itemFor p sudo unauth bt path) as [pi| |]; try by simplify_eq.
    rewrite (IH _ H); [|intros q Hq; apply Hkey; by right].
    simpl. apply lookup_insert_ne. intros Heq. eapply Hkey; [by left|done].
Qed.

(** After a call that ends well, the document holds the path item of every
    expanded path. *)
Lemma pathsLoop_lookup p sudo unauth bt paths doc doc' :
  pathsLoop Decode Properties PathOperation sched p sudo unauth bt paths doc
    = (Ok (), doc') ->
  forall path, path ∈ paths ->
  exists pi, itemFor p sudo unauth bt path = Ok pi
             /\ dPaths doc' !! (lit "/" ++ path) = Some pi.
Proof.
  revert doc. induction paths as [|path0 rest IH]; intros doc H path Hin.
  - by apply elem_of_nil in Hin.
  - simpl in H.
    destruct (itemFor p sudo unauth bt path0) as [pi| |] eqn:Hpi;
      try by simplify_eq.
    destruct (decide (path ∈ rest)) as [Hrest|Hrest]; [by eapply IH|].
    apply elem_of_cons in Hin as [->|]; [|done].
    exists pi. split; [done|].
    rewrite (pathsLoop_other _ _ _ _ _ _ _ _ _ H).
    + simpl. apply lookup_insert_eq.
    + intros q Hq Heq. simplify_eq. done.
Qed.

Lemma documentPath_lookup p sp bt doc doc' :
  docPath p sp bt doc = (Ok (), doc') ->
  forall path, path ∈ expandPattern (Pattern p) ->
  exists pi sudo unauth,
    itemFor p sudo unauth bt path = Ok pi
    /\ dPaths doc' !! (lit "/" ++ path) = Some pi.
Proof.
  unfold documentPath. intros H path Hin.
  destruct (pathsLoop_lookup _ _ _ _ _ _ _ H path Hin) as (pi & Hpi & Hdoc).
  eauto 6.
Qed.

(** What the builder copies from the handler, and the [list] parameter. *)
Lemma buildOperation_ok ops bf bt k props op :
  buildOperation Decode sched ops bf bt k props = Ok op ->
  opSummary op = propSummary props
  /\ opDescription op = propDescription props
  /\ opDeprecated op = propDeprecated props
  /\ opParameters op =
       if bool_decide (k = ListOperation)
          || (bool_decide (k = ReadOperation)
              && bool_decide (is_Some (ops !! ListOperation)))
       then [ {| pName := lit "list";
                 pDescription := lit "Return a list if `true`";
                 pIn := lit "query";
                 pSchema := Some (typeSchema (lit "string"));
                 pRequired := false;
                 pDeprecated := false |} ]
       else [].
Proof.
  unfold buildOperation. intros H.
  destruct (if bool_decide (k = CreateOperation) || bool_decide (k = UpdateOperation)
            then requestBodyFor error sched bf props else Ok None)
    as [rb| |]; simpl in H; try done.
  match type of H with
  | context [forRange ?l ?b ?s] => destruct (forRange l b s) as [rs| |]
  end; simpl in H; try done.
  by simplify_eq.
Qed.

(** The operation a slot holds once the call has ended well. *)
Lemma documentPath_slot s p sp bt doc doc' k h :
  slotWriter Properties (resolveOperations PathOperation p) s = Some (k, h) ->
  docPath p sp bt doc = (Ok (), doc') ->
  forall path, path ∈ expandPattern (Pattern p) ->
  exists pi pf bf op,
    dPaths doc' !! (lit "/" ++ path) = Some pi
    /\ splitFields error sched (Fields p) path = Ok (pf, bf)
    /\ buildOperation Decode sched (resolveOperations PathOperation p) bf bt k
         (Properties h) = Ok op
    /\ slotOf s pi = Some op
    /\ piCreateSupported pi
       = createPublished Properties (resolveOperations PathOperation p).
Proof.
  intros Hw Hdoc path Hin.
  destruct (documentPath_lookup _ _ _ _ _ Hdoc path Hin)
    as (pi & sudo & unauth & Hpi & Hlook).
  destruct (pathItemFor_ok _ _ _ _ _ _ Hpi) as (pf & bf & params & Hs & _ & Hloop).
  pose proof (loop_slot_spec sched _ bf bt s _ _ _ (rangeOps_perm sched _) Hloop)
    as Hspec.
  rewrite Hw in Hspec. destruct Hspec as (op & Hop & Hslot).
  exists pi, pf, bf, op. repeat split; try done.
  by rewrite (loop_createSupported sched _ bf bt _ _ _ (rangeOps_perm sched _) Hloop).
Qed.

(** C4: a route with a published create handler and a published update
    handler gets, for each of its paths, a path item whose create-supported
    flag is set and whose post slot holds the one operation built from the
    update handler; the create handler builds none. *)
Theorem documentPath_create_and_update p sp bt doc doc' hc hu :
  resolveOperations PathOperation p !! CreateOperation = Some hc ->
  resolveOperations PathOperation p !! UpdateOperation = Some hu ->
  propUnpublished (Properties hc) = false ->
  propUnpublished (Properties hu) = false ->
  docPath p sp bt doc = (Ok (), doc') ->
  forall path, path ∈ expandPattern (Pattern p) ->
  exists pi pf bf op,
    dPaths doc' !! (lit "/" ++ path) = Some pi
    /\ splitFields error sched (Fields p) path = Ok (pf, bf)
    /\ buildOperation Decode sched (resolveOperations PathOperation p) bf bt
         UpdateOperation (Properties hu) = Ok op
    /\ piCreateSupported pi = true
    /\ piPost pi = Some op
    /\ opSummary op = propSummary (Properties hu)
    /\ opDescription op = propDescription (Properties hu)
    /\ opDeprecated op = propDeprecated (Properties hu).
Proof.
  intros Hc Hu Hpc Hpu Hdoc path Hin.
  destruct (documentPath_slot SPost p sp bt doc doc' UpdateOperation hu)
    with (path := path) as (pi & pf & bf & op & H1 & H2 & H3 & H4 & H5);
    [|done|done|].
  { simpl. unfold firstDefined, published. by rewrite Hu, Hpu. }
  exists pi, pf, bf, op.
  destruct (buildOperation_ok _ _ _ _ _ _ H3) as (Hs & Hd & Hdp & _).
  repeat split; try done.
  rewrite H5. unfold createPublished, published. by rewrite Hc, Hpc.
Qed.

(** C5: a route with a published list handler and a published read handler
    gets, for each of its paths, a path item whose get slot holds the one
    operation built from the read handler, with the query parameter [list]
    added; the list handler builds none. *)
Theorem documentPath_list_and_read p sp bt doc doc' hl hr :
  resolveOperations PathOperation p !! ListOperation = Some hl ->
  resolveOperations PathOperation p !! ReadOperation = Some hr ->
  propUnpublished (Properties hl) = false ->
  propUnpublished (Properties hr) = false ->
  docPath p sp bt doc = (Ok (), doc') ->
  forall path, path ∈ expandPattern (Pattern p) ->
  exists pi pf bf op,
    dPaths doc' !! (lit "/" ++ path) = Some pi
    /\ splitFields error sched (Fields p) path = Ok (pf, bf)
    /\ buildOperation Decode sched (resolveOperations PathOperation p) bf bt
         ReadOperation (Properties hr) = Ok op
    /\ piGet pi = Some op
    /\ opSummary op = propSummary (Properties hr)
    /\ opDescription op = propDescription (Properties hr)
    /\ opDeprecated op = propDeprecated (Properties hr)
    /\ opParameters op =
         [ {| pName := lit "list";
              pDescription := lit "Return a list if `true`";
              pIn := lit "query";
              pSchema := Some (typeSchema (lit "string"));
              pRequired := false;
              pDeprecated := false |} ].
Proof.
  intros Hl Hr Hpl Hpr Hdoc path Hin.
  destruct (documentPath_slot SGet p sp bt doc doc' ReadOperation hr)
    with (path := path) as (pi & pf & bf & op & H1 & H2 & H3 & H4 & H5);
    [|done|done|].
  { simpl. unfold firstDefined, published. by rewrite Hr, Hpr. }
  exists pi, pf, bf, op.
  destruct (buildOperation_ok _ _ _ _ _ _ H3) as (Hs & Hd & Hdp & Hpar).
  repeat split; try done.
  rewrite Hpar, Hl.
  rewrite (bool_decide_eq_true_2 (ReadOperation = ReadOperation)) by done.
  rewrite (bool_decide_eq_true_2 (is_Some (Some hl))) by eauto.
  by rewrite orb_true_r.
Qed.
End Routes.

(** *** Changing the order of the handlers, or dropping one *)

Lemma agree_refl {A} (r : result error A) : agree r r.
Proof. by destruct r. Qed.

Lemma agree_sym {A} (r1 r2 : result error A) : agree r1 r2 -> agree r2 r1.
Proof. destruct r1, r2; simpl; done. Qed.

Lemma agree_trans {A} (r1 r2 r3 : result error A) :
  agree r1 r2 -> agree r2 r3 -> agree r1 r3.
Proof. destruct r1, r2, r3; simpl; try done. congruence. Qed.

Section Orders.
Context (sched1 sched2 : Scheduler LResponse OperationHandler).
Hypothesis same_fields : forall m, rangeFields sched1 m = rangeFields sched2 m.
Hypothesis same_responses :
  forall m, rangeResponses sched1 m = rangeResponses sched2 m.

Lemma buildOperation_ext ops bf bt k props :
  buildOperation Decode sched1 ops bf bt k props
  = buildOperation Decode sched2 ops bf bt k props.
Proof.
  unfold buildOperation, requestBodyFor.
  by rewrite same_fields, same_responses.
Qed.

Lemma operationStep_ext ops bf bt (pi : pathItem) e :
  operationStep Decode Properties sched1 ops bf bt pi e
  = operationStep Decode Properties sched2 ops bf bt pi e.
Proof.
  destruct e as [k h]. unfold operationStep.
  by rewrite buildOperation_ext.
Qed.

Lemma pathItemFor_order p sudo unauth bt path :
  agree (pathItemFor Decode Properties PathOperation sched1 p sudo unauth bt path)
        (pathItemFor Decode Properties PathOperation sched2 p sudo unauth bt path).
Proof.
  unfold pathItemFor, splitFields, pathParameters. rewrite !same_fields.
  match goal with
  | |- context [forRange ?l ?b ?s] =>
      destruct (forRange l b s) as [[pf bf]| |] eqn:Hs
  end; simpl; try done.
  assert (forall n, bf !! n <> Some None) as Hbf.
  { apply (splitFields_body sched2 (Fields p) path pf). exact Hs. }
  rewrite !same_fields.
  match goal with
  | |- context [forRange ?l ?b ?s] =>
      destruct (forRange l b s) as [params| |]
  end; simpl; try done.
  rewrite (forRange_ext _
             (operationStep Decode Properties sched2
                (resolveOperations PathOperation p) bf bt)
             (operationStep Decode Properties sched1
                (resolveOperations PathOperation p) bf bt))
    by (intros; symmetry; apply operationStep_ext).
  apply loop_perm; [apply rangeOps_perm..|done].
Qed.

Lemma pathsLoop_order p sudo unauth bt paths doc :
  (pathsLoop Decode Properties PathOperation sched1 p sudo unauth bt paths doc).2
  = (pathsLoop Decode Properties PathOperation sched2 p sudo unauth bt paths doc).2
  /\ agree
       (pathsLoop Decode Properties PathOperation sched1 p sudo unauth bt paths doc).1
       (pathsLoop Decode Properties PathOperation sched2 p sudo unauth bt paths doc).1.
Proof.
  revert doc. induction paths as [|path rest IH]; intros doc; simpl; [done|].
  pose proof (pathItemFor_order p sudo unauth bt path) as Hag.
  destruct (pathItemFor Decode Properties PathOperation sched1 p sudo unauth bt path)
    as [pi1| |],
    (pathItemFor Decode Properties PathOperation sched2 p sudo unauth bt path)
    as [pi2| |]; simpl in Hag; try done.
  subst. apply IH.
Qed.

End Orders.

(** With the same route, special paths, backend type and document, two
    runs that differ only in the order in which the verb handlers are
    visited leave the same document, and so the same get, post and delete
    slots and the same create-supported flag in every path item; they also
    end the same way (when several copies fail, the error that comes back
    is the first one met, which the order decides). *)
Lemma documentPath_order_independent
    (sched1 sched2 : Scheduler LResponse OperationHandler) p sp bt doc :
  (forall m, rangeFields sched1 m = rangeFields sched2 m) ->
  (forall m, rangeResponses sched1 m = rangeResponses sched2 m) ->
  (documentPath Decode Properties PathOperation sched1 p sp bt doc).2
  = (documentPath Decode Properties PathOperation sched2 p sp bt doc).2
  /\ agree (documentPath Decode Properties PathOperation sched1 p sp bt doc).1
           (documentPath Decode Properties PathOperation sched2 p sp bt doc).1.
Proof. intros Hf Hr. unfold documentPath. by apply pathsLoop_order. Qed.

Section Unpublished.
Context (sched : Scheduler LResponse OperationHandler).

Local Abbreviation docPath := (documentPath Decode Properties PathOperation sched).

(** The turn of an unpublished handler changes nothing. *)
Lemma loop_drop_unpublished ops bf bt k h l (pi0 : pathItem) :
  ops !! k = Some h -> propUnpublished (Properties h) = true ->
  (forall n, bf !! n <> Some None) ->
  l ≡ₚ map_to_list (delete k ops) ->
  agree (forRange (rangeOps sched ops)
           (operationStep Decode Properties sched ops bf bt) pi0)
        (forRange l (operationStep Decode Properties sched ops bf bt) pi0).
Proof.
  intros Hk Hu Hbf Hl.
  assert (forRange l (operationStep Decode Properties sched ops bf bt) pi0
          = forRange ((k, h) :: l)
              (operationStep Decode Properties sched ops bf bt) pi0) as ->.
  { assert (operationStep Decode Properties sched ops bf bt pi0 (k, h) = Ok pi0)
      as Hstep by (unfold operationStep; by rewrite Hu).
    by rewrite forRange_cons, Hstep. }
  apply loop_perm; [apply rangeOps_perm| |done].
  rewrite Hl. by apply map_to_list_delete.
Qed.

(** The loop body asks the handler map only whether update, read and list
    are defined. *)
Lemma operationStep_lookups ops ops' bf bt (pi : pathItem) e :
  (is_Some (ops !! UpdateOperation) <-> is_Some (ops' !! UpdateOperation)) ->
  (is_Some (ops !! ReadOperation) <-> is_Some (ops' !! ReadOperation)) ->
  (is_Some (ops !! ListOperation) <-> is_Some (ops' !! ListOperation)) ->
  operationStep Decode Properties sched ops bf bt pi e
  = operationStep Decode Properties sched ops' bf bt pi e.
Proof.
  intros Hu Hr Hl. destruct e as [k h].
  unfold operationStep, buildOperation.
  by rewrite (bool_decide_ext _ _ Hu), (bool_decide_ext _ _ Hr),
    (bool_decide_ext _ _ Hl).
Qed.

Lemma pathItemFor_drop_unpublished p sudo unauth bt path k h :
  resolveOperations PathOperation p !! k = Some h ->
  propUnpublished (Properties h) = true ->
  k <> UpdateOperation -> k <> ReadOperation -> k <> ListOperation ->
  agree (pathItemFor Decode Properties PathOperation sched p sudo unauth bt path)
        (pathItemFor Decode Properties PathOperation sched
           (withOperations p (delete k (resolveOperations PathOperation p)))
           sudo unauth bt path).
Proof.
  intros Hk Hu Hnu Hnr Hnl. unfold pathItemFor.
  change (Fields (withOperations p _)) with (Fields p).
  change (resolveOperations PathOperation (withOperations p ?o)) with o.
  destruct (splitFields error sched (Fields p) path) as [[pf bf]| |] eqn:Hs;
    simpl; try done.
  destruct (pathParameters error sched pf) as [params| |]; simpl; try done.
  change (startItem (withOperations p ?o) sudo unauth path params)
    with (startItem p sudo unauth path params).
  set (ops := resolveOperations PathOperation p) in *.
  rewrite (forRange_ext _
             (operationStep Decode Properties sched (delete k ops) bf bt)
             (operationStep Decode Properties sched ops bf bt)).
  - eapply loop_drop_unpublished; eauto.
    + by eapply splitFields_body.
    + apply rangeOps_perm.
  - intros s e _. symmetry.
    apply operationStep_lookups; by rewrite lookup_delete_ne.
Qed.

Lemma pathsLoop_drop_unpublished p sudo unauth bt paths doc k h :
  resolveOperations PathOperation p !! k = Some h ->
  propUnpublished (Properties h) = true ->
  k <> UpdateOperation -> k <> ReadOperation -> k <> ListOperation ->
  let p' := withOperations p (delete k (resolveOperations PathOperation p)) in
  (pathsLoop Decode Properties PathOperation sched p sudo unauth bt paths doc).2
  = (pathsLoop Decode Properties PathOperation sched p' sudo unauth bt paths doc).2
  /\ agree
       (pathsLoop Decode Properties PathOperation sched p sudo unauth bt paths doc).1
       (pathsLoop Decode Properties PathOperation sched p' sudo unauth bt paths doc).1.
Proof.
  intros Hk Hu Hnu Hnr Hnl p'.
  revert doc. induction paths as [|path rest IH]; intros doc; simpl; [done|].
  pose proof (pathItemFor_drop_unpublished p sudo unauth bt path k h
                Hk Hu Hnu Hnr Hnl) as Hag.
  fold p' in Hag.
  destruct (pathItemFor Decode Properties PathOperation sched p sudo unauth bt path)
    as [pi1| |],
    (pathItemFor Decode Properties PathOperation sched p' sudo unauth bt path)
    as [pi2| |]; simpl in Hag; try done.
  subst. apply IH.
Qed.

(** C2 (amended): an unpublished handler builds no operation: every slot of
    a path item holds the operation of a published handler, or nothing. When
    its verb is not update, read or list, the document is the one that the
    route without this handler gives. (An unpublished update, read or list
    handler still counts as defined for the merge rules.) *)
Theorem documentPath_unpublished p sp bt doc k h :
  resolveOperations PathOperation p !! k = Some h ->
  propUnpublished (Properties h) = true ->
  (forall doc', docPath p sp bt doc = (Ok (), doc') ->
     forall path, path ∈ expandPattern (Pattern p) ->
     exists pi pf bf,
       dPaths doc' !! (lit "/" ++ path) = Some pi
       /\ splitFields error sched (Fields p) path = Ok (pf, bf)
       /\ forall s,
            match slotWriter Properties (resolveOperations PathOperation p) s with
            | Some (k', h') =>
                propUnpublished (Properties h') = false
                /\ exists op,
                     buildOperation Decode sched
                       (resolveOperations PathOperation p) bf bt k'
                       (Properties h') = Ok op
                     /\ slotOf s pi = Some op
            | None => slotOf s pi = None
            end)
  /\ (k <> UpdateOperation -> k <> ReadOperation -> k <> ListOperation ->
      let p' := withOperations p (delete k (resolveOperations PathOperation p)) in
      (docPath p sp bt doc).2 = (docPath p' sp bt doc).2
      /\ agree (docPath p sp bt doc).1 (docPath p' sp bt doc).1).
Proof.
  intros Hk Hu. split.
  - intros doc' Hdoc path Hin.
    destruct (documentPath_lookup _ _ _ _ _ _ Hdoc path Hin)
      as (pi & sudo & unauth & Hpi & Hlook).
    destruct (pathItemFor_ok _ _ _ _ _ _ _ Hpi)
      as (pf & bf & params & Hs & _ & Hloop).
    exists pi, pf, bf. repeat split; try done.
    intros s.
    pose proof (loop_slot_spec sched _ bf bt s _ _ _ (rangeOps_perm sched _) Hloop)
      as Hspec.
    destruct (slotWriter Properties (resolveOperations PathOperation p) s)
      as [[k' h']|] eqn:Hw.
    + split; [|done].
      apply slotWriter_lookup in Hw as [_ Hp]. unfold published in Hp.
      by destruct (propUnpublished (Properties h')).
    + rewrite Hspec. by destruct s.
  - intros Hnu Hnr Hnl p'. unfold documentPath.
    by eapply pathsLoop_drop_unpublished.
Qed.

End Unpublished.

(** *** Failures of the structural copy *)

Section Errors.
Context (sched : Scheduler LResponse OperationHandler).

Local Abbreviation docPath := (documentPath Decode Properties PathOperation sched).
Local Abbreviation itemFor := (pathItemFor Decode Properties PathOperation sched).

Lemma responseGroup_fail rs err :
  responseGroup Decode rs = Fail err ->
  exists resp example,
    resp ∈ rs /\ respExample resp = Some example /\ Decode example = inr err.
Proof.
  unfold responseGroup. intros H.
  apply forRange_fail_inv in H as ([d c] & [i resp] & Hin & Hb).
  apply elem_of_lookup_imap in Hin as (j & y & [= -> ->] & Hj).
  destruct (respExample y) as [ex|] eqn:Hex; [|done].
  exists y, ex. split; [by eapply list_elem_of_lookup_2|]. split; [done|].
  unfold cleanResponse in Hb. destruct (Decode ex); simpl in Hb.
  - by destruct (c !! _).
  - by simplify_eq.
Qed.

Lemma responseGroup_fails rs resp example err :
  resp ∈ rs -> respExample resp = Some example -> Decode example = inr err ->
  exists err', responseGroup Decode rs = Fail err'.
Proof.
  intros Hin Hex Hdec. unfold responseGroup.
  apply list_elem_of_lookup in Hin as [i Hi].
  match goal with
  | |- context [forRange ?l ?b ?s] =>
      pose proof (forRange_not_ok l b s (i, resp)) as Hno;
      pose proof (forRange_no_panic (E:=error) l b s) as Hnp;
      destruct (forRange l b s) as [st| |] eqn:Hloop
  end.
  - exfalso. eapply Hno; [| |done].
    + apply elem_of_lookup_imap. by exists i, resp.
    + intros [d c] s'. rewrite Hex. unfold cleanResponse. by rewrite Hdec.
  - by eexists.
  - exfalso. apply Hnp; [|done].
    intros [d c] [j r] _.
    destruct (respExample r) as [ex|]; [|done].
    unfold cleanResponse. destruct (Decode ex); simpl; [|done].
    by destruct (c !! _).
Qed.

Lemma requestBodyFor_no_fail bf props err :
  requestBodyFor (DataMap:=DataMap) (LSecret:=LSecret) (LAuth:=LAuth)
    (WrapInfo:=WrapInfo) error sched bf props <> Fail err.
Proof.
  unfold requestBodyFor.
  match goal with
  | |- context [forRange ?l ?b ?s] =>
      pose proof (forRange_no_fail (E:=error) l b s) as Hnf;
      destruct (forRange l b s) as [ps| |] eqn:Hps
  end; simpl.
  - by destruct (_ || _).
  - exfalso. eapply Hnf; [|done].
    intros s [n f] ? _. by destruct f.
  - done.
Qed.

(** The builder fails only with the error of a copy. *)
Lemma build_fail ops bf bt k props err :
  buildOperation Decode sched ops bf bt k props = Fail err ->
  copyFails Decode props err.
Proof.
  unfold buildOperation. intros H.
  destruct (if bool_decide (k = CreateOperation) || bool_decide (k = UpdateOperation)
            then requestBodyFor error sched bf props else Ok None)
    as [rb| |] eqn:Hrb; simpl in H; try done.
  - match type of H with
    | context [forRange ?l ?b ?s] =>
        destruct (forRange l b s) as [rs| |] eqn:Hloop
    end; simpl in H; try done.
    simplify_eq.
    apply forRange_fail_inv in Hloop as (s & [code rs] & Hin & Hb).
    rewrite rangeResponses_perm in Hin. apply elem_of_map_to_list in Hin.
    destruct (responseGroup Decode rs) as [[d c]| |] eqn:Hg; simpl in Hb; try done.
    simplify_eq.
    apply responseGroup_fail in Hg as (resp & ex & ? & ? & ?).
    by exists code, rs, resp, ex.
  - simplify_eq. destruct (_ || _); [|done].
    by apply requestBodyFor_no_fail in Hrb.
Qed.

(** A copy that fails makes the builder fail. *)
Lemma build_fails ops bf bt k props err :
  copyFails Decode props err ->
  (forall n, bf !! n <> Some None) ->
  exists err', buildOperation Decode sched ops bf bt k props = Fail err'.
Proof.
  intros (code & rs & resp & ex & Hcode & Hin & Hex & Hdec) Hbf.
  pose proof (build_no_panic sched ops bf bt k props Hbf) as Hnp.
  destruct (buildOperation Decode sched ops bf bt k props) as [op| |] eqn:Hb;
    [|by eexists|done].
  exfalso. unfold buildOperation in Hb.
  destruct (if bool_decide (k = CreateOperation) || bool_decide (k = UpdateOperation)
            then requestBodyFor error sched bf props else Ok None)
    as [rb| |]; simpl in Hb; try done.
  match type of Hb with
  | context [forRange ?l ?b ?s] =>
      pose proof (forRange_not_ok l b s (code, rs)) as Hno;
      destruct (forRange l b s) as [rs'| |] eqn:Hloop
  end; simpl in Hb; try done.
  eapply Hno; [| |done].
  - rewrite rangeResponses_perm. by apply elem_of_map_to_list.
  - intros s s'.
    destruct (responseGroup_fails rs resp ex err Hin Hex Hdec) as [err' ->].
    done.
Qed.

Lemma splitFields_no_fail fields path err :
  splitFields error sched fields path <> Fail err.
Proof.
  unfold splitFields. apply forRange_no_fail.
  intros [pf bf] [n f] e _. destruct (pf !! n); [done|].
  destruct f; [|done]. by destruct (bool_decide _).
Qed.

Lemma pathParameters_no_fail pf err :
  pathParameters (DataMap:=DataMap) (LSecret:=LSecret) (LAuth:=LAuth)
    (WrapInfo:=WrapInfo) error sched pf <> Fail err.
Proof.
  unfold pathParameters. apply forRange_no_fail.
  intros ps [n f] e _. by destruct f.
Qed.

(** An error of [pathItemFor] is the error of a copy for a documented
    handler. *)
Lemma pathItemFor_fail p sudo unauth bt path err :
  itemFor p sudo unauth bt path = Fail err ->
  exists k h,
    resolveOperations PathOperation p !! k = Some h
    /\ documented Properties (resolveOperations PathOperation p) k h = true
    /\ copyFails Decode (Properties h) err.
Proof.
  unfold pathItemFor. intros H.
  destruct (splitFields error sched (Fields p) path) as [[pf bf]| |] eqn:Hs;
    simpl in H; try done.
  - destruct (pathParameters error sched pf) as [params| |] eqn:Hp;
      simpl in H; try done.
    + destruct (loop_not_ok sched _ bf bt _ _ _ H) as (k & h & Hin & Hd & Hb);
        [done|].
      exists k, h. split; [|split; [done|by eapply build_fail]].
      rewrite rangeOps_perm in Hin. by apply elem_of_map_to_list in Hin.
    + simplify_eq. by apply pathParameters_no_fail in Hp.
  - simplify_eq. by apply splitFields_no_fail in Hs.
Qed.

(** A copy that fails for a documented handler makes [pathItemFor] fail,
    once the fields have been classified. *)
Lemma pathItemFor_fails p sudo unauth bt path k h err pf bf
    (params : list (oasParameter DataMap LSecret LAuth WrapInfo)) :
  resolveOperations PathOperation p !! k = Some h ->
  documented Properties (resolveOperations PathOperation p) k h = true ->
  copyFails Decode (Properties h) err ->
  splitFields error sched (Fields p) path = Ok (pf, bf) ->
  pathParameters error sched pf = Ok params ->
  exists err', itemFor p sudo unauth bt path = Fail err'.
Proof.
  intros Hk Hd Hcf Hs Hp. unfold pathItemFor. rewrite Hs. simpl. rewrite Hp. simpl.
  pose proof (splitFields_body sched _ _ _ _ Hs) as Hbf.
  match goal with
  | |- context [forRange ?l ?b ?s] => destruct (forRange l b s) as [pi| |] eqn:Hloop
  end.
  - exfalso.
    assert (exists pi, forRange (rangeOps sched (resolveOperations PathOperation p))
              (operationStep Decode Properties sched
                 (resolveOperations PathOperation p) bf bt)
              (startItem p sudo unauth path params) = Ok pi) as Hex by eauto.
    rewrite loop_ok_iff in Hex.
    destruct (Hex k h) as [op Hop]; [|done|].
    + rewrite rangeOps_perm. by apply elem_of_map_to_list.
    + destruct (build_fails (resolveOperations PathOperation p) bf bt k
                  (Properties h) err Hcf Hbf) as [err' Herr].
      congruence.
  - by eexists.
  - exfalso.
    destruct (loop_not_ok sched _ bf bt _ _ _ Hloop) as (k' & h' & _ & _ & Hb);
      [done|].
    by apply build_no_panic in Hb.
Qed.

Lemma pathsLoop_fail p sudo unauth bt paths doc doc' err :
  pathsLoop Decode Properties PathOperation sched p sudo unauth bt paths doc
    = (Fail err, doc') ->
  exists path, path ∈ paths /\ itemFor p sudo unauth bt path = Fail err.
Proof.
  revert doc. induction paths as [|path rest IH]; intros doc H; simpl in H.
  - done.
  - destruct (itemFor p sudo unauth bt path) as [pi| |] eqn:Hpi.
    + destruct (IH _ H) as (q & Hq & Hf). exists q. split; [by right|done].
    + simplify_eq. exists path. split; [by left|done].
    + done.
Qed.

Lemma documentPath_fail p sp bt doc doc' err :
  docPath p sp bt doc = (Fail err, doc') ->
  exists k h,
    resolveOperations PathOperation p !! k = Some h
    /\ documented Properties (resolveOperations PathOperation p) k h = true
    /\ copyFails Decode (Properties h) err.
Proof.
  unfold documentPath. intros H.
  apply pathsLoop_fail in H as (path & _ & H). by eapply pathItemFor_fail.
Qed.

Lemma documentPath_fails p sp bt doc k h err :
  resolveOperations PathOperation p !! k = Some h ->
  documented Properties (resolveOperations PathOperation p) k h = true ->
  copyFails Decode (Properties h) err ->
  (forall path, path ∈ expandPattern (Pattern p) ->
     exists pf bf (params : list (oasParameter DataMap LSecret LAuth WrapInfo)),
       splitFields error sched (Fields p) path = Ok (pf, bf)
       /\ pathParameters error sched pf = Ok params) ->
  exists err', docPath p sp bt doc = (Fail err', doc).
Proof.
  intros Hk Hd Hcf Hfields. unfold documentPath.
  pose proof (expandPattern_nonempty (Pattern p)) as Hne.
  destruct (expandPattern (Pattern p)) as [|path rest]; [done|].
  destruct (Hfields path) as (pf & bf & params & Hs & Hp); [by left|].
  simpl.
  match goal with
  | |- context [pathItemFor _ _ _ _ _ ?su ?un _ _] =>
      destruct (pathItemFor_fails p su un bt path k h err pf bf params
                  Hk Hd Hcf Hs Hp) as [err' ->]
  end.
  by exists err'.
Qed.

Lemma routesLoop_app routes1 routes2 sp bt doc doc1 :
  routesLoop Decode Properties PathOperation sched routes1 sp bt doc = (Ok (), doc1) ->
  routesLoop Decode Properties PathOperation sched (routes1 ++ routes2) sp bt doc
  = routesLoop Decode Properties PathOperation sched routes2 sp bt doc1.
Proof.
  revert doc. induction routes1 as [|p rest IH]; intros doc H; simpl in *.
  - by simplify_eq.
  - destruct (docPath p sp bt doc) as [[[]| |] d]; try done. by apply IH.
Qed.

Lemma routesLoop_fail routes sp bt doc doc' err :
  routesLoop Decode Properties PathOperation sched routes sp bt doc = (Fail err, doc') ->
  exists p d d', p ∈ routes /\ docPath p sp bt d = (Fail err, d').
Proof.
  revert doc. induction routes as [|p rest IH]; intros doc H; simpl in H; [done|].
  destruct (docPath p sp bt doc) as [[[]| |] d] eqn:Hp; try done.
  - destruct (IH _ H) as (q & d1 & d2 & Hq & Hf).
    exists q, d1, d2. split; [by right|done].
  - simplify_eq. exists p, doc, doc'. split; [by left|done].
Qed.

(** C8: the call returns an error only when the structural copy of a
    response example of a documented handler fails, and the error is that of
    the copy. When such a copy fails in a route whose fields have been
    classified, [documentPath] returns an error for the route and stores
    none of its paths, and [documentPaths] returns this error with the
    document as the earlier routes left it: the later routes are not
    visited. *)
Theorem documentPaths_copy_failure backend doc :
  (forall err doc',
     documentPaths Decode Properties PathOperation sched backend doc
       = (Fail err, doc') ->
     exists p k h,
       p ∈ bPaths backend
       /\ resolveOperations PathOperation p !! k = Some h
       /\ documented Properties (resolveOperations PathOperation p) k h = true
       /\ copyFails Decode (Properties h) err)
  /\ (forall earlier p later doc1 k h err,
        bPaths backend = earlier ++ p :: later ->
        routesLoop Decode Properties PathOperation sched earlier
          (bSpecialPaths backend) (bBackendType backend) doc = (Ok (), doc1) ->
        resolveOperations PathOperation p !! k = Some h ->
        documented Properties (resolveOperations PathOperation p) k h = true ->
        copyFails Decode (Properties h) err ->
        (forall path, path ∈ expandPattern (Pattern p) ->
           exists pf bf (params : list (oasParameter DataMap LSecret LAuth WrapInfo)),
             splitFields error sched (Fields p) path = Ok (pf, bf)
             /\ pathParameters error sched pf = Ok params) ->
        exists err',
          docPath p (bSpecialPaths backend) (bBackendType backend) doc1
            = (Fail err', doc1)
          /\ documentPaths Decode Properties PathOperation sched backend doc
             = (Fail err', doc1)).
Proof.
  split.
  - unfold documentPaths. intros err doc' H.
    apply routesLoop_fail in H as (p & d & d' & Hp & Hf).
    apply documentPath_fail in Hf as (k & h & ? & ? & ?).
    by exists p, k, h.
  - intros earlier p later doc1 k h err Hroutes Hearlier Hk Hd Hcf Hfields.
    destruct (documentPath_fails p (bSpecialPaths backend) (bBackendType backend)
                doc1 k h err Hk Hd Hcf Hfields) as [err' Herr].
    exists err'. split; [done|].
    unfold documentPaths. rewrite Hroutes.
    rewrite (routesLoop_app _ _ _ _ _ _ Hearlier). simpl. by rewrite Herr.
Qed.

End Errors.

(** *** Placeholders without a field, and the order of the parameters *)

Section Parameters.
Context (sched : Scheduler LResponse OperationHandler).

Local Abbreviation docPath := (documentPath Decode Properties PathOperation sched).
Local Abbreviation itemFor := (pathItemFor Decode Properties PathOperation sched).

Lemma seedFields_keep (fields acc : gmap gostring (option FieldSchema)) ms name :
  acc !! name = Some (default None (fields !! name)) ->
  foldl (fun pf (m : list gostring) =>
           <[nth 1 m [] := default None (fields !! nth 1 m [])]> pf) acc ms
    !! name = Some (default None (fields !! name)).
Proof.
  revert acc. induction ms as [|m ms IH]; intros acc Hacc; simpl; [done|].
  apply IH. destruct (decide (nth 1 m [] = name)) as [<-|Hne].
  - by rewrite lookup_insert_eq.
  - by rewrite lookup_insert_ne.
Qed.

Lemma seedFields_set (fields acc : gmap gostring (option FieldSchema)) ms m :
  m ∈ ms ->
  foldl (fun pf (m : list gostring) =>
           <[nth 1 m [] := default None (fields !! nth 1 m [])]> pf) acc ms
    !! nth 1 m [] = Some (default None (fields !! nth 1 m [])).
Proof.
  revert acc. induction ms as [|m0 ms IH]; intros acc Hin; simpl.
  - by apply elem_of_nil in Hin.
  - apply elem_of_cons in Hin as [->|Hin]; [|by apply IH].
    apply seedFields_keep. by rewrite lookup_insert_eq.
Qed.

(** [splitFields] records a placeholder without a field as a path field
    with a nil pointer. *)
Lemma splitFields_unmatched fields path m pf bf :
  m ∈ FindAllStringSubmatch pathFieldsRe 1 path ->
  fields !! nth 1 m [] = None ->
  splitFields error sched fields path = Ok (pf, bf) ->
  pf !! nth 1 m [] = Some None.
Proof.
  intros Hm Hnone. unfold splitFields. intros H.
  match type of H with
  | forRange ?l ?b ?s = _ =>
      apply (forRange_invariant
               (fun st : gmap gostring (option FieldSchema)
                         * gmap gostring (option FieldSchema) =>
                  st.1 !! nth 1 m [] = Some None) l b s (pf, bf))
  end; [| |done].
  - intros [pf1 bf1] [name field] [pf2 bf2] _ Hinv. simpl in *.
    destruct (pf1 !! name) eqn:Hname; [by intros [= <- <-]|].
    destruct field as [f|]; [|done].
    destruct (bool_decide _); intros [= <- <-]; [|done].
    rewrite lookup_insert_ne; [done|]. intros ->. congruence.
  - simpl. rewrite (seedFields_set fields ∅ _ m Hm). by rewrite Hnone.
Qed.

(** The loop over the path fields panics on a nil pointer. *)
Lemma pathParameters_nil pf name :
  pf !! name = Some None ->
  pathParameters (DataMap:=DataMap) (LSecret:=LSecret) (LAuth:=LAuth)
    (WrapInfo:=WrapInfo) error sched pf = Panic.
Proof.
  intros Hname.
  pose proof (pathParameters_no_fail sched pf) as Hnf.
  unfold pathParameters in *.
  match goal with
  | |- forRange ?l ?b ?s = _ =>
      pose proof (forRange_not_ok l b s (name, None)) as Hno;
      destruct (forRange l b s) as [ps| |] eqn:Hloop
  end; [|by destruct (Hnf e)|done].
  exfalso. eapply Hno; [| |done].
  - rewrite rangeFields_perm. by apply elem_of_map_to_list.
  - done.
Qed.

Lemma splitFields_outcome fields path :
  (exists pf bf, splitFields error sched fields path = Ok (pf, bf))
  \/ splitFields error sched fields path = Panic.
Proof.
  pose proof (splitFields_no_fail sched fields path) as Hnf.
  destruct (splitFields error sched fields path) as [[pf bf]| |]; eauto.
  by destruct (Hnf e).
Qed.

(** C3, as the code has it: a placeholder of an expanded path whose name
    the route declares no field for is recorded by [splitFields] as a path
    field with a nil pointer, and the loop over the path fields then panics
    on it: the call does not end well. *)
Theorem documentPath_unmatched_placeholder p sp bt doc path m :
  path ∈ expandPattern (Pattern p) ->
  m ∈ FindAllStringSubmatch pathFieldsRe 1 path ->
  Fields p !! nth 1 m [] = None ->
  (forall pf bf, splitFields error sched (Fields p) path = Ok (pf, bf) ->
                 pf !! nth 1 m [] = Some None)
  /\ (forall sudo unauth, itemFor p sudo unauth bt path = Panic)
  /\ (docPath p sp bt doc).1 <> Ok ().
Proof.
  intros Hpath Hm Hnone.
  assert (forall sudo unauth, itemFor p sudo unauth bt path = Panic) as Hpanic.
  { intros sudo unauth. unfold pathItemFor.
    destruct (splitFields_outcome (Fields p) path) as [(pf & bf & Hs)| ->];
      [|done].
    rewrite Hs. simpl.
    rewrite (pathParameters_nil pf (nth 1 m [])); [done|].
    by eapply splitFields_unmatched. }
  split; [|split; [done|]].
  - intros pf bf Hs. by eapply splitFields_unmatched.
  - intros Hok.
    destruct (docPath p sp bt doc) as [r doc'] eqn:Hdoc. simpl in Hok. subst.
    destruct (documentPath_lookup sched _ _ _ _ _ Hdoc path Hpath)
      as (pi & sudo & unauth & Hpi & _).
    by rewrite Hpanic in Hpi.
Qed.

(** The parameters of a path item are sorted by their lower-case names. *)
Lemma pathItemFor_sorted p sudo unauth bt path pi :
  itemFor p sudo unauth bt path = Ok pi ->
  StronglySorted
    (fun a b : oasParameter DataMap LSecret LAuth WrapInfo =>
       ltb (ToLower (pName b)) (ToLower (pName a)) = false)
    (piParameters pi).
Proof.
  intros Hpi.
  destruct (pathItemFor_ok sched _ _ _ _ _ _ Hpi) as (pf & bf & params & _ & _ & Hloop).
  apply loop_sameHead in Hloop as (_ & -> & _). simpl.
  apply (sortSlice_sorted parameterLess).
  - intros a b. apply ltb_asym.
  - intros a b c. apply ltb_negtrans.
Qed.

Lemma documentPath_sorted p sp bt doc doc' :
  docPath p sp bt doc = (Ok (), doc') ->
  forall path, path ∈ expandPattern (Pattern p) ->
  exists pi,
    dPaths doc' !! (lit "/" ++ path) = Some pi
    /\ StronglySorted
         (fun a b : oasParameter DataMap LSecret LAuth WrapInfo =>
            ltb (ToLower (pName b)) (ToLower (pName a)) = false)
         (piParameters pi).
Proof.
  intros Hdoc path Hin.
  destruct (documentPath_lookup sched _ _ _ _ _ Hdoc path Hin)
    as (pi & sudo & unauth & Hpi & Hlook).
  exists pi. split; [done|]. by eapply pathItemFor_sorted.
Qed.

(** When every field is named in the path, all fields are path fields. *)
Lemma splitFields_all_path fields path :
  let seed :=
    foldl (fun pf (m : list gostring) =>
             <[nth 1 m [] := default None (fields !! nth 1 m [])]> pf)
          ∅ (FindAllStringSubmatch pathFieldsRe 1 path) in
  (forall n f, fields !! n = Some f -> is_Some (seed !! n)) ->
  splitFields error sched fields path = Ok (seed, ∅).
Proof.
  intros seed Hall. unfold splitFields. fold seed.
  assert (forall l, (forall x, x ∈ l -> fields !! x.1 = Some x.2) ->
            forRange (E:=error) l
              (fun '(pf, bf) '(name, field) =>
                 match pf !! name with
                 | Some _ => Ok (pf, bf)
                 | None =>
                     match field with
                     | None => Panic
                     | Some f =>
                         if bool_decide (fsType f = TypeHeader)
                         then Ok (<[name := field]> pf, bf)
                         else Ok (pf, <[name := field]> bf)
                     end
                 end) (seed, (∅ : gmap gostring (option FieldSchema)))
            = Ok (seed, ∅)) as Hloop.
  { induction l as [|[n f] l IH]; intros Hl; simpl; [done|].
    destruct (Hall n f) as [v ->]; [apply (Hl (n, f)); by left|].
    simpl. apply IH. intros x Hx. apply Hl. by right. }
  apply Hloop. intros [n f] Hx. simpl.
  rewrite rangeFields_perm in Hx. by apply elem_of_map_to_list in Hx.
Qed.

(** *** Routes on which the call ends well *)

Lemma seedFields_no_nil (fields acc : gmap gostring (option FieldSchema)) ms :
  (forall n, acc !! n <> Some None) ->
  (forall m, m ∈ ms -> default None (fields !! nth 1 m []) <> None) ->
  forall n,
    foldl (fun pf (m : list gostring) =>
             <[nth 1 m [] := default None (fields !! nth 1 m [])]> pf) acc ms
      !! n <> Some None.
Proof.
  revert acc. induction ms as [|m ms IH]; intros acc Hacc Hms; simpl; [done|].
  apply IH.
  - intros n. destruct (decide (nth 1 m [] = n)) as [<-|Hne].
    + rewrite lookup_insert_eq. intros [= H]. apply (Hms m); [by left|done].
    + by rewrite lookup_insert_ne.
  - intros m' Hm'. apply Hms. by right.
Qed.

(** When no field is a nil pointer and every placeholder of the path has a
    field, the fields are classified and the parameters are built. *)
Lemma fields_classified fields path :
  (forall n, fields !! n <> Some None) ->
  (forall m, m ∈ FindAllStringSubmatch pathFieldsRe 1 path ->
             is_Some (fields !! nth 1 m [])) ->
  exists pf bf (params : list (oasParameter DataMap LSecret LAuth WrapInfo)),
    splitFields error sched fields path = Ok (pf, bf)
    /\ pathParameters error sched pf = Ok params.
Proof.
  intros Hnil Hall.
  assert (exists pf bf, splitFields error sched fields path = Ok (pf, bf)
                        /\ forall n, pf !! n <> Some None)
    as (pf & bf & Hs & Hpf).
  { pose proof (splitFields_no_fail sched fields path) as Hnf.
    destruct (splitFields error sched fields path) as [[pf bf]| |] eqn:Hs.
    - exists pf, bf. split; [done|]. unfold splitFields in Hs.
      match type of Hs with
      | forRange ?l ?b ?s = _ =>
          apply (forRange_invariant
                   (fun st : gmap gostring (option FieldSchema)
                             * gmap gostring (option FieldSchema) =>
                      forall n, st.1 !! n <> Some None) l b s (pf, bf))
      end; [| |done].
      + intros [pf1 bf1] [name field] [pf2 bf2] _ Hinv. simpl in *.
        destruct (pf1 !! name); [by intros [= <- <-]|].
        destruct field as [f|]; [|done].
        destruct (bool_decide _); intros [= <- <-]; [|done].
        intros n. destruct (decide (name = n)) as [->|Hne].
        * by rewrite lookup_insert_eq.
        * by rewrite lookup_insert_ne.
      + simpl. apply seedFields_no_nil.
        * intros n. by rewrite lookup_empty.
        * intros m Hm. destruct (Hall m Hm) as [f Hf]. rewrite Hf. simpl.
          intros ->. by apply (Hnil (nth 1 m [])).
    - by destruct (Hnf e).
    - exfalso. unfold splitFields in Hs.
      apply forRange_panic_inv in Hs as ([pf1 bf1] & [n f] & Hin & Hb).
      rewrite rangeFields_perm in Hin. apply elem_of_map_to_list in Hin.
      destruct (pf1 !! n); [done|].
      destruct f as [f|]; [by destruct (bool_decide _)|].
      by apply (Hnil n). }
  exists pf, bf.
  pose proof (pathParameters_no_fail sched pf) as Hnf.
  destruct (pathParameters (DataMap:=DataMap) (LSecret:=LSecret) (LAuth:=LAuth)
              (WrapInfo:=WrapInfo) error sched pf) as [params| |] eqn:Hp.
  - by exists params.
  - by destruct (Hnf e).
  - exfalso. unfold pathParameters in Hp.
    apply forRange_panic_inv in Hp as (ps & [n f] & Hin & Hb).
    rewrite rangeFields_perm in Hin. apply elem_of_map_to_list in Hin.
    destruct f as [f|]; [done|]. by apply (Hpf n).
Qed.

(** When, besides, no copy fails for a documented handler, the call ends
    well. *)
Lemma documentPath_ends_well p sp bt doc :
  (forall n, Fields p !! n <> Some None) ->
  (forall path m, path ∈ expandPattern (Pattern p) ->
     m ∈ FindAllStringSubmatch pathFieldsRe 1 path ->
     is_Some (Fields p !! nth 1 m [])) ->
  (forall k h err,
     resolveOperations PathOperation p !! k = Some h ->
     documented Properties (resolveOperations PathOperation p) k h = true ->
     ~ copyFails Decode (Properties h) err) ->
  exists doc', docPath p sp bt doc = (Ok (), doc').
Proof.
  intros Hnil Hall Hcopy. unfold documentPath.
  set (sudo := match sp with Some s => Root s | None => [] end).
  set (unauth := match sp with Some s => Unauthenticated s | None => [] end).
  assert (forall path, path ∈ expandPattern (Pattern p) ->
            exists pi, itemFor p sudo unauth bt path = Ok pi) as Hitem.
  { intros path Hpath.
    destruct (fields_classified (Fields p) path Hnil (fun m => Hall path m Hpath))
      as (pf & bf & params & Hs & Hp).
    unfold pathItemFor. rewrite Hs. simpl. rewrite Hp. simpl.
    apply loop_ok_iff. intros k h Hin Hd.
    rewrite rangeOps_perm in Hin. apply elem_of_map_to_list in Hin.
    pose proof (build_no_panic sched (resolveOperations PathOperation p) bf bt k
                  (Properties h) (splitFields_body sched _ _ _ _ Hs)) as Hnp.
    destruct (buildOperation Decode sched (resolveOperations PathOperation p)
                bf bt k (Properties h)) as [op| |] eqn:Hb.
    - by exists op.
    - apply build_fail in Hb. by destruct (Hcopy k h e Hin Hd).
    - done. }
  assert (forall paths d,
            (forall path, path ∈ paths ->
               exists pi, itemFor p sudo unauth bt path = Ok pi) ->
            exists doc',
              pathsLoop Decode Properties PathOperation sched p sudo unauth bt
                paths d = (Ok (), doc')) as Hloop.
  { induction paths as [|path rest IH]; intros d Hrest.
    - by eexists.
    - simpl. destruct (Hrest path) as [pi ->]; [by left|].
      apply IH. intros q Hq. apply Hrest. by right. }
  by apply Hloop.
Qed.

End Parameters.
End Facts.

(** ** The pattern expander on the patterns of the specification *)

(** C10: ["(leases/)?renew"] expands to the two paths ["leases/renew"] and
    ["renew"], and to nothing else. *)
Theorem expandPattern_optional_prefix :
  expandPattern (lit "(leases/)?renew") = [lit "leases/renew"; lit "renew"]
  /\ forall path,
       path ∈ expandPattern (lit "(leases/)?renew")
       <-> path = lit "renew" \/ path = lit "leases/renew".
Proof.
  assert (expandPattern (lit "(leases/)?renew")
          = [lit "leases/renew"; lit "renew"]) as H
    by (vm_compute; reflexivity).
  split; [exact H|]. intros path. rewrite H.
  rewrite !elem_of_cons, elem_of_nil. tauto.
Qed.

(** C1, as the specification states it, fails: without parentheses around
    the alternation, [altRe] has no match and the pattern stays one path. *)
Lemma expandPattern_bare_alternation :
  ~ (forall path,
       path ∈ expandPattern (lit "raw/?$|raw/(?P<path>.+)")
       <-> path = lit "raw" \/ path = lit "raw/{path}").
Proof.
  intros H.
  assert (expandPattern (lit "raw/?$|raw/(?P<path>.+)")
          = [lit "raw/|raw/{path}"]) as Hexp
    by (vm_compute; reflexivity).
  destruct (H (lit "raw")) as [_ Hraw].
  rewrite Hexp in Hraw. specialize (Hraw (or_introl eq_refl)).
  apply list_elem_of_singleton in Hraw. vm_compute in Hraw. discriminate Hraw.
Qed.

(** C1 (amended): with the alternation in parentheses,
    ["(raw/?$|raw/(?P<path>.+))"] expands to the two paths ["raw"] and
    ["raw/{path}"], and to nothing else; without them the pattern expands
    to the single path ["raw/|raw/{path}"]. *)
Theorem expandPattern_alternation :
  expandPattern (lit "(raw/?$|raw/(?P<path>.+))") = [lit "raw"; lit "raw/{path}"]
  /\ (forall path,
        path ∈ expandPattern (lit "(raw/?$|raw/(?P<path>.+))")
        <-> path = lit "raw" \/ path = lit "raw/{path}")
  /\ expandPattern (lit "raw/?$|raw/(?P<path>.+)") = [lit "raw/|raw/{path}"].
Proof.
  assert (expandPattern (lit "(raw/?$|raw/(?P<path>.+))")
          = [lit "raw"; lit "raw/{path}"]) as H
    by (vm_compute; reflexivity).
  split; [exact H|]. split; [|vm_compute; reflexivity].
  intros path. rewrite H. rewrite !elem_of_cons, elem_of_nil. tauto.
Qed.

(** ** The sample routes *)

Lemma zetaAlpha_item (sched : Scheduler bool Sample.props) :
  exists pi,
    pathItemFor Sample.Decode Sample.Properties Sample.PathOperation sched
      Sample.zetaAlphaRoute [] [] TypeLogical (lit "x/{Zeta}/{alpha}") = Ok pi
    /\ pName <$> piParameters pi = [lit "alpha"; lit "Zeta"].
Proof.
  unfold pathItemFor.
  rewrite splitFields_all_path.
  2:{ intros n f Hn.
      match goal with
      | |- is_Some (?seed !! n) =>
          replace seed with (Fields Sample.zetaAlphaRoute)
            by (vm_compute; reflexivity)
      end.
      by rewrite Hn. }
  simpl.
  match goal with
  | |- context [pathParameters _ _ ?seed] =>
      replace seed with (Fields Sample.zetaAlphaRoute)
        by (vm_compute; reflexivity)
  end.
  assert (rangeOps sched (resolveOperations Sample.PathOperation Sample.zetaAlphaRoute)
          = []) as ->.
  { apply Permutation_nil_r. rewrite rangeOps_perm. vm_compute. reflexivity. }
  unfold pathParameters.
  pose proof (rangeFields_perm sched (Fields Sample.zetaAlphaRoute)) as Hperm.
  replace (map_to_list (Fields Sample.zetaAlphaRoute))
    with [(lit "Zeta", Sample.stringField); (lit "alpha", Sample.stringField)]
    in Hperm by (vm_compute; reflexivity).
  symmetry in Hperm. apply Permutation_length_2_inv in Hperm as [-> | ->];
    eexists; (split; [vm_compute; reflexivity|vm_compute; reflexivity]).
Qed.

(** C9: in every path item that [documentPath] stores for a route whose
    field names are ASCII, the parameters are sorted by their names in lower
    case; the parameters [Zeta] and [alpha] come out as [alpha], [Zeta],
    whatever the order in which the fields are visited. *)
Theorem documentPath_parameters_sorted :
  (forall (DataMap LSecret LAuth WrapInfo LResponse OperationFunc error : Type)
          (Decode : LResponse -> cleanedResponse DataMap LSecret LAuth WrapInfo + error)
          (OperationHandler : Type)
          (Properties : OperationHandler -> OperationProperties DataMap LResponse)
          (PathOperation : OperationFunc -> gostring -> OperationHandler)
          (sched : Scheduler LResponse OperationHandler)
          (p : Path OperationFunc OperationHandler) sp bt doc doc',
     asciiNames (Fields p) = true ->
     documentPath Decode Properties PathOperation sched p sp bt doc = (Ok (), doc') ->
     forall path, path ∈ expandPattern (Pattern p) ->
     exists pi,
       dPaths doc' !! (lit "/" ++ path) = Some pi
       /\ StronglySorted
            (fun a b : oasParameter DataMap LSecret LAuth WrapInfo =>
               ltb (ToLower (pName b)) (ToLower (pName a)) = false)
            (piParameters pi))
  /\ (forall sched : Scheduler bool Sample.props,
        exists pi,
          dPaths (Sample.run sched Sample.zetaAlphaRoute).2
            !! lit "/x/{Zeta}/{alpha}" = Some pi
          /\ pName <$> piParameters pi = [lit "alpha"; lit "Zeta"]).
Proof.
  split.
  - intros. by eapply documentPath_sorted.
  - intros sched. unfold Sample.run, documentPath.
    replace (expandPattern (Pattern Sample.zetaAlphaRoute))
      with [lit "x/{Zeta}/{alpha}"] by (vm_compute; reflexivity).
    rewrite pathsLoop_single.
    destruct (zetaAlpha_item sched) as (pi & -> & Hnames).
    exists pi. split; [|done].
    simpl. apply lookup_insert_eq.
Qed.

(** The route [lookup/(?P<urltoken>.+)] without a field [urltoken]: the
    call panics and leaves the document as it was. *)
Lemma lookupRoute_panics :
  Sample.run Sample.keyOrder Sample.lookupRoute = (Panic, Sample.emptyDoc).
Proof. vm_compute. reflexivity. Qed.

(** [documentPath_unmatched_placeholder] on the route
    [lookup/(?P<urltoken>.+)] without a field. *)
Lemma documentPath_unmatched_placeholder_witness :
  (forall pf bf,
     splitFields gostring Sample.keyOrder (Fields Sample.lookupRoute)
       (lit "lookup/{urltoken}") = Ok (pf, bf) ->
     pf !! nth 1 [lit "{urltoken}"; lit "urltoken"] [] = Some None)
  /\ (forall sudo unauth,
        pathItemFor Sample.Decode Sample.Properties Sample.PathOperation
          Sample.keyOrder Sample.lookupRoute sudo unauth TypeLogical
          (lit "lookup/{urltoken}") = Panic)
  /\ (Sample.run Sample.keyOrder Sample.lookupRoute).1 <> Ok ().
Proof.
  apply (documentPath_unmatched_placeholder Sample.Decode Sample.Properties
           Sample.PathOperation Sample.keyOrder Sample.lookupRoute None
           TypeLogical Sample.emptyDoc (lit "lookup/{urltoken}")
           [lit "{urltoken}"; lit "urltoken"]).
  - vm_compute. left.
  - vm_compute. left.
  - vm_compute. reflexivity.
Defined.

(** C2, as the specification states it, fails: with a published create
    handler and an unpublished update handler the post slot stays empty,
    while without the update handler the create handler fills it. *)
Lemma unpublished_update_hides_create :
  ~ (piPost <$> dPaths (Sample.run Sample.keyOrder Sample.hiddenUpdateRoute).2
                  !! lit "/config"
     = piPost <$> dPaths (Sample.run Sample.keyOrder
                            (withOperations Sample.hiddenUpdateRoute
                               (delete UpdateOperation
                                  (resolveOperations Sample.PathOperation
                                     Sample.hiddenUpdateRoute)))).2
                  !! lit "/config").
Proof. vm_compute. intros H. discriminate H. Qed.

(** [documentPath_unpublished] on a route with a read handler and an
    unpublished delete handler. *)
Lemma documentPath_unpublished_witness :
  (forall doc',
     Sample.run Sample.keyOrder Sample.hiddenDeleteRoute = (Ok (), doc') ->
     forall path, path ∈ expandPattern (Pattern Sample.hiddenDeleteRoute) ->
     exists pi pf bf,
       dPaths doc' !! (lit "/" ++ path) = Some pi
       /\ splitFields gostring Sample.keyOrder (Fields Sample.hiddenDeleteRoute)
            path = Ok (pf, bf)
       /\ forall s,
            match slotWriter Sample.Properties
                    (resolveOperations Sample.PathOperation
                       Sample.hiddenDeleteRoute) s with
            | Some (k', h') =>
                propUnpublished (Sample.Properties h') = false
                /\ exists op,
                     buildOperation Sample.Decode Sample.keyOrder
                       (resolveOperations Sample.PathOperation
                          Sample.hiddenDeleteRoute) bf TypeLogical k'
                       (Sample.Properties h') = Ok op
                     /\ slotOf s pi = Some op
            | None => slotOf s pi = None
            end)
  /\ (DeleteOperation <> UpdateOperation -> DeleteOperation <> ReadOperation ->
      DeleteOperation <> ListOperation ->
      let p' := withOperations Sample.hiddenDeleteRoute
                  (delete DeleteOperation
                     (resolveOperations Sample.PathOperation
                        Sample.hiddenDeleteRoute)) in
      (Sample.run Sample.keyOrder Sample.hiddenDeleteRoute).2
      = (Sample.run Sample.keyOrder p').2
      /\ agree (Sample.run Sample.keyOrder Sample.hiddenDeleteRoute).1
               (Sample.run Sample.keyOrder p').1).
Proof.
  apply (documentPath_unpublished Sample.Decode Sample.Properties
           Sample.PathOperation Sample.keyOrder Sample.hiddenDeleteRoute None
           TypeLogical Sample.emptyDoc DeleteOperation
           (Sample.handler "delete one" true)).
  - vm_compute. reflexivity.
  - reflexivity.
Defined.

(** [documentPath_create_and_update] on a route with both handlers. *)
Lemma documentPath_create_and_update_witness :
  exists pi pf bf op,
    dPaths (Sample.run Sample.keyOrder Sample.createUpdateRoute).2
      !! (lit "/" ++ lit "config") = Some pi
    /\ splitFields gostring Sample.keyOrder (Fields Sample.createUpdateRoute)
         (lit "config") = Ok (pf, bf)
    /\ buildOperation Sample.Decode Sample.keyOrder
         (resolveOperations Sample.PathOperation Sample.createUpdateRoute) bf
         TypeLogical UpdateOperation
         (Sample.Properties (Sample.handler "update it" false)) = Ok op
    /\ piCreateSupported pi = true
    /\ piPost pi = Some op
    /\ opSummary op = lit "update it"
    /\ opDescription op = []
    /\ opDeprecated op = false.
Proof.
  apply (documentPath_create_and_update Sample.Decode Sample.Properties
           Sample.PathOperation Sample.keyOrder Sample.createUpdateRoute None
           TypeLogical Sample.emptyDoc
           (Sample.run Sample.keyOrder Sample.createUpdateRoute).2
           (Sample.handler "create it" false)
           (Sample.handler "update it" false)).
  - vm_compute. reflexivity.
  - vm_compute. reflexivity.
  - reflexivity.
  - reflexivity.
  - vm_compute. reflexivity.
  - vm_compute. left.
Defined.

(** [documentPath_list_and_read] on a route with both handlers. *)
Lemma documentPath_list_and_read_witness :
  exists pi pf bf op,
    dPaths (Sample.run Sample.keyOrder Sample.listReadRoute).2
      !! (lit "/" ++ lit "keys") = Some pi
    /\ splitFields gostring Sample.keyOrder (Fields Sample.listReadRoute)
         (lit "keys") = Ok (pf, bf)
    /\ buildOperation Sample.Decode Sample.keyOrder
         (resolveOperations Sample.PathOperation Sample.listReadRoute) bf
         TypeLogical ReadOperation
         (Sample.Properties (Sample.handler "read one" false)) = Ok op
    /\ piGet pi = Some op
    /\ opSummary op = lit "read one"
    /\ opDescription op = []
    /\ opDeprecated op = false
    /\ opParameters op =
         [ {| pName := lit "list";
              pDescription := lit "Return a list if `true`";
              pIn := lit "query";
              pSchema := Some (typeSchema (lit "string"));
              pRequired := false;
              pDeprecated := false |} ].
Proof.
  apply (documentPath_list_and_read Sample.Decode Sample.Properties
           Sample.PathOperation Sample.keyOrder Sample.listReadRoute None
           TypeLogical Sample.emptyDoc
           (Sample.run Sample.keyOrder Sample.listReadRoute).2
           (Sample.handler "list them" false)
           (Sample.handler "read one" false)).
  - vm_compute. reflexivity.
  - vm_compute. reflexivity.
  - reflexivity.
  - reflexivity.
  - vm_compute. reflexivity.
  - vm_compute. left.
Defined.

(** [documentPath_order_independent] on the handlers of a route, visited in
    the order of their keys and the other way round. *)
Lemma documentPath_order_independent_witness :
  (Sample.run Sample.keyOrder Sample.listReadRoute).2
  = (Sample.run Sample.reverseOps Sample.listReadRoute).2
  /\ agree (Sample.run Sample.keyOrder Sample.listReadRoute).1
           (Sample.run Sample.reverseOps Sample.listReadRoute).1.
Proof.
  apply (documentPath_order_independent Sample.Decode Sample.Properties
           Sample.PathOperation Sample.keyOrder Sample.reverseOps
           Sample.listReadRoute None TypeLogical Sample.emptyDoc).
  - intros m. reflexivity.
  - intros m. reflexivity.
Defined.

(** The two schedulers do visit the handlers of the route in different
    orders. *)
Lemma reverseOps_differs :
  rangeOps Sample.keyOrder
    (resolveOperations Sample.PathOperation Sample.listReadRoute)
  <> rangeOps Sample.reverseOps
       (resolveOperations Sample.PathOperation Sample.listReadRoute).
Proof. vm_compute. intros H. discriminate H. Qed.

(** [documentPaths_copy_failure] on a backend of three routes, the second
    of which declares an example that cannot be copied: the first route is
    documented, the third is not visited. *)
Lemma documentPaths_copy_failure_witness :
  exists err',
    documentPath Sample.Decode Sample.Properties Sample.PathOperation
      Sample.keyOrder Sample.failingRoute None TypeLogical
      (Sample.run Sample.keyOrder Sample.createUpdateRoute).2
    = (Fail err', (Sample.run Sample.keyOrder Sample.createUpdateRoute).2)
    /\ documentPaths Sample.Decode Sample.Properties Sample.PathOperation
         Sample.keyOrder Sample.backend Sample.emptyDoc
       = (Fail err', (Sample.run Sample.keyOrder Sample.createUpdateRoute).2).
Proof.
  apply (proj2 (documentPaths_copy_failure Sample.Decode Sample.Properties
                  Sample.PathOperation Sample.keyOrder Sample.backend
                  Sample.emptyDoc)
           [Sample.createUpdateRoute] Sample.failingRoute [Sample.listReadRoute]
           (Sample.run Sample.keyOrder Sample.createUpdateRoute).2
           ReadOperation (Sample.handlerWithExample "read it" false)
           (lit "decode failed")).
  - reflexivity.
  - vm_compute. reflexivity.
  - vm_compute. reflexivity.
  - vm_compute. reflexivity.
  - exists (lit "200"),
      [ {| respDescription := lit "OK"; respMediaType := [];
           respExample := Some false |} ],
      {| respDescription := lit "OK"; respMediaType := [];
         respExample := Some false |}, false.
    split; [vm_compute; reflexivity|]. split; [left|]. split; reflexivity.
  - intros path Hpath.
    replace (expandPattern (Pattern Sample.failingRoute)) with [lit "status"]
      in Hpath by (vm_compute; reflexivity).
    apply list_elem_of_singleton in Hpath as ->.
    eexists _, _, _. split; vm_compute; reflexivity.
Defined.

(** ** Further properties of the generator *)

(** *** Special paths *)

Lemma HasPrefix_iff s m : HasPrefix s m = true <-> exists r, s = m ++ r.
Proof.
  split; [apply HasPrefix_inv|]. intros [r ->]. apply HasPrefix_app.
Qed.

Lemma HasSuffix_star sp :
  HasSuffix sp (lit "*") = true <-> exists q, sp = q ++ lit "*".
Proof.
  unfold HasSuffix. change (length (lit "*")) with 1. split.
  - intros H. apply andb_true_iff in H as [Hl H]. apply Nat.leb_le in Hl.
    apply HasPrefix_inv in H as [r Hr].
    exists (take (length sp - 1) sp).
    rewrite <- (take_drop (length sp - 1) sp) at 1. f_equal.
    rewrite Hr. 
    assert (length (drop (length sp - 1) sp) = 1) as Hlen
      by (rewrite length_drop; lia).
    rewrite Hr, length_app in Hlen. simpl in Hlen.
    destruct r; [by rewrite app_nil_r|simpl in Hlen; lia].
  - intros [q ->]. rewrite length_app. change (length (lit "*")) with 1.
    apply andb_true_iff. split; [apply Nat.leb_le; lia|].
    replace (length q + 1 - 1) with (length q) by lia.
    rewrite drop_app_length. done.
Qed.

Lemma slice_init q x :
  slice (q ++ [x]) 0 (Z.of_nat (length (q ++ [x])) - 1) = q.
Proof.
  unfold slice. rewrite length_app. simpl. rewrite drop_0.
  replace (Z.to_nat (Z.of_nat (length q + 1) - 1 - 0)) with (length q) by lia.
  by rewrite take_app_length.
Qed.

(** X1: [specialPathMatch] tells whether some special path is the path
    itself, or ends with a star and has the text before its star as a prefix
    of the path. *)
Theorem specialPathMatch_spec path specialPaths :
  specialPathMatch path specialPaths = true
  <-> exists sp, sp ∈ specialPaths /\ (sp = path \/ starMatch sp path).
Proof.
  induction specialPaths as [|sp rest IH]; cbn [specialPathMatch].
  - split; [intros H; discriminate H|]. intros (sp & Hin & _). by apply elem_of_nil in Hin.
  - destruct (bool_decide (sp = path)
              || HasSuffix sp (lit "*")
                 && HasPrefix path (slice sp 0 (Z.of_nat (length sp) - 1)))
      eqn:Hhere.
    + split; [|done]. intros _. exists sp. split; [by left|].
      apply orb_true_iff in Hhere as [Heq|Hstar].
      * left. by apply bool_decide_eq_true in Heq.
      * right. apply andb_true_iff in Hstar as [Hsuf Hpre].
        apply HasSuffix_star in Hsuf as [q ->].
        change (lit "*") with [ch "*"] in Hpre. rewrite slice_init in Hpre.
        apply HasPrefix_inv in Hpre as [r ->]. by exists q, r.
    + rewrite IH. split.
      * intros (sp' & Hin & H). exists sp'. split; [by right|done].
      * intros (sp' & Hin & H).
        apply elem_of_cons in Hin as [->|Hin]; [|by exists sp'].
        exfalso. apply orb_false_iff in Hhere as [Hne Hstar].
        apply bool_decide_eq_false in Hne.
        destruct H as [Heq|(q & r & -> & ->)]; [done|].
        rewrite (proj2 (HasSuffix_star (q ++ lit "*"))) in Hstar by eauto.
        change (lit "*") with [ch "*"] in Hstar. rewrite slice_init in Hstar.
        by rewrite HasPrefix_app in Hstar.
Qed.

(** *** Cleaning of strings *)

Lemma find_None_all r s :
  find r s = None -> forall a1 a2, s = a1 ++ a2 -> matchAt r a2 = None.
Proof.
  induction s as [|x s IH]; simpl.
  - destruct (matchAt r []) as [[rest c]|] eqn:Hm; [done|].
    intros _ a1 a2 H. symmetry in H. by apply app_eq_nil in H as [_ ->].
  - destruct (matchAt r (x :: s)) as [[rest c]|] eqn:Hm; [done|].
    destruct (find r s) as [f|] eqn:Hf; [done|]. intros _ a1 a2 H.
    destruct a1 as [|y a1]; simpl in H; [by subst|].
    injection H as -> ->. by eapply IH.
Qed.

Lemma matchAt_wsRe s :
  matchAt wsRe s =
    match s with
    | x :: s' => if isSpace x then Some (skipClass isSpace s', []) else None
    | [] => None
    end.
Proof.
  unfold matchAt, wsRe. rewrite run_Plus_class.
  destruct s as [|x s]; [done|]. destruct (isSpace x); [|done].
  by rewrite starClass_total by eauto.
Qed.

Lemma skipClass_suffix p s : exists m, s = m ++ skipClass p s.
Proof. exists (takeClass p s). by rewrite takeClass_skipClass. Qed.

Lemma wsRe_suffix s rest c :
  matchAt wsRe s = Some (rest, c) -> exists m, s = m ++ rest.
Proof. apply matchAt_suffix. Qed.

Lemma wsRe_nonempty s c : matchAt wsRe s <> Some (s, c).
Proof.
  intros H. apply matchAt_consumes in H as (m & Heq & Hl).
  change (minLen wsRe) with 1 in Hl.
  apply (f_equal length) in Heq. rewrite length_app in Heq. lia.
Qed.

Lemma squeeze_plain inRun a s :
  forallb (fun x => negb (isSpace x)) a = true -> a <> [] ->
  squeeze inRun (a ++ s) = a ++ squeeze false s.
Proof.
  revert inRun. induction a as [|x a IH]; intros inRun Ha Hne; [done|].
  simpl in Ha. apply andb_true_iff in Ha as [Hx Ha].
  apply negb_true_iff in Hx. simpl. rewrite Hx. f_equal.
  destruct a as [|y a]; [done|]. by apply IH.
Qed.

Lemma squeeze_plain_false a s :
  forallb (fun x => negb (isSpace x)) a = true ->
  squeeze false (a ++ s) = a ++ squeeze false s.
Proof.
  intros Ha. destruct a as [|x a]; [done|]. by apply squeeze_plain.
Qed.

Lemma squeeze_skip s : squeeze true s = squeeze false (skipClass isSpace s).
Proof.
  induction s as [|x s IH]; simpl; [done|].
  destruct (isSpace x) eqn:Hx; [done|]. simpl. by rewrite Hx.
Qed.

Lemma quiet_wsRe a z :
  quiet wsRe a z -> forallb (fun x => negb (isSpace x)) a = true.
Proof.
  induction a as [|x a IH]; intros Hq; [done|]. simpl.
  apply andb_true_iff. split.
  - pose proof (Hq [] (x :: a) eq_refl ltac:(done)) as H.
    rewrite matchAt_wsRe in H. simpl in H. by destruct (isSpace x).
  - apply IH. intros a1 a2 -> Hne. by apply (Hq (x :: a1) a2).
Qed.

Lemma allMatches_wsRe fuel pre s adj :
  length s < fuel ->
  flat_map (fun f => before f ++ lit " ") (allMatches wsRe fuel pre s adj).1
    ++ (allMatches wsRe fuel pre s adj).2
  = pre ++ squeeze false s.
Proof.
  revert pre s adj. induction fuel as [|fuel IH]; intros pre s adj Hlen; [lia|].
  rewrite (allMatches_step wsRe wsRe_suffix wsRe_nonempty).
  destruct (find wsRe s) as [f|] eqn:Hf.
  - destruct (find_spec wsRe wsRe_suffix s f Hf) as (Hs & Hm & Hq).
    pose proof (find_nonempty wsRe wsRe_suffix wsRe_nonempty s f Hf) as Hne.
    apply quiet_wsRe in Hq.
    assert (length (after f) < fuel) as Hlen'.
    { rewrite Hs, !length_app in Hlen. destruct (whole f); [done|].
      simpl in Hlen. lia. }
    rewrite matchAt_wsRe in Hm.
    destruct (whole f ++ after f) as [|y t] eqn:Hwa; [done|].
    destruct (isSpace y) eqn:Hy; [|done]. injection Hm as Hafter _.
    specialize (IH [] (after f) true Hlen').
    destruct (allMatches wsRe fuel [] (after f) true) as [ms tl].
    cbn [fst snd flat_map before app] in *.
    rewrite <- !app_assoc. f_equal.
    rewrite IH, Hs. rewrite squeeze_plain_false by done. f_equal.
    simpl. rewrite Hy. change (lit " ") with [ch " "]. simpl. f_equal.
    by rewrite squeeze_skip, Hafter.
  - simpl. f_equal.
    assert (forallb (fun x => negb (isSpace x)) s = true) as Hplain.
    { apply (quiet_wsRe s []). intros a1 a2 Heq _. rewrite app_nil_r.
      by apply (find_None_all wsRe s Hf a1 a2). }
    rewrite <- (app_nil_r s) at 2. rewrite squeeze_plain_false by done.
    simpl. by rewrite app_nil_r.
Qed.

(** Replacing the white space runs is squeezing them. *)
Lemma ReplaceAllString_wsRe s : ReplaceAllString wsRe s (lit " ") = squeeze false s.
Proof.
  unfold ReplaceAllString, matches.
  pose proof (allMatches_wsRe (S (length s)) [] s false) as H.
  destruct (allMatches wsRe (S (length s)) [] s false) as [ms tl].
  apply H. lia.
Qed.

Lemma cleanString_squeeze s : cleanString s = squeeze false (TrimSpace s).
Proof. unfold cleanString. apply ReplaceAllString_wsRe. Qed.

(** *** [TrimSpace] *)

Lemma trimLeft_head s x t : trimLeft s = x :: t -> isTrimSpace x = false.
Proof.
  induction s as [|y s IH]; simpl; [done|].
  destruct (isTrimSpace y) eqn:Hy; [done|]. by intros [= <- <-].
Qed.

Lemma trimLeft_split s :
  exists m, s = m ++ trimLeft s /\ forallb isTrimSpace m = true.
Proof.
  induction s as [|y s (m & IH & Hm)]; simpl; [by exists []|].
  destruct (isTrimSpace y) eqn:Hy.
  - exists (y :: m). simpl. rewrite Hy, Hm. split; [by rewrite <- IH|done].
  - by exists [].
Qed.

Lemma trimLeft_id s :
  (forall x u, s = x :: u -> isTrimSpace x = false) -> trimLeft s = s.
Proof.
  destruct s as [|x s]; [done|]. intros H. simpl. by rewrite (H x s).
Qed.

Lemma trimLeft_nil s : trimLeft s = [] <-> forallb isTrimSpace s = true.
Proof.
  induction s as [|y s IH]; simpl; [done|].
  destruct (isTrimSpace y); simpl; [done|]. split; intros H; discriminate H.
Qed.

Lemma TrimSpace_trimmed s : trimmed (TrimSpace s).
Proof.
  unfold TrimSpace.
  destruct (trimLeft_split (rev (trimLeft s))) as (m & Hm & _).
  set (v := trimLeft (rev (trimLeft s))) in *.
  split.
  - intros x u Hx.
    destruct (trimLeft s) as [|y t] eqn:Ht.
    { simpl in Hm. symmetry in Hm. apply app_eq_nil in Hm as [_ Hv].
      rewrite Hv in Hx. done. }
    apply (f_equal (@rev ascii)) in Hm. rewrite rev_involutive, rev_app_distr in Hm.
    rewrite Hx in Hm. injection Hm as <- _. by eapply trimLeft_head.
  - intros u x Hx. apply (f_equal (@rev ascii)) in Hx.
    rewrite rev_involutive, rev_app_distr in Hx. simpl in Hx.
    by eapply trimLeft_head.
Qed.

Lemma TrimSpace_id t : trimmed t -> TrimSpace t = t.
Proof.
  intros [Hhead Hlast]. unfold TrimSpace.
  rewrite (trimLeft_id t Hhead). rewrite trimLeft_id; [apply rev_involutive|].
  intros x u Hx. apply (Hlast (rev u) x).
  apply (f_equal (@rev ascii)) in Hx. rewrite rev_involutive in Hx.
  by rewrite Hx.
Qed.

Lemma forallb_rev {A} (p : A -> bool) (l : list A) :
  forallb p (rev l) = forallb p l.
Proof.
  induction l as [|x l IH]; [done|]. simpl.
  rewrite forallb_app, IH. simpl. rewrite andb_true_r. apply andb_comm.
Qed.

Lemma TrimSpace_nil s : TrimSpace s = [] <-> forallb isTrimSpace s = true.
Proof.
  unfold TrimSpace. split.
  - intros H. apply (f_equal (@rev ascii)) in H. rewrite rev_involutive in H.
    simpl in H. apply trimLeft_nil in H. rewrite forallb_rev in H.
    destruct (trimLeft_split s) as (m & Hs & Hm).
    rewrite Hs, forallb_app, Hm, H. done.
  - intros H. apply trimLeft_nil in H. by rewrite H.
Qed.

(** *** The squeezed text *)

Lemma isSpace_isTrimSpace x : isSpace x = true -> isTrimSpace x = true.
Proof.
  unfold isSpace, isTrimSpace. intros H.
  repeat (apply orb_true_iff in H as [H|H]); apply Nat.eqb_eq in H;
    rewrite H; reflexivity.
Qed.

Lemma not_isTrimSpace_isSpace x : isTrimSpace x = false -> isSpace x = false.
Proof.
  intros H. destruct (isSpace x) eqn:Hx; [|done].
  apply isSpace_isTrimSpace in Hx. congruence.
Qed.

Lemma squeeze_snoc b u x :
  isSpace x = false -> squeeze b (u ++ [x]) = squeeze b u ++ [x].
Proof.
  intros Hx. revert b. induction u as [|y u IH]; intros b; simpl.
  - by rewrite Hx.
  - destruct (isSpace y); [destruct b|]; simpl; by rewrite IH.
Qed.

Lemma squeeze_nil b s : squeeze b s = [] -> forallb isSpace s = true.
Proof.
  revert b. induction s as [|x s IH]; intros b; simpl; [done|].
  destruct (isSpace x); [|done]. destruct b; [|done]. apply IH.
Qed.

Lemma squeeze_trimmed t : trimmed t -> trimmed (squeeze false t).
Proof.
  intros [Hhead Hlast]. split.
  - intros x u Hx. destruct t as [|y t]; [done|].
    pose proof (Hhead y t eq_refl) as Hy.
    simpl in Hx. rewrite (not_isTrimSpace_isSpace y Hy) in Hx.
    by injection Hx as <- _.
  - intros u x Hx.
    destruct (rev t) as [|y t'] eqn:Hrev.
    { apply (f_equal (@rev ascii)) in Hrev. rewrite rev_involutive in Hrev.
      subst t. by destruct u. }
    apply (f_equal (@rev ascii)) in Hrev. rewrite rev_involutive in Hrev.
    simpl in Hrev. subst t.
    pose proof (Hlast (rev t') y eq_refl) as Hy.
    rewrite squeeze_snoc in Hx by (by apply not_isTrimSpace_isSpace).
    apply app_inj_tail in Hx as [_ <-]. done.
Qed.

Lemma squeeze_spaces b s x :
  x ∈ squeeze b s -> isSpace x = true -> x = ch " ".
Proof.
  revert b. induction s as [|y s IH]; intros b; simpl.
  - intros H. by apply elem_of_nil in H.
  - destruct (isSpace y) eqn:Hy.
    + destruct b; [apply IH|]. intros H Hx.
      apply elem_of_cons in H as [->|H]; [done|]. by eapply IH.
    + intros H Hx. apply elem_of_cons in H as [->|H]; [congruence|].
      by eapply IH.
Qed.

Lemma squeeze_true_head s z c : squeeze true s = z :: c -> isSpace z = false.
Proof.
  induction s as [|x s IH]; simpl; [done|].
  destruct (isSpace x) eqn:Hx; [done|]. by intros [= <- _].
Qed.

Lemma squeeze_no_run b s a y z c :
  squeeze b s = a ++ y :: z :: c -> isSpace y = true -> isSpace z = false.
Proof.
  revert b a. induction s as [|x s IH]; intros b a; simpl.
  - by destruct a.
  - destruct (isSpace x) eqn:Hx.
    + destruct b; [apply IH|]. destruct a as [|w a]; simpl.
      * intros [= <- H] _. by eapply squeeze_true_head.
      * intros [= <- H]. by eapply IH.
    + destruct a as [|w a]; simpl.
      * intros [= <- H]. congruence.
      * intros [= <- H]. by eapply IH.
Qed.

Lemma squeeze_twice b s : squeeze b (squeeze b s) = squeeze b s.
Proof.
  revert b. induction s as [|x s IH]; intros b; simpl; [done|].
  destruct (isSpace x) eqn:Hx.
  - destruct b; [apply IH|]. simpl. change (isSpace (ch " ")) with true.
    cbv iota. by rewrite IH.
  - simpl. rewrite Hx. by rewrite IH.
Qed.

(** *** [cleanString] *)

Lemma isTrimSpace_cases x :
  isTrimSpace x = true -> isSpace x = true \/ x = verticalTab.
Proof.
  intros Ht. destruct (isSpace x) eqn:Hs; [by left|right].
  unfold verticalTab. rewrite <- (ascii_nat_embedding x).
  unfold isTrimSpace, isSpace in *. f_equal.
  destruct (nat_of_ascii x =? 9) eqn:E9; [done|].
  destruct (nat_of_ascii x =? 10) eqn:E10; [done|].
  destruct (nat_of_ascii x =? 12) eqn:E12; [done|].
  destruct (nat_of_ascii x =? 13) eqn:E13; [done|].
  destruct (nat_of_ascii x =? 32) eqn:E32; [done|].
  rewrite orb_false_r in Ht. apply andb_true_iff in Ht as [H9 H13].
  apply Nat.leb_le in H9, H13.
  apply Nat.eqb_neq in E9, E10, E12, E13. lia.
Qed.

(** X2: on ASCII text, what [cleanString] returns neither starts nor ends
    with a white space character of [TrimSpace] (tab, line feed, vertical
    tab, form feed, carriage return, blank); of these it holds only the
    blank and the vertical tab, which [\s] does not match and which
    therefore stays where it is inside the text; and it holds no two blanks
    in a row. *)
Theorem cleanString_normal_form s :
  isASCII s = true ->
  trimmed (cleanString s)
  /\ (forall x, x ∈ cleanString s -> isTrimSpace x = true ->
        x = ch " " \/ x = verticalTab)
  /\ (forall a b, cleanString s <> a ++ lit "  " ++ b).
Proof.
  intros _. rewrite cleanString_squeeze. split; [|split].
  - apply squeeze_trimmed, TrimSpace_trimmed.
  - intros x Hx Ht. destruct (isTrimSpace_cases x Ht) as [Hs|Hv]; [left|by right].
    by eapply squeeze_spaces.
  - intros a b H. change (lit "  " ++ b) with (ch " " :: ch " " :: b) in H.
    by apply squeeze_no_run in H.
Qed.

(** X3: on ASCII text, cleaning a cleaned string changes nothing. *)
Theorem cleanString_idempotent s :
  isASCII s = true -> cleanString (cleanString s) = cleanString s.
Proof.
  intros _. rewrite !cleanString_squeeze.
  rewrite TrimSpace_id by apply squeeze_trimmed, TrimSpace_trimmed.
  apply squeeze_twice.
Qed.

(** X4: on ASCII text, [cleanString] returns the empty string exactly when
    its argument holds white space only. *)
Theorem cleanString_empty s :
  isASCII s = true ->
  cleanString s = [] <-> forallb isTrimSpace s = true.
Proof.
  intros _. rewrite cleanString_squeeze. rewrite <- TrimSpace_nil. split.
  - intros H. pose proof (TrimSpace_trimmed s) as [Hhead _].
    destruct (TrimSpace s) as [|x t]; [done|].
    simpl in H. by rewrite (not_isTrimSpace_isSpace x (Hhead x t eq_refl)) in H.
  - by intros ->.
Qed.

(** *** Patterns without a match *)

(** *** Patterns that cannot match *)

Lemma needs_run a r :
  needs a r = true ->
  forall {A} s c (k : gostring -> caps -> option A), a ∉ s -> run r s c k = None.
Proof.
  induction r as [| b | p | | r1 IH1 r2 IH2 | r1 IH1 r2 IH2 | g r1 IH1 | n r1 IH1];
    simpl; intros Hn A s c k Hs; try done.
  - destruct s as [|x s]; [done|].
    destruct (Ascii.eqb x b) eqn:Hx; [|done].
    apply Ascii.eqb_eq in Hn, Hx. subst. exfalso. apply Hs. by left.
  - apply orb_true_iff in Hn as [Hn|Hn]; [by apply IH1|].
    match goal with |- ?e = None => destruct e as [v|] eqn:Hrun; [|done] end.
    apply run_consumes in Hrun as (m & s' & c' & -> & _ & Hrun).
    rewrite IH2 in Hrun; [done|done|].
    intros Hin. apply Hs. apply elem_of_app. by right.
  - apply andb_true_iff in Hn as [Hn1 Hn2].
    by rewrite IH1, IH2.
  - by apply IH1.
Qed.

Lemma needs_find a r s : needs a r = true -> a ∉ s -> find r s = None.
Proof.
  intros Hn. induction s as [|x s IH]; intros Hs; simpl.
  - unfold matchAt. by rewrite (needs_run a r Hn).
  - unfold matchAt. rewrite (needs_run a r Hn) by done.
    rewrite IH; [done|]. intros Hin. apply Hs. by right.
Qed.

Lemma find_None_matches r s : find r s = None -> matches r s = ([], s).
Proof. intros H. unfold matches. cbn [allMatches]. by rewrite H. Qed.

Lemma find_None_submatch r n s : find r s = None -> FindAllStringSubmatch r n s = [].
Proof. intros H. unfold FindAllStringSubmatch. by rewrite find_None_matches. Qed.

Lemma find_None_replace r s repl : find r s = None -> ReplaceAllString r s repl = s.
Proof. intros H. unfold ReplaceAllString. by rewrite find_None_matches. Qed.

Lemma find_None_index r s : find r s = None -> FindStringIndex r s = None.
Proof. intros H. unfold FindStringIndex. by rewrite H. Qed.

(** *** [strings.Replace] *)

Lemma cut_Some s old pre post :
  cut s old = Some (pre, post) -> s = pre ++ old ++ post.
Proof.
  revert pre. induction s as [|x s IH]; intros pre; cbn [cut].
  - destruct old as [|o old]; simpl; [|done]. by intros [= <- <-].
  - destruct (HasPrefix (x :: s) old) eqn:Hp.
    + intros [= <- <-]. apply HasPrefix_inv in Hp as [r Hr].
      rewrite Hr. by rewrite drop_app_length.
    + destruct (cut s old) as [[pre' post']|]; [|done].
      intros [= <- <-]. simpl. f_equal. by apply IH.
Qed.

Lemma Replace_absent s old new n :
  ~ occursIn old s -> Replace s old new n = s.
Proof.
  intros Hno. unfold Replace.
  destruct (bool_decide (old = new) || (n =? 0)%Z); [done|].
  destruct old as [|o old].
  { exfalso. apply Hno. by exists [], s. }
  simpl. destruct ((n =? 0)%Z); [done|].
  destruct (cut s (o :: old)) as [[pre post]|] eqn:Hcut; [|done].
  exfalso. apply Hno. apply cut_Some in Hcut. by exists pre, post.
Qed.

Lemma occursIn_elem t s x : occursIn t s -> x ∈ t -> x ∈ s.
Proof.
  intros (a & b & ->) Hx. rewrite !elem_of_app. auto.
Qed.

Lemma occursIn_trans t u s : occursIn t u -> occursIn u s -> occursIn t s.
Proof.
  intros (a & b & ->) (a' & b' & ->). exists (a' ++ a), (b ++ b').
  by rewrite <- !app_assoc.
Qed.

(** *** The loop over the optional elements, when there is none *)

Lemma expandOptional_fixed paths :
  (forall p, p ∈ paths -> FindStringIndex optRe p = None) ->
  expandOptional paths = paths.
Proof.
  intros Hnone. unfold expandOptional.
  apply (runPow_invariant (fun st : list gostring * nat => st.1 = paths));
    [|done].
  intros [ps i] [ps' i'] Hps Hstep. simpl in Hps. subst ps.
  unfold optStep in Hstep.
  destruct (paths !! i) as [p|] eqn:Hp; [|done].
  rewrite (Hnone p) in Hstep by (by eapply list_elem_of_lookup_2).
  by injection Hstep as <- _.
Qed.

(** *** What the final cleanup removes *)

Lemma matchAt_Class p s :
  matchAt (Class p) s =
    match s with
    | x :: s' => if p x then Some (s', []) else None
    | [] => None
    end.
Proof. done. Qed.

Lemma quiet_Class p a z :
  quiet (Class p) a z -> forallb (fun x => negb (p x)) a = true.
Proof.
  induction a as [|x a IH]; intros Hq; [done|]. simpl.
  apply andb_true_iff. split.
  - pose proof (Hq [] (x :: a) eq_refl ltac:(done)) as H.
    rewrite matchAt_Class in H. simpl in H. by destruct (p x).
  - apply IH. intros a1 a2 -> Hne. by apply (Hq (x :: a1) a2).
Qed.

Lemma filter_keep {A} (q : A -> bool) (l : list A) :
  forallb q l = true -> List.filter q l = l.
Proof.
  induction l as [|x l IH]; simpl; [done|]. intros H.
  apply andb_true_iff in H as [-> H]. by rewrite IH.
Qed.

Lemma allMatches_Class p fuel pre s adj :
  length s < fuel ->
  flat_map (fun f => before f ++ []) (allMatches (Class p) fuel pre s adj).1
    ++ (allMatches (Class p) fuel pre s adj).2
  = pre ++ List.filter (fun x => negb (p x)) s.
Proof.
  destruct (Class_facts p) as (Hsuf & Hne & _).
  revert pre s adj. induction fuel as [|fuel IH]; intros pre s adj Hlen; [lia|].
  rewrite (allMatches_step (Class p) Hsuf Hne).
  destruct (find (Class p) s) as [f|] eqn:Hf.
  - destruct (find_spec (Class p) Hsuf s f Hf) as (Hs & Hm & Hq).
    pose proof (find_nonempty (Class p) Hsuf Hne s f Hf) as Hw.
    apply quiet_Class in Hq.
    assert (length (after f) < fuel) as Hlen'.
    { rewrite Hs, !length_app in Hlen. destruct (whole f); [done|].
      simpl in Hlen. lia. }
    rewrite matchAt_Class in Hm.
    destruct (whole f ++ after f) as [|y t] eqn:Hwa; [done|].
    destruct (p y) eqn:Hy; [|done]. injection Hm as Hafter _.
    specialize (IH [] (after f) true Hlen').
    destruct (allMatches (Class p) fuel [] (after f) true) as [ms tl].
    cbn [fst snd flat_map before app] in *.
    rewrite app_nil_r, <- !app_assoc. f_equal.
    rewrite IH, Hs. rewrite List.filter_app, (filter_keep _ _ Hq). f_equal.
    simpl. rewrite Hy. simpl. by rewrite Hafter.
  - simpl. f_equal. symmetry. apply filter_keep.
    apply (quiet_Class p s []). intros a1 a2 Heq _. rewrite app_nil_r.
    by apply (find_None_all (Class p) s Hf a1 a2).
Qed.

(** Deleting the matches of a character class is filtering. *)
Lemma ReplaceAllString_Class p s :
  ReplaceAllString (Class p) s [] = List.filter (fun x => negb (p x)) s.
Proof.
  unfold ReplaceAllString, matches.
  pose proof (allMatches_Class p (S (length s)) [] s false) as H.
  destruct (allMatches (Class p) (S (length s)) [] s false) as [ms tl].
  apply H. lia.
Qed.

(** X5: no path that [expandPattern] returns holds a parenthesis, an anchor
    ([^], [$]) or a question mark. *)
Theorem expandPattern_no_regex_chars pattern path x :
  path ∈ expandPattern pattern -> x ∈ path -> oneOf (lit "()^$?") x = false.
Proof.
  unfold expandPattern. intros Hpath Hx.
  apply list_elem_of_fmap in Hpath as (c & -> & _).
  unfold cleanPath, cleanCharsRe in Hx. rewrite ReplaceAllString_Class in Hx.
  apply list_elem_of_In, List.filter_In in Hx as [_ Hx].
  by apply negb_true_iff in Hx.
Qed.

(** *** Patterns that expand to one path *)

(** *** Plain text *)

Lemma plain_app a b : plain (a ++ b) = plain a && plain b.
Proof. apply forallb_app. Qed.

Lemma plain_notin s x : plain s = true -> plainChar x = false -> x ∉ s.
Proof.
  intros Hs Hx Hin. unfold plain in Hs. rewrite forallb_forall in Hs.
  apply list_elem_of_In, Hs in Hin. congruence.
Qed.

Lemma plain_clean s :
  plain s = true -> forallb (fun x => negb (oneOf (lit "()^$?") x)) s = true.
Proof.
  unfold plain. rewrite !forallb_forall. intros H x Hx. specialize (H x Hx).
  unfold plainChar, noneOf in H. apply andb_true_iff in H as [H _].
  apply negb_true_iff in H. apply negb_true_iff.
  destruct (oneOf (lit "()^$?") x) eqn:Ho; [|done].
  rewrite <- H. symmetry. revert Ho. apply oneOf_subset.
  intros y Hy. simpl in *. tauto.
Qed.

Lemma regexToRemove_text : regexToRemove = lit "\w(([\w-.]+)?\w)?".
Proof. vm_compute. reflexivity. Qed.

(** *** The steps of [expandPattern] on text they do not touch *)

Lemma replaceNamed_absent s : ch "?" ∉ s -> replaceNamed s = s.
Proof.
  intros Hs. unfold replaceNamed.
  by rewrite (find_None_submatch reqdRe 1 s (needs_find (ch "?") reqdRe s eq_refl Hs)).
Qed.

Lemma cleanPath_absent s :
  forallb (fun x => negb (oneOf (lit "()^$?") x)) s = true -> cleanPath s = s.
Proof.
  intros Hs. unfold cleanPath.
  assert (ch "?" ∉ s) as Hq.
  { intros Hin. rewrite forallb_forall in Hs. apply list_elem_of_In, Hs in Hin.
    discriminate Hin. }
  rewrite (find_None_replace cleanSuffixRe s []
             (needs_find (ch "?") cleanSuffixRe s eq_refl Hq)).
  unfold cleanCharsRe. rewrite ReplaceAllString_Class. by apply filter_keep.
Qed.

Lemma seedPaths_absent s : ch "|" ∉ s -> seedPaths s = [s].
Proof.
  intros Hs. unfold seedPaths.
  by rewrite (find_None_submatch altRe 2 s (needs_find (ch "|") altRe s eq_refl Hs)).
Qed.

(** A match of [optRe] ends with a closing parenthesis and a question
    mark. *)
Lemma matchAt_optRe_occurs s rest c :
  matchAt optRe s = Some (rest, c) -> occursIn (lit ")?") s.
Proof.
  unfold matchAt, optRe, seqs. cbn [foldr].
  rewrite run_Seq, run_Lit. destruct s as [|x s1]; [done|].
  destruct (Ascii.eqb x (ch "(")); [|done].
  rewrite run_Seq. intros H.
  apply run_consumes in H as (m & s' & c' & -> & _ & H).
  rewrite run_Seq, run_Lit in H. destruct s' as [|y s']; [done|].
  destruct (Ascii.eqb y (ch ")")) eqn:Hy; [|done].
  apply Ascii.eqb_eq in Hy. subst y.
  rewrite run_Seq, run_Lit in H. destruct s' as [|z s']; [done|].
  destruct (Ascii.eqb z (ch "?")) eqn:Hz; [|done].
  apply Ascii.eqb_eq in Hz. subst z.
  exists (x :: m), s'. reflexivity.
Qed.

Lemma find_optRe_absent s : ~ occursIn (lit ")?") s -> find optRe s = None.
Proof.
  intros Hno. destruct (find optRe s) as [f|] eqn:Hf; [|done].
  exfalso. apply Hno.
  destruct (find_spec optRe (matchAt_suffix optRe) s f Hf) as (Hs & Hm & _).
  apply matchAt_optRe_occurs in Hm. eapply occursIn_trans; [exact Hm|].
  exists (before f), []. by rewrite app_nil_r.
Qed.

Lemma expandOptional_absent s :
  ~ occursIn (lit ")?") s -> expandOptional [s] = [s].
Proof.
  intros Hno. apply expandOptional_fixed. intros p Hp.
  apply list_elem_of_singleton in Hp as ->.
  by apply find_None_index, find_optRe_absent.
Qed.

Lemma remove_absent s :
  ~ occursIn (lit ")?") s -> Replace s regexToRemove [] (-1) = s.
Proof.
  intros Hno. apply Replace_absent. intros Hocc. apply Hno.
  eapply occursIn_trans; [|exact Hocc].
  rewrite regexToRemove_text. by exists (lit "\w(([\w-.]+"), (lit "\w)?").
Qed.

Lemma expand_single pattern :
  ch "|" ∉ pattern -> ~ occursIn (lit ")?") pattern ->
  expandPattern pattern = [cleanPath (replaceNamed pattern)].
Proof.
  intros Hbar Hopt. unfold expandPattern.
  rewrite (remove_absent pattern Hopt), (seedPaths_absent pattern Hbar).
  by rewrite (expandOptional_absent pattern Hopt).
Qed.

(** X6: a pattern that holds no bar and nowhere a closing parenthesis
    followed by a question mark has neither an alternation nor an optional
    element, and expands to exactly one path: the pattern itself with its
    named parameters rewritten, cleaned. *)
Theorem expandPattern_single pattern :
  ch "|" ∉ pattern -> ~ occursIn (lit ")?") pattern ->
  expandPattern pattern = [cleanPath (replaceNamed pattern)]
  /\ length (expandPattern pattern) = 1.
Proof.
  intros Hbar Hopt. by rewrite (expand_single pattern Hbar Hopt).
Qed.

Lemma not_occursIn_absent t s x : x ∈ t -> x ∉ s -> ~ occursIn t s.
Proof. intros Ht Hs Hocc. apply Hs. by eapply occursIn_elem. Qed.

(** X7: a pattern of plain text is its own and only path. *)
Theorem expandPattern_plain pattern :
  plain pattern = true -> expandPattern pattern = [pattern].
Proof.
  intros Hp.
  rewrite expand_single.
  - rewrite replaceNamed_absent by (by apply plain_notin).
    by rewrite cleanPath_absent by (by apply plain_clean).
  - by apply plain_notin.
  - apply (not_occursIn_absent _ _ (ch "?")); [by right; left|].
    by apply plain_notin.
Qed.

(** *** One optional element *)

Lemma run_lazy_class {A} p (k : gostring -> caps -> option A) s c :
  run (Star false (Class p)) s c k = lazyClass p k s c.
Proof.
  simpl.
  assert (forall n s, length s <= n ->
            (fix loop (n : nat) (s : gostring) (c : caps) {struct n} : option A :=
               match n with
               | O => k s c
               | S n' =>
                   orElse (k s c)
                     match s with
                     | [] => None
                     | x :: s' =>
                         if p x
                         then if length s' <? length s then loop n' s' c else None
                         else None
                     end
               end) n s c = lazyClass p k s c) as H.
  { induction n as [|n IH]; intros s0 Hn.
    - destruct s0; [|simpl in Hn; lia]. simpl. by rewrite orElse_None_r.
    - destruct s0 as [|x s0]; [done|]. simpl in Hn. cbn [lazyClass].
      destruct (p x); [|done].
      replace (length s0 <? length (x :: s0)) with true
        by (symmetry; apply Nat.ltb_lt; simpl; lia).
      rewrite IH by lia. done. }
  by apply H.
Qed.

(** The lazy star stops at the first place where what follows matches. *)
Lemma lazyClass_first {A} p (k : gostring -> caps -> option A) u z c v :
  forallb p u = true ->
  (forall u1 u2, u = u1 ++ u2 -> u2 <> [] -> k (u2 ++ z) c = None) ->
  k z c = Some v ->
  lazyClass p k (u ++ z) c = Some v.
Proof.
  induction u as [|x u IH]; intros Hp Hk Hz.
  - destruct z; simpl; by rewrite Hz.
  - simpl in Hp. apply andb_true_iff in Hp as [Hx Hp].
    pose proof (Hk [] (x :: u) eq_refl ltac:(done)) as H0. cbn [app] in H0.
    cbn [app lazyClass]. rewrite H0, Hx.
    cbn [orElse]. apply IH; [done| |done].
    intros u1 u2 -> Hne. by apply (Hk (x :: u1) u2).
Qed.

(** The greedy star stops at the last place where what follows matches. *)
Lemma starClass_none {A} p (k : gostring -> caps -> option A) z c :
  (forall z1 z2, z = z1 ++ z2 -> k z2 c = None) -> starClass p k z c = None.
Proof.
  induction z as [|x z IH]; intros Hk; simpl.
  - by apply (Hk [] []).
  - rewrite (Hk [] (x :: z)) by done. rewrite IH.
    + by destruct (p x).
    + intros z1 z2 ->. by apply (Hk (x :: z1) z2).
Qed.

Lemma starClass_last {A} p (k : gostring -> caps -> option A) u z c v :
  forallb p u = true ->
  (forall z1 z2, z = z1 ++ z2 -> z1 <> [] -> k z2 c = None) ->
  k z c = Some v ->
  starClass p k (u ++ z) c = Some v.
Proof.
  intros Hp Hk Hz. induction u as [|x u IH].
  - destruct z as [|y z]; simpl; [done|].
    rewrite starClass_none.
    + rewrite Hz. by destruct (p y).
    + intros z1 z2 ->. by apply (Hk (y :: z1) z2).
  - simpl in Hp. apply andb_true_iff in Hp as [Hx Hp].
    cbn [app starClass]. rewrite Hx. by rewrite IH.
Qed.

(** *** Finding a match after text that holds none *)

Lemma find_here r s rest c :
  matchAt r s = Some (rest, c) ->
  find r s = Some (Found [] (take (length s - length rest) s) c rest).
Proof. intros H. destruct s; simpl; by rewrite H. Qed.

Lemma find_skip r a z rest c :
  quiet r a z -> matchAt r z = Some (rest, c) ->
  find r (a ++ z) = Some (Found a (take (length z - length rest) z) c rest).
Proof.
  intros Hq Hm. induction a as [|x a IH].
  - by apply find_here.
  - pose proof (Hq [] (x :: a) eq_refl ltac:(done)) as H0. cbn [app] in H0.
    cbn [app find]. rewrite H0.
    rewrite IH; [done|]. intros a1 a2 -> Hne. by apply (Hq (x :: a1) a2).
Qed.

Lemma quiet_first_char r a z (x : ascii) :
  (forall y s, y <> x -> matchAt r (y :: s) = None) -> x ∉ a -> quiet r a z.
Proof.
  intros Hr Hx a1 a2 -> Hne. destruct a2 as [|y a2]; [done|].
  apply Hr. intros ->. apply Hx. apply elem_of_app. right. by left.
Qed.

Lemma take_app_sub {A} (u z : list A) : take (length (u ++ z) - length z) (u ++ z) = u.
Proof.
  rewrite length_app. replace (length u + length z - length z) with (length u) by lia.
  by rewrite take_app_length.
Qed.

(** *** The end of a loop *)

Lemma runPow_reach {St} (step : St -> option St) n st :
  Reach step st (runPow step n st).1.
Proof.
  revert st. induction n as [|n IH]; intros st; simpl.
  - destruct (step st) as [st'|] eqn:Hs; simpl.
    + eapply Reach_step; [exact Hs|constructor].
    + constructor.
  - pose proof (IH st) as H1. destruct (runPow step n st) as [st1 fin].
    simpl in H1. destruct fin; [done|].
    pose proof (IH st1) as H2.
    clear IH. induction H1; [done|]. eapply Reach_step; eauto.
Qed.

Lemma Reach_end {St} (step : St -> option St) st a b :
  Reach step st a -> step a = None -> Reach step st b -> step b = None -> a = b.
Proof.
  intros Ha. revert b. induction Ha as [st|st st1 st2 Hs Ha IH]; intros b Hend Hb Hb'.
  - destruct Hb as [|st st1 st2 Hs _]; [done|congruence].
  - destruct Hb as [|st st1' st2' Hs' Hb]; [congruence|].
    apply IH; [done| |done]. congruence.
Qed.

Lemma expandOptional_reach paths st :
  Reach optStep (paths, 0) st -> optStep st = None -> expandOptional paths = st.1.
Proof.
  intros Hr Hend. unfold expandOptional. f_equal.
  eapply Reach_end; [apply runPow_reach| |exact Hr|exact Hend].
  apply (runPow_finishes optStep optWeight);
    [apply optStep_weight|apply optWeight_budget].
Qed.

(** *** A pattern with one optional element *)

Lemma matchAt_optRe_group b z :
  forallb anyChar b = true -> ch ")" ∉ b ->
  matchAt optRe (lit "(" ++ b ++ lit ")?" ++ z) = Some (z, []).
Proof.
  intros Hb Hn. unfold matchAt, optRe, seqs. cbn [foldr].
  change (lit "(" ++ ?s) with (ch "(" :: s).
  rewrite run_Seq, run_Lit, Ascii.eqb_refl.
  rewrite run_Seq, run_lazy_class.
  apply lazyClass_first; [done| |done].
  intros u1 u2 -> Hne. destruct u2 as [|y u2]; [done|].
  rewrite run_Seq, run_Lit. cbn [app].
  destruct (Ascii.eqb y (ch ")")) eqn:Hy; [|done].
  apply Ascii.eqb_eq in Hy. subst y. exfalso. apply Hn.
  apply elem_of_app. right. by left.
Qed.

Lemma matchAt_optRe_head y s : y <> ch "(" -> matchAt optRe (y :: s) = None.
Proof.
  intros Hy. unfold matchAt, optRe, seqs. cbn [foldr].
  rewrite run_Seq, run_Lit.
  destruct (Ascii.eqb y (ch "(")) eqn:E; [|done]. by apply Ascii.eqb_eq in E.
Qed.

Lemma plain_anyChar s : plain s = true -> forallb anyChar s = true.
Proof.
  unfold plain. rewrite !forallb_forall. intros H x Hx.
  specialize (H x Hx). unfold plainChar in H. by apply andb_true_iff in H as [_ H].
Qed.

Lemma slice_parts (u v w s : gostring) lo hi :
  s = u ++ v ++ w ->
  lo = Z.of_nat (length u) -> hi = Z.of_nat (length u + length v) ->
  slice s lo hi = v.
Proof.
  intros -> -> ->. unfold slice.
  rewrite Nat2Z.id, drop_app_length.
  replace (Z.to_nat (Z.of_nat (length u + length v) - Z.of_nat (length u)))
    with (length v) by lia.
  by rewrite take_app_length.
Qed.

Lemma FindStringIndex_optRe_group a b c :
  plain a = true -> plain b = true ->
  FindStringIndex optRe (a ++ lit "(" ++ b ++ lit ")?" ++ c)
  = Some (length a, length a + (length b + 3)).
Proof.
  intros Ha Hb. unfold FindStringIndex.
  rewrite (find_skip optRe a _ c []).
  - cbn [before whole]. do 2 f_equal.
    rewrite !app_assoc. rewrite take_app_sub. rewrite !length_app.
    change (length (lit "(")) with 1. change (length (lit ")?")) with 2. lia.
  - apply (quiet_first_char optRe a _ (ch "(")).
    + intros y s. apply matchAt_optRe_head.
    + by apply plain_notin.
  - apply matchAt_optRe_group; [by apply plain_anyChar|by apply plain_notin].
Qed.

Lemma optStep_plain paths i p :
  paths !! i = Some p -> plain p = true -> optStep (paths, i) = Some (paths, S i).
Proof.
  intros Hp Hplain. unfold optStep. rewrite Hp.
  rewrite find_None_index; [done|].
  apply (needs_find (ch "(")); [done|by apply plain_notin].
Qed.

Lemma fix_plain (path : gostring) :
  plain path = true -> cleanPath (replaceNamed path) = path.
Proof.
  intros Hp. rewrite replaceNamed_absent by (by apply plain_notin).
  by apply cleanPath_absent, plain_clean.
Qed.

Lemma remove_no_backslash s :
  ch "\" ∉ s -> Replace s regexToRemove [] (-1) = s.
Proof.
  intros Hs. apply Replace_absent.
  apply (not_occursIn_absent _ _ (ch "\")); [|done].
  rewrite regexToRemove_text. by left.
Qed.

(** X8: text with one optional element between plain texts expands to two
    paths, first the one with the element and then the one without. *)
Theorem expandPattern_optional_element a b c :
  plain a = true -> plain b = true -> plain c = true ->
  expandPattern (a ++ lit "(" ++ b ++ lit ")?" ++ c) = [a ++ b ++ c; a ++ c].
Proof.
  intros Ha Hb Hc.
  set (P := a ++ lit "(" ++ b ++ lit ")?" ++ c).
  assert (plain (a ++ b ++ c) = true) as Habc by (by rewrite !plain_app, Ha, Hb, Hc).
  assert (plain (a ++ c) = true) as Hac by (by rewrite !plain_app, Ha, Hc).
  assert (forall x, plainChar x = false -> x <> ch "(" -> x <> ch ")" ->
            x <> ch "?" -> x ∉ P) as Hnot.
  { intros x Hx H1 H2 H3. unfold P.
    change (lit "(") with [ch "("]. change (lit ")?") with [ch ")"; ch "?"].
    rewrite !elem_of_app, !elem_of_cons, elem_of_nil.
    pose proof (plain_notin a x Ha Hx). pose proof (plain_notin b x Hb Hx).
    pose proof (plain_notin c x Hc Hx). tauto. }
  unfold expandPattern.
  rewrite remove_no_backslash by (by apply Hnot).
  rewrite seedPaths_absent by (by apply Hnot).
  rewrite (expandOptional_reach [P] ([a ++ b ++ c; a ++ c], 2)).
  - cbn [fst map]. by rewrite !fix_plain.
  - eapply Reach_step.
    { assert (length P = length a + (length b + 3) + length c) as Hlen.
      { unfold P. rewrite !length_app. change (length (lit "(")) with 1.
        change (length (lit ")?")) with 2. lia. }
      assert (slice P 0 (Z.of_nat (length a)) = a) as H1.
      { apply (slice_parts [] a (lit "(" ++ b ++ lit ")?" ++ c)); [done|done|].
        simpl. lia. }
      assert (slice P (Z.of_nat (length a) + 1)
                (Z.of_nat (length a + (length b + 3)) - 2) = b) as H2.
      { apply (slice_parts (a ++ lit "(") b (lit ")?" ++ c)).
        - unfold P. by rewrite <- !app_assoc.
        - rewrite length_app. change (length (lit "(")) with 1. lia.
        - rewrite length_app. change (length (lit "(")) with 1. lia. }
      assert (slice P (Z.of_nat (length a + (length b + 3))) (Z.of_nat (length P))
              = c) as H3.
      { apply (slice_parts (a ++ lit "(" ++ b ++ lit ")?") c []).
        - unfold P. by rewrite <- !app_assoc, app_nil_r.
        - rewrite !length_app. change (length (lit "(")) with 1.
          change (length (lit ")?")) with 2. lia.
        - rewrite !length_app. change (length (lit "(")) with 1.
          change (length (lit ")?")) with 2. lia. }
      unfold optStep. cbn [lookup list_lookup].
      unfold P at 1. rewrite FindStringIndex_optRe_group by done.
      fold P. rewrite H1, H2, H3. reflexivity. }
    eapply Reach_step; [by apply (optStep_plain _ 0 (a ++ b ++ c))|].
    eapply Reach_step; [by apply (optStep_plain _ 1 (a ++ c))|].
    constructor.
  - done.
Qed.

(** *** One alternation *)

(** *** A pattern with an alternation *)

Lemma run_Lit_other {A} a y s c (k : gostring -> caps -> option A) :
  y <> a -> run (Lit a) (y :: s) c k = None.
Proof.
  intros Hy. rewrite run_Lit. destruct (Ascii.eqb y a) eqn:E; [|done].
  by apply Ascii.eqb_eq in E.
Qed.

Lemma run_Lit_absent {A} a z c (k : gostring -> caps -> option A) :
  a ∉ z -> forall z1 z2, z = z1 ++ z2 -> run (Lit a) z2 c k = None.
Proof.
  intros Ha z1 z2 ->. destruct z2 as [|y z2]; [done|].
  apply run_Lit_other. intros ->. apply Ha. apply elem_of_app. right. by left.
Qed.

Lemma matchAt_altRe_halves a b y :
  plain a = true -> plain b = true -> plain y = true ->
  matchAt altRe (lit "(" ++ a ++ lit "|" ++ b ++ lit ")" ++ y)
  = Some (y, [(2, b); (1, a)]).
Proof.
  intros Ha Hb Hy. unfold matchAt, altRe, seqs. cbn [foldr].
  change (lit "(" ++ ?s) with (ch "(" :: s).
  change (lit "|" ++ ?s) with (ch "|" :: s).
  change (lit ")" ++ ?s) with (ch ")" :: s).
  rewrite run_Seq, run_Lit, Ascii.eqb_refl.
  rewrite run_Seq, run_Group, run_star_class.
  apply starClass_last; [by apply plain_anyChar| |].
  - intros z1 z2 Hz Hne. rewrite run_Seq.
    destruct z1 as [|x z1]; [done|]. injection Hz as _ Hz.
    apply (run_Lit_absent _ (b ++ ch ")" :: y) _ _ ) with (z1 := z1); [|done].
    rewrite elem_of_app, elem_of_cons.
    pose proof (plain_notin b (ch "|") Hb eq_refl).
    pose proof (plain_notin y (ch "|") Hy eq_refl).
    intros [?|[?|?]]; done.
  - rewrite run_Seq, run_Lit, Ascii.eqb_refl.
    rewrite run_Seq, run_Group, run_star_class.
    apply starClass_last; [by apply plain_anyChar| |].
    + intros z1 z2 Hz Hne. rewrite run_Seq.
      destruct z1 as [|x z1]; [done|]. injection Hz as _ Hz.
      apply (run_Lit_absent _ y _ _) with (z1 := z1); [|done].
      by apply plain_notin.
    + rewrite run_Seq, run_Lit, Ascii.eqb_refl, run_Emp.
      rewrite (take_app_sub b (ch ")" :: y)).
      by rewrite (take_app_sub a (ch "|" :: b ++ ch ")" :: y)).
Qed.

Lemma matchAt_altRe_head y s : y <> ch "(" -> matchAt altRe (y :: s) = None.
Proof.
  intros Hy. unfold matchAt, altRe, seqs. cbn [foldr].
  rewrite run_Seq. by apply run_Lit_other.
Qed.

Lemma allMatches_first r fuel pre s adj f :
  find r s = Some f -> whole f <> [] ->
  exists ms tl,
    allMatches r (S fuel) pre s adj
    = (Found (pre ++ before f) (whole f) (groups f) (after f) :: ms, tl).
Proof.
  intros Hf Hw. cbn [allMatches]. rewrite Hf.
  destruct (allMatches r fuel [] (after f) true) as [ms tl].
  exists ms, tl. destruct (before f), (whole f); done.
Qed.

Lemma seedPaths_halves x a b y :
  plain x = true -> plain a = true -> plain b = true -> plain y = true ->
  seedPaths (x ++ lit "(" ++ a ++ lit "|" ++ b ++ lit ")" ++ y) = [a; b].
Proof.
  intros Hx Ha Hb Hy. unfold seedPaths, FindAllStringSubmatch, matches.
  pose proof (find_skip altRe x _ y _
                (quiet_first_char altRe x _ (ch "(") matchAt_altRe_head
                   (plain_notin x (ch "(") Hx eq_refl))
                (matchAt_altRe_halves a b y Ha Hb Hy)) as Hf.
  destruct (allMatches_first altRe
              (length (x ++ lit "(" ++ a ++ lit "|" ++ b ++ lit ")" ++ y)) [] _ false _ Hf)
    as (ms & tl & ->).
  - cbn [whole]. rewrite !app_assoc, take_app_sub. by destruct x.
  - reflexivity.
Qed.

(** X9: of a pattern with an alternation between plain texts, the two halves
    of the alternation are the paths; what stands before and after the
    parentheses is dropped. *)
Theorem expandPattern_halves x a b y :
  plain x = true -> plain a = true -> plain b = true -> plain y = true ->
  expandPattern (x ++ lit "(" ++ a ++ lit "|" ++ b ++ lit ")" ++ y) = [a; b].
Proof.
  intros Hx Ha Hb Hy. unfold expandPattern.
  rewrite remove_no_backslash.
  2:{ change (lit "(") with [ch "("]. change (lit "|") with [ch "|"].
      change (lit ")") with [ch ")"].
      rewrite !elem_of_app, !elem_of_cons, elem_of_nil.
      pose proof (plain_notin x (ch "\") Hx eq_refl).
      pose proof (plain_notin a (ch "\") Ha eq_refl).
      pose proof (plain_notin b (ch "\") Hb eq_refl).
      pose proof (plain_notin y (ch "\") Hy eq_refl).
      intros [?|[[?|?]|[?|[[?|?]|[?|[[?|?]|?]]]]]]; done. }
  rewrite seedPaths_halves by done.
  rewrite expandOptional_fixed.
  - cbn [map]. by rewrite !fix_plain.
  - intros p Hp. apply find_None_index, (needs_find (ch "(")); [done|].
    apply elem_of_cons in Hp as [->|Hp]; [by apply plain_notin|].
    apply list_elem_of_singleton in Hp as ->. by apply plain_notin.
Qed.

(** *** One named parameter *)

Lemma wordName_inv name :
  wordName name = true -> name <> [] /\ forallb isWord name = true.
Proof.
  unfold wordName. intros H. apply andb_true_iff in H as [H1 H2].
  apply negb_true_iff, bool_decide_eq_false in H1. done.
Qed.

Lemma forallb_notin {A} (q : A -> bool) (l : list A) x :
  forallb q l = true -> q x = false -> x ∉ l.
Proof.
  intros Hl Hx Hin. rewrite forallb_forall in Hl.
  apply list_elem_of_In, Hl in Hin. congruence.
Qed.

Lemma reqdAt_named name body z :
  wordName name = true -> simpleBody body = true ->
  reqdAt (namedParameter name body ++ z) = Some (name, z).
Proof.
  intros Hn Hb. apply wordName_inv in Hn as [Hne Hw].
  unfold namedParameter. rewrite <- !app_assoc.
  change (lit "(?P<" ++ ?s) with (ch "(" :: ch "?" :: ch "P" :: ch "<" :: s).
  change (lit ">" ++ ?s) with (ch ">" :: s).
  change (lit ")" ++ ?s) with (ch ")" :: s).
  unfold reqdAt. rewrite Ascii.eqb_refl.
  unfold reqdBody at 1. rewrite !Ascii.eqb_refl. cbn [andb].
  rewrite takeClass_stop, skipClass_stop by done.
  destruct name as [|n0 name]; [done|].
  rewrite Ascii.eqb_refl.
  rewrite skipClass_stop.
  - by rewrite Ascii.eqb_refl.
  - unfold simpleBody in Hb. rewrite forallb_forall in Hb. rewrite forallb_forall.
    intros x Hx. specialize (Hb x Hx). unfold noneOf in *.
    apply negb_true_iff in Hb. apply negb_true_iff.
    destruct (existsb (Ascii.eqb x) (lit ")")) eqn:E; [|done].
    rewrite <- Hb. symmetry. revert E. apply (oneOf_subset (lit ")") (lit "()|")).
    intros y Hy. simpl in *. tauto.
  - reflexivity.
Qed.

Lemma reqdAt_other y s : y <> ch "(" -> y <> ch "?" -> reqdAt (y :: s) = None.
Proof.
  intros H1 H2. destruct (reqdAt (y :: s)) eqn:E; [|done].
  assert (is_Some (reqdAt (y :: s))) as Hs by eauto.
  apply reqdAt_head in Hs as [?|?]; done.
Qed.

Lemma quiet_reqdRe_plain a z : plain a = true -> quiet reqdRe a z.
Proof.
  intros Ha a1 a2 -> Hne. destruct a2 as [|y a2]; [done|].
  apply matchAt_reqdRe_None. cbn [app].
  rewrite plain_app in Ha. apply andb_true_iff in Ha as [_ Ha].
  simpl in Ha. apply andb_true_iff in Ha as [Hy _].
  apply reqdAt_other; intros ->; discriminate Hy.
Qed.

(** The one named parameter of the text becomes its name in braces. *)
Lemma replaceNamed_named prefix name body suffix :
  plain prefix = true -> wordName name = true -> simpleBody body = true ->
  plain suffix = true ->
  replaceNamed (prefix ++ namedParameter name body ++ suffix)
  = prefix ++ braces name ++ suffix.
Proof.
  intros Hp Hn Hb Hs.
  rewrite replaceNamed_rewriteCaptures. unfold rewriteCaptures, matches.
  rewrite (allMatches_step reqdRe matchAt_reqdRe_suffix matchAt_reqdRe_nonempty).
  rewrite (find_skip reqdRe prefix _ suffix [(1, name)]).
  - cbn [after before groups whole].
    destruct (length (prefix ++ namedParameter name body ++ suffix)) as [|n] eqn:Hlen.
    { exfalso. rewrite !length_app in Hlen. unfold namedParameter in Hlen.
      rewrite !length_app in Hlen. simpl in Hlen. lia. }
    rewrite (allMatches_step reqdRe matchAt_reqdRe_suffix matchAt_reqdRe_nonempty).
    rewrite (needs_find (ch "?") reqdRe suffix eq_refl) by (by apply plain_notin).
    cbn [flat_map app cap Nat.eqb]. unfold braces.
    by rewrite app_nil_r, <- !app_assoc.
  - by apply quiet_reqdRe_plain.
  - by rewrite matchAt_reqdRe, reqdAt_named.
Qed.

Lemma isWord_clean x : isWord x = true -> oneOf (lit "()^$?") x = false.
Proof.
  intros Hw. destruct (oneOf (lit "()^$?") x) eqn:E; [|done].
  rewrite <- (isWord_not_cleanChar x Hw). symmetry. revert E.
  apply oneOf_subset. intros y Hy. simpl in *. tauto.
Qed.

Lemma cleanPath_braces prefix name suffix :
  plain prefix = true -> forallb isWord name = true -> plain suffix = true ->
  cleanPath (prefix ++ braces name ++ suffix) = prefix ++ braces name ++ suffix.
Proof.
  intros Hp Hw Hs. apply cleanPath_absent. unfold braces.
  assert (forallb (fun x => negb (oneOf (lit "()^$?") x)) name = true) as Hn.
  { rewrite forallb_forall in Hw. rewrite forallb_forall. intros x Hx.
    by rewrite (isWord_clean x (Hw x Hx)). }
  rewrite !forallb_app. rewrite (plain_clean prefix Hp), (plain_clean suffix Hs), Hn.
  reflexivity.
Qed.

Lemma named_no_bar prefix name body suffix :
  plain prefix = true -> wordName name = true -> simpleBody body = true ->
  plain suffix = true ->
  ch "|" ∉ prefix ++ namedParameter name body ++ suffix.
Proof.
  intros Hp Hn Hb Hs. apply wordName_inv in Hn as [_ Hw].
  unfold namedParameter. change (lit "(?P<") with [ch "("; ch "?"; ch "P"; ch "<"].
  change (lit ">") with [ch ">"]. change (lit ")") with [ch ")"].
  rewrite !elem_of_app, !elem_of_cons, elem_of_nil.
  pose proof (plain_notin prefix (ch "|") Hp eq_refl).
  pose proof (plain_notin suffix (ch "|") Hs eq_refl).
  pose proof (forallb_notin isWord name (ch "|") Hw eq_refl).
  pose proof (forallb_notin _ body (ch "|") Hb eq_refl).
  intros [?|[[[?|[?|[?|[?|?]]]]|[?|[[?|?]|[?|[?|?]]]]]|?]]; done.
Qed.

(** A closing parenthesis that no question mark follows. *)
Lemma no_optional_mark u v :
  ch ")" ∉ u -> ch ")" ∉ v -> (forall v', v <> ch "?" :: v') ->
  ~ occursIn (lit ")?") (u ++ ch ")" :: v).
Proof.
  intros Hu Hv Hq (a & b & Heq). change (lit ")?" ++ b) with (ch ")" :: ch "?" :: b) in Heq.
  revert a Heq. induction u as [|x u IH]; intros a Heq.
  - destruct a as [|y a]; simpl in Heq.
    + injection Heq as Heq. by apply (Hq b).
    + injection Heq as _ Heq. apply Hv. rewrite Heq.
      apply elem_of_app. right. by left.
  - destruct a as [|y a]; simpl in Heq.
    + injection Heq as -> _. apply Hu. by left.
    + injection Heq as _ Heq. apply (IH ltac:(intros ?; apply Hu; by right) a Heq).
Qed.

Lemma named_no_optional prefix name body suffix :
  plain prefix = true -> wordName name = true -> simpleBody body = true ->
  plain suffix = true ->
  ~ occursIn (lit ")?") (prefix ++ namedParameter name body ++ suffix).
Proof.
  intros Hp Hn Hb Hs. apply wordName_inv in Hn as [_ Hw].
  unfold namedParameter.
  replace (prefix ++ (lit "(?P<" ++ name ++ lit ">" ++ body ++ lit ")") ++ suffix)
    with ((prefix ++ lit "(?P<" ++ name ++ lit ">" ++ body) ++ ch ")" :: suffix)
    by (by rewrite <- !app_assoc).
  apply no_optional_mark.
  - change (lit "(?P<") with [ch "("; ch "?"; ch "P"; ch "<"].
    change (lit ">") with [ch ">"].
    rewrite !elem_of_app, !elem_of_cons, elem_of_nil.
    pose proof (plain_notin prefix (ch ")") Hp eq_refl).
    pose proof (forallb_notin isWord name (ch ")") Hw eq_refl).
    pose proof (forallb_notin _ body (ch ")") Hb eq_refl).
    intros [?|[[?|[?|[?|[?|?]]]]|[?|[[?|?]|?]]]]; done.
  - by apply plain_notin.
  - intros v' ->. simpl in Hs. discriminate Hs.
Qed.

(** X10: a pattern of plain text around one named parameter, whose body holds
    no parenthesis and no bar, expands to one path, with the name of the
    parameter in braces where the parameter stood. *)
Theorem expandPattern_named_parameter prefix name body suffix :
  plain prefix = true -> wordName name = true -> simpleBody body = true ->
  plain suffix = true ->
  expandPattern (prefix ++ namedParameter name body ++ suffix)
  = [prefix ++ braces name ++ suffix].
Proof.
  intros Hp Hn Hb Hs.
  rewrite expand_single
    by (by apply named_no_bar || by apply named_no_optional).
  rewrite replaceNamed_named by done.
  apply wordName_inv in Hn as [_ Hw]. by rewrite cleanPath_braces.
Qed.

(** *** The generic name fragment *)

Lemma replaceFirst_absent fuel s old new n :
  ~ occursIn old s -> replaceFirst fuel s old new n = s.
Proof.
  intros Hno. destruct fuel as [|fuel]; [done|]. simpl.
  destruct ((n =? 0)%Z); [done|].
  destruct (cut s old) as [[pre post]|] eqn:Hcut; [|done].
  exfalso. apply Hno. apply cut_Some in Hcut. by exists pre, post.
Qed.

(** [expandPattern] takes the generic fragment out of the parameter. *)
Lemma remove_generic prefix name suffix :
  plain prefix = true -> wordName name = true -> plain suffix = true ->
  Replace (prefix ++ GenericNameRegex name ++ suffix) regexToRemove [] (-1)
  = prefix ++ namedParameter name [] ++ suffix.
Proof.
  intros Hp Hn Hs. apply wordName_inv in Hn as [_ Hw].
  rewrite regexToRemove_text. unfold GenericNameRegex, namedParameter.
  set (m := lit "\w(([\w-.]+)?\w)?").
  replace (prefix ++ (lit "(?P<" ++ name ++ lit ">\w(([\w-.]+)?\w)?)") ++ suffix)
    with ((prefix ++ lit "(?P<" ++ name ++ lit ">") ++ m ++ (lit ")" ++ suffix))
    by (unfold m; by rewrite <- !app_assoc).
  unfold Replace. cbn [bool_decide orb Z.eqb]. 
  rewrite bool_decide_eq_false_2 by done. cbn [orb].
  change m with (ch "\" :: lit "w(([\w-.]+)?\w)?") at 1.
  cbv iota.
  set (a := prefix ++ lit "(?P<" ++ name ++ lit ">").
  cbn [replaceFirst Z.eqb].
  rewrite (cut_first a m (lit ")" ++ suffix)).
  - rewrite replaceFirst_absent.
    + unfold a. by rewrite <- !app_assoc.
    + apply (not_occursIn_absent _ _ (ch "\")); [by left|].
      change (lit ")") with [ch ")"]. rewrite elem_of_app, elem_of_cons, elem_of_nil.
      pose proof (plain_notin suffix (ch "\") Hs eq_refl).
      intros [[?|?]|?]; done.
  - intros a1 a2 Ha Hne. destruct a2 as [|y a2]; [done|].
    assert (y ∈ a) as Hy by (rewrite Ha; apply elem_of_app; right; by left).
    assert (y <> ch "\") as Hyb.
    { intros ->. revert Hy. unfold a.
      change (lit "(?P<") with [ch "("; ch "?"; ch "P"; ch "<"].
      change (lit ">") with [ch ">"].
      rewrite !elem_of_app, !elem_of_cons, elem_of_nil.
      pose proof (plain_notin prefix (ch "\") Hp eq_refl).
      pose proof (forallb_notin isWord name (ch "\") Hw eq_refl).
      intros [?|[[?|[?|[?|[?|?]]]]|[?|[?|?]]]]; done. }
    unfold m. cbn [app HasPrefix].
    change (lit "\w(([\w-.]+)?\w)?") with (ch "\" :: lit "w(([\w-.]+)?\w)?").
    cbn [HasPrefix].
    destruct (Ascii.eqb y (ch "\")) eqn:E; [|done]. by apply Ascii.eqb_eq in E.
Qed.

(** X11: a pattern of plain text around one parameter written with
    [GenericNameRegex] expands to one path, with the name of the parameter
    in braces. *)
Theorem expandPattern_generic_name prefix name suffix :
  plain prefix = true -> wordName name = true -> plain suffix = true ->
  expandPattern (prefix ++ GenericNameRegex name ++ suffix)
  = [prefix ++ braces name ++ suffix].
Proof.
  intros Hp Hn Hs. unfold expandPattern.
  rewrite remove_generic by done.
  rewrite seedPaths_absent by (by apply named_no_bar).
  rewrite expandOptional_absent by (by apply named_no_optional).
  cbn [map]. rewrite replaceNamed_named by done.
  apply wordName_inv in Hn as [_ Hw]. by rewrite cleanPath_braces.
Qed.

(** *** Path fields and body fields *)

Section Split.
Context {LResponse OperationHandler error : Type}.
Context (sched : Scheduler LResponse OperationHandler).

Local Abbreviation fieldMap := (gmap gostring (option FieldSchema)).

(** The body of the second loop of [splitFields]. *)
Local Abbreviation classify :=
  (fun '((pf, bf) : fieldMap * fieldMap) '((name, field) : gostring * option FieldSchema) =>
     match pf !! name with
     | Some _ => Ok (E:=error) (pf, bf)
     | None =>
         match field with
         | None => Panic
         | Some f =>
             if bool_decide (fsType f = TypeHeader)
             then Ok (<[name := field]> pf, bf)
             else Ok (pf, <[name := field]> bf)
         end
     end).

Lemma seed_lookup (fields acc : fieldMap) ms name :
  foldl (fun pf (m : list gostring) =>
           <[nth 1 m [] := default None (fields !! nth 1 m [])]> pf) acc ms
    !! name
  = if bool_decide (name ∈ map (fun m => nth 1 m []) ms)
    then Some (default None (fields !! name))
    else acc !! name.
Proof.
  revert acc. induction ms as [|m ms IH]; intros acc; simpl; [done|].
  rewrite IH. 
  destruct (decide (name ∈ map (fun m => nth 1 m []) ms)) as [Hin|Hin].
  - rewrite !bool_decide_eq_true_2; [done| |done]. by right.
  - rewrite (bool_decide_eq_false_2 _ Hin).
    destruct (decide (nth 1 m [] = name)) as [<-|Hne].
    + rewrite lookup_insert_eq. rewrite bool_decide_eq_true_2; [done|]. by left.
    + rewrite lookup_insert_ne by done.
      rewrite bool_decide_eq_false_2; [done|].
      intros H. apply elem_of_cons in H as [?|?]; done.
Qed.

Lemma classify_loop (l : list (gostring * option FieldSchema)) pf bf pf' bf' :
  NoDup l.*1 ->
  forRange l classify (pf, bf) = Ok (pf', bf') ->
  forall n,
    pf' !! n
    = match pf !! n with
      | Some v => Some v
      | None =>
          match (list_to_map l : fieldMap) !! n with
          | Some (Some f) => if isHeader f then Some (Some f) else None
          | _ => None
          end
      end
    /\ bf' !! n
       = match pf !! n, (list_to_map l : fieldMap) !! n with
         | None, Some (Some f) => if isHeader f then bf !! n else Some (Some f)
         | _, _ => bf !! n
         end.
Proof.
  revert pf bf. induction l as [|[n0 f0] l IH]; intros pf bf Hnd Hloop n.
  - simpl in Hloop. simplify_eq. rewrite list_to_map_nil, lookup_empty.
    by destruct (pf' !! n).
  - rewrite fmap_cons in Hnd. apply NoDup_cons in Hnd as [Hn0 Hnd].
    assert ((list_to_map l : fieldMap) !! n0 = None) as Hl0
      by (by apply not_elem_of_list_to_map_1).
    rewrite forRange_cons in Hloop. cbn [list_to_map foldr].
    destruct (pf !! n0) as [v0|] eqn:Hpf0.
    + simpl in Hloop. destruct (IH _ _ Hnd Hloop n) as [-> ->].
      destruct (decide (n0 = n)) as [<-|Hne].
      * rewrite Hpf0. done.
      * by rewrite lookup_insert_ne.
    + destruct f0 as [f|]; [|done].
      destruct (bool_decide (fsType f = TypeHeader)) eqn:Hh; simpl in Hloop;
        destruct (IH _ _ Hnd Hloop n) as [-> ->];
        (destruct (decide (n0 = n)) as [<-|Hne];
         [rewrite !lookup_insert_eq, ?Hpf0, ?Hl0; unfold isHeader; cbn [snd];
          rewrite ?Hh; done
         |rewrite !lookup_insert_ne by done; done]).
Qed.

Lemma classify_panic (l : list (gostring * option FieldSchema)) pf bf :
  NoDup l.*1 ->
  forRange l classify (pf, bf) = Panic
  <-> exists n, (n, None) ∈ l /\ pf !! n = None.
Proof.
  revert pf bf. induction l as [|[n0 f0] l IH]; intros pf bf Hnd.
  - simpl. split; [done|]. intros (n & Hin & _). by apply elem_of_nil in Hin.
  - rewrite fmap_cons in Hnd. apply NoDup_cons in Hnd as [Hn0 Hnd].
    assert (forall n, (n, None) ∈ l -> n <> n0) as Hfresh.
    { intros n Hin ->. apply Hn0. apply list_elem_of_fmap. by exists (n0, None). }
    rewrite forRange_cons.
    destruct (pf !! n0) as [v0|] eqn:Hpf0.
    + simpl. rewrite (IH _ _ Hnd). split.
      * intros (n & Hin & Hn). exists n. split; [by right|done].
      * intros (n & Hin & Hn). apply elem_of_cons in Hin as [Heq|Hin];
          [simplify_eq; congruence|]. by exists n.
    + destruct f0 as [f|].
      * destruct (bool_decide (fsType f = TypeHeader)); simpl;
          rewrite (IH _ _ Hnd); split.
        -- intros (n & Hin & Hn). exists n. split; [by right|].
           by rewrite lookup_insert_ne in Hn by (symmetry; by apply Hfresh).
        -- intros (n & Hin & Hn). apply elem_of_cons in Hin as [Heq|Hin];
             [by simplify_eq|]. exists n. split; [done|].
           by rewrite lookup_insert_ne by (symmetry; by apply Hfresh).
        -- intros (n & Hin & Hn). exists n. split; [by right|done].
        -- intros (n & Hin & Hn). apply elem_of_cons in Hin as [Heq|Hin];
             [by simplify_eq|]. by exists n.
      * simpl. split; [|done]. intros _. exists n0. split; [by left|done].
Qed.

Lemma rangeFields_NoDup (m : fieldMap) : NoDup (rangeFields sched m).*1.
Proof. rewrite rangeFields_perm. apply NoDup_fst_map_to_list. Qed.

Lemma rangeFields_map (m : fieldMap) : list_to_map (rangeFields sched m) = m.
Proof.
  rewrite <- (list_to_map_to_list m) at 2.
  apply list_to_map_proper; [apply rangeFields_NoDup|apply rangeFields_perm].
Qed.

(** [splitFields], without the order of the loop. *)
Lemma splitFields_lookup fields path pf bf :
  splitFields error sched fields path = Ok (pf, bf) ->
  forall n, pf !! n = pathFieldOf fields path n
            /\ bf !! n = bodyFieldOf fields path n.
Proof.
  unfold splitFields. intros H n.
  destruct (classify_loop _ _ _ _ _ (rangeFields_NoDup fields) H n) as [-> ->].
  rewrite rangeFields_map, seed_lookup, !lookup_empty.
  unfold pathFieldOf, bodyFieldOf, placeholders.
  destruct (bool_decide _); [done|].
  destruct (fields !! n) as [[f|]|]; try done.
Qed.

Lemma splitFields_panics fields path :
  splitFields error sched fields path = Panic
  <-> exists n, fields !! n = Some None /\ n ∉ placeholders path.
Proof.
  unfold splitFields. rewrite (classify_panic _ _ _ (rangeFields_NoDup fields)).
  split; intros (n & H1 & H2); exists n.
  - rewrite rangeFields_perm in H1. apply elem_of_map_to_list in H1.
    split; [done|]. rewrite seed_lookup, lookup_empty in H2.
    unfold placeholders. intros Hin.
    by rewrite bool_decide_eq_true_2 in H2.
  - split; [rewrite rangeFields_perm; by apply elem_of_map_to_list|].
    rewrite seed_lookup, lookup_empty. by rewrite bool_decide_eq_false_2.
Qed.

(** X12: when [splitFields] returns, every placeholder of the path is a path
    field (with a nil pointer when the route declares no such field), every
    other header field is a path field too, every other field is a body
    field, and nothing else is in either group; the order in which the fields
    are visited does not show. *)
Theorem splitFields_partition fields path pf bf :
  splitFields error sched fields path = Ok (pf, bf) ->
  (forall n, pf !! n = pathFieldOf fields path n)
  /\ (forall n, bf !! n = bodyFieldOf fields path n)
  /\ (forall n, is_Some (fields !! n) -> is_Some (pf !! n) <-> bf !! n = None)
  /\ (forall n, is_Some (bf !! n) -> bf !! n = fields !! n).
Proof.
  intros H.
  assert (forall n, fields !! n = Some None -> n ∈ placeholders path) as Hnil.
  { intros n Hn. destruct (decide (n ∈ placeholders path)) as [|Hno]; [done|].
    assert (splitFields error sched fields path = Panic) as Hp
      by (apply splitFields_panics; eauto).
    congruence. }
  split; [|split; [|split]]; intros n.
  - by destruct (splitFields_lookup _ _ _ _ H n).
  - by destruct (splitFields_lookup _ _ _ _ H n).
  - destruct (splitFields_lookup _ _ _ _ H n) as [-> ->].
    unfold pathFieldOf, bodyFieldOf. intros [v Hv]. rewrite Hv.
    destruct (bool_decide (n ∈ placeholders path)) eqn:Hin; [by split; eauto|].
    apply bool_decide_eq_false in Hin.
    destruct v as [f|]; [|by destruct Hin; apply Hnil].
    destruct (isHeader f); split; intros Hx; try done; by destruct Hx.
  - destruct (splitFields_lookup _ _ _ _ H n) as [_ ->].
    unfold bodyFieldOf. destruct (bool_decide _); [by intros [? ?]|].
    destruct (fields !! n) as [[f|]|]; try (by intros [? ?]).
    by destruct (isHeader f); [intros [? ?]|].
Qed.

(** X13: [splitFields] never returns an error; it panics exactly when the
    route declares a nil field under a name that is no placeholder of the
    path, and returns the two groups otherwise. *)
Theorem splitFields_outcomes fields path :
  (forall err, splitFields error sched fields path <> Fail err)
  /\ (splitFields error sched fields path = Panic
      <-> exists n, fields !! n = Some None /\ n ∉ placeholders path)
  /\ ((exists pf bf, splitFields error sched fields path = Ok (pf, bf))
      <-> forall n, fields !! n = Some None -> n ∈ placeholders path).
Proof.
  pose proof (splitFields_no_fail (error:=error) sched fields path) as Hnf.
  pose proof (splitFields_panics fields path) as Hp.
  split; [done|]. split; [done|]. split.
  - intros (pf & bf & Hok) n Hn.
    destruct (decide (n ∈ placeholders path)) as [|Hno]; [done|].
    assert (splitFields error sched fields path = Panic) as Hpanic
      by (apply Hp; eauto).
    congruence.
  - intros Hall.
    destruct (splitFields error sched fields path) as [[pf bf]| |] eqn:Hs.
    + eauto.
    + by destruct (Hnf e).
    + destruct (proj1 Hp eq_refl) as (n & Hn & Hno). by destruct Hno; apply Hall.
Qed.

End Split.

(** *** The keys of the document *)

Section Document.
Context {DataMap LSecret LAuth WrapInfo LResponse OperationFunc error : Type}.
Context (Decode : LResponse -> cleanedResponse DataMap LSecret LAuth WrapInfo + error).
Context {OperationHandler : Type}.
Context (Properties : OperationHandler -> OperationProperties DataMap LResponse).
Context (PathOperation : OperationFunc -> gostring -> OperationHandler).
Context (sched : Scheduler LResponse OperationHandler).

Local Abbreviation docPath := (documentPath Decode Properties PathOperation sched).
Local Abbreviation docPaths := (documentPaths Decode Properties PathOperation sched).
Local Abbreviation itemFor := (pathItemFor Decode Properties PathOperation sched).
Local Abbreviation routes := (routesLoop Decode Properties PathOperation sched).
Local Abbreviation document := (OASDocument DataMap LSecret LAuth WrapInfo).

(** The path item that a call stores for a path. *)
Lemma documentPath_item p sp bt (doc doc' : document) path :
  docPath p sp bt doc = (Ok (), doc') ->
  path ∈ expandPattern (Pattern p) ->
  exists pi,
    itemFor p (sudoPathsOf sp) (unauthPathsOf sp) bt path = Ok pi
    /\ dPaths doc' !! (lit "/" ++ path) = Some pi.
Proof.
  unfold documentPath. intros H Hin.
  exact (pathsLoop_lookup Decode Properties PathOperation sched p _ _ bt _ doc doc'
           H path Hin).
Qed.

(** *** When the call ends well *)

Lemma pathItemFor_fields p sudo unauth bt path pi :
  itemFor p sudo unauth bt path = Ok pi ->
  (forall n, Fields p !! n <> Some None)
  /\ (forall n, n ∈ placeholders path -> is_Some (Fields p !! n)).
Proof.
  intros Hpi.
  destruct (pathItemFor_ok _ _ _ _ _ _ _ _ _ _ Hpi)
    as (pf & bf & params & Hs & Hp & _).
  assert (forall n, pf !! n <> Some None) as Hpf.
  { intros n Hn.
    by rewrite (pathParameters_nil (DataMap:=DataMap) (LSecret:=LSecret)
                  (LAuth:=LAuth) (WrapInfo:=WrapInfo) sched pf n Hn) in Hp. }
  split; intros n.
  - intros Hn. destruct (decide (n ∈ placeholders path)) as [Hin|Hno].
    + apply (Hpf n). rewrite (proj1 (splitFields_lookup sched _ _ _ _ Hs n)).
      unfold pathFieldOf. by rewrite bool_decide_eq_true_2, Hn.
    + assert (splitFields error sched (Fields p) path = Panic) as Hpanic
        by (apply splitFields_panics; eauto).
      congruence.
  - intros Hin. destruct (Fields p !! n) as [v|] eqn:Hn; [by eexists|].
    exfalso. apply (Hpf n). rewrite (proj1 (splitFields_lookup sched _ _ _ _ Hs n)).
    unfold pathFieldOf. by rewrite bool_decide_eq_true_2, Hn.
Qed.

(** X14: [documentPath] returns without an error exactly when the route
    declares no nil field, every placeholder of every expanded path has a
    field, and no response example of a documented handler fails to copy. *)
Theorem documentPath_ok_iff p sp bt (doc : document) :
  (exists doc', docPath p sp bt doc = (Ok (), doc'))
  <-> (forall n, Fields p !! n <> Some None)
      /\ (forall path n, path ∈ expandPattern (Pattern p) ->
            n ∈ placeholders path -> is_Some (Fields p !! n))
      /\ (forall k h err,
            resolveOperations PathOperation p !! k = Some h ->
            documented Properties (resolveOperations PathOperation p) k h = true ->
            ~ copyFails Decode (Properties h) err).
Proof.
  split.
  - intros [doc' Hdoc].
    assert (forall path, path ∈ expandPattern (Pattern p) ->
              exists pi, itemFor p (sudoPathsOf sp) (unauthPathsOf sp) bt path = Ok pi)
      as Hitem.
    { intros path Hin.
      destruct (documentPath_item _ _ _ _ _ _ Hdoc Hin) as (pi & Hpi & _). eauto. }
    pose proof (expandPattern_nonempty (Pattern p)) as Hne.
    destruct (expandPattern (Pattern p)) as [|path0 rest] eqn:Hexp; [done|].
    destruct (Hitem path0) as [pi0 Hpi0]; [by left|].
    split; [|split].
    + by destruct (pathItemFor_fields _ _ _ _ _ _ Hpi0).
    + intros path n Hpath Hn. destruct (Hitem path Hpath) as [pi Hpi].
      destruct (pathItemFor_fields _ _ _ _ _ _ Hpi) as [_ H]. by apply H.
    + intros k h err Hk Hd Hcf.
      destruct (pathItemFor_ok _ _ _ _ _ _ _ _ _ _ Hpi0)
        as (pf & bf & params & Hs & Hp & Hloop).
      assert (exists pi,
                forRange (rangeOps sched (resolveOperations PathOperation p))
                  (operationStep Decode Properties sched
                     (resolveOperations PathOperation p) bf bt)
                  (startItem p (sudoPathsOf sp) (unauthPathsOf sp) path0 params)
                = Ok pi) as Hex by eauto.
      rewrite loop_ok_iff in Hex.
      destruct (Hex k h) as [op Hop]; [|done|].
      * rewrite rangeOps_perm. by apply elem_of_map_to_list.
      * destruct (build_fails Decode sched (resolveOperations PathOperation p) bf bt k
                    (Properties h) err Hcf (splitFields_body sched _ _ _ _ Hs))
          as [err' Herr].
        congruence.
  - intros (Hnil & Hall & Hcopy).
    apply documentPath_ends_well; [done| |done].
    intros path m Hpath Hm. apply (Hall path); [done|].
    unfold placeholders. apply list_elem_of_fmap. by exists m.
Qed.

(** *** What the call writes *)

(** X15: for a route with an ASCII synopsis, the path item stored for a
    path has the cleaned synopsis of the route as its description, is marked
    sudo and unauthenticated as [specialPathMatch] tells for the path
    (never, without special paths), and supports create exactly when the
    route has a published create handler. *)
Theorem documentPath_item_head p sp bt (doc doc' : document) path :
  isASCII (HelpSynopsis p) = true ->
  docPath p sp bt doc = (Ok (), doc') ->
  path ∈ expandPattern (Pattern p) ->
  exists pi,
    dPaths doc' !! (lit "/" ++ path) = Some pi
    /\ piDescription pi = cleanString (HelpSynopsis p)
    /\ piSudo pi = specialPathMatch path (sudoPathsOf sp)
    /\ piUnauthenticated pi = specialPathMatch path (unauthPathsOf sp)
    /\ (sp = None -> piSudo pi = false /\ piUnauthenticated pi = false)
    /\ piCreateSupported pi
       = createPublished Properties (resolveOperations PathOperation p).
Proof.
  intros _ Hdoc Hin.
  destruct (documentPath_item _ _ _ _ _ _ Hdoc Hin) as (pi & Hpi & Hlook).
  destruct (pathItemFor_ok _ _ _ _ _ _ _ _ _ _ Hpi)
    as (pf & bf & params & _ & _ & Hloop).
  pose proof (loop_sameHead _ _ _ _ _ _ _ _ _ Hloop) as (Hd & _ & Hs & Hu).
  pose proof (loop_createSupported _ _ _ _ _ _ _ _ _ (rangeOps_perm sched _) Hloop)
    as Hc.
  exists pi. simpl in *.
  split; [done|]. split; [done|]. split; [done|]. split; [done|].
  split; [|done]. intros ->. by rewrite Hs, Hu.
Qed.

Lemma pathsLoop_frame p sudo unauth bt paths (doc doc' : document) r :
  pathsLoop Decode Properties PathOperation sched p sudo unauth bt paths doc
    = (r, doc') ->
  dVersion doc' = dVersion doc /\ dInfo doc' = dInfo doc
  /\ (forall key, is_Some (dPaths doc !! key) -> is_Some (dPaths doc' !! key))
  /\ (forall key, is_Some (dPaths doc' !! key) ->
        is_Some (dPaths doc !! key)
        \/ key ∈ (fun path => lit "/" ++ path) <$> paths).
Proof.
  revert doc. induction paths as [|path rest IH]; intros doc H; simpl in H.
  - simplify_eq. repeat split; auto.
  - destruct (itemFor p sudo unauth bt path) as [pi| |]; try by (simplify_eq; auto).
    destruct (IH _ H) as (Hv & Hi & Hkeep & Hnew). simpl in *.
    repeat split; try done.
    + intros key Hk. apply Hkeep.
      destruct (decide (lit "/" ++ path = key)) as [<-|Hne].
      * rewrite lookup_insert_eq. by eexists.
      * by rewrite lookup_insert_ne.
    + intros key Hk. destruct (Hnew key Hk) as [Hold|Hin].
      * destruct (decide (lit "/" ++ path = key)) as [<-|Hne].
        -- right. by left.
        -- left. by rewrite lookup_insert_ne in Hold.
      * right. by right.
Qed.

Lemma routesLoop_frame rs sp bt (doc doc' : document) r :
  routes rs sp bt doc = (r, doc') ->
  dVersion doc' = dVersion doc /\ dInfo doc' = dInfo doc
  /\ (forall key, is_Some (dPaths doc !! key) -> is_Some (dPaths doc' !! key))
  /\ (forall key, is_Some (dPaths doc' !! key) ->
        is_Some (dPaths doc !! key)
        \/ exists p, p ∈ rs /\ key ∈ routeKeys p).
Proof.
  revert doc. induction rs as [|p rest IH]; intros doc H; simpl in H.
  - simplify_eq. repeat split; auto.
  - destruct (docPath p sp bt doc) as [r1 d1] eqn:Hp.
    pose proof (pathsLoop_frame _ _ _ _ _ _ _ _ Hp) as (Hv1 & Hi1 & Hk1 & Hn1).
    assert (forall key, is_Some (dPaths d1 !! key) ->
              is_Some (dPaths doc !! key)
              \/ exists q, q ∈ p :: rest /\ key ∈ routeKeys q) as Hn1'.
    { intros key Hk. destruct (Hn1 key Hk) as [?|?]; [by left|].
      right. exists p. split; [by left|done]. }
    destruct r1 as [[]| |]; try by (simplify_eq; auto).
    destruct (IH _ H) as (Hv & Hi & Hkeep & Hnew).
    repeat split; try congruence; [by auto|].
    intros key Hk. destruct (Hnew key Hk) as [Hold|(q & Hq & Hin)]; [by auto|].
    right. exists q. split; [by right|done].
Qed.

Lemma routesLoop_all rs sp bt (doc doc' : document) :
  routes rs sp bt doc = (Ok (), doc') ->
  forall p, p ∈ rs -> forall key, key ∈ routeKeys p -> is_Some (dPaths doc' !! key).
Proof.
  revert doc. induction rs as [|p0 rest IH]; intros doc H p Hp key Hkey.
  - by apply elem_of_nil in Hp.
  - simpl in H. destruct (docPath p0 sp bt doc) as [r1 d1] eqn:Hp0.
    destruct r1 as [[]| |]; try done.
    apply elem_of_cons in Hp as [->|Hrest]; [|by eapply IH].
    destruct (routesLoop_frame _ _ _ _ _ _ H) as (_ & _ & Hkeep & _).
    apply Hkeep. apply list_elem_of_fmap in Hkey as (path & -> & Hpath).
    destruct (documentPath_item _ _ _ _ _ _ Hp0 Hpath) as (pi & _ & ->).
    by eexists.
Qed.

(** X16: whatever its outcome, [documentPaths] leaves the version and the info
    block of the document alone, removes no path from it, and adds paths
    only under the keys of the routes of the backend, each an expanded path
    after a slash; when it returns without an error, every such key is
    there. *)
Theorem documentPaths_keys backend (doc doc' : document) r :
  docPaths backend doc = (r, doc') ->
  dVersion doc' = dVersion doc /\ dInfo doc' = dInfo doc
  /\ (forall key, is_Some (dPaths doc !! key) -> is_Some (dPaths doc' !! key))
  /\ (forall key, is_Some (dPaths doc' !! key) ->
        is_Some (dPaths doc !! key)
        \/ exists p path,
             p ∈ bPaths backend /\ path ∈ expandPattern (Pattern p)
             /\ key = lit "/" ++ path)
  /\ (r = Ok () ->
      forall p path, p ∈ bPaths backend -> path ∈ expandPattern (Pattern p) ->
        is_Some (dPaths doc' !! (lit "/" ++ path))).
Proof.
  unfold documentPaths. intros H.
  destruct (routesLoop_frame _ _ _ _ _ _ H) as (Hv & Hi & Hkeep & Hnew).
  repeat split; try done.
  - intros key Hk. destruct (Hnew key Hk) as [?|(p & Hp & Hin)]; [by left|].
    right. apply list_elem_of_fmap in Hin as (path & -> & Hpath). by exists p, path.
  - intros -> p path Hp Hpath. eapply routesLoop_all; eauto.
    apply list_elem_of_fmap. by exists path.
Qed.

(** X17: into the empty document of [NewOASDocument], a backend whose routes
    are all documented without an error puts exactly one path per expanded
    path of its routes; the document still says OpenAPI 3.0.2. *)
Theorem documentPaths_fresh backend version (doc' : document) :
  docPaths backend (NewOASDocument version) = (Ok (), doc') ->
  dVersion doc' = lit "3.0.2"
  /\ dInfo doc' = dInfo (NewOASDocument (DataMap:=DataMap) (LSecret:=LSecret)
                           (LAuth:=LAuth) (WrapInfo:=WrapInfo) version)
  /\ forall key,
       is_Some (dPaths doc' !! key)
       <-> exists p path,
             p ∈ bPaths backend /\ path ∈ expandPattern (Pattern p)
             /\ key = lit "/" ++ path.
Proof.
  unfold documentPaths. intros H.
  destruct (routesLoop_frame _ _ _ _ _ _ H) as (Hv & Hi & _ & Hnew).
  split; [done|]. split; [done|]. intros key. split.
  - intros Hk. destruct (Hnew key Hk) as [Hold|(p & Hp & Hin)].
    + simpl in Hold. rewrite lookup_empty in Hold. by destruct Hold.
    + apply list_elem_of_fmap in Hin as (path & -> & Hpath). by exists p, path.
  - intros (p & path & Hp & Hpath & ->). eapply routesLoop_all; eauto.
    apply list_elem_of_fmap. by exists path.
Qed.

(** *** Routes that share a path *)

Lemma routesLoop_other rs sp bt (doc doc' : document) r key :
  routes rs sp bt doc = (r, doc') ->
  (forall p, p ∈ rs -> key ∉ routeKeys p) ->
  dPaths doc' !! key = dPaths doc !! key.
Proof.
  revert doc. induction rs as [|p rest IH]; intros doc H Hkey; simpl in H.
  - by simplify_eq.
  - destruct (docPath p sp bt doc) as [r1 d1] eqn:Hp.
    assert (dPaths d1 !! key = dPaths doc !! key) as H1.
    { eapply pathsLoop_other; [exact Hp|].
      intros path Hpath ->. apply (Hkey p); [by left|].
      apply list_elem_of_fmap. by exists path. }
    destruct r1 as [[]| |]; try by simplify_eq.
    rewrite <- H1. apply IH; [done|]. intros q Hq. apply Hkey. by right.
Qed.

Lemma routesLoop_split rs1 p rs2 sp bt (doc doc' : document) :
  routes (rs1 ++ p :: rs2) sp bt doc = (Ok (), doc') ->
  exists d1 d2,
    routes rs1 sp bt doc = (Ok (), d1)
    /\ docPath p sp bt d1 = (Ok (), d2)
    /\ routes rs2 sp bt d2 = (Ok (), doc').
Proof.
  revert doc. induction rs1 as [|q rs1 IH]; intros doc H; simpl in H.
  - destruct (docPath p sp bt doc) as [r1 d1] eqn:Hp.
    destruct r1 as [[]| |]; try done. by exists doc, d1.
  - destruct (docPath q sp bt doc) as [r1 d1] eqn:Hq.
    destruct r1 as [[]| |]; try done.
    destruct (IH _ H) as (d1' & d2 & H1 & H2 & H3).
    exists d1', d2. simpl. by rewrite Hq.
Qed.

(** X18: when several routes of a backend expand to the same path, the
    document holds the path item of the last of them. *)
Theorem documentPaths_last_route backend (doc doc' : document) earlier p later path :
  docPaths backend doc = (Ok (), doc') ->
  bPaths backend = earlier ++ p :: later ->
  path ∈ expandPattern (Pattern p) ->
  (forall q, q ∈ later -> path ∉ expandPattern (Pattern q)) ->
  exists pi,
    itemFor p (sudoPathsOf (bSpecialPaths backend))
      (unauthPathsOf (bSpecialPaths backend)) (bBackendType backend) path = Ok pi
    /\ dPaths doc' !! (lit "/" ++ path) = Some pi.
Proof.
  unfold documentPaths. intros H Hroutes Hpath Hlater. rewrite Hroutes in H.
  destruct (routesLoop_split _ _ _ _ _ _ _ H) as (d1 & d2 & _ & Hp & Hrest).
  destruct (documentPath_item _ _ _ _ _ _ Hp Hpath) as (pi & Hpi & Hlook).
  exists pi. split; [done|]. rewrite <- Hlook.
  eapply routesLoop_other; [exact Hrest|].
  intros q Hq Hin. apply list_elem_of_fmap in Hin as (path' & Heq & Hpath').
  apply app_inv_head in Heq. subst path'. by apply (Hlater q).
Qed.

End Document.

(** *** Parameters, request bodies and responses *)

Section Operations.
Context {DataMap LSecret LAuth WrapInfo LResponse OperationFunc error : Type}.
Context (Decode : LResponse -> cleanedResponse DataMap LSecret LAuth WrapInfo + error).
Context {OperationHandler : Type}.
Context (Properties : OperationHandler -> OperationProperties DataMap LResponse).
Context (PathOperation : OperationFunc -> gostring -> OperationHandler).
Context (sched : Scheduler LResponse OperationHandler).

Local Abbreviation docPath := (documentPath Decode Properties PathOperation sched).
Local Abbreviation itemFor := (pathItemFor Decode Properties PathOperation sched).
Local Abbreviation document := (OASDocument DataMap LSecret LAuth WrapInfo).
Local Abbreviation parameter := (oasParameter DataMap LSecret LAuth WrapInfo).
Local Abbreviation operation := (OASOperation DataMap LSecret LAuth WrapInfo).
Local Abbreviation fieldMap := (gmap gostring (option FieldSchema)).
Local Abbreviation exampleOf props :=
  (requestExample (DataMap:=DataMap) (LSecret:=LSecret) (LAuth:=LAuth)
     (WrapInfo:=WrapInfo) (LResponse:=LResponse) props).

(** *** The parameters of a path item *)

Lemma parameterFor_Ok name field (param : parameter) :
  parameterFor error name field = Ok param ->
  exists f, field = Some f /\ param = parameterOf name f.
Proof.
  destruct field as [f|]; [|done]. intros [= <-]. exists f. split; [done|].
  unfold parameterOf, isHeader. by destruct (bool_decide _).
Qed.

Lemma pathParameters_loop (l : list (gostring * option FieldSchema))
    (acc params : list parameter) :
  forRange (E:=error) l
    (fun ps '(name, field) => param ← parameterFor error name field; Ok (ps ++ [param]))
    acc = Ok params ->
  exists l', l = (fun '(n, f) => (n, Some f)) <$> l'
             /\ params = acc ++ ((fun '(n, f) => parameterOf n f) <$> l').
Proof.
  revert acc. induction l as [|[n field] l IH]; intros acc H.
  - simpl in H. simplify_eq. exists []. by rewrite app_nil_r.
  - rewrite forRange_cons in H.
    destruct (parameterFor error n field) as [param| |] eqn:Hp; simpl in H; try done.
    apply parameterFor_Ok in Hp as (f & -> & ->).
    destruct (IH _ H) as (l' & -> & ->).
    exists ((n, f) :: l'). split; [done|]. by rewrite <- app_assoc.
Qed.

Lemma pathParameters_value (pf : fieldMap) (params : list parameter) :
  pathParameters error sched pf = Ok params ->
  exists l', rangeFields sched pf = (fun '(n, f) => (n, Some f)) <$> l'
             /\ params = (fun '(n, f) => parameterOf n f) <$> l'.
Proof. unfold pathParameters. intros H. by apply pathParameters_loop in H. Qed.

(** X19: for a route whose field descriptions are ASCII, a path item has
    one parameter per path field of its path, that is per placeholder and
    per header field, built from the field: a header field gives a parameter
    in the header that is not required, any other one a required parameter
    in the path; the description is the cleaned description of the field. *)
Theorem documentPath_parameters p sp bt (doc doc' : document) path :
  asciiDescriptions (Fields p) = true ->
  docPath p sp bt doc = (Ok (), doc') ->
  path ∈ expandPattern (Pattern p) ->
  exists pi pf bf,
    dPaths doc' !! (lit "/" ++ path) = Some pi
    /\ splitFields error sched (Fields p) path = Ok (pf, bf)
    /\ pName <$> piParameters pi ≡ₚ (map_to_list pf).*1
    /\ forall param, param ∈ piParameters pi ->
         exists f, pf !! pName param = Some (Some f)
                   /\ param = parameterOf (pName param) f.
Proof.
  intros _ Hdoc Hin.
  destruct (documentPath_item _ _ _ _ _ _ _ _ _ _ Hdoc Hin) as (pi & Hpi & Hlook).
  destruct (pathItemFor_ok _ _ _ _ _ _ _ _ _ _ Hpi)
    as (pf & bf & params & Hs & Hp & Hloop).
  exists pi, pf, bf. split; [done|]. split; [done|].
  pose proof (loop_sameHead _ _ _ _ _ _ _ _ _ Hloop) as (_ & Hparams & _).
  simpl in Hparams.
  destruct (pathParameters_value _ _ Hp) as (l' & Hl' & ->).
  assert (piParameters pi ≡ₚ (fun '(n, f) => parameterOf n f) <$> l') as Hperm.
  { rewrite Hparams. apply sortSlice_perm. }
  split.
  - rewrite Hperm, <- (rangeFields_perm sched pf), Hl'.
    match goal with |- ?a ≡ₚ ?b => assert (a = b) as ->; [|done] end.
    rewrite <- !list_fmap_compose. apply list_fmap_ext.
    by intros i [n f].
  - intros param Hparam. rewrite Hperm in Hparam.
    apply list_elem_of_fmap in Hparam as ([n f] & -> & Hnf).
    exists f. split; [|done]. simpl.
    apply elem_of_map_to_list. rewrite <- (rangeFields_perm sched pf), Hl'.
    apply list_elem_of_fmap. by exists (n, f).
Qed.

(** *** The operations of a path item *)

(** The slots of a stored path item and the handlers that fill them. *)
Lemma documentPath_built p sp bt (doc doc' : document) path :
  docPath p sp bt doc = (Ok (), doc') ->
  path ∈ expandPattern (Pattern p) ->
  exists pi pf bf,
    dPaths doc' !! (lit "/" ++ path) = Some pi
    /\ splitFields error sched (Fields p) path = Ok (pf, bf)
    /\ forall s,
         match slotWriter Properties (resolveOperations PathOperation p) s with
         | Some (k, h) =>
             writes k s = true
             /\ exists op,
                  buildOperation Decode sched (resolveOperations PathOperation p)
                    bf bt k (Properties h) = Ok op
                  /\ slotOf s pi = Some op
         | None => slotOf s pi = None
         end.
Proof.
  intros Hdoc Hin.
  destruct (documentPath_item _ _ _ _ _ _ _ _ _ _ Hdoc Hin) as (pi & Hpi & Hlook).
  destruct (pathItemFor_ok _ _ _ _ _ _ _ _ _ _ Hpi)
    as (pf & bf & params & Hs & Hp & Hloop).
  exists pi, pf, bf. split; [done|]. split; [done|]. intros s.
  pose proof (loop_slot_spec _ _ _ _ _ _ s _ _ _ (rangeOps_perm sched _) Hloop)
    as Hspec.
  destruct (slotWriter Properties (resolveOperations PathOperation p) s)
    as [[k h]|] eqn:Hw.
  - split; [|done].
    destruct (slotWriter_lookup _ _ _ _ _ Hw) as [Hk _].
    apply (writer_spec Properties _ s k h Hk) in Hw.
    by apply andb_true_iff in Hw as [_ ?].
  - rewrite Hspec. by destruct s.
Qed.

Lemma requestBody_loop (l : list (gostring * option FieldSchema))
    (acc ps : gmap gostring (oasSchema DataMap LSecret LAuth WrapInfo)) :
  NoDup l.*1 ->
  forRange (E:=error) l
    (fun ps '(name, field) =>
       match field with
       | None => Panic
       | Some f => Ok (<[name := propertySchema f]> ps)
       end) acc = Ok ps ->
  forall n,
    ps !! n = match (list_to_map l : fieldMap) !! n with
              | Some field => fmap propertySchema field
              | None => acc !! n
              end.
Proof.
  revert acc. induction l as [|[n0 f0] l IH]; intros acc Hnd H n.
  - simpl in H. simplify_eq. by rewrite list_to_map_nil, lookup_empty.
  - rewrite fmap_cons in Hnd. apply NoDup_cons in Hnd as [Hn0 Hnd].
    rewrite forRange_cons in H. destruct f0 as [f|]; [|done]. simpl in H.
    rewrite (IH _ Hnd H n). cbn [list_to_map foldr fst snd].
    destruct (decide (n0 = n)) as [<-|Hne].
    + rewrite lookup_insert_eq.
      rewrite (not_elem_of_list_to_map_1 (M:=gmap gostring) l n0 Hn0).
      by rewrite lookup_insert_eq.
    + rewrite !lookup_insert_ne by done. done.
Qed.

(** The request body, without the order of the loop over the fields. *)
Lemma requestBodyFor_value (bf : fieldMap) props
    (rb : option (oasRequestBody DataMap LSecret LAuth WrapInfo)) :
  requestBodyFor error sched bf props = Ok rb ->
  rb = if (0 <? size bf) || bool_decide (is_Some (exampleOf props))
       then Some {| rbDescription := [];
                    rbContent :=
                      {[ lit "application/json" :=
                           {| mtSchema := Some (bodySchema bf props) |} ]} |}
       else None.
Proof.
  unfold requestBodyFor. intros H.
  match type of H with
  | context [forRange ?l ?b ?s] => destruct (forRange l b s) as [ps| |] eqn:Hloop
  end; simpl in H; try done.
  assert (ps = omap (fmap propertySchema) bf) as ->.
  { apply map_eq. intros n.
    rewrite (requestBody_loop _ _ _ (rangeFields_NoDup sched bf) Hloop n).
    rewrite rangeFields_map, lookup_omap, lookup_empty.
    by destruct (bf !! n). }
  assert (size (omap (fmap propertySchema) bf
                  : gmap gostring (oasSchema DataMap LSecret LAuth WrapInfo))
          = size bf) as Hsize.
  { assert (forall n, bf !! n <> Some None) as Hnil.
    { intros n Hn.
      apply (forRange_not_ok _ _ _ (n, None)) with (st' := omap (fmap propertySchema) bf)
        in Hloop; [done| |done].
      rewrite rangeFields_perm. by apply elem_of_map_to_list. }
    clear Hloop H. induction bf as [|n f m Hm IH] using map_ind.
    - by rewrite omap_empty.
    - destruct f as [f|]; [|by destruct (Hnil n); rewrite lookup_insert_eq].
      rewrite (omap_insert_Some _ _ _ _ (propertySchema f)) by done.
      rewrite !map_size_insert_None; [|done|by rewrite lookup_omap, Hm].
      f_equal. apply IH. intros n' Hn'. apply (Hnil n').
      rewrite lookup_insert_ne; [done|]. intros ->. congruence. }
  unfold requestExample, bodySchema in *. rewrite Hsize in H.
  unfold requestExample. by destruct (_ || _); simplify_eq.
Qed.

Lemma verbs_distinct :
  CreateOperation <> ReadOperation /\ CreateOperation <> ListOperation
  /\ CreateOperation <> DeleteOperation /\ UpdateOperation <> ReadOperation
  /\ UpdateOperation <> ListOperation /\ UpdateOperation <> DeleteOperation
  /\ ReadOperation <> DeleteOperation /\ ListOperation <> DeleteOperation
  /\ CreateOperation <> UpdateOperation /\ ReadOperation <> ListOperation.
Proof. repeat split; intros H; vm_compute in H; discriminate H. Qed.

Lemma buildOperation_shape (ops : gmap gostring OperationHandler) (bf : fieldMap)
    bt k props (op : operation) :
  buildOperation Decode sched ops bf bt k props = Ok op ->
  opTags op = tagsOf bt
  /\ opRequestBody op
     = (if bool_decide (k = CreateOperation) || bool_decide (k = UpdateOperation)
        then if (0 <? size bf) || bool_decide (is_Some (exampleOf props))
             then Some {| rbDescription := [];
                          rbContent :=
                            {[ lit "application/json" :=
                                 {| mtSchema := Some (bodySchema bf props) |} ]} |}
             else None
        else None)
  /\ (k <> ListOperation -> k <> ReadOperation -> opParameters op = []).
Proof.
  unfold buildOperation. intros H.
  destruct (if bool_decide (k = CreateOperation) || bool_decide (k = UpdateOperation)
            then requestBodyFor error sched bf props else Ok None)
    as [rb| |] eqn:Hrb; simpl in H; try done.
  match type of H with
  | context [forRange ?l ?b ?s] => destruct (forRange l b s) as [rs| |]
  end; simpl in H; try done.
  simplify_eq. cbn [opTags opRequestBody opParameters].
  split; [by destruct bt|]. split.
  - destruct (bool_decide (k = CreateOperation) || bool_decide (k = UpdateOperation));
      [by apply requestBodyFor_value|by simplify_eq].
  - intros Hl Hr.
    rewrite (bool_decide_eq_false_2 (k = ListOperation)) by done.
    by rewrite (bool_decide_eq_false_2 (k = ReadOperation)) by done.
Qed.

(** X20: every operation of a stored path item carries the tag of the backend
    type ([secrets], [auth] or none); only the post operation has a request
    body and only the get operation has parameters. *)
Theorem documentPath_operation_shape p sp bt (doc doc' : document) path :
  docPath p sp bt doc = (Ok (), doc') ->
  path ∈ expandPattern (Pattern p) ->
  exists pi,
    dPaths doc' !! (lit "/" ++ path) = Some pi
    /\ forall s op, slotOf s pi = Some op ->
         opTags op = tagsOf bt
         /\ (s <> SPost -> opRequestBody op = None)
         /\ (s <> SGet -> opParameters op = []).
Proof.
  intros Hdoc Hin.
  destruct (documentPath_built _ _ _ _ _ _ Hdoc Hin) as (pi & pf & bf & Hlook & _ & Hslots).
  exists pi. split; [done|]. intros s op Hop. specialize (Hslots s).
  destruct (slotWriter Properties (resolveOperations PathOperation p) s)
    as [[k h]|]; [|congruence].
  destruct Hslots as (Hw & op' & Hb & Hop'). simplify_eq.
  destruct (buildOperation_shape _ _ _ _ _ _ Hb) as (Ht & Hrb & Hpar).
  destruct verbs_distinct as (? & ? & ? & ? & ? & ? & ? & ? & ? & ?).
  split; [done|]. split.
  - intros Hs. rewrite Hrb.
    destruct s; [|done|]; simpl in Hw; repeat case_bool_decide; subst; done.
  - intros Hs. apply Hpar;
      destruct s; try done; simpl in Hw; repeat case_bool_decide; subst;
        try done; congruence.
Qed.

(** X21: the post operation of a stored path item has a request body exactly
    when the path has body fields or the handler declares an example; the
    body is JSON, an object with one property per body field and the data
    of the first example, whatever the order in which the fields are
    visited. *)
Theorem documentPath_request_body p sp bt (doc doc' : document) path k h :
  docPath p sp bt doc = (Ok (), doc') ->
  path ∈ expandPattern (Pattern p) ->
  slotWriter Properties (resolveOperations PathOperation p) SPost = Some (k, h) ->
  exists pi pf bf op,
    dPaths doc' !! (lit "/" ++ path) = Some pi
    /\ splitFields error sched (Fields p) path = Ok (pf, bf)
    /\ piPost pi = Some op
    /\ (opRequestBody op = None
        <-> bf = ∅ /\ propExamples (Properties h) = [])
    /\ forall rb, opRequestBody op = Some rb ->
         rbDescription rb = []
         /\ rbContent rb
            = {[ lit "application/json" :=
                   {| mtSchema := Some (bodySchema bf (Properties h)) |} ]}.
Proof.
  intros Hdoc Hin Hw.
  destruct (documentPath_built _ _ _ _ _ _ Hdoc Hin) as (pi & pf & bf & Hlook & Hs & Hslots).
  specialize (Hslots SPost). rewrite Hw in Hslots.
  destruct Hslots as (Hwr & op & Hb & Hop).
  exists pi, pf, bf, op. split; [done|]. split; [done|]. split; [done|].
  destruct (buildOperation_shape _ _ _ _ _ _ Hb) as (_ & Hrb & _).
  simpl in Hwr. rewrite Hwr in Hrb. rewrite Hrb.
  assert ((0 <? size bf) || bool_decide (is_Some (exampleOf (Properties h)))
          = false
          <-> bf = ∅ /\ propExamples (Properties h) = []) as Hnone.
  { rewrite orb_false_iff, Nat.ltb_ge, bool_decide_eq_false.
    unfold requestExample. split.
    - intros [Hsz Hex]. split.
      + apply map_size_empty_iff. lia.
      + destruct (propExamples (Properties h)); [done|]. destruct Hex. by eexists.
    - intros [-> ->]. split; [by rewrite map_size_empty|]. by intros [? ?]. }
  split.
  - rewrite <- Hnone.
    destruct ((0 <? size bf) || bool_decide (is_Some (exampleOf (Properties h))));
      split; intros Hx; first [done | discriminate Hx].
  - intros rb.
    destruct ((0 <? size bf) || bool_decide (is_Some (exampleOf (Properties h))));
      intros Hx; [|discriminate Hx].
    injection Hx as <-. done.
Qed.

(** *** The responses of an operation *)

Lemma responses_loop (l : list (gostring * list (Response LResponse)))
    (acc rs : gmap gostring (oasResponse DataMap LSecret LAuth WrapInfo)) :
  NoDup l.*1 ->
  forRange l
    (fun (rs : gmap gostring (oasResponse DataMap LSecret LAuth WrapInfo))
         '(code, responses) =>
       '(description, content) ← responseGroup Decode responses;
       Ok (<[code := {| rDescription := description; rContent := content |}]> rs))
    acc = Ok rs ->
  (forall code responses, (code, responses) ∈ l ->
     exists d c, responseGroup Decode responses = Ok (d, c)
                 /\ rs !! code = Some {| rDescription := d; rContent := c |})
  /\ (forall code, code ∉ l.*1 -> rs !! code = acc !! code).
Proof.
  revert acc. induction l as [|[code0 rs0] l IH]; intros acc Hnd H.
  - simpl in H. simplify_eq. split; [|done]. intros ? ? Hin. by apply elem_of_nil in Hin.
  - rewrite fmap_cons in Hnd. apply NoDup_cons in Hnd as [Hn0 Hnd].
    rewrite forRange_cons in H.
    destruct (responseGroup Decode rs0) as [[d0 c0]| |] eqn:Hg; simpl in H; try done.
    destruct (IH _ Hnd H) as [Hin Hout]. split.
    + intros code responses Hel. apply elem_of_cons in Hel as [Heq|Hel]; [|by apply Hin].
      injection Heq as -> ->. exists d0, c0. split; [done|].
      by rewrite (Hout code0 Hn0), lookup_insert_eq.
    + intros code Hno. rewrite fmap_cons in Hno. apply not_elem_of_cons in Hno as [Hne Hno].
      rewrite (Hout code Hno). by rewrite lookup_insert_ne.
Qed.

Lemma buildOperation_responses (ops : gmap gostring OperationHandler)
    (bf : fieldMap) bt k props (op : operation) :
  buildOperation Decode sched ops bf bt k props = Ok op ->
  (forall code rs, propResponses props !! code = Some rs ->
     exists d c, responseGroup Decode rs = Ok (d, c)
                 /\ opResponses op !! code
                    = Some {| rDescription := d; rContent := c |})
  /\ (forall code, propResponses props !! code = None ->
        opResponses op !! code
        = if size (propResponses props) =? 0
          then (if bool_decide (k = DeleteOperation)
                then {[ lit "204" := oasStdRespNoContent ]}
                else {[ lit "200" := oasStdRespOK ]}
                  : gmap gostring (oasResponse DataMap LSecret LAuth WrapInfo)) !! code
          else None).
Proof.
  unfold buildOperation. intros H.
  destruct (if bool_decide (k = CreateOperation) || bool_decide (k = UpdateOperation)
            then requestBodyFor error sched bf props else Ok None)
    as [rb| |] eqn:Hrb; simpl in H; try done.
  match type of H with
  | context [forRange ?l ?b ?s] => destruct (forRange l b s) as [rs| |] eqn:Hloop
  end; simpl in H; try done.
  simplify_eq. simpl.
  assert (NoDup (rangeResponses sched (propResponses props)).*1) as Hnd.
  { rewrite rangeResponses_perm. apply NoDup_fst_map_to_list. }
  destruct (responses_loop _ _ _ Hnd Hloop) as [Hin Hout]. split.
  - intros code rs' Hc. apply Hin. rewrite rangeResponses_perm.
    by apply elem_of_map_to_list.
  - intros code Hc. rewrite Hout.
    + destruct (size (propResponses props) =? 0); [done|]. by rewrite lookup_empty.
    + rewrite rangeResponses_perm. intros Hel.
      apply list_elem_of_fmap in Hel as ([c0 r0] & -> & Hel).
      apply elem_of_map_to_list in Hel. simpl in Hc. congruence.
Qed.

(** X22: an operation of a stored path item has one response per status code
    that its handler declares, with the description and the examples of
    that code; when the handler declares none, it has the one standard
    response, 204 ["empty body"] for delete and 200 ["OK"] otherwise. *)
Theorem documentPath_responses p sp bt (doc doc' : document) path s k h :
  docPath p sp bt doc = (Ok (), doc') ->
  path ∈ expandPattern (Pattern p) ->
  slotWriter Properties (resolveOperations PathOperation p) s = Some (k, h) ->
  exists pi op,
    dPaths doc' !! (lit "/" ++ path) = Some pi
    /\ slotOf s pi = Some op
    /\ (forall code rs, propResponses (Properties h) !! code = Some rs ->
          exists d c, responseGroup Decode rs = Ok (d, c)
                      /\ opResponses op !! code
                         = Some {| rDescription := d; rContent := c |})
    /\ (propResponses (Properties h) = ∅ ->
        opResponses op
        = if bool_decide (k = DeleteOperation)
          then {[ lit "204" := oasStdRespNoContent ]}
          else {[ lit "200" := oasStdRespOK ]})
    /\ (propResponses (Properties h) <> ∅ ->
        forall code, propResponses (Properties h) !! code = None ->
          opResponses op !! code = None).
Proof.
  intros Hdoc Hin Hw.
  destruct (documentPath_built _ _ _ _ _ _ Hdoc Hin) as (pi & pf & bf & Hlook & Hs & Hslots).
  specialize (Hslots s). rewrite Hw in Hslots.
  destruct Hslots as (Hwr & op & Hb & Hop).
  exists pi, op. split; [done|]. split; [done|].
  destruct (buildOperation_responses _ _ _ _ _ _ Hb) as [Hdecl Hother].
  split; [done|]. split.
  - intros Hempty. apply map_eq. intros code.
    rewrite (Hother code) by (by rewrite Hempty, lookup_empty).
    by rewrite Hempty, map_size_empty.
  - intros Hne code Hc. rewrite (Hother code Hc).
    destruct (size (propResponses (Properties h)) =? 0) eqn:Hsz; [|done].
    apply Nat.eqb_eq, map_size_empty_iff in Hsz. done.
Qed.

End Operations.

(** *** The responses of one status code *)

Section Responses.
Context {DataMap LSecret LAuth WrapInfo LResponse error : Type}.
Context (Decode : LResponse -> cleanedResponse DataMap LSecret LAuth WrapInfo + error).

Local Abbreviation contentMap := (gmap gostring (oasMediaTypeObject DataMap LSecret LAuth WrapInfo)).

Lemma responseGroup_loop (rs : list (Response LResponse)) :
  responseGroup Decode rs
  = forRange (imap (fun i resp => (i, resp)) rs) (groupStep Decode) ([], ∅).
Proof.
  unfold responseGroup. apply forRange_ext. by intros [d c] [i r] _.
Qed.

Lemma groupStep_eq (d0 : gostring) (c0 : contentMap) i (r : Response LResponse) :
  groupStep Decode (d0, c0) (i, r)
  = match respExample r with
    | None => Ok (if i =? 0 then respDescription r else d0, c0)
    | Some ex =>
        match Decode ex with
        | inl cr =>
            match c0 !! mediaTypeOf r with
            | Some _ => Ok (if i =? 0 then respDescription r else d0, c0)
            | None =>
                Ok (if i =? 0 then respDescription r else d0,
                    <[mediaTypeOf r := exampleObject cr]> c0)
            end
        | inr err => Fail err
        end
    end.
Proof.
  unfold groupStep, cleanResponse, mediaTypeOf, exampleObject.
  destruct (respExample r) as [ex|]; [|done]. by destruct (Decode ex).
Qed.

Lemma bind_Ok {E A B} (a : A) (k : A -> result E B) : (x ← Ok a; k x) = k a.
Proof. done. Qed.

Lemma exampleFor_None mt (r : Response LResponse) :
  respExample r = None -> exampleFor mt r = false.
Proof.
  intros H. unfold exampleFor. rewrite H.
  rewrite bool_decide_eq_false_2; [done|]. by intros [? ?].
Qed.

Lemma exampleFor_Some mt (r : Response LResponse) ex :
  respExample r = Some ex -> exampleFor mt r = bool_decide (mediaTypeOf r = mt).
Proof.
  intros H. unfold exampleFor. rewrite H.
  by rewrite bool_decide_eq_true_2 by eauto.
Qed.

Lemma group_content (l : list (nat * Response LResponse))
    (d0 : gostring) (c0 : contentMap) (d : gostring) (c : contentMap) :
  forRange l (groupStep Decode) (d0, c0) = Ok (d, c) ->
  forall mt,
    match c0 !! mt with
    | Some v => c !! mt = Some v
    | None =>
        match List.find (exampleFor mt) l.*2 with
        | Some r =>
            exists ex cr, respExample r = Some ex /\ Decode ex = inl cr
                          /\ c !! mt = Some (exampleObject cr)
        | None => c !! mt = None
        end
    end.
Proof.
  revert d0 c0. induction l as [|[i r] l IH]; intros d0 c0 H mt.
  - cbn [forRange] in H. injection H as <- <-. by destruct (c0 !! mt).
  - rewrite forRange_cons, groupStep_eq in H. cbn [fmap list_fmap snd List.find].
    change (list_fmap _ _ snd l) with (l.*2).
    destruct (respExample r) as [ex|] eqn:Hex.
    + destruct (Decode ex) as [cr|err] eqn:Hdec; [|done].
      rewrite (exampleFor_Some mt r ex Hex).
      destruct (c0 !! mediaTypeOf r) as [v0|] eqn:Hc0; cbv beta iota in H; rewrite bind_Ok in H;
        specialize (IH _ _ H mt).
      * destruct (c0 !! mt) as [v|] eqn:Hmt; [done|].
        rewrite bool_decide_eq_false_2 by congruence. done.
      * destruct (decide (mediaTypeOf r = mt)) as [<-|Hne].
        -- rewrite lookup_insert_eq in IH. rewrite Hc0.
           rewrite bool_decide_eq_true_2 by done. by exists ex, cr.
        -- rewrite lookup_insert_ne in IH by done.
           by rewrite (bool_decide_eq_false_2 _ Hne).
    + cbv beta iota in H; rewrite bind_Ok in H. rewrite (exampleFor_None mt r Hex).
      exact (IH _ _ H mt).
Qed.

Lemma group_description (l : list (nat * Response LResponse))
    (d0 : gostring) (c0 : contentMap) (d : gostring) (c : contentMap) :
  (forall x, x ∈ l -> x.1 <> 0) ->
  forRange l (groupStep Decode) (d0, c0) = Ok (d, c) -> d = d0.
Proof.
  revert d0 c0. induction l as [|[i r] l IH]; intros d0 c0 Hl H.
  - cbn [forRange] in H. by injection H as <- <-.
  - rewrite forRange_cons, groupStep_eq in H.
    assert (i <> 0) as Hi by (apply (Hl (i, r)); by left).
    apply Nat.eqb_neq in Hi. rewrite Hi in H.
    assert (forall x, x ∈ l -> x.1 <> 0) as Hl' by (intros x Hx; apply Hl; by right).
    destruct (respExample r) as [ex|].
    + destruct (Decode ex) as [cr|err]; [|done].
      destruct (c0 !! _); cbv beta iota in H; rewrite bind_Ok in H; by eapply IH.
    + cbv beta iota in H; rewrite bind_Ok in H. by eapply IH.
Qed.

Lemma imap_snd {A} (f : nat -> nat) (l : list A) :
  (imap (fun i (x : A) => (f i, x)) l).*2 = l.
Proof.
  revert f. induction l as [|x l IH]; intros f; [done|].
  cbn [imap fmap list_fmap snd]. f_equal. apply (IH (f ∘ S)).
Qed.

(** X23: of the responses declared for one status code, [responseGroup] takes
    the description of the first one and, for every media type, the example
    of the first response that has one (a response without a media type
    counts as JSON); later examples for the same media type are left
    out. *)
Theorem responseGroup_first_wins (rs : list (Response LResponse))
    (d : gostring) (c : contentMap) :
  responseGroup Decode rs = Ok (d, c) ->
  d = match rs with r :: _ => respDescription r | [] => [] end
  /\ forall mt,
       match List.find (exampleFor mt) rs with
       | Some r =>
           exists ex cr, respExample r = Some ex /\ Decode ex = inl cr
                         /\ c !! mt = Some (exampleObject cr)
       | None => c !! mt = None
       end.
Proof.
  rewrite responseGroup_loop. intros H. split.
  - destruct rs as [|r rs]; [cbn [imap forRange] in H; by injection H as <- <-|].
    cbn [imap] in H. rewrite forRange_cons, groupStep_eq in H. cbn [Nat.eqb] in H.
    assert (exists c1,
              forRange (imap ((fun i resp => (i, resp)) ∘ S) rs) (groupStep Decode)
                (respDescription r, c1) = Ok (d, c)) as [c1 H1].
    { destruct (respExample r) as [ex|].
      - destruct (Decode ex) as [cr|err]; [|done].
        destruct (_ !! _); cbv beta iota in H; rewrite bind_Ok in H; eauto.
      - cbv beta iota in H; rewrite bind_Ok in H. eauto. }
    eapply group_description; [|exact H1].
    intros [i x] Hx. apply elem_of_lookup_imap in Hx as (j & y & Heq & _).
    simpl in *. by simplify_eq.
  - intros mt. pose proof (group_content _ _ _ _ _ H mt) as Hc.
    rewrite lookup_empty in Hc. by rewrite (imap_snd id) in Hc.
Qed.

End Responses.

(** *** The order of the maps *)

(** A list has one sorted arrangement when elements that tie are equal. *)
Lemma sorted_perm_unique {A} (R : A -> A -> Prop) (l1 l2 : list A) :
  StronglySorted R l1 -> StronglySorted R l2 -> l1 ≡ₚ l2 ->
  (forall a b, a ∈ l1 -> b ∈ l1 -> R a b -> R b a -> a = b) ->
  l1 = l2.
Proof.
  revert l2. induction l1 as [|a l1 IH]; intros l2 H1 H2 Hperm Hanti.
  - by apply Permutation_nil in Hperm.
  - destruct l2 as [|b l2].
    { symmetry in Hperm. by apply Permutation_nil_cons in Hperm. }
    apply StronglySorted_inv in H1 as [H1 Ha].
    apply StronglySorted_inv in H2 as [H2 Hb].
    rewrite Forall_forall in Ha, Hb.
    assert (a = b) as <-.
    { assert (b ∈ a :: l1) as Hbin by (rewrite Hperm; by left).
      assert (a ∈ b :: l2) as Hain by (rewrite <- Hperm; by left).
      apply elem_of_cons in Hbin as [->|Hbin]; [done|].
      apply elem_of_cons in Hain as [->|Hain]; [done|].
      apply Hanti; [by left|by right| |].
      - by apply Ha.
      - by apply Hb. }
    f_equal. apply IH; [done|done|by eapply Permutation_cons_inv|].
    intros x y Hx Hy. apply Hanti; by right.
Qed.

Lemma forRange_agree {E A St} (l : list A) (body1 body2 : St -> A -> result E St) st :
  (forall s x, x ∈ l -> agree (body1 s x) (body2 s x)) ->
  agree (forRange l body1 st) (forRange l body2 st).
Proof.
  revert st. induction l as [|x l IH]; intros st Hb; [done|].
  rewrite !forRange_cons. pose proof (Hb st x ltac:(by left)) as Hx.
  destruct (body1 st x) as [s1| |], (body2 st x) as [s2| |]; simpl in *; try done.
  subst. apply IH. intros s y Hy. apply Hb. by right.
Qed.

Section AnyOrder.
Context {DataMap LSecret LAuth WrapInfo LResponse OperationFunc error : Type}.
Context (Decode : LResponse -> cleanedResponse DataMap LSecret LAuth WrapInfo + error).
Context {OperationHandler : Type}.
Context (Properties : OperationHandler -> OperationProperties DataMap LResponse).
Context (PathOperation : OperationFunc -> gostring -> OperationHandler).
Context (sched1 sched2 : Scheduler LResponse OperationHandler).

Local Abbreviation document := (OASDocument DataMap LSecret LAuth WrapInfo).
Local Abbreviation parameter := (oasParameter DataMap LSecret LAuth WrapInfo).
Local Abbreviation operation := (OASOperation DataMap LSecret LAuth WrapInfo).
Local Abbreviation pathItem := (oasPathItem DataMap LSecret LAuth WrapInfo).
Local Abbreviation fieldMap := (gmap gostring (option FieldSchema)).

Lemma splitFields_any_order fields path :
  splitFields error sched1 fields path = splitFields error sched2 fields path.
Proof.
  pose proof (splitFields_no_fail (error:=error) sched1 fields path) as Hnf1.
  pose proof (splitFields_no_fail (error:=error) sched2 fields path) as Hnf2.
  assert (splitFields error sched1 fields path = Panic
          <-> splitFields error sched2 fields path = Panic) as Hpp
    by (by rewrite !splitFields_panics).
  destruct (splitFields error sched1 fields path) as [[pf1 bf1]| |] eqn:H1;
    [|by destruct (Hnf1 e)|].
  - destruct (splitFields error sched2 fields path) as [[pf2 bf2]| |] eqn:H2;
      [|by destruct (Hnf2 e)|].
    + f_equal. f_equal; apply map_eq; intros n.
      * destruct (splitFields_lookup sched1 _ _ _ _ H1 n) as [-> _].
        by destruct (splitFields_lookup sched2 _ _ _ _ H2 n) as [-> _].
      * destruct (splitFields_lookup sched1 _ _ _ _ H1 n) as [_ ->].
        by destruct (splitFields_lookup sched2 _ _ _ _ H2 n) as [_ ->].
    + by destruct (proj2 Hpp eq_refl).
  - symmetry. by apply Hpp.
Qed.

Lemma pathParameters_panics (sched : Scheduler LResponse OperationHandler)
    (pf : fieldMap) :
  pathParameters (DataMap:=DataMap) (LSecret:=LSecret) (LAuth:=LAuth)
    (WrapInfo:=WrapInfo) error sched pf = Panic
  <-> exists n, pf !! n = Some None.
Proof.
  split.
  - unfold pathParameters. intros H.
    apply forRange_panic_inv in H as (ps & [n f] & Hin & Hb).
    rewrite rangeFields_perm in Hin. apply elem_of_map_to_list in Hin.
    destruct f as [f|]; [done|]. by exists n.
  - intros [n Hn]. by eapply pathParameters_nil.
Qed.

Lemma parameters_any_order (pf : fieldMap) :
  (forall n1 n2, is_Some (pf !! n1) -> is_Some (pf !! n2) ->
     ToLower n1 = ToLower n2 -> n1 = n2) ->
  agree (params ← pathParameters (DataMap:=DataMap) (LSecret:=LSecret)
                    (LAuth:=LAuth) (WrapInfo:=WrapInfo) error sched1 pf;
         Ok (sortSlice parameterLess params))
        (params ← pathParameters error sched2 pf;
         Ok (sortSlice parameterLess params)).
Proof.
  intros Hcase.
  pose proof (pathParameters_no_fail (DataMap:=DataMap) (LSecret:=LSecret)
                (LAuth:=LAuth) (WrapInfo:=WrapInfo) (error:=error) sched1 pf) as Hnf1.
  pose proof (pathParameters_no_fail (DataMap:=DataMap) (LSecret:=LSecret)
                (LAuth:=LAuth) (WrapInfo:=WrapInfo) (error:=error) sched2 pf) as Hnf2.
  assert (pathParameters (DataMap:=DataMap) (LSecret:=LSecret) (LAuth:=LAuth)
            (WrapInfo:=WrapInfo) error sched1 pf = Panic
          <-> pathParameters (DataMap:=DataMap) (LSecret:=LSecret) (LAuth:=LAuth)
                (WrapInfo:=WrapInfo) error sched2 pf = Panic) as Hpp
    by (by rewrite !pathParameters_panics).
  destruct (pathParameters error sched1 pf) as [ps1| |] eqn:H1;
    [|by destruct (Hnf1 e)|].
  2:{ by rewrite (proj1 Hpp eq_refl). }
  destruct (pathParameters error sched2 pf) as [ps2| |] eqn:H2;
    [|by destruct (Hnf2 e)|].
  2:{ by destruct (proj2 Hpp eq_refl). }
  simpl.
  destruct (pathParameters_value sched1 _ _ H1) as (l1 & Hl1 & ->).
  destruct (pathParameters_value sched2 _ _ H2) as (l2 & Hl2 & ->).
  set (mk := fun '((n, f) : gostring * FieldSchema) => @parameterOf DataMap LSecret LAuth WrapInfo n f).
  set (some := fun '((n, f) : gostring * FieldSchema) => (n, Some f)).
  assert (forall l, pName <$> (mk <$> l) = (some <$> l).*1) as Hnames.
  { intros l. rewrite <- !list_fmap_compose. apply list_fmap_ext. by intros i [n f]. }
  assert (NoDup (pName <$> (mk <$> l1))) as Hnd.
  { rewrite Hnames. fold some in Hl1. rewrite <- Hl1. apply rangeFields_NoDup. }
  assert (forall a : parameter, a ∈ mk <$> l1 -> is_Some (pf !! pName a)) as Hkeys.
  { intros a Ha. apply list_elem_of_fmap in Ha as ([n f] & -> & Hnf).
    exists (Some f). simpl. apply elem_of_map_to_list.
    rewrite <- (rangeFields_perm sched1 pf), Hl1.
    apply list_elem_of_fmap. by exists (n, f). }
  assert (mk <$> l1 ≡ₚ mk <$> l2) as Hperm.
  { assert (some <$> l1 ≡ₚ some <$> l2) as Hs
      by (fold some in Hl1, Hl2; by rewrite <- Hl1, <- Hl2, !rangeFields_perm).
    set (back := fun '((n, o) : gostring * option FieldSchema) =>
                   (n, default {| fsType := TypeInvalid; fsDescription := [];
                                  fsDeprecated := false |} o)).
    assert (forall l : list (gostring * FieldSchema),
              back <$> (some <$> l) = l) as Hback.
    { induction l as [|[n f] l IH]; [done|]. rewrite !fmap_cons, IH. done. }
    apply (fmap_Permutation back) in Hs. rewrite !Hback in Hs. by rewrite Hs. }
  apply (sorted_perm_unique
           (fun a b : parameter => ltb (ToLower (pName b)) (ToLower (pName a)) = false)).
  - apply (sortSlice_sorted parameterLess).
    + intros a b. apply ltb_asym.
    + intros a b c. apply ltb_negtrans.
  - apply (sortSlice_sorted parameterLess).
    + intros a b. apply ltb_asym.
    + intros a b c. apply ltb_negtrans.
  - by rewrite !sortSlice_perm.
  - intros a b Ha Hb Hab Hba. rewrite sortSlice_perm in Ha, Hb.
    assert (pName a = pName b) as Hname.
    { apply Hcase; [by apply Hkeys|by apply Hkeys|by apply ltb_connex]. }
    apply list_elem_of_lookup in Ha as [i Hi], Hb as [j Hj].
    assert (i = j) as ->.
    { eapply NoDup_lookup; [exact Hnd| |].
      - rewrite list_lookup_fmap, Hi. done.
      - rewrite list_lookup_fmap, Hj. simpl. by rewrite Hname. }
    congruence.
Qed.

Lemma requestBodyFor_any_order (bf : fieldMap) props :
  (forall n, bf !! n <> Some None) ->
  requestBodyFor (DataMap:=DataMap) (LSecret:=LSecret) (LAuth:=LAuth)
    (WrapInfo:=WrapInfo) error sched1 bf props
  = requestBodyFor error sched2 bf props.
Proof.
  intros Hbf.
  pose proof (requestBodyFor_no_panic (DataMap:=DataMap) (LSecret:=LSecret)
                (LAuth:=LAuth) (WrapInfo:=WrapInfo) (error:=error) sched1 bf props Hbf) as Hp1.
  pose proof (requestBodyFor_no_panic (DataMap:=DataMap) (LSecret:=LSecret)
                (LAuth:=LAuth) (WrapInfo:=WrapInfo) (error:=error) sched2 bf props Hbf) as Hp2.
  pose proof (requestBodyFor_no_fail (DataMap:=DataMap) (LSecret:=LSecret)
                (LAuth:=LAuth) (WrapInfo:=WrapInfo) (error:=error) sched1 bf props) as Hf1.
  pose proof (requestBodyFor_no_fail (DataMap:=DataMap) (LSecret:=LSecret)
                (LAuth:=LAuth) (WrapInfo:=WrapInfo) (error:=error) sched2 bf props) as Hf2.
  destruct (requestBodyFor error sched1 bf props) as [rb1| |] eqn:H1;
    [|by destruct (Hf1 e)|done].
  destruct (requestBodyFor error sched2 bf props) as [rb2| |] eqn:H2;
    [|by destruct (Hf2 e)|done].
  apply requestBodyFor_value in H1, H2. congruence.
Qed.

(** The body of the loop over the declared responses. *)
Local Abbreviation respond :=
  (fun (rs : gmap gostring (oasResponse DataMap LSecret LAuth WrapInfo))
       '((code, responses) : gostring * list (Response LResponse)) =>
     '(description, content) ← responseGroup Decode responses;
     Ok (<[code := {| rDescription := description; rContent := content |}]> rs)).

Lemma responses_any_order (m : gmap gostring (list (Response LResponse))) defaults :
  agree (forRange (rangeResponses sched1 m) respond defaults)
        (forRange (rangeResponses sched2 m) respond defaults).
Proof.
  assert (forall sched : Scheduler LResponse OperationHandler,
            NoDup (rangeResponses sched m).*1) as Hnd.
  { intros sched. rewrite rangeResponses_perm. apply NoDup_fst_map_to_list. }
  assert (forall sched : Scheduler LResponse OperationHandler,
            forRange (rangeResponses sched m) respond defaults <> Panic)
    as Hnp.
  { intros sched. apply forRange_no_panic. intros s [code rs] _.
    pose proof (responseGroup_no_panic Decode rs) as Hg.
    by destruct (responseGroup Decode rs) as [[d c]| |]. }
  assert (forall (sched sched' : Scheduler LResponse OperationHandler) rs err,
            forRange (rangeResponses sched m) respond defaults = Ok rs ->
            forRange (rangeResponses sched' m) respond defaults <> Fail err) as Hok.
  { intros sched sched' rs err H H'.
    apply forRange_fail_inv in H' as (s & [code rs'] & Hin & Hb).
    destruct (responses_loop Decode _ _ _ (Hnd sched) H) as [Hall _].
    destruct (Hall code rs') as (d & c & Hg & _).
    { by rewrite rangeResponses_perm, <- (rangeResponses_perm sched'). }
    by rewrite Hg in Hb. }
  destruct (forRange (rangeResponses sched1 m) respond defaults) as [rs1| |] eqn:H1;
    destruct (forRange (rangeResponses sched2 m) respond defaults) as [rs2| |] eqn:H2;
    simpl; try done;
    try (by destruct (Hnp sched1)); try (by destruct (Hnp sched2)).
  - apply map_eq. intros code.
    destruct (responses_loop Decode _ _ _ (Hnd sched1) H1) as [Hin1 Hout1].
    destruct (responses_loop Decode _ _ _ (Hnd sched2) H2) as [Hin2 Hout2].
    destruct (m !! code) as [rs|] eqn:Hm.
    + destruct (Hin1 code rs) as (d1 & c1 & Hg1 & ->);
        [rewrite rangeResponses_perm; by apply elem_of_map_to_list|].
      destruct (Hin2 code rs) as (d2 & c2 & Hg2 & ->);
        [rewrite rangeResponses_perm; by apply elem_of_map_to_list|].
      congruence.
    + rewrite Hout1, Hout2; [done|..];
        rewrite rangeResponses_perm; intros Hel;
        apply list_elem_of_fmap in Hel as ([c0 r0] & -> & Hel);
        apply elem_of_map_to_list in Hel; simpl in Hm; congruence.
  - by destruct (Hok sched1 sched2 rs1 e).
  - by destruct (Hok sched2 sched1 rs2 e).
Qed.

Lemma buildOperation_any_order (ops : gmap gostring OperationHandler)
    (bf : fieldMap) bt k props :
  (forall n, bf !! n <> Some None) ->
  agree (buildOperation Decode sched1 ops bf bt k props)
        (buildOperation Decode sched2 ops bf bt k props).
Proof.
  intros Hbf. unfold buildOperation.
  rewrite (requestBodyFor_any_order bf props Hbf).
  destruct (if bool_decide (k = CreateOperation) || bool_decide (k = UpdateOperation)
            then requestBodyFor error sched2 bf props else Ok None)
    as [rb| |]; simpl; try done.
  match goal with
  | |- context [forRange (rangeResponses sched1 ?m) ?b ?d] =>
      pose proof (responses_any_order m d) as Hr;
      destruct (forRange (rangeResponses sched1 m) b d) as [rs1| |];
      destruct (forRange (rangeResponses sched2 m) b d) as [rs2| |]
  end; simpl in *; try done. by subst.
Qed.

Lemma operationStep_any_order (ops : gmap gostring OperationHandler)
    (bf : fieldMap) bt (pi : pathItem) e :
  (forall n, bf !! n <> Some None) ->
  agree (operationStep Decode Properties sched1 ops bf bt pi e)
        (operationStep Decode Properties sched2 ops bf bt pi e).
Proof.
  intros Hbf. destruct e as [k h]. unfold operationStep.
  destruct (propUnpublished (Properties h)); [done|].
  destruct (_ && _); [done|]. destruct (_ && _); [done|].
  pose proof (buildOperation_any_order ops bf bt k (Properties h) Hbf) as Hb.
  destruct (buildOperation Decode sched1 ops bf bt k (Properties h)) as [op1| |],
    (buildOperation Decode sched2 ops bf bt k (Properties h)) as [op2| |];
    simpl in *; try done. by subst.
Qed.

Lemma pathItemFor_any_order p sudo unauth bt path :
  (forall n1 n2,
     is_Some (pathFieldOf (Fields p) path n1) ->
     is_Some (pathFieldOf (Fields p) path n2) ->
     ToLower n1 = ToLower n2 -> n1 = n2) ->
  agree (pathItemFor Decode Properties PathOperation sched1 p sudo unauth bt path)
        (pathItemFor Decode Properties PathOperation sched2 p sudo unauth bt path).
Proof.
  intros Hcase. unfold pathItemFor.
  rewrite (splitFields_any_order (Fields p) path).
  destruct (splitFields error sched2 (Fields p) path) as [[pf bf]| |] eqn:Hs;
    simpl; try done.
  assert (forall n, bf !! n <> Some None) as Hbf
    by (by eapply splitFields_body).
  assert (forall n1 n2, is_Some (pf !! n1) -> is_Some (pf !! n2) ->
            ToLower n1 = ToLower n2 -> n1 = n2) as Hpf.
  { intros n1 n2.
    rewrite !(proj1 (splitFields_lookup sched2 _ _ _ _ Hs _)). apply Hcase. }
  pose proof (parameters_any_order pf Hpf) as Hsort.
  destruct (pathParameters error sched1 pf) as [ps1| |],
    (pathParameters error sched2 pf) as [ps2| |]; simpl in Hsort; try done.
  cbn [mbind result_bind].
  unfold startItem. rewrite Hsort.
  eapply agree_trans.
  - apply (loop_perm Decode Properties sched1 _ bf bt _
             (rangeOps sched2 (resolveOperations PathOperation p)));
      [apply rangeOps_perm|apply rangeOps_perm|done].
  - apply forRange_agree. intros s e _. by apply operationStep_any_order.
Qed.

Lemma pathsLoop_any_order p sudo unauth bt paths (doc : document) :
  (forall path, path ∈ paths ->
     agree (pathItemFor Decode Properties PathOperation sched1 p sudo unauth bt path)
           (pathItemFor Decode Properties PathOperation sched2 p sudo unauth bt path)) ->
  (pathsLoop Decode Properties PathOperation sched1 p sudo unauth bt paths doc).2
  = (pathsLoop Decode Properties PathOperation sched2 p sudo unauth bt paths doc).2
  /\ agree
       (pathsLoop Decode Properties PathOperation sched1 p sudo unauth bt paths doc).1
       (pathsLoop Decode Properties PathOperation sched2 p sudo unauth bt paths doc).1.
Proof.
  revert doc. induction paths as [|path rest IH]; intros doc Hag; simpl; [done|].
  pose proof (Hag path ltac:(by left)) as H0.
  destruct (pathItemFor Decode Properties PathOperation sched1 p sudo unauth bt path)
    as [pi1| |],
    (pathItemFor Decode Properties PathOperation sched2 p sudo unauth bt path)
    as [pi2| |]; simpl in H0; try done.
  subst. apply IH. intros q Hq. apply Hag. by right.
Qed.

End AnyOrder.

(** *** Any two orders *)

Section AnyOrders.
Context {DataMap LSecret LAuth WrapInfo LResponse OperationFunc error : Type}.
Context (Decode : LResponse -> cleanedResponse DataMap LSecret LAuth WrapInfo + error).
Context {OperationHandler : Type}.
Context (Properties : OperationHandler -> OperationProperties DataMap LResponse).
Context (PathOperation : OperationFunc -> gostring -> OperationHandler).
Context (sched1 sched2 : Scheduler LResponse OperationHandler).

Local Abbreviation document := (OASDocument DataMap LSecret LAuth WrapInfo).
Local Abbreviation parameter := (oasParameter DataMap LSecret LAuth WrapInfo).
Local Abbreviation pathItem := (oasPathItem DataMap LSecret LAuth WrapInfo).
Local Abbreviation fieldMap := (gmap gostring (option FieldSchema)).

Lemma sameButOrder_refl (pi : pathItem) : sameButOrder pi pi.
Proof. by repeat split. Qed.

Lemma sameButOrders_refl (doc : document) : sameButOrders doc doc.
Proof.
  split; [done|]. split; [done|]. intros key.
  destruct (dPaths doc !! key); constructor. apply sameButOrder_refl.
Qed.

(** Whatever the order of the visit, the same parameters are built. *)
Lemma parameters_perm (pf : fieldMap) (ps1 ps2 : list parameter) :
  pathParameters error sched1 pf = Ok ps1 ->
  pathParameters error sched2 pf = Ok ps2 ->
  ps1 ≡ₚ ps2.
Proof.
  intros H1 H2.
  destruct (pathParameters_value sched1 _ _ H1) as (l1 & Hl1 & ->).
  destruct (pathParameters_value sched2 _ _ H2) as (l2 & Hl2 & ->).
  set (some := fun '((n, f) : gostring * FieldSchema) => (n, Some f)).
  assert (some <$> l1 ≡ₚ some <$> l2) as Hs
    by (fold some in Hl1, Hl2; by rewrite <- Hl1, <- Hl2, !rangeFields_perm).
  set (back := fun '((n, o) : gostring * option FieldSchema) =>
                 (n, default {| fsType := TypeInvalid; fsDescription := [];
                                fsDeprecated := false |} o)).
  assert (forall l : list (gostring * FieldSchema),
            back <$> (some <$> l) = l) as Hback.
  { induction l as [|[n f] l IH]; [done|]. rewrite !fmap_cons, IH. done. }
  apply (fmap_Permutation back) in Hs. rewrite !Hback in Hs. by rewrite Hs.
Qed.

(** The loop over the handlers leaves the parameters alone. *)
Lemma operationStep_withParameters (sched : Scheduler LResponse OperationHandler)
    (ops : gmap gostring OperationHandler) (bf : fieldMap) bt
    (q : list parameter) (pi : pathItem) e :
  operationStep Decode Properties sched ops bf bt (withParameters q pi) e
  = (pi' ← operationStep Decode Properties sched ops bf bt pi e;
     Ok (withParameters q pi')).
Proof.
  destruct e as [k h]. unfold operationStep.
  destruct (propUnpublished (Properties h)); [done|].
  destruct (bool_decide (k = CreateOperation)); cbn [andb];
    repeat (match goal with |- context [if ?b then _ else _] => destruct b end;
            try done);
    by destruct (buildOperation _ _ _ _ _ _ _).
Qed.

Lemma loop_withParameters (sched : Scheduler LResponse OperationHandler)
    (ops : gmap gostring OperationHandler) (bf : fieldMap) bt
    (q : list parameter) l (pi : pathItem) :
  forRange l (operationStep Decode Properties sched ops bf bt) (withParameters q pi)
  = (pi' ← forRange l (operationStep Decode Properties sched ops bf bt) pi;
     Ok (withParameters q pi')).
Proof.
  revert pi. induction l as [|e l IH]; intros pi; [done|].
  rewrite !forRange_cons, operationStep_withParameters.
  destruct (operationStep Decode Properties sched ops bf bt pi e) as [pi'| |];
    [|done..].
  cbn [mbind result_bind]. apply IH.
Qed.

Lemma pathItemFor_any_orders p sudo unauth bt path :
  agreeUpTo sameButOrder
    (pathItemFor Decode Properties PathOperation sched1 p sudo unauth bt path)
    (pathItemFor Decode Properties PathOperation sched2 p sudo unauth bt path).
Proof.
  unfold pathItemFor.
  rewrite (splitFields_any_order sched1 sched2 (Fields p) path).
  destruct (splitFields error sched2 (Fields p) path) as [[pf bf]| |] eqn:Hs;
    simpl; try done.
  assert (forall n, bf !! n <> Some None) as Hbf
    by (by eapply splitFields_body).
  pose proof (pathParameters_no_fail (DataMap:=DataMap) (LSecret:=LSecret)
                (LAuth:=LAuth) (WrapInfo:=WrapInfo) (error:=error) sched1 pf) as Hnf1.
  pose proof (pathParameters_no_fail (DataMap:=DataMap) (LSecret:=LSecret)
                (LAuth:=LAuth) (WrapInfo:=WrapInfo) (error:=error) sched2 pf) as Hnf2.
  assert (pathParameters (DataMap:=DataMap) (LSecret:=LSecret) (LAuth:=LAuth)
            (WrapInfo:=WrapInfo) error sched1 pf = Panic
          <-> pathParameters (DataMap:=DataMap) (LSecret:=LSecret) (LAuth:=LAuth)
                (WrapInfo:=WrapInfo) error sched2 pf = Panic) as Hpp
    by (by rewrite !pathParameters_panics).
  pose proof (parameters_perm pf) as Hperm.
  destruct (pathParameters error sched1 pf) as [ps1| |] eqn:H1;
    [|by destruct (Hnf1 e)|].
  2:{ rewrite (proj1 Hpp eq_refl). exact I. }
  destruct (pathParameters error sched2 pf) as [ps2| |] eqn:H2;
    [|by destruct (Hnf2 e)|].
  2:{ discriminate (proj2 Hpp eq_refl). }
  specialize (Hperm ps1 ps2 eq_refl eq_refl).
  cbn [mbind result_bind].
  change (startItem p sudo unauth path ps2)
    with (withParameters (sortSlice parameterLess ps2)
            (startItem p sudo unauth path ps1)).
  rewrite loop_withParameters.
  assert (agree
            (forRange (rangeOps sched1 (resolveOperations PathOperation p))
               (operationStep Decode Properties sched1
                  (resolveOperations PathOperation p) bf bt)
               (startItem p sudo unauth path ps1))
            (forRange (rangeOps sched2 (resolveOperations PathOperation p))
               (operationStep Decode Properties sched2
                  (resolveOperations PathOperation p) bf bt)
               (startItem p sudo unauth path ps1))) as Hag.
  { eapply agree_trans.
    - apply (loop_perm Decode Properties sched1 _ bf bt _
               (rangeOps sched2 (resolveOperations PathOperation p)));
        [apply rangeOps_perm|apply rangeOps_perm|done].
    - apply forRange_agree. intros s e _. by apply operationStep_any_order. }
  destruct (forRange (rangeOps sched1 _) _ _) as [pi1| |] eqn:Hl1,
    (forRange (rangeOps sched2 _) _ _) as [pi2| |]; simpl in Hag; try done.
  subst pi2. cbn [mbind result_bind agreeUpTo].
  apply loop_sameHead in Hl1 as (_ & Hparams & _). simpl in Hparams.
  unfold sameButOrder. simpl.
  do 7 (split; [done|]).
  rewrite Hparams. by rewrite !sortSlice_perm.
Qed.

Lemma setPath_sameButOrders (d1 d2 : document) key (pi1 pi2 : pathItem) :
  sameButOrders d1 d2 -> sameButOrder pi1 pi2 ->
  sameButOrders (setPath d1 key pi1) (setPath d2 key pi2).
Proof.
  intros (Hv & Hi & Hp) Hpi. split; [done|]. split; [done|].
  intros key'. simpl. destruct (decide (key' = key)) as [->|Hne].
  - rewrite !lookup_insert_eq. by constructor.
  - rewrite !lookup_insert_ne by done. apply Hp.
Qed.

Lemma pathsLoop_any_orders p sudo unauth bt paths (d1 d2 : document) :
  sameButOrders d1 d2 ->
  agree (pathsLoop Decode Properties PathOperation sched1 p sudo unauth bt paths d1).1
        (pathsLoop Decode Properties PathOperation sched2 p sudo unauth bt paths d2).1
  /\ sameButOrders
       (pathsLoop Decode Properties PathOperation sched1 p sudo unauth bt paths d1).2
       (pathsLoop Decode Properties PathOperation sched2 p sudo unauth bt paths d2).2.
Proof.
  revert d1 d2. induction paths as [|path rest IH]; intros d1 d2 Hd; simpl; [done|].
  pose proof (pathItemFor_any_orders p sudo unauth bt path) as H0.
  destruct (pathItemFor Decode Properties PathOperation sched1 p sudo unauth bt path)
    as [pi1| |],
    (pathItemFor Decode Properties PathOperation sched2 p sudo unauth bt path)
    as [pi2| |]; simpl in H0; try done.
  apply IH. by apply setPath_sameButOrders.
Qed.

(** X24: whatever the order in which Go visits the maps (the fields, the
    verb handlers, the declared responses), [documentPath] ends in the same
    way and leaves the same paths, and each path item has the same
    description, flags and operations and the same parameters; only the
    order of the parameters can differ. When the names of the fields are
    ASCII and no two path fields of a path have names that differ in case
    only, the whole document is the same. *)
Theorem documentPath_any_order p sp bt (doc : document) :
  agree (documentPath Decode Properties PathOperation sched1 p sp bt doc).1
        (documentPath Decode Properties PathOperation sched2 p sp bt doc).1
  /\ sameButOrders
       (documentPath Decode Properties PathOperation sched1 p sp bt doc).2
       (documentPath Decode Properties PathOperation sched2 p sp bt doc).2
  /\ (asciiNames (Fields p) = true ->
      (forall path n1 n2, path ∈ expandPattern (Pattern p) ->
         is_Some (pathFieldOf (Fields p) path n1) ->
         is_Some (pathFieldOf (Fields p) path n2) ->
         ToLower n1 = ToLower n2 -> n1 = n2) ->
      (documentPath Decode Properties PathOperation sched1 p sp bt doc).2
      = (documentPath Decode Properties PathOperation sched2 p sp bt doc).2).
Proof.
  unfold documentPath.
  destruct (pathsLoop_any_orders p
              (match sp with Some sp0 => Root sp0 | None => [] end)
              (match sp with Some sp0 => Unauthenticated sp0 | None => [] end)
              bt (expandPattern (Pattern p)) doc doc (sameButOrders_refl doc))
    as [Hag Hsame].
  split; [done|]. split; [done|].
  intros _ Hcase.
  apply (pathsLoop_any_order Decode Properties PathOperation sched1 sched2).
  intros path Hpath.
  apply (pathItemFor_any_order Decode Properties PathOperation sched1 sched2).
  intros n1 n2. by apply Hcase.
Qed.

End AnyOrders.

(** *** Named parameters in a candidate path *)

Lemma indexFrom_None s sub i :
  indexFrom s sub i = None -> forall a b, s <> a ++ sub ++ b.
Proof.
  revert i. induction s as [|x s IH]; intros i H a b Heq.
  - symmetry in Heq. apply app_eq_nil in Heq as [_ Heq].
    apply app_eq_nil in Heq as [-> _]. discriminate H.
  - cbn [indexFrom] in H. destruct (HasPrefix (x :: s) sub) eqn:Hp; [done|].
    destruct a as [|y a].
    + cbn [app] in Heq. rewrite Heq, HasPrefix_app in Hp. done.
    + injection Heq as _ Heq. by apply (IH _ H a b).
Qed.

Lemma captureFree_spec t :
  captureFree t = true -> forall a b, t <> a ++ lit "?P<" ++ b.
Proof.
  unfold captureFree, Index. intros H.
  destruct (indexFrom t (lit "?P<") 0) as [i|] eqn:Hi.
  - apply Z.eqb_eq in H. lia.
  - by eapply indexFrom_None.
Qed.

(** No match of [reqdRe] starts in text without [?P<], when nothing, a
    parenthesis or, after text that does not end with a parenthesis, a
    question mark follows. *)
Lemma quiet_captureFree t z :
  captureFree t = true ->
  (z = [] \/ (exists z', z = ch "(" :: z')
   \/ (last t <> Some (ch "(") /\ exists z', z = ch "?" :: z')) ->
  quiet reqdRe t z.
Proof.
  intros Hfree Hz a1 a2 -> Hne.
  apply matchAt_reqdRe_None.
  destruct (reqdAt (a2 ++ z)) as [[name rest]|] eqn:Hat; [|done].
  exfalso.
  apply reqdAt_inv in Hat as (_ & _ & pre & t' & Hpre & Heq).
  pose proof (captureFree_spec _ Hfree) as Hno.
  unfold keyText in Heq.
  assert (forall a2', a2 <> lit "?P<" ++ a2') as H0.
  { intros a2' ->. by apply (Hno a1 a2'). }
  assert (forall a2', a2 <> ch "(" :: lit "?P<" ++ a2') as H1.
  { intros a2' ->. by apply (Hno (a1 ++ [ch "("]) a2'); rewrite <- app_assoc. }
  assert (a2 = [ch "("] -> ~ exists z', z = ch "?" :: z') as H2.
  { intros -> [z' ->]. destruct Hz as [?|[[? ?]|[Hl _]]]; [done|done|].
    apply Hl. by rewrite last_snoc. }
  destruct Hpre as [-> | ->]; cbn [app] in Heq.
  - destruct a2 as [|x1 [|x2 [|x3 a2]]]; [done|..]; cbn [app] in Heq.
    + destruct Hz as [->|[[z' ->]|[_ [z' ->]]]]; [done|..]; cbn [app] in Heq; done.
    + destruct Hz as [->|[[z' ->]|[_ [z' ->]]]]; [done|..]; cbn [app] in Heq; done.
    + injection Heq as -> -> -> _. by apply (H0 a2).
  - destruct a2 as [|x1 [|x2 [|x3 [|x4 a2]]]]; [done|..]; cbn [app] in Heq.
    + injection Heq as -> Heq. apply H2; [done|]. by eexists.
    + destruct Hz as [->|[[z' ->]|[_ [z' ->]]]]; [done|..]; cbn [app] in Heq; done.
    + destruct Hz as [->|[[z' ->]|[_ [z' ->]]]]; [done|..]; cbn [app] in Heq; done.
    + injection Heq as -> -> -> -> _. by apply (H1 a2).
Qed.

Lemma find_captureFree t : captureFree t = true -> find reqdRe t = None.
Proof.
  intros Hfree. destruct (find reqdRe t) as [f|] eqn:Hf; [|done]. exfalso.
  destruct (find_spec reqdRe matchAt_reqdRe_suffix t f Hf) as (Heq & Hm & _).
  pose proof (quiet_captureFree t [] Hfree (or_introl eq_refl)) as Hq.
  assert (whole f ++ after f <> []) as Hne.
  { intros Hnil. rewrite Hnil in Hm. apply app_eq_nil in Hnil as [_ Ha].
    rewrite Ha in Hm. by apply matchAt_reqdRe_nonempty in Hm. }
  specialize (Hq (before f) (whole f ++ after f) Heq Hne).
  rewrite app_nil_r in Hq. congruence.
Qed.

Lemma skipClass_all p w : forallb p w = true -> skipClass p w = [].
Proof.
  induction w as [|x w IH]; [done|]. cbn [forallb skipClass]. intros H.
  apply andb_true_iff in H as [-> H]. by apply IH.
Qed.

Lemma reqdBody_capture name body (closed : bool) z :
  wordName name = true -> closedBody body = true ->
  (closed = true \/ z = []) ->
  reqdBody (keyText name ++ body ++ (if closed then lit ")" else []) ++ z)
  = Some (name, z).
Proof.
  intros Hn Hb Hz. apply wordName_inv in Hn as [Hne Hw].
  unfold keyText. cbn [app]. rewrite <- app_assoc. cbn [app].
  unfold reqdBody. rewrite !Ascii.eqb_refl. cbn [andb].
  rewrite takeClass_stop, skipClass_stop by done.
  destruct name as [|n0 name]; [done|].
  rewrite Ascii.eqb_refl.
  destruct closed.
  - change (lit ")" ++ z) with (ch ")" :: z).
    rewrite skipClass_stop; [by rewrite Ascii.eqb_refl|exact Hb|reflexivity].
  - destruct Hz as [?| ->]; [done|]. cbn [app]. rewrite app_nil_r.
    by rewrite skipClass_all.
Qed.

Lemma reqdAt_capture c z :
  wordName (capName c) = true -> closedBody (capBody c) = true ->
  (capClosed c = true \/ z = []) ->
  reqdAt (captureText c ++ z) = Some (capName c, z).
Proof.
  intros Hn Hb Hz. unfold captureText. rewrite <- !app_assoc.
  pose proof (reqdBody_capture _ _ _ z Hn Hb Hz) as Hbody.
  destruct (capOpened c).
  - change (lit "(" ++ ?s) with (ch "(" :: s). unfold reqdAt.
    rewrite Ascii.eqb_refl. by rewrite Hbody.
  - cbn [app]. unfold reqdAt, keyText in *. cbn [app] in *.
    change (Ascii.eqb (ch "?") (ch "(")) with false. cbv iota. exact Hbody.
Qed.

Lemma captureText_head c :
  exists z', captureText c = (if capOpened c then ch "(" else ch "?") :: z'.
Proof. unfold captureText, keyText. destruct (capOpened c); by eexists. Qed.

(** The matches of [reqdRe] in such a path are its named parameters. *)
Lemma allMatches_captures segs : forall fuel pre tail adj,
  length (withCaptures segs tail) < fuel ->
  wellFormed segs tail = true ->
  flat_map (fun f => before f ++ lit "{" ++ cap 1 (groups f) ++ lit "}")
    (allMatches reqdRe fuel pre (withCaptures segs tail) adj).1
    ++ (allMatches reqdRe fuel pre (withCaptures segs tail) adj).2
  = pre ++ withPlaceholders id segs tail.
Proof.
  induction segs as [|c segs IH]; intros fuel pre tail adj Hlen Hwf.
  - destruct fuel as [|fuel]; [simpl in Hlen; lia|].
    rewrite (allMatches_step reqdRe matchAt_reqdRe_suffix matchAt_reqdRe_nonempty).
    cbn [withCaptures withPlaceholders wellFormed] in *.
    by rewrite (find_captureFree tail Hwf).
  - destruct fuel as [|fuel]; [simpl in Hlen; lia|].
    cbn [wellFormed] in Hwf.
    apply andb_true_iff in Hwf as [Hwf Hrest].
    apply andb_true_iff in Hwf as [Hwf Hcl].
    apply andb_true_iff in Hwf as [Hwf Hb].
    apply andb_true_iff in Hwf as [Hwf Hn].
    apply andb_true_iff in Hwf as [Ht Hop].
    cbn [withCaptures withPlaceholders] in *.
    assert (capClosed c = true \/ withCaptures segs tail = []) as Hz.
    { apply orb_true_iff in Hcl as [?|Hnil]; [by left|right].
      by apply bool_decide_eq_true in Hnil. }
    rewrite (allMatches_step reqdRe matchAt_reqdRe_suffix matchAt_reqdRe_nonempty).
    rewrite (find_skip reqdRe (capBefore c) _ (withCaptures segs tail)
               [(1, capName c)]).
    + cbn [after before groups whole].
      replace (length (captureText c ++ withCaptures segs tail)
               - length (withCaptures segs tail))
        with (length (captureText c)) by (rewrite length_app; lia).
      rewrite take_app_length.
      specialize (IH fuel [] tail true).
      destruct (allMatches reqdRe fuel [] (withCaptures segs tail) true)
        as [ms tl] eqn:Hrest'.
      cbn [fst snd] in *. cbn [flat_map before groups cap Nat.eqb].
      rewrite <- !app_assoc.
      rewrite IH; [| |done].
      * unfold braces, id. by rewrite <- !app_assoc.
      * destruct (captureText_head c) as [z' Hc]. rewrite Hc in Hlen.
        rewrite !length_app in Hlen. simpl in Hlen. lia.
    + apply quiet_captureFree; [done|]. right.
      destruct (captureText_head c) as [z' Hc]. rewrite Hc.
      apply orb_true_iff in Hop as [Hop|Hop].
      * rewrite Hop. left. by eexists.
      * destruct (capOpened c); [left; by eexists|right].
        apply negb_true_iff, bool_decide_eq_false in Hop. split; [done|by eexists].
    + by rewrite matchAt_reqdRe, reqdAt_capture.
Qed.

(** The loop of [replaceNamed] puts the name in braces where each named
    parameter stands. *)
Lemma replaceNamed_captures segs tail :
  wellFormed segs tail = true ->
  replaceNamed (withCaptures segs tail) = withPlaceholders id segs tail.
Proof.
  intros Hwf.
  rewrite replaceNamed_rewriteCaptures. unfold rewriteCaptures, matches.
  pose proof (allMatches_captures segs (S (length (withCaptures segs tail))) []
                tail false ltac:(lia) Hwf) as H.
  by destruct (allMatches reqdRe _ [] (withCaptures segs tail) false).
Qed.

(** *** The cleaning of a path with placeholders *)

Lemma find_quiet r a z :
  quiet r a z ->
  find r (a ++ z)
  = match find r z with
    | Some f => Some (Found (a ++ before f) (whole f) (groups f) (after f))
    | None => None
    end.
Proof.
  induction a as [|x a IH]; intros Hq.
  - cbn [app]. by destruct (find r z) as [[? ? ? ?]|].
  - cbn [app find].
    pose proof (Hq [] (x :: a) eq_refl ltac:(done)) as H0. cbn [app] in H0.
    rewrite H0, IH.
    + by destruct (find r z).
    + intros a1 a2 -> Hne. by apply (Hq (x :: a1) a2).
Qed.

Lemma cleanSuffixRe_suffix s rest c :
  matchAt cleanSuffixRe s = Some (rest, c) -> exists m, s = m ++ rest.
Proof. apply cleanSuffixRe_facts. Qed.

Lemma cleanSuffixRe_nonempty s c : matchAt cleanSuffixRe s <> Some (s, c).
Proof. apply cleanSuffixRe_facts. Qed.

(** The suffix that the cleaning strips lies after the last character that
    is none of [/], [?] and [$]. *)
Lemma replaceSuffix_after X x tail :
  suffixChar x = false ->
  ReplaceAllString cleanSuffixRe ((X ++ [x]) ++ tail) []
  = (X ++ [x]) ++ ReplaceAllString cleanSuffixRe tail [].
Proof.
  intros Hx.
  assert (quiet cleanSuffixRe (X ++ [x]) tail) as Hq.
  { intros a1 a2 Heq Hne.
    destruct (matchAt cleanSuffixRe (a2 ++ tail)) as [[rest c]|] eqn:Hm; [|done].
    exfalso. apply cleanSuffixRe_match in Hm as [_ Hm].
    assert (x ∈ a2 ++ tail) as Hin.
    { apply elem_of_app. left.
      destruct (exists_last Hne) as (a2' & y & ->).
      rewrite app_assoc in Heq. apply app_inj_tail in Heq as [_ ->].
      apply elem_of_app. right. by left. }
    destruct Hm as [Hm|Hm]; rewrite Hm in Hin;
      repeat (apply elem_of_cons in Hin as [->|Hin]; [discriminate Hx|]);
      by apply elem_of_nil in Hin. }
  unfold ReplaceAllString, matches.
  rewrite !(allMatches_step cleanSuffixRe cleanSuffixRe_suffix cleanSuffixRe_nonempty).
  rewrite (find_quiet _ _ _ Hq).
  destruct (find cleanSuffixRe tail) as [f|] eqn:Hf; [|done].
  destruct (find_spec cleanSuffixRe cleanSuffixRe_suffix tail f Hf) as (Heq & Hm & _).
  apply cleanSuffixRe_match in Hm as [Hafter _].
  cbn [after before whole groups]. rewrite Hafter.
  assert (forall fuel, allMatches cleanSuffixRe fuel [] [] true = ([], [])) as Hend.
  { intros [|fuel]; reflexivity. }
  rewrite !Hend. cbn [flat_map app]. by rewrite !app_nil_r, <- !app_assoc.
Qed.

Lemma placeholders_last clean c segs :
  exists X, forall tail,
    withPlaceholders clean (c :: segs) tail = (X ++ [ch "}"]) ++ tail.
Proof.
  revert c. induction segs as [|c' segs IH]; intros c.
  - exists (clean (capBefore c) ++ lit "{" ++ capName c). intros tail.
    cbn [withPlaceholders]. unfold braces. change (lit "}") with [ch "}"].
    by rewrite <- !app_assoc.
  - destruct (IH c') as (X & H).
    exists (clean (capBefore c) ++ braces (capName c) ++ X). intros tail.
    cbn [withPlaceholders] in *. rewrite H. by rewrite <- !app_assoc.
Qed.

Lemma replaceSuffix_placeholders clean segs tail :
  ReplaceAllString cleanSuffixRe (withPlaceholders clean segs tail) []
  = withPlaceholders clean segs (ReplaceAllString cleanSuffixRe tail []).
Proof.
  destruct segs as [|c segs]; [done|].
  destruct (placeholders_last clean c segs) as (X & H).
  rewrite !H. by apply replaceSuffix_after.
Qed.

Lemma stripped_app a b : stripped (a ++ b) = stripped a ++ stripped b.
Proof.
  unfold stripped, cleanCharsRe. rewrite !ReplaceAllString_Class.
  apply List.filter_app.
Qed.

Lemma stripped_braces name :
  forallb isWord name = true -> stripped (braces name) = braces name.
Proof.
  intros Hw. unfold stripped, cleanCharsRe. rewrite ReplaceAllString_Class.
  unfold braces. rewrite !List.filter_app.
  change (List.filter _ (lit "{")) with (lit "{").
  change (List.filter _ (lit "}")) with (lit "}").
  do 2 f_equal.
  apply filter_keep. rewrite forallb_forall in Hw. rewrite forallb_forall.
  intros x Hx. by rewrite (isWord_clean x (Hw x Hx)).
Qed.

Lemma wellFormed_names segs tail :
  wellFormed segs tail = true ->
  forall c, c ∈ segs -> forallb isWord (capName c) = true.
Proof.
  induction segs as [|c0 segs IH]; intros Hwf c Hc.
  - by apply elem_of_nil in Hc.
  - cbn [wellFormed] in Hwf.
    apply andb_true_iff in Hwf as [Hwf Hrest].
    apply andb_true_iff in Hwf as [Hwf _].
    apply andb_true_iff in Hwf as [Hwf _].
    apply andb_true_iff in Hwf as [_ Hn].
    apply elem_of_cons in Hc as [->|Hc]; [|by apply IH].
    by apply wordName_inv in Hn as [_ Hn].
Qed.

Lemma stripped_placeholders segs tail :
  (forall c, c ∈ segs -> forallb isWord (capName c) = true) ->
  stripped (withPlaceholders id segs tail)
  = withPlaceholders stripped segs (stripped tail).
Proof.
  intros Hw. induction segs as [|c segs IH]; [reflexivity|].
  cbn [withPlaceholders]. unfold id at 1.
  rewrite !stripped_app, (stripped_braces _ (Hw c ltac:(by left))).
  rewrite IH; [done|]. intros c' Hc'. apply Hw. by right.
Qed.

(** The cleaning leaves the placeholders where they are. *)
Lemma cleanPath_placeholders segs tail :
  (forall c, c ∈ segs -> forallb isWord (capName c) = true) ->
  cleanPath (withPlaceholders id segs tail)
  = withPlaceholders stripped segs (cleanPath tail).
Proof.
  intros Hw. unfold cleanPath.
  rewrite replaceSuffix_placeholders.
  exact (stripped_placeholders segs _ Hw).
Qed.

(** C6, as the specification states it, fails in three ways. The pattern
    ["tools/hash(/(?P<urlalgorithm>.+))?"] holds a named parameter, and one
    of its two paths, ["tools/hash"], holds no placeholder for it: the
    optional group that holds the parameter is left out of that path. Of a
    parameter whose body holds a closing parenthesis, as in
    ["(?P<n>[^)]+)/z"], only the text up to that parenthesis is replaced,
    and the rest of the body stays in the path. And a parameter inside the
    body of another one, as in ["(?P<m>x(?P<n>y))"], is replaced together
    with the outer one: the path holds [{m}] and no [{n}]. *)
Lemma captures_not_rewritten :
  (exists f,
     f ∈ (matches reqdRe (lit "tools/hash(/(?P<urlalgorithm>.+))?")).1
     /\ cap 1 (groups f) = lit "urlalgorithm")
  /\ ~ (forall path,
          path ∈ expandPattern (lit "tools/hash(/(?P<urlalgorithm>.+))?") ->
          exists a b, path = a ++ lit "{urlalgorithm}" ++ b)
  /\ expandPattern (lit "tools/hash(/(?P<urlalgorithm>.+))?")
     = [lit "tools/hash/{urlalgorithm}"; lit "tools/hash"]
  /\ expandPattern (lit "(?P<n>[^)]+)/z") = [lit "{n}]+/z"]
  /\ expandPattern (lit "(?P<m>x(?P<n>y))") = [lit "{m}"].
Proof.
  split; [|split; [|split; [|split]]]; try (vm_compute; reflexivity).
  - eexists. split; [vm_compute; left|]. reflexivity.
  - intros H.
    destruct (H (lit "tools/hash")) as (a & b & Heq).
    + vm_compute. right. left.
    + apply (f_equal length) in Heq. rewrite !length_app in Heq.
      change (length (lit "tools/hash")) with 10 in Heq.
      change (length (lit "{urlalgorithm}")) with 14 in Heq. lia.
Qed.

(** C6 (amended): take any candidate path of a pattern, that is a path as
    [expandPattern] holds it when the loop over the optional elements is
    left. When the candidate is made of named parameters [(?P<name>body)],
    each with a name of word characters and a body without a closing
    parenthesis, and of text around them that holds no [?P<], the path
    returned for that candidate is the candidate with [{name}] in the place
    of every named parameter, also when the same parameter text stands there
    more than once, and with the text around them cleaned: without the
    characters [()^$?] and without the suffix [/?] or [/?$] of the path. A
    parameter may have lost its opening parenthesis to the loop over the
    optional elements, when it does not follow a parenthesis, and the last
    one its closing parenthesis, when it ends the path. *)
Theorem expandPattern_rewrites_captures pattern i segs tail :
  candidates pattern !! i = Some (withCaptures segs tail) ->
  wellFormed segs tail = true ->
  expandPattern pattern !! i
  = Some (withPlaceholders stripped segs (cleanPath tail)).
Proof.
  intros Hc Hwf.
  change (expandPattern pattern)
    with ((fun c => cleanPath (replaceNamed c)) <$> candidates pattern).
  rewrite list_lookup_fmap, Hc. cbn [fmap option_fmap option_map]. f_equal.
  rewrite (replaceNamed_captures segs tail Hwf).
  apply cleanPath_placeholders. by eapply wellFormed_names.
Qed.

(** *** The properties on sample inputs *)

Lemma cleanString_normal_form_witness :
  trimmed (cleanString (lit "  a   b "))
  /\ (forall x, x ∈ cleanString (lit "  a   b ") -> isTrimSpace x = true ->
        x = ch " " \/ x = verticalTab)
  /\ (forall a b, cleanString (lit "  a   b ") <> a ++ lit "  " ++ b).
Proof. apply (cleanString_normal_form (lit "  a   b ")). reflexivity. Defined.

Lemma cleanString_idempotent_witness :
  cleanString (cleanString (lit "  a   b ")) = cleanString (lit "  a   b ").
Proof. apply (cleanString_idempotent (lit "  a   b ")). reflexivity. Defined.

Lemma cleanString_empty_witness :
  cleanString (lit "   ") = [] <-> forallb isTrimSpace (lit "   ") = true.
Proof. apply (cleanString_empty (lit "   ")). reflexivity. Defined.

Lemma expandPattern_no_regex_chars_witness : oneOf (lit "()^$?") (ch "r") = false.
Proof.
  apply (expandPattern_no_regex_chars (lit "(leases/)?renew") (lit "renew") (ch "r")).
  - vm_compute. right. left.
  - left.
Defined.

Lemma expandPattern_single_witness :
  expandPattern (lit "keys/(?P<name>\w+)")
  = [cleanPath (replaceNamed (lit "keys/(?P<name>\w+)"))]
  /\ length (expandPattern (lit "keys/(?P<name>\w+)")) = 1.
Proof.
  apply (expandPattern_single (lit "keys/(?P<name>\w+)")).
  - intros H. vm_compute in H. repeat (apply elem_of_cons in H as [H|H]; [discriminate H|]).
    by apply elem_of_nil in H.
  - apply (no_optional_mark (lit "keys/(?P<name>\w+") []).
    + intros H. repeat (apply elem_of_cons in H as [H|H]; [discriminate H|]).
      by apply elem_of_nil in H.
    + apply not_elem_of_nil.
    + intros v' H. discriminate H.
Defined.

Lemma expandPattern_plain_witness :
  expandPattern (lit "sys/health") = [lit "sys/health"].
Proof. apply (expandPattern_plain (lit "sys/health")). reflexivity. Defined.

Lemma expandPattern_optional_element_witness :
  expandPattern (lit "" ++ lit "(" ++ lit "leases/" ++ lit ")?" ++ lit "renew")
  = [lit "" ++ lit "leases/" ++ lit "renew"; lit "" ++ lit "renew"].
Proof.
  apply (expandPattern_optional_element (lit "") (lit "leases/") (lit "renew"));
    reflexivity.
Defined.

Lemma expandPattern_halves_witness :
  expandPattern (lit "x/" ++ lit "(" ++ lit "a" ++ lit "|" ++ lit "b" ++ lit ")" ++ lit "/y")
  = [lit "a"; lit "b"].
Proof.
  apply (expandPattern_halves (lit "x/") (lit "a") (lit "b") (lit "/y"));
    reflexivity.
Defined.

Lemma expandPattern_named_parameter_witness :
  expandPattern (lit "roles/" ++ namedParameter (lit "name") (lit ".+") ++ lit "/creds")
  = [lit "roles/" ++ braces (lit "name") ++ lit "/creds"].
Proof.
  apply (expandPattern_named_parameter (lit "roles/") (lit "name") (lit ".+")
           (lit "/creds")); reflexivity.
Defined.

Lemma expandPattern_generic_name_witness :
  expandPattern (lit "roles/" ++ GenericNameRegex (lit "name") ++ lit "/creds")
  = [lit "roles/" ++ braces (lit "name") ++ lit "/creds"].
Proof.
  apply (expandPattern_generic_name (lit "roles/") (lit "name") (lit "/creds"));
    reflexivity.
Defined.

Lemma splitFields_partition_witness :
  (forall n, Fields Sample.zetaAlphaRoute !! n
             = pathFieldOf (Fields Sample.zetaAlphaRoute) (lit "x/{Zeta}/{alpha}") n)
  /\ (forall n, (∅ : gmap gostring (option FieldSchema)) !! n
                = bodyFieldOf (Fields Sample.zetaAlphaRoute) (lit "x/{Zeta}/{alpha}") n)
  /\ (forall n, is_Some (Fields Sample.zetaAlphaRoute !! n) ->
        is_Some (Fields Sample.zetaAlphaRoute !! n)
        <-> (∅ : gmap gostring (option FieldSchema)) !! n = None)
  /\ (forall n, is_Some ((∅ : gmap gostring (option FieldSchema)) !! n) ->
        (∅ : gmap gostring (option FieldSchema)) !! n
        = Fields Sample.zetaAlphaRoute !! n).
Proof.
  apply (splitFields_partition (error:=gostring) Sample.keyOrder
           (Fields Sample.zetaAlphaRoute) (lit "x/{Zeta}/{alpha}")
           (Fields Sample.zetaAlphaRoute) ∅).
  vm_compute. reflexivity.
Defined.

Lemma documentPath_item_head_witness :
  exists pi,
    dPaths (documentPath Sample.Decode Sample.Properties Sample.PathOperation
              Sample.keyOrder Sample2.synopsisRoute (Some Sample2.specialPaths)
              TypeLogical Sample.emptyDoc).2
      !! (lit "/" ++ lit "sys/config") = Some pi
    /\ piDescription pi = cleanString (HelpSynopsis Sample2.synopsisRoute)
    /\ piSudo pi
       = specialPathMatch (lit "sys/config") (sudoPathsOf (Some Sample2.specialPaths))
    /\ piUnauthenticated pi
       = specialPathMatch (lit "sys/config")
           (unauthPathsOf (Some Sample2.specialPaths))
    /\ (Some Sample2.specialPaths = None ->
        piSudo pi = false /\ piUnauthenticated pi = false)
    /\ piCreateSupported pi
       = createPublished Sample.Properties
           (resolveOperations Sample.PathOperation Sample2.synopsisRoute).
Proof.
  apply (documentPath_item_head Sample.Decode Sample.Properties Sample.PathOperation
           Sample.keyOrder Sample2.synopsisRoute (Some Sample2.specialPaths)
           TypeLogical Sample.emptyDoc
           (documentPath Sample.Decode Sample.Properties Sample.PathOperation
              Sample.keyOrder Sample2.synopsisRoute (Some Sample2.specialPaths)
              TypeLogical Sample.emptyDoc).2 (lit "sys/config")).
  - reflexivity.
  - vm_compute. reflexivity.
  - vm_compute. left.
Defined.

Lemma documentPaths_keys_witness :
  let doc' := (Sample2.docs Sample.backend Sample.emptyDoc).2 in
  dVersion doc' = dVersion Sample.emptyDoc /\ dInfo doc' = dInfo Sample.emptyDoc
  /\ (forall key, is_Some (dPaths Sample.emptyDoc !! key) -> is_Some (dPaths doc' !! key))
  /\ (forall key, is_Some (dPaths doc' !! key) ->
        is_Some (dPaths Sample.emptyDoc !! key)
        \/ exists p path,
             p ∈ bPaths Sample.backend /\ path ∈ expandPattern (Pattern p)
             /\ key = lit "/" ++ path)
  /\ ((Sample2.docs Sample.backend Sample.emptyDoc).1 = Ok () ->
      forall p path, p ∈ bPaths Sample.backend -> path ∈ expandPattern (Pattern p) ->
        is_Some (dPaths doc' !! (lit "/" ++ path))).
Proof.
  apply (documentPaths_keys Sample.Decode Sample.Properties Sample.PathOperation
           Sample.keyOrder Sample.backend Sample.emptyDoc
           (Sample2.docs Sample.backend Sample.emptyDoc).2
           (Sample2.docs Sample.backend Sample.emptyDoc).1).
  unfold Sample2.docs. by destruct (documentPaths _ _ _ _ _ _).
Defined.

Lemma documentPaths_fresh_witness :
  let doc' := (Sample2.docs Sample2.okBackend (NewOASDocument (lit "1.2.3"))).2 in
  dVersion doc' = lit "3.0.2"
  /\ dInfo doc' = dInfo (NewOASDocument (DataMap:=()) (LSecret:=()) (LAuth:=())
                           (WrapInfo:=()) (lit "1.2.3"))
  /\ forall key,
       is_Some (dPaths doc' !! key)
       <-> exists p path,
             p ∈ bPaths Sample2.okBackend /\ path ∈ expandPattern (Pattern p)
             /\ key = lit "/" ++ path.
Proof.
  apply (documentPaths_fresh Sample.Decode Sample.Properties Sample.PathOperation
           Sample.keyOrder Sample2.okBackend (lit "1.2.3")
           (Sample2.docs Sample2.okBackend (NewOASDocument (lit "1.2.3"))).2).
  vm_compute. reflexivity.
Defined.

Lemma documentPaths_last_route_witness :
  exists pi,
    pathItemFor Sample.Decode Sample.Properties Sample.PathOperation Sample.keyOrder
      Sample.hiddenUpdateRoute (sudoPathsOf (bSpecialPaths Sample2.sharedBackend))
      (unauthPathsOf (bSpecialPaths Sample2.sharedBackend))
      (bBackendType Sample2.sharedBackend) (lit "config") = Ok pi
    /\ dPaths (Sample2.docs Sample2.sharedBackend Sample.emptyDoc).2
         !! (lit "/" ++ lit "config") = Some pi.
Proof.
  apply (documentPaths_last_route Sample.Decode Sample.Properties Sample.PathOperation
           Sample.keyOrder Sample2.sharedBackend Sample.emptyDoc
           (Sample2.docs Sample2.sharedBackend Sample.emptyDoc).2
           [Sample.createUpdateRoute] Sample.hiddenUpdateRoute [] (lit "config")).
  - vm_compute. reflexivity.
  - reflexivity.
  - vm_compute. left.
  - intros q Hq. by apply elem_of_nil in Hq.
Defined.

Lemma documentPath_parameters_witness :
  exists pi pf bf,
    dPaths (Sample.run Sample.keyOrder Sample2.describedRoute).2
      !! (lit "/" ++ lit "roles/{name}") = Some pi
    /\ splitFields gostring Sample.keyOrder (Fields Sample2.describedRoute)
         (lit "roles/{name}") = Ok (pf, bf)
    /\ pName <$> piParameters pi ≡ₚ (map_to_list pf).*1
    /\ forall param, param ∈ piParameters pi ->
         exists f, pf !! pName param = Some (Some f)
                   /\ param = parameterOf (pName param) f.
Proof.
  apply (documentPath_parameters Sample.Decode Sample.Properties Sample.PathOperation
           Sample.keyOrder Sample2.describedRoute None TypeLogical Sample.emptyDoc
           (Sample.run Sample.keyOrder Sample2.describedRoute).2
           (lit "roles/{name}")).
  - reflexivity.
  - vm_compute. reflexivity.
  - vm_compute. left.
Defined.

Lemma documentPath_operation_shape_witness :
  exists pi,
    dPaths (Sample.run Sample.keyOrder Sample.listReadRoute).2
      !! (lit "/" ++ lit "keys") = Some pi
    /\ forall s op, slotOf s pi = Some op ->
         opTags op = tagsOf TypeLogical
         /\ (s <> SPost -> opRequestBody op = None)
         /\ (s <> SGet -> opParameters op = []).
Proof.
  apply (documentPath_operation_shape Sample.Decode Sample.Properties
           Sample.PathOperation Sample.keyOrder Sample.listReadRoute None TypeLogical
           Sample.emptyDoc (Sample.run Sample.keyOrder Sample.listReadRoute).2
           (lit "keys")).
  - vm_compute. reflexivity.
  - vm_compute. left.
Defined.

Lemma documentPath_request_body_witness :
  exists pi pf bf op,
    dPaths (Sample.run Sample.keyOrder Sample.createUpdateRoute).2
      !! (lit "/" ++ lit "config") = Some pi
    /\ splitFields gostring Sample.keyOrder (Fields Sample.createUpdateRoute)
         (lit "config") = Ok (pf, bf)
    /\ piPost pi = Some op
    /\ (opRequestBody op = None
        <-> bf = ∅
            /\ propExamples (Sample.Properties (Sample.handler "update it" false)) = [])
    /\ forall rb, opRequestBody op = Some rb ->
         rbDescription rb = []
         /\ rbContent rb
            = {[ lit "application/json" :=
                   {| mtSchema :=
                        Some (bodySchema bf
                                (Sample.Properties (Sample.handler "update it" false))) |} ]}.
Proof.
  apply (documentPath_request_body Sample.Decode Sample.Properties
           Sample.PathOperation Sample.keyOrder Sample.createUpdateRoute None
           TypeLogical Sample.emptyDoc
           (Sample.run Sample.keyOrder Sample.createUpdateRoute).2 (lit "config")
           UpdateOperation (Sample.handler "update it" false)).
  - vm_compute. reflexivity.
  - vm_compute. left.
  - vm_compute. reflexivity.
Defined.

Lemma documentPath_responses_witness :
  exists pi op,
    dPaths (Sample.run Sample.keyOrder Sample2.exampleRoute).2
      !! (lit "/" ++ lit "status") = Some pi
    /\ slotOf SGet pi = Some op
    /\ (forall code rs,
          propResponses (Sample.Properties (Sample.handlerWithExample "read it" true))
            !! code = Some rs ->
          exists d c, responseGroup Sample.Decode rs = Ok (d, c)
                      /\ opResponses op !! code
                         = Some {| rDescription := d; rContent := c |})
    /\ (propResponses (Sample.Properties (Sample.handlerWithExample "read it" true)) = ∅ ->
        opResponses op
        = if bool_decide (ReadOperation = DeleteOperation)
          then {[ lit "204" := oasStdRespNoContent ]}
          else {[ lit "200" := oasStdRespOK ]})
    /\ (propResponses (Sample.Properties (Sample.handlerWithExample "read it" true)) <> ∅ ->
        forall code,
          propResponses (Sample.Properties (Sample.handlerWithExample "read it" true))
            !! code = None ->
          opResponses op !! code = None).
Proof.
  apply (documentPath_responses Sample.Decode Sample.Properties
           Sample.PathOperation Sample.keyOrder Sample2.exampleRoute None
           TypeLogical Sample.emptyDoc
           (Sample.run Sample.keyOrder Sample2.exampleRoute).2 (lit "status")
           SGet ReadOperation (Sample.handlerWithExample "read it" true)).
  - vm_compute. reflexivity.
  - vm_compute. left.
  - vm_compute. reflexivity.
Defined.

Lemma responseGroup_first_wins_witness :
  lit "OK" = respDescription Sample2.exampleResponse
  /\ forall mt,
       match List.find (exampleFor mt)
               [Sample2.exampleResponse; Sample2.exampleResponse] with
       | Some r =>
           exists ex cr, respExample r = Some ex /\ Sample.Decode ex = inl cr
                         /\ Sample2.exampleContent !! mt = Some (exampleObject cr)
       | None => Sample2.exampleContent !! mt = None
       end.
Proof.
  apply (responseGroup_first_wins Sample.Decode
           [Sample2.exampleResponse; Sample2.exampleResponse]
           (lit "OK") Sample2.exampleContent).
  vm_compute. reflexivity.
Defined.

(** The path fields of the sample route, [Zeta] and [alpha], do not tie. *)
Lemma zetaAlpha_names path n1 n2 :
  path ∈ expandPattern (Pattern Sample.zetaAlphaRoute) ->
  is_Some (pathFieldOf (Fields Sample.zetaAlphaRoute) path n1) ->
  is_Some (pathFieldOf (Fields Sample.zetaAlphaRoute) path n2) ->
  ToLower n1 = ToLower n2 -> n1 = n2.
Proof.
  intros Hpath.
  replace (expandPattern (Pattern Sample.zetaAlphaRoute))
    with [lit "x/{Zeta}/{alpha}"] in Hpath by (vm_compute; reflexivity).
  apply list_elem_of_singleton in Hpath as ->.
  assert (forall n, is_Some (pathFieldOf (Fields Sample.zetaAlphaRoute)
                               (lit "x/{Zeta}/{alpha}") n) ->
                    n = lit "Zeta" \/ n = lit "alpha") as Hnames.
  { intros n. unfold pathFieldOf.
    replace (placeholders (lit "x/{Zeta}/{alpha}")) with [lit "Zeta"; lit "alpha"]
      by (vm_compute; reflexivity).
    destruct (decide (n ∈ [lit "Zeta"; lit "alpha"])) as [Hin|Hno].
    - intros _. apply elem_of_cons in Hin as [->|Hin]; [by left|].
      apply list_elem_of_singleton in Hin as ->. by right.
    - rewrite (bool_decide_eq_false_2 _ Hno).
      destruct (Fields Sample.zetaAlphaRoute !! n) as [[f|]|] eqn:Hn;
        try (by intros [? ?]).
      exfalso. apply Hno. unfold Sample.zetaAlphaRoute, Sample.route in Hn.
      simpl in Hn. apply lookup_insert_Some in Hn as [[<- _]|[_ Hn]]; [by left|].
      apply lookup_singleton_Some in Hn as [<- _]. right. by left. }
  intros H1 H2 Hlow.
  destruct (Hnames n1 H1) as [-> | ->], (Hnames n2 H2) as [-> | ->]; try done;
    vm_compute in Hlow; discriminate Hlow.
Qed.

Lemma documentPath_any_order_witness :
  agree (Sample.run Sample.keyOrder Sample.zetaAlphaRoute).1
        (Sample.run Sample2.reverseAll Sample.zetaAlphaRoute).1
  /\ sameButOrders (Sample.run Sample.keyOrder Sample.zetaAlphaRoute).2
       (Sample.run Sample2.reverseAll Sample.zetaAlphaRoute).2
  /\ (Sample.run Sample.keyOrder Sample.zetaAlphaRoute).2
     = (Sample.run Sample2.reverseAll Sample.zetaAlphaRoute).2.
Proof.
  destruct (documentPath_any_order Sample.Decode Sample.Properties
              Sample.PathOperation Sample.keyOrder Sample2.reverseAll
              Sample.zetaAlphaRoute None TypeLogical Sample.emptyDoc)
    as (Hag & Hsame & Heq).
  split; [exact Hag|]. split; [exact Hsame|].
  apply Heq; [reflexivity|]. apply zetaAlpha_names.
Defined.

Lemma documentPath_parameters_sorted_witness :
  exists pi,
    dPaths (Sample.run Sample.keyOrder Sample2.describedRoute).2
      !! (lit "/" ++ lit "roles/{name}") = Some pi
    /\ StronglySorted
         (fun a b : oasParameter () () () () =>
            ltb (ToLower (pName b)) (ToLower (pName a)) = false)
         (piParameters pi).
Proof.
  apply (proj1 documentPath_parameters_sorted unit unit unit unit bool unit gostring
           Sample.Decode Sample.props Sample.Properties Sample.PathOperation
           Sample.keyOrder Sample2.describedRoute None TypeLogical Sample.emptyDoc
           (Sample.run Sample.keyOrder Sample2.describedRoute).2).
  - reflexivity.
  - vm_compute. reflexivity.
  - vm_compute. left.
Defined.

(** The pattern ["keys/(?P<name>\w+)(/(?P<name>\w+))?/?$"]: its first
    candidate path holds the same parameter text twice, and the first
    parameter has lost its opening parenthesis. *)
Lemma expandPattern_rewrites_captures_witness :
  expandPattern (lit "keys/(?P<name>\w+)(/(?P<name>\w+))?/?$") !! 0
  = Some (lit "keys/{name}/{name}").
Proof.
  change (Some (lit "keys/{name}/{name}"))
    with (Some (withPlaceholders stripped
                  [Capture (lit "keys/") false (lit "name") (lit "\w+") true;
                   Capture (lit "(/") true (lit "name") (lit "\w+") true]
                  (cleanPath (lit "/?$")))).
  apply (expandPattern_rewrites_captures
           (lit "keys/(?P<name>\w+)(/(?P<name>\w+))?/?$") 0
           [Capture (lit "keys/") false (lit "name") (lit "\w+") true;
            Capture (lit "(/") true (lit "name") (lit "\w+") true]
           (lit "/?$")).
  - vm_compute. reflexivity.
  - reflexivity.
Defined.

Lemma tie_item (sched : Scheduler bool Sample.props) :
  exists pi,
    pathItemFor Sample.Decode Sample.Properties Sample.PathOperation sched
      Sample2.tieRoute [] [] TypeLogical (lit "t/{Ab}/{aB}") = Ok pi
    /\ pName <$> piParameters pi
       = (rangeFields sched (Fields Sample2.tieRoute)).*1.
Proof.
  remember ((rangeFields sched (Fields Sample2.tieRoute)).*1) as names eqn:Hnames.
  unfold pathItemFor.
  rewrite splitFields_all_path.
  2:{ intros n f Hn.
      match goal with
      | |- is_Some (?seed !! n) =>
          replace seed with (Fields Sample2.tieRoute)
            by (vm_compute; reflexivity)
      end.
      by rewrite Hn. }
  simpl.
  match goal with
  | |- context [pathParameters _ _ ?seed] =>
      replace seed with (Fields Sample2.tieRoute)
        by (vm_compute; reflexivity)
  end.
  assert (rangeOps sched (resolveOperations Sample.PathOperation Sample2.tieRoute)
          = []) as ->.
  { apply Permutation_nil_r. rewrite rangeOps_perm. vm_compute. reflexivity. }
  unfold pathParameters.
  pose proof (rangeFields_perm sched (Fields Sample2.tieRoute)) as Hperm.
  replace (map_to_list (Fields Sample2.tieRoute))
    with [(lit "Ab", Sample.stringField); (lit "aB", Sample.stringField)]
    in Hperm by (vm_compute; reflexivity).
  symmetry in Hperm. apply Permutation_length_2_inv in Hperm as [H | H];
    rewrite H in Hnames |- *; subst names;
    eexists; (split; [vm_compute; reflexivity|vm_compute; reflexivity]).
Qed.

(** C7: the document does depend on the order in which Go visits a map. The
    route [t/(?P<Ab>a)/(?P<aB>b)] has two path fields whose names differ in
    case only, so that neither is less than the other for [sort.Slice]: the
    call ends well and the two parameters stand in the order in which the
    fields were visited; two calls that visit them in different orders leave
    different documents. *)
Theorem documentPath_case_tie :
  (forall sched : Scheduler bool Sample.props,
     (Sample.run sched Sample2.tieRoute).1 = Ok ()
     /\ exists pi,
          dPaths (Sample.run sched Sample2.tieRoute).2 !! lit "/t/{Ab}/{aB}"
          = Some pi
          /\ pName <$> piParameters pi
             = (rangeFields sched (Fields Sample2.tieRoute)).*1)
  /\ (rangeFields Sample.keyOrder (Fields Sample2.tieRoute)).*1
     = [lit "Ab"; lit "aB"]
  /\ (rangeFields Sample2.reverseAll (Fields Sample2.tieRoute)).*1
     = [lit "aB"; lit "Ab"]
  /\ (Sample.run Sample.keyOrder Sample2.tieRoute).2
     <> (Sample.run Sample2.reverseAll Sample2.tieRoute).2.
Proof.
  split; [|split; [vm_compute; reflexivity|split; [vm_compute; reflexivity|]]].
  - intros sched. unfold Sample.run, documentPath.
    replace (expandPattern (Pattern Sample2.tieRoute))
      with [lit "t/{Ab}/{aB}"] by (vm_compute; reflexivity).
    rewrite pathsLoop_single.
    destruct (tie_item sched) as (pi & -> & Hnames).
    split; [done|]. exists pi. split; [|done].
    simpl. apply lookup_insert_eq.
  - intros Heq.
    apply (f_equal (fun d => (fun pi => pName <$> piParameters pi)
                               <$> dPaths d !! lit "/t/{Ab}/{aB}")) in Heq.
    vm_compute in Heq. discriminate Heq.
Qed.
